(* ===== verification/_CoqProject ===== *)
-Q . S2P
Prelude.v
Prog.v
GoStd.v
GoNet.v
Badger.v
Codec.v
Glob.v
Sha1.v
Keys.v
Fsm.v
FsmColl.v
FsmApply.v
FsmRead.v
FsmSpec.v
FsmLoops.v
FsmSim.v
Concrete.v
FsmRefine.v
FsmRefineColl.v
FsmProps.v
FsmTypes.v
FsmReadProps.v
FsmTtl.v
FsmLog.v
FsmReplica.v
RaftStore.v
RaftStoreProps.v
Snapshot.v
Cluster.v
Router.v
Server.v
ServerProps.v
ServerRefine.v
ServerSpec.v
ServerCmds.v
Concurrent.v
Nodes.v
ServerState.v
Lua.v
LuaProps.v
Gossip.v
Lifecycle.v
Main.v
MainProps.v
Chaos.v
