(* ===== verification/Prelude.v ===== *)
(** * Badis: a verification library

    Badis is a Redis-compatible key-value store: a RESP server (server/) parses
    the commands of clients, replicates the writes with Raft and applies them
    to a finite state machine over BadgerDB (store/), which also keeps the Raft
    log and the Lua scripts; a router (router/, config/) finds the shard that
    owns a key, and commands for other shards are proxied to their nodes.
    main.go reads the configuration, starts these parts and a gossip node
    (cluster/), asks a running node to add it to its Raft group and stops the
    parts on a signal.  The chaos tests (test/chaos/cluster.go) run a cluster of
    such programs.

    ** The files and what they model

    - [Prelude]: scopes, machine integers, the state-and-error monad [M] in
      which Go functions are written (what was written before an error stays),
      byte order, prefixes, generic lemmas.  [Prog]: programs as trees of calls,
      for code that runs while other goroutines do.
    - [GoStd], [GoNet], [Sha1]: what the source uses of Go's standard library
      (strconv, strings, time, encoding/binary; net and net/url; crypto/sha1,
      encoding/hex).  ToUpper and ToLower change ASCII letters and the code
      points whose other case is ASCII; other letters, which no command name
      has, are left alone.
    - [Badger]: BadgerDB, a parameter: the class [BadgerOps] has the calls the
      program makes and [BadgerLaws] what their documentation promises;
      [MapBadger] is an instance.  [Codec]: the msgpack codec likewise
      ([BitCodec]), with the structures that are serialized and the two
      functions of store/encoding.go.
    - [Keys]: the key spaces (userKey, typeKey, logKey, stableKey,
      getScriptKey).
    - [Glob]: redisGlobMatch of store/fsm.go and what patterns mean.
    - [Fsm], [FsmColl], [FsmApply]: the helpers of store/fsm.go, one definition
      per branch of applyCmdInTxn ([cmd_set], ..., [cmd_srem]), applyCmdInTxn
      and Apply.  [FsmRead]: the read-only methods.
    - [FsmSpec]: the abstract Redis, a map from keys to values with an expiry,
      and one function per command.  [FsmLoops], [FsmSim], [FsmRefine],
      [FsmRefineColl]: the loops of the commands, the relation [Sim] between the
      entries of the store and the abstract state, and the refinement of each
      command.
    - [FsmProps], [FsmTypes], [FsmReadProps], [FsmTtl], [FsmLog], [FsmReplica]:
      the theorems on the state machine.
    - [RaftStore], [RaftStoreProps]: store/raft_store.go against the abstract
      log, a map from indices to entries.
    - [Snapshot]: Snapshot, Persist, Release and Restore of store/fsm.go, over a
      heap in which the state machine and its snapshots share the database.
      Backup and Load are parameters ([BackupOps], [BackupLaws]).
    - [Cluster]: a Raft group as a step relation ([Shard.step]): commands are
      committed and replicas join, apply them with the code of [FsmApply], each
      on its own clock, write their Raft logs and restore snapshots of one
      another, in any order.
    - [Router]: router/router.go and config/slotmap.go.
    - [Server]: every handler of server/server.go and server/lua_handlers.go,
      applyCommand, handleCmd, getClient and handleRaftJoin.  A handler is a
      program of calls: reading the clock, a read-only transaction, a command
      handed to Raft, a reply, the context of the connection, the critical
      sections of getClient, a command sent to another node.  [exec] runs a call
      on a [world]: the node's database, the contexts of the connections, the
      pool of clients and the reply; [alone] runs a handler by itself.  The class
      [Node] has what the server is built from; redcon's mux and the redis client
      are parameters.  [ServerSpec]: the abstract server, a table of the commands
      with their arguments and their meaning on the abstract state.
      [ServerProps], [ServerRefine], [ServerCmds], [ServerState]: the theorems.
    - [Concurrent]: a node whose connections are served at once, as a step
      relation ([Conc.step]): a step is one call of one connection's handler, or
      one of Raft, which applies or fails a submitted command, applies an entry
      of another node, or writes its log.  [Nodes]: the nodes of a cluster, which
      serve their own clients and apply one common log.
    - [Lua], [LuaProps]: store/lua.go.  gopher-lua is a parameter that gives for
      a script the tree of its redis calls.
    - [Gossip]: cluster/gossip.go and cluster/options.go; [Lifecycle]:
      server/options.go, NewFSM and Close, NewServerWithOptions, SetupRaft,
      Start, StartAdmin and Stop; [Main]: main.go.  They are run for the trace
      of what they ask of the outside; [Host] and [Memberlist] say what the
      outside answers.  [MainProps]: the theorems.
    - [Chaos]: test/chaos/cluster.go, with exec.Cmd and filepath.Join; the
      operating system is a parameter ([OS]).
    - [Concrete]: the parameters instantiated, to evaluate the model.

    ** What the theorems show

    - State machine: each command returns the answer of the abstract Redis,
      errors included, and the entries it leaves represent the next state
      (C1); so does a whole log applied while time passes (C5).  Apply answers
      with the Go type that the server expects of each operation (C19); the data
      commands touch the user's key spaces only (C9), and no entry, scripts
      included, touches the Raft log (C10).  Replicas agree when they apply the
      same log at the same instants (C11), SPOP apart, on which they part
      whatever the store (C39).  The readers answer what the abstract state
      holds (C18, C24, [PTTL_reads]); the pattern matcher decides the matching
      relation and ends (C23).  EXPIRE is covered where its key holds no
      collection (C5, C11, C22); on collections it may lose the type
      ([expire_loses_type]).  Scripts are covered by C8 and C10 only.
    - Expiry: bounds on the life of a value (C20) and on what the rewriting
      commands do to it (C21), for any delay between the readings of the clock.
    - Raft group: in every reachable state each replica represents the abstract
      Redis after the entries it has applied (C2), and its reads answer from
      that prefix of the log ([shard_reads]).  A snapshot restored on an empty
      node represents the state it was taken in (C17).
    - Raft store: the log is a map (C14, C15, C16), the stable store too (C29).
    - Server: handleCmd and all the handlers of data commands implement the
      abstract server of [ServerSpec] (C6), for whole sessions too (C7), on
      requests that are [regular]; on the others it does not.  Reads do not
      write (C25), SET then GET (C13), the grammar of the SET options (C26); one
      client per address under interleaving (C32); joins (C38).
    - Concurrency: a node that serves many connections is linearizable (C3),
      for the requests that C6 is about but EXPIRE, and SMISMEMBER, which reads
      once per member (C40); every command gets one complete reply (C12) and
      every handler ends ([requests_end]).  The runs of C3 have no EXPIRE and no
      scripts, those of C12 have everything.
    - Cluster: the replies of all nodes are those of one abstract Redis, at
      places of the common log (C4).  The entries that C2 and C4 cover have no
      TTL and are neither SPOP nor scripts; their snapshots are written while no
      entry is applied, and restored by nodes that never held data, as the code
      is wrong otherwise ([snapshot_not_point_in_time], [Restore_keeps_stale]).
    - Lua: EVAL, from the client's request to its reply, runs a script as a
      transaction over the abstract Redis, and answers its value unless it is a
      table (C8); the two SET parsers agree (C27), SCRIPT LOAD and EVALSHA (C28).
    - Router: crc16 is polynomial division (C30), routing by slots (C31).
    - Program: what main starts it stops, in order, and it either bootstraps or
      joins (C33); a node that can reach the leader, with an identity that needs
      no escaping, becomes a voter (C34); NewGossip releases what it created when
      it fails (C36); the slot map main builds sends no command to another node
      (C37).
    - Chaos tests: the processes of a cluster run main with their nodes'
      settings (C35), apart from each other up to 100 nodes ([chaos_apart]), and
      all that were started are killed ([chaos_start_stop]).

    ** Choices

    Byte slices and Go strings are strings; a slice that may be nil is an
    option.  Integers are Z, with the wrap-around of their width written out.
    Instants are nanoseconds since the epoch; in a transaction the clock stands
    still, and an [Env] gives with it the order in which each range statement
    visits a map.  The program reads the clock at each Get, in [time.Until] and
    in each WithTTL: [remainingTTLMs], [setValue_at] and [getExistingType] take
    the instant of each reading, and C20 and C21 let them differ; in a command
    they are one, so that no key expires while it runs, and its two entries get
    the same expiry.  [alone] gives all calls of a handler the same [Env]; in
    [Concurrent] each has its own, on a clock that does not go back.  A
    transaction and an Apply are steps of their own there, as BadgerDB isolates
    the one and Raft calls the other from one goroutine.  A command that Raft
    has failed may still be committed: it is then an entry like one of another
    node.  A Go panic is the error [EPanic].  Memory is unbounded: no allocation
    fails but that of a negative length.

    Fuel: [glob_match] has the length of the pattern plus one, [format_digits]
    20 digits, both proved enough; [delete_loop] has any fuel, and C16 and
    [DeleteRange_max_never_succeeds] say which is enough and when none is;
    [handleLuaCommand] has a depth of nested scripts, where the program has the
    stack of Go.  The ten attempts of [join_loop] are those of main.go.

    Three parts of BadgerDB's contract are used as follows.  A write or a commit
    may be refused, as when a transaction is too big; theorems that need one to
    succeed say so ([accepted], [writable], [commits], ...).  SCRIPT FLUSH hands the iterator's own key slices to
    Delete, against the documentation; the model deletes the keys they held at
    the call.  Nothing is promised of a key that is both in the database and in
    the backup that Load reads.

    Start stores the server in a field that Stop reads from another goroutine
    without a lock; a signal that comes before the store is the case
    [Signalled false] of [main].  A signal during start-up, before main asks for
    signals, ends the process at that point of the trace, and is no case of
    [main].

    ** What is not modelled

    Logging, the interface StartStopper of main.go, which nothing uses, and the
    test functions.  The internals of Raft, redcon, memberlist, BadgerDB,
    gopher-lua, the redis client, the msgpack codec and the operating system are
    parameters, with the promises their users rely on: the election of a leader
    and the commitment of entries, which these libraries do, are choices of the
    step relations.  The five seconds after which a command that waits for Raft
    or another node times out are one of the errors these may give. *)

From stdpp Require Export base gmap strings list fin_maps sorting.
From Stdlib Require Import Lia ZArith.

#[global] Set Default Goal Selector "!".

Declare Scope go_scope.
Delimit Scope go_scope with go.
#[global] Open Scope string_scope.
#[global] Open Scope list_scope.
#[global] Open Scope stdpp_scope.
#[global] Open Scope Z_scope.
#[global] Open Scope go_scope.

(** ** Machine integers

    Go's [int], [int64], [uint64] and [uint16] as [Z], with the wrap-around
    of the language written out. *)

Definition min_int64 : Z := - 2 ^ 63.
Definition max_int64 : Z := 2 ^ 63 - 1.
Definition wrap64 (z : Z) : Z := (z + 2 ^ 63) mod 2 ^ 64 - 2 ^ 63.
Definition wrapu64 (z : Z) : Z := z mod 2 ^ 64.
Definition wrapu16 (z : Z) : Z := z mod 2 ^ 16.
Definition in_int64 (z : Z) : Prop := min_int64 <= z <= max_int64.

#[export] Instance in_int64_dec z : Decision (in_int64 z).
Proof. unfold in_int64. apply _. Defined.

Lemma wrap64_id z : in_int64 z → wrap64 z = z.
Proof.
  unfold in_int64, min_int64, max_int64, wrap64; intros H.
  rewrite Z.mod_small; lia.
Qed.

Lemma wrap64_le z : 0 <= z → wrap64 z <= z.
Proof.
  unfold wrap64. intros H. pose proof (Z.mod_le (z + 2 ^ 63) (2 ^ 64)). lia.
Qed.

Lemma wrap64_range z : in_int64 (wrap64 z).
Proof.
  unfold in_int64, min_int64, max_int64, wrap64.
  pose proof (Z.mod_pos_bound (z + 2 ^ 63) (2 ^ 64) ltac:(lia)). lia.
Qed.

Lemma wrapu64_id z : 0 <= z < 2 ^ 64 → wrapu64 z = z.
Proof. intros. by apply Z.mod_small. Qed.

(** ** A state and error monad

    The body of a Go function that works on a transaction: it may fail, and
    what it wrote before failing stays in the transaction (a Lua script that
    catches the error with [redis.pcall] observes it). *)

Definition M (S E A : Type) : Type := S → (E + A) * S.

Definition ret {S E A} (a : A) : M S E A := λ s, (inr a, s).
Definition raise {S E A} (e : E) : M S E A := λ s, (inl e, s).
Definition bind {S E A B} (m : M S E A) (k : A → M S E B) : M S E B := λ s,
  match m s with
  | (inl e, s') => (inl e, s')
  | (inr a, s') => k a s'
  end.

Notation "x <- m ;; k" := (bind m (λ x, k))
  (at level 100, m at next level, right associativity) : go_scope.
Notation "m ;;; k" := (bind m (λ _, k))
  (at level 100, right associativity) : go_scope.

(** [for _, x := range l { body }] with an accumulator. *)
Fixpoint foldM {S E A B} (f : B → A → M S E B) (b : B) (l : list A) : M S E B :=
  match l with
  | [] => ret b
  | x :: l' => b' <- f b x;; foldM f b' l'
  end.

(** How a sequence runs. *)
Section bind_rules.
Context {S E : Type}.

Lemma bind_inr {A B} (m : M S E A) (k : A → M S E B) s a s' :
  m s = (inr a, s') → bind m k s = k a s'.
Proof. unfold bind. by intros ->. Qed.

Lemma bind_inl {A B} (m : M S E A) (k : A → M S E B) s e s' :
  m s = (inl e, s') → bind m k s = (inl e, s').
Proof. unfold bind. by intros ->. Qed.
End bind_rules.

(** A pair by its first component: what is left of the second is not
    evaluated. *)
Lemma pair_fst {A A'} (p : A * A') a : p.1 = a → p = (a, p.2).
Proof. destruct p. by intros <-. Qed.

(** ** Lists and strings *)

(** Bytes in the order of Go's [bytes.Compare]. *)
Fixpoint bytes_leb (a b : string) : bool :=
  match a, b with
  | EmptyString, _ => true
  | String _ _, EmptyString => false
  | String x a', String y b' =>
      if (Ascii.N_of_ascii x <? Ascii.N_of_ascii y)%N then true
      else if (Ascii.N_of_ascii y <? Ascii.N_of_ascii x)%N then false
      else bytes_leb a' b'
  end.
Definition bytes_le (a b : string) : Prop := bytes_leb a b = true.

#[export] Instance bytes_le_dec : RelDecision bytes_le.
Proof. intros a b. unfold bytes_le. apply _. Defined.

Lemma N_of_ascii_inj x y : Ascii.N_of_ascii x = Ascii.N_of_ascii y → x = y.
Proof.
  intros H. rewrite <- (Ascii.ascii_N_embedding x), <- (Ascii.ascii_N_embedding y).
  by f_equal.
Qed.

Ltac ascii_cases :=
  repeat match goal with
  | H : context [(?a <? ?b)%N] |- _ => destruct (N.ltb_spec a b); try discriminate
  | |- context [(?a <? ?b)%N] => destruct (N.ltb_spec a b); try done
  end.

#[export] Instance bytes_le_po : PartialOrder bytes_le.
Proof.
  unfold bytes_le. split; [split|].
  - intros a. induction a as [|x a IH]; simpl; [done|]. ascii_cases; try lia; done.
  - intros a. induction a as [|x a IH]; intros [|y b] [|z c]; simpl; try done.
    intros H1 H2. ascii_cases; try lia. eauto.
  - intros a. induction a as [|x a IH]; intros [|y b]; simpl; try done.
    intros H1 H2. ascii_cases; try lia.
    f_equal; [apply N_of_ascii_inj; lia | eauto].
Qed.

#[export] Instance bytes_le_total : Total bytes_le.
Proof.
  unfold bytes_le. intros a.
  induction a as [|x a IH]; intros [|y b]; simpl; auto.
  ascii_cases; auto; try lia.
Qed.

(** [strings.HasPrefix] and [bytes.HasPrefix]. *)
Definition has_prefix (p s : string) : bool := String.prefix p s.

Fixpoint take_while {A} (f : A → bool) (l : list A) : list A :=
  match l with
  | [] => []
  | x :: l' => if f x then x :: take_while f l' else []
  end.

(** Membership in a [case] list of a Go switch on a string. *)
Definition str_in (s : string) (l : list string) : bool := bool_decide (s ∈ l).

Lemma str_in_cons s x l : str_in s (x :: l) = String.eqb s x || str_in s l.
Proof.
  unfold str_in. destruct (String.eqb_spec s x) as [->|Hne]; simpl.
  - apply bool_decide_eq_true_2. by left.
  - apply bool_decide_ext. rewrite elem_of_cons. naive_solver.
Qed.
Lemma str_in_nil s : str_in s [] = false.
Proof. done. Qed.

Lemma str_in_spec s l : str_in s l = true ↔ s ∈ l.
Proof. unfold str_in. apply bool_decide_eq_true. Qed.

(** A sorted run of keys: those with a given prefix come first among the keys
    from the prefix on. *)
Lemma has_prefix_le p s : has_prefix p s = true → bytes_le p s.
Proof.
  unfold has_prefix, bytes_le. revert s. induction p as [|c p IH]; intros [|d s]; simpl; try done.
  case_match; [|done]. subst. rewrite N.ltb_irrefl. apply IH.
Qed.

Lemma has_prefix_char c s : has_prefix (String c "") s = true → ∃ s', s = String c s'.
Proof.
  unfold has_prefix. destruct s as [|d s]; simpl; [done|].
  destruct (Ascii.ascii_dec c d) as [->|]; [eauto|done].
Qed.

Lemma has_prefix_convex p y z :
  bytes_le p y → bytes_le y z → has_prefix p z = true → has_prefix p y = true.
Proof.
  unfold has_prefix, bytes_le. revert y z.
  induction p as [|c p IH]; intros [|d y] [|e z]; simpl; try done.
  destruct (Ascii.ascii_dec c e) as [->|]; [|done]. intros H1 H2 H3.
  destruct (Ascii.ascii_dec e d) as [->|Hne].
  - rewrite N.ltb_irrefl in *. by eapply IH.
  - ascii_cases; try lia. exfalso. apply Hne, N_of_ascii_inj. lia.
Qed.

Lemma take_while_prefix p l x :
  StronglySorted bytes_le l → (∀ y, y ∈ l → bytes_le p y) →
  x ∈ take_while (has_prefix p) l ↔ x ∈ l ∧ has_prefix p x = true.
Proof.
  intros Hs. induction Hs as [|y l Hs IH Hy]; intros Hp; simpl.
  { rewrite elem_of_nil. naive_solver. }
  destruct (has_prefix p y) eqn:Hpy.
  - rewrite !elem_of_cons, IH by (intros; apply Hp; by right). naive_solver.
  - rewrite elem_of_nil, elem_of_cons. split; [done|]. intros [[->|Hx] Hpx]; [congruence|].
    eapply Forall_forall in Hy; [|done].
    by rewrite (has_prefix_convex p y x) in Hpy by (try done; apply Hp; by left).
Qed.

Lemma NoDup_take_while {A} (f : A → bool) l : NoDup l → NoDup (take_while f l).
Proof.
  induction 1 as [|x l Hx Hl IH]; simpl; [constructor|].
  destruct (f x); [|constructor]. constructor; [|done]. intros Hin. apply Hx.
  clear -Hin. induction l as [|y l IH]; simpl in *; [done|].
  destruct (f y); [|by apply elem_of_nil in Hin].
  apply elem_of_cons in Hin as [->|Hin]; [by left|right; auto].
Qed.

(** ** Maps *)

(** The map without some keys. *)
Definition without {A} (ks : list string) (m : gmap string A) : gmap string A :=
  filter (λ kv, kv.1 ∉ ks) m.

Section without.
Context {A : Type}.
Implicit Types (m : gmap string A).

Lemma lookup_without ks m k : without ks m !! k = if decide (k ∈ ks) then None else m !! k.
Proof.
  unfold without. rewrite map_lookup_filter. destruct (m !! k); simpl; repeat case_decide;
    simpl; try done; by case_guard.
Qed.

Lemma without_nil m : without [] m = m.
Proof. apply map_eq. intros k. by rewrite lookup_without. Qed.

Lemma without_cons k ks m : without (k :: ks) m = without ks (delete k m).
Proof.
  apply map_eq. intros k'. rewrite !lookup_without, lookup_delete.
  repeat case_decide; set_solver.
Qed.
End without.

(** Tables with the same names and related entries. *)
Lemma list_to_map_Forall2 {A A'} (R : string → A → A' → Prop) l l' (n : string) :
  Forall2 (λ x y, x.1 = y.1 ∧ R x.1 x.2 y.2) l l' →
  match list_to_map (M := gmap string A) l !! n, list_to_map (M := gmap string A') l' !! n with
  | Some x, Some y => R n x y
  | None, None => True
  | _, _ => False
  end.
Proof.
  induction 1 as [|[a x] [b y] l l' [Hab HR] _ IH]; [done|]. simpl in Hab, HR |- *. subst b.
  destruct (decide (a = n)) as [<-|Hn]; [by rewrite !lookup_insert_eq|].
  by rewrite !lookup_insert_ne.
Qed.

(** The change of size when a key is removed or added. *)
Lemma size_delete_Z {A} (m : gmap string A) k x :
  m !! k = Some x → Z.of_nat (size m) = Z.of_nat (size (delete k m)) + 1.
Proof.
  intros H. rewrite map_size_delete_Some by eauto.
  pose proof (map_size_ne_0_lookup_2 m k ltac:(eauto)). lia.
Qed.
