(* ===== verification/Prog.v ===== *)
(** * Programs that run among others

    The body of a Go function that runs in a goroutine: a finite tree of calls,
    each of which happens at one instant.  Between two calls other goroutines
    may run.  [run] runs a program alone, from its first call to its last. *)

From S2P Require Import Prelude.

Section prog.
(** The calls, and what they return. *)
Context {call : Type} {returns : call → Type}.

Inductive prog (A : Type) : Type :=
  | Ret (a : A)
  | Panic (msg : string)
  | Next (c : call) (k : returns c → prog A).
#[global] Arguments Ret {A} a.
#[global] Arguments Panic {A} msg.
#[global] Arguments Next {A} c k.

#[global] Instance prog_ret : MRet prog := @Ret.
#[global] Instance prog_bind : MBind prog := λ A B f,
  fix go p :=
    match p with
    | Ret a => f a
    | Panic msg => Panic msg
    | Next c k => Next c (λ x, go (k x))
    end.

Definition perform (c : call) : prog (returns c) := Next c Ret.

(** ** Running alone *)

Context {S : Type} (exec : ∀ c : call, S → returns c * S).

Fixpoint run {A} (p : prog A) (s : S) : (string + A) * S :=
  match p with
  | Ret a => (inr a, s)
  | Panic msg => (inl msg, s)
  | Next c k => let '(x, s') := exec c s in run (k x) s'
  end.

Lemma run_bind {A B} (p : prog A) (f : A → prog B) s :
  run (p ≫= f) s = bind (run p) (λ a, run (f a)) s.
Proof.
  revert s. induction p as [a|msg|c k IH]; intros s; [done..|].
  simpl. unfold bind in *. simpl. destruct (exec c s) as [x s']. apply IH.
Qed.
End prog.

#[global] Arguments prog {call} returns A.
