(* ===== verification/GoStd.v ===== *)
(** * The parts of Go's standard library that the program uses

    [strconv] (ParseInt, Atoi, FormatInt), [strings] (ToUpper, ToLower),
    [time] (Duration arithmetic, Until) and [encoding/binary] (BigEndian),
    as executable functions with the facts the components need. *)

From S2P Require Import Prelude.
From Stdlib Require Import Lia ZArith Ascii SpecFloat.

(** ** strconv *)

Inductive num_error := ErrSyntax | ErrRange.

Definition max_uint64 : Z := 2 ^ 64 - 1.

Definition digit_of (c : ascii) : option Z :=
  let n := Z.of_N (N_of_ascii c) in
  if (48 <=? n) && (n <=? 57) then Some (n - 48) else None.

(** The loop of [ParseUint] for base 10 and 64 bits. *)
Fixpoint ParseUint_loop (s : string) (n : Z) : Z * option num_error :=
  match s with
  | EmptyString => (n, None)
  | String c s' =>
      match digit_of c with
      | None => (0, Some ErrSyntax)
      | Some d =>
          if max_uint64 / 10 + 1 <=? n then (max_uint64, Some ErrRange)
          else if max_uint64 <? n * 10 + d then (max_uint64, Some ErrRange)
          else ParseUint_loop s' (n * 10 + d)
      end
  end.

Definition ParseUint (s : string) : Z * option num_error :=
  match s with
  | EmptyString => (0, Some ErrSyntax)
  | _ => ParseUint_loop s 0
  end.

Definition strip_sign (s : string) : bool * string :=
  match s with
  | String c s' =>
      if (c =? "-")%char then (true, s')
      else if (c =? "+")%char then (false, s') else (false, s)
  | EmptyString => (false, s)
  end.

(** [strconv.ParseInt(s, 10, 64)]: the value, which is the clamped one on a
    range error and 0 on a syntax error, with the error. *)
Definition ParseInt (s : string) : Z * option num_error :=
  match s with
  | EmptyString => (0, Some ErrSyntax)
  | _ =>
      let '(neg, body) := strip_sign s in
      match ParseUint body with
      | (_, Some ErrSyntax) => (0, Some ErrSyntax)
      | (un, _) =>
          if negb neg && (2 ^ 63 <=? un) then (2 ^ 63 - 1, Some ErrRange)
          else if neg && (2 ^ 63 <? un) then (- 2 ^ 63, Some ErrRange)
          else (if neg then - un else un, None)
      end
  end.

(** [strconv.Atoi] on a 64-bit platform. *)
Definition Atoi (s : string) : Z * option num_error := ParseInt s.

Definition digit_char (d : Z) : ascii := ascii_of_N (Z.to_N (d + 48)).

(** Digits are produced from the least significant one; 20 of them are
    enough for every 64-bit value. *)
Fixpoint format_digits (fuel : nat) (n : Z) (acc : string) : string :=
  match fuel with
  | O => acc
  | S fuel' =>
      let acc' := String (digit_char (n mod 10)) acc in
      if n / 10 =? 0 then acc' else format_digits fuel' (n / 10) acc'
  end.

(** [strconv.FormatInt(v, 10)] *)
Definition FormatInt (v : Z) : string :=
  if v <? 0 then String "-" (format_digits 20 (- v) "") else format_digits 20 v "".

Lemma digit_of_char d : 0 <= d <= 9 → digit_of (digit_char d) = Some d.
Proof.
  intros H. unfold digit_of, digit_char. rewrite N_ascii_embedding by lia.
  replace (Z.of_N (Z.to_N (d + 48))) with (d + 48) by lia.
  destruct (Z.leb_spec 48 (d + 48)), (Z.leb_spec (d + 48) 57); try lia.
  simpl. f_equal. lia.
Qed.

Lemma format_digits_parse fuel n acc :
  0 <= n <= max_uint64 → n < 10 ^ Z.of_nat fuel → (0 < fuel)%nat →
  ParseUint_loop (format_digits fuel n acc) 0 = ParseUint_loop acc n.
Proof.
  revert n acc. induction fuel as [|fuel IH]; intros n acc Hn Hf Hz; [lia|].
  cbn [format_digits].
  pose proof (Z.mod_pos_bound n 10 ltac:(lia)) as Hm.
  pose proof (Z.div_mod n 10 ltac:(lia)) as Hdm.
  assert (Hstep : ParseUint_loop (String (digit_char (n mod 10)) acc) (n / 10)
                  = ParseUint_loop acc n).
  { cbn [ParseUint_loop]. rewrite digit_of_char by lia.
    replace (n / 10 * 10 + n mod 10) with n by lia.
    pose proof (Z.div_le_mono n max_uint64 10 ltac:(lia) ltac:(lia)) as Hd.
    destruct (Z.leb_spec (max_uint64 / 10 + 1) (n / 10)); [lia|].
    destruct (Z.ltb_spec max_uint64 n); [lia|done]. }
  destruct (Z.eqb_spec (n / 10) 0) as [Hq|Hq].
  - rewrite <- Hstep, Hq. done.
  - rewrite Nat2Z.inj_succ, Z.pow_succ_r in Hf by lia.
    assert (0 < n / 10) by (pose proof (Z.div_pos n 10); lia).
    assert (n / 10 < 10 ^ Z.of_nat fuel) by (apply Z.div_lt_upper_bound; lia).
    destruct fuel as [|fuel'].
    { simpl in *. lia. }
    rewrite IH; [done|nia|done|lia].
Qed.

Lemma format_digits_cons fuel n acc :
  (0 < fuel)%nat → ∃ c s, format_digits fuel n acc = String c s.
Proof.
  revert n acc. induction fuel as [|fuel IH]; intros n acc H; [lia|].
  cbn [format_digits]. destruct (n / 10 =? 0); [eauto|].
  destruct fuel as [|fuel']; [simpl; eauto|]. apply IH. lia.
Qed.

Lemma format_digits_head fuel n acc :
  (0 < fuel)%nat → 0 <= n →
  ∃ d s, 0 <= d <= 9 ∧ format_digits fuel n acc = String (digit_char d) s.
Proof.
  revert n acc. induction fuel as [|fuel IH]; intros n acc H Hn; [lia|].
  cbn [format_digits]. pose proof (Z.mod_pos_bound n 10 ltac:(lia)).
  destruct (n / 10 =? 0).
  { exists (n mod 10), acc. split; [lia|done]. }
  destruct fuel as [|fuel'].
  { simpl. exists (n mod 10), acc. split; [lia|done]. }
  apply IH; [lia|]. apply Z.div_pos; lia.
Qed.

Lemma digit_char_not_sign d :
  0 <= d <= 9 → (digit_char d =? "-")%char = false ∧ (digit_char d =? "+")%char = false.
Proof.
  intros H. assert (d = 0 ∨ d = 1 ∨ d = 2 ∨ d = 3 ∨ d = 4 ∨ d = 5 ∨ d = 6 ∨ d = 7 ∨ d = 8 ∨ d = 9)
    as Hd by lia.
  destruct_or! Hd; subst; done.
Qed.

(** Printing a 64-bit integer and parsing it back gives the integer. *)
Lemma ParseInt_FormatInt v : in_int64 v → ParseInt (FormatInt v) = (v, None).
Proof.
  unfold in_int64, min_int64, max_int64, FormatInt. intros Hv.
  assert (Hp : ∀ n, 0 <= n <= 2 ^ 63 → ParseUint (format_digits 20 n "") = (n, None)).
  { intros n Hn. destruct (format_digits_cons 20 n "" ltac:(lia)) as (c & s & Hcs).
    unfold ParseUint. rewrite Hcs, <- Hcs.
    rewrite format_digits_parse; [done| unfold max_uint64; lia | | lia].
    change (Z.of_nat 20) with 20. lia. }
  destruct (Z.ltb_spec v 0) as [Hneg|Hpos].
  - unfold ParseInt. change (strip_sign (String "-" ?s)) with (true, s).
    cbv beta iota. rewrite Hp by lia. cbn [negb andb].
    destruct (Z.ltb_spec (2 ^ 63) (- v)); [lia|]. f_equal. lia.
  - destruct (format_digits_head 20 v "" ltac:(lia) ltac:(lia)) as (d & s & Hd & Hs).
    destruct (digit_char_not_sign d Hd) as [H1 H2].
    unfold ParseInt. rewrite Hs. unfold strip_sign. rewrite H1, H2, <- Hs.
    rewrite Hp by lia. cbn [negb andb].
    destruct (Z.leb_spec (2 ^ 63) v); [lia|done].
Qed.

Lemma ParseUint_loop_range s n v e :
  0 <= n <= max_uint64 → ParseUint_loop s n = (v, e) → 0 <= v <= max_uint64.
Proof.
  revert n. induction s as [|c s IH]; intros n Hn; cbn [ParseUint_loop].
  { intros [= <- <-]. done. }
  destruct (digit_of c) as [d|] eqn:Hd; [|intros [= <- <-]; unfold max_uint64; lia].
  assert (0 <= d <= 9).
  { unfold digit_of in Hd.
    destruct (Z.leb_spec 48 (Z.of_N (N_of_ascii c))), (Z.leb_spec (Z.of_N (N_of_ascii c)) 57);
      simplify_eq/=; lia. }
  destruct (Z.leb_spec (max_uint64 / 10 + 1) n); [intros [= <- <-]; unfold max_uint64; lia|].
  destruct (Z.ltb_spec max_uint64 (n * 10 + d)); [intros [= <- <-]; unfold max_uint64; lia|].
  apply IH. lia.
Qed.

Lemma ParseInt_range s v e : ParseInt s = (v, e) → in_int64 v.
Proof.
  unfold ParseInt, in_int64, min_int64, max_int64.
  destruct s as [|c s]; [intros [= <- <-]; lia|].
  destruct (strip_sign (String c s)) as [neg body].
  destruct (ParseUint body) as [un er] eqn:Hu.
  assert (0 <= un <= max_uint64).
  { destruct body as [|c' body]; [simpl in Hu; simplify_eq; unfold max_uint64; lia|].
    eapply (ParseUint_loop_range (String c' body) 0); [unfold max_uint64; lia|done]. }
  intros Hr.
  destruct er as [[]|], neg; cbn [negb andb] in Hr;
    repeat match type of Hr with
    | context [2 ^ 63 <=? un] => destruct (Z.leb_spec (2 ^ 63) un)
    | context [2 ^ 63 <? un] => destruct (Z.ltb_spec (2 ^ 63) un)
    end; simplify_eq; lia.
Qed.

(** ** strings

    Upper and lower case on ASCII, with the runes outside ASCII whose case
    mapping is an ASCII letter (U+0131 and U+017F for upper case, U+0130 and
    U+212A for lower case), so that a comparison with an ASCII keyword is
    exact.  Other bytes are kept. *)

Definition upper_ascii (c : ascii) : ascii :=
  let n := N_of_ascii c in
  if ((97 <=? n) && (n <=? 122))%N then ascii_of_N (n - 32) else c.
Definition lower_ascii (c : ascii) : ascii :=
  let n := N_of_ascii c in
  if ((65 <=? n) && (n <=? 90))%N then ascii_of_N (n + 32) else c.

Fixpoint ToUpper (s : string) : string :=
  match s with
  | EmptyString => EmptyString
  | String c s' =>
      match N_of_ascii c, s' with
      | 196%N, String d s'' =>
          if (N_of_ascii d =? 177)%N then String "I" (ToUpper s'') else String c (ToUpper s')
      | 197%N, String d s'' =>
          if (N_of_ascii d =? 191)%N then String "S" (ToUpper s'') else String c (ToUpper s')
      | _, _ => String (upper_ascii c) (ToUpper s')
      end
  end.

Fixpoint ToLower (s : string) : string :=
  match s with
  | EmptyString => EmptyString
  | String c s' =>
      match N_of_ascii c, s' with
      | 196%N, String d s'' =>
          if (N_of_ascii d =? 176)%N then String "i" (ToLower s'') else String c (ToLower s')
      | 226%N, String d (String e s'') =>
          if ((N_of_ascii d =? 132) && (N_of_ascii e =? 170))%N
          then String "k" (ToLower s'') else String c (ToLower s')
      | _, _ => String (lower_ascii c) (ToLower s')
      end
  end.

Example ToUpper_ex : ToUpper "pXat" = "PXAT" ∧ ToLower "FlushDB" = "flushdb".
Proof. done. Qed.

(** ** time

    Instants are nanoseconds since the Unix epoch. *)

Definition second : Z := 10 ^ 9.
Definition millisecond : Z := 10 ^ 6.

(** [time.Duration(ms) * time.Millisecond]: an [int64] product. *)
Definition duration_ms (ms : Z) : Z := wrap64 (ms * millisecond).

(** [time.Until(time.Unix(unix, 0))]: the difference saturates. *)
Definition time_Until (now unix : Z) : Z :=
  Z.max min_int64 (Z.min max_int64 (unix * second - now)).

Definition Duration_Milliseconds (d : Z) : Z := Z.quot d millisecond.

(** [Duration.Seconds] is the [float64] sum of the whole seconds and the
    fraction; [int64(...)] truncates it. *)
Definition float64_of_Z (z : Z) : spec_float := binary_normalize 53 1024 z 0 false.
(** The conversion of a value out of range is left to the implementation; on
    amd64 it gives the least integer. *)
Definition int64_of_float64 (f : spec_float) : Z :=
  match f with
  | S754_zero _ => 0
  | S754_finite s m e =>
      let a := if 0 <=? e then Z.pos m * 2 ^ e else Z.pos m / 2 ^ (- e) in
      let v := if s then - a else a in
      if (min_int64 <=? v) && (v <=? max_int64) then v else min_int64
  | _ => min_int64
  end.
Definition Duration_Seconds_int64 (d : Z) : Z :=
  int64_of_float64
    (SFadd 53 1024 (float64_of_Z (Z.quot d second))
       (SFdiv 53 1024 (float64_of_Z (Z.rem d second)) (float64_of_Z second))).

Example Seconds_ex :
  Duration_Seconds_int64 (59 * second + 999999999) = 59
  ∧ Duration_Seconds_int64 (- 1500000000) = -1.
Proof. vm_compute. done. Qed.

(** [time.Now().UnixMilli()] *)
Definition UnixMilli (now : Z) : Z := now / millisecond.

(** ** encoding/binary: big endian *)

Fixpoint be_bytes (n : nat) (v : Z) : string :=
  match n with
  | O => EmptyString
  | S n' => String (ascii_of_N (Z.to_N (v / 256 ^ Z.of_nat n' mod 256))) (be_bytes n' v)
  end.

Fixpoint be_value (s : string) (acc : Z) : Z :=
  match s with
  | EmptyString => acc
  | String c s' => be_value s' (acc * 256 + Z.of_N (N_of_ascii c))
  end.

(** [binary.BigEndian.PutUint64] into a fresh 8-byte slice. *)
Definition PutUint64 (v : Z) : string := be_bytes 8 v.
(** [binary.BigEndian.Uint64] reads the first 8 bytes and panics ([None]) on a
    shorter slice. *)
Definition Uint64 (s : string) : option Z :=
  if (String.length s <? 8)%nat then None else Some (be_value (String.substring 0 8 s) 0).

Lemma be_bytes_length n v : String.length (be_bytes n v) = n.
Proof. induction n; simpl; auto. Qed.

Lemma byte_embed v k :
  Z.of_N (N_of_ascii (ascii_of_N (Z.to_N (v / k mod 256)))) = v / k mod 256.
Proof.
  pose proof (Z.mod_pos_bound (v / k) 256 ltac:(lia)).
  rewrite N_ascii_embedding by lia. lia.
Qed.

Lemma be_value_bytes n v acc :
  0 <= v →
  be_value (be_bytes n v) acc = acc * 256 ^ Z.of_nat n + v mod 256 ^ Z.of_nat n.
Proof.
  revert acc. induction n as [|n IH]; intros acc Hv.
  { simpl. rewrite Z.mod_1_r. lia. }
  cbn [be_bytes be_value]. rewrite byte_embed, IH by done.
  rewrite Nat2Z.inj_succ, Z.pow_succ_r by lia.
  rewrite (Z.mul_comm 256 (256 ^ Z.of_nat n)), Z.rem_mul_r by lia. lia.
Qed.

Lemma substring_full s : String.substring 0 (String.length s) s = s.
Proof. induction s; simpl; f_equal; auto. Qed.

Lemma Uint64_PutUint64 v : 0 <= v < 2 ^ 64 → Uint64 (PutUint64 v) = Some v.
Proof.
  intros Hv. unfold Uint64, PutUint64. rewrite be_bytes_length.
  change (8 <? 8)%nat with false. cbv iota.
  pose proof (substring_full (be_bytes 8 v)) as Hs.
  rewrite be_bytes_length in Hs. rewrite Hs, be_value_bytes by lia. change (256 ^ Z.of_nat 8) with (2 ^ 64).
  rewrite Z.mod_small by lia. f_equal.
Qed.

(** Big-endian keys sort like the numbers they encode. *)
Lemma be_bytes_leb n u v :
  0 <= u → 0 <= v →
  bytes_leb (be_bytes n u) (be_bytes n v)
  = (u mod 256 ^ Z.of_nat n <=? v mod 256 ^ Z.of_nat n).
Proof.
  intros Hu Hv. induction n as [|n IH].
  { simpl. by rewrite !Z.mod_1_r. }
  cbn [be_bytes bytes_leb]. rewrite IH.
  pose proof (byte_embed u (256 ^ Z.of_nat n)) as Hbu.
  pose proof (byte_embed v (256 ^ Z.of_nat n)) as Hbv.
  rewrite Nat2Z.inj_succ, Z.pow_succ_r by lia.
  rewrite (Z.mul_comm 256 (256 ^ Z.of_nat n)), !Z.rem_mul_r by lia.
  assert (0 < 256 ^ Z.of_nat n) as Hp by lia.
  pose proof (Z.mod_pos_bound u _ Hp) as Hru.
  pose proof (Z.mod_pos_bound v _ Hp) as Hrv.
  set (B := 256 ^ Z.of_nat n) in *.
  set (a := u / B mod 256) in *. set (b := v / B mod 256) in *.
  set (ra := u mod B) in *. set (rb := v mod B) in *.
  ascii_cases; apply eq_sym.
  - apply Z.leb_le. nia.
  - apply Z.leb_gt. nia.
  - assert (a = b) as -> by lia.
    destruct (Z.leb_spec ra rb); [apply Z.leb_le|apply Z.leb_gt]; lia.
Qed.

Lemma PutUint64_le u v :
  0 <= u < 2 ^ 64 → 0 <= v < 2 ^ 64 →
  bytes_le (PutUint64 u) (PutUint64 v) ↔ u <= v.
Proof.
  intros Hu Hv. unfold bytes_le, PutUint64. rewrite be_bytes_leb by lia.
  change (256 ^ Z.of_nat 8) with (2 ^ 64). rewrite !Z.mod_small by lia.
  apply Z.leb_le.
Qed.

Lemma PutUint64_inj u v :
  0 <= u < 2 ^ 64 → 0 <= v < 2 ^ 64 → PutUint64 u = PutUint64 v → u = v.
Proof.
  intros Hu Hv H. apply (f_equal Uint64) in H.
  rewrite !Uint64_PutUint64 in H by lia. by simplify_eq.
Qed.
