(* ===== verification/GoNet.v ===== *)
(** * Addresses and queries (Go's strings, net and net/url)

    What main.go, cluster/gossip.go and the join handler use of the standard
    library to take apart addresses and URLs, as executable functions. *)

From S2P Require Import Prelude GoStd.
From Stdlib Require Import Lia ZArith Ascii.
#[local] Open Scope char_scope.
#[local] Open Scope string_scope.

(** ** Searching and splitting *)

(** Whether a byte occurs ([strings.IndexByte] is not negative). *)
Fixpoint has_byte (c : ascii) (s : string) : bool :=
  match s with
  | EmptyString => false
  | String d s' => (d =? c)%char || has_byte c s'
  end.

(** [strings.Cut] at the first occurrence of a byte: what is before it and, if
    it occurs, what is after. *)
Fixpoint cut (c : ascii) (s : string) : string * option string :=
  match s with
  | EmptyString => (EmptyString, None)
  | String d s' =>
      if (d =? c)%char then (EmptyString, Some s')
      else let '(a, b) := cut c s' in (String d a, b)
  end.

(** The same at the last occurrence ([strings.LastIndexByte]). *)
Fixpoint cut_last (c : ascii) (s : string) : option (string * string) :=
  match s with
  | EmptyString => None
  | String d s' =>
      match cut_last c s' with
      | Some (a, b) => Some (String d a, b)
      | None => if (d =? c)%char then Some (EmptyString, s') else None
      end
  end.

(** [strings.Split] by a one-byte separator: never an empty list. *)
Fixpoint Split (c : ascii) (s : string) : list string :=
  match s with
  | EmptyString => [EmptyString]
  | String d s' =>
      if (d =? c)%char then EmptyString :: Split c s'
      else match Split c s' with
           | a :: l => String d a :: l
           | [] => [String d EmptyString]
           end
  end.

Lemma app_cons d s r : String d s +:+ r = String d (s +:+ r).
Proof. done. Qed.
Lemma app_empty (s : string) : s +:+ "" = s.
Proof. induction s as [|d s IH]; [done|]. by rewrite app_cons, IH. Qed.

Lemma has_byte_app c a b : has_byte c (a +:+ b) = has_byte c a || has_byte c b.
Proof.
  induction a as [|d a IH]; [done|]. rewrite app_cons. cbn [has_byte]. by rewrite IH, orb_assoc.
Qed.

Lemma cut_at c a b : has_byte c a = false → cut c (a +:+ String c b) = (a, Some b).
Proof.
  induction a as [|d a IH]; cbn [has_byte].
  - intros _. simpl. by rewrite Ascii.eqb_refl.
  - intros [H1 H2]%orb_false_iff. rewrite app_cons. cbn [cut]. by rewrite H1, IH.
Qed.
Lemma cut_none c s : has_byte c s = false → cut c s = (s, None).
Proof.
  induction s as [|d s IH]; cbn [has_byte cut]; [done|]. intros [H1 H2]%orb_false_iff.
  by rewrite H1, IH.
Qed.
Lemma cut_last_none c s : has_byte c s = false → cut_last c s = None.
Proof.
  induction s as [|d s IH]; cbn [has_byte cut_last]; [done|]. intros [H1 H2]%orb_false_iff.
  by rewrite IH, H1.
Qed.
Lemma cut_last_at c a b : has_byte c b = false → cut_last c (a +:+ String c b) = Some (a, b).
Proof.
  intros Hb. induction a as [|d a IH].
  - simpl. by rewrite cut_last_none, Ascii.eqb_refl.
  - rewrite app_cons. cbn [cut_last]. by rewrite IH.
Qed.

Lemma Split_nonempty c s : Split c s ≠ [].
Proof. destruct s as [|d s]; simpl; [done|]. repeat case_match; done. Qed.

(** Splitting takes a joined list apart again. *)
Lemma Split_join c l :
  l ≠ [] → Forall (λ s, has_byte c s = false) l → Split c (String.concat (String c "") l) = l.
Proof.
  intros Hl HF. induction HF as [|a l Ha HF IH]; [done|]. clear Hl.
  assert (∀ r, Split c (a +:+ String c r) = a :: Split c r) as Happ.
  { intros r. clear IH HF. induction a as [|d a IHa].
    - simpl. by rewrite Ascii.eqb_refl.
    - cbn [has_byte] in Ha. apply orb_false_iff in Ha as [H1 H2]. rewrite app_cons. cbn [Split].
      by rewrite H1, IHa. }
  destruct l as [|b l].
  - simpl. clear Happ IH. induction a as [|d a IHa]; [done|].
    cbn [has_byte] in Ha. apply orb_false_iff in Ha as [H1 H2]. cbn [Split].
    by rewrite H1, IHa.
  - change (String.concat (String c "") (a :: b :: l))
      with (a +:+ String c (String.concat (String c "") (b :: l))).
    by rewrite Happ, IH.
Qed.

(** ** [net.SplitHostPort] *)

Definition missingPort : string := "missing port in address".
Definition tooManyColons : string := "too many colons in address".

(** The text of [net.AddrError]. *)
Definition addrErr (addr why : string) : string :=
  (if String.eqb addr "" then "" else "address " +:+ addr +:+ ": ") +:+ why.

(** The host in brackets: up to the first closing one, which must stand just
    before the last colon. *)
Definition split_brackets (hostport rest : string) : string + string * string :=
  match cut "]" rest with
  | (_, None) => inl (addrErr hostport "missing ']' in address")
  | (host, Some after) =>
      match after with
      | EmptyString => inl (addrErr hostport missingPort)
      | String c port =>
          if negb (c =? ":")%char then inl (addrErr hostport missingPort)
          else if has_byte ":" port then inl (addrErr hostport tooManyColons)
          else if has_byte "[" rest then inl (addrErr hostport "unexpected '[' in address")
          else if has_byte "]" port then inl (addrErr hostport "unexpected ']' in address")
          else inr (host, port)
      end
  end.

Definition SplitHostPort (hostport : string) : string + string * string :=
  match cut_last ":" hostport with
  | None => inl (addrErr hostport missingPort)
  | Some (host, port) =>
      match hostport with
      | String c rest =>
          if (c =? "[")%char then split_brackets hostport rest
          else if has_byte ":" host then inl (addrErr hostport tooManyColons)
          else if has_byte "[" hostport then inl (addrErr hostport "unexpected '[' in address")
          else if has_byte "]" hostport then inl (addrErr hostport "unexpected ']' in address")
          else inr (host, port)
      | EmptyString => inl (addrErr hostport missingPort)
      end
  end.

(** No byte that [SplitHostPort] gives a meaning. *)
Definition plain_addr (s : string) : bool :=
  negb (has_byte ":" s) && negb (has_byte "[" s) && negb (has_byte "]" s).

Lemma SplitHostPort_join host port :
  plain_addr host = true → plain_addr port = true →
  SplitHostPort (host +:+ ":" +:+ port) = inr (host, port).
Proof.
  unfold plain_addr. rewrite !andb_true_iff, !negb_true_iff.
  intros [[H1 H2] H3] [[H4 H5] H6]. unfold SplitHostPort.
  change (":" +:+ port) with (String ":" port). rewrite cut_last_at by done.
  assert (has_byte "[" (host +:+ String ":" port) = false) as Hb by (rewrite has_byte_app, H2; done).
  assert (has_byte "]" (host +:+ String ":" port) = false) as Hb' by (rewrite has_byte_app, H3; done).
  destruct (host +:+ String ":" port) as [|c rest] eqn:Hs.
  { destruct host; done. }
  cbn [has_byte] in Hb. apply orb_false_iff in Hb as [Hc Hrest]. rewrite Hc, H1.
  cbn [has_byte]. rewrite Hc, Hrest. cbn [has_byte] in Hb'. by rewrite Hb'.
Qed.

Example SplitHostPort_ex :
  SplitHostPort "[::1]:80" = inr ("::1", "80")
  ∧ SplitHostPort "0.0.0.0" = inl "address 0.0.0.0: missing port in address"
  ∧ SplitHostPort "::1:80" = inl "address ::1:80: too many colons in address".
Proof. done. Qed.

(** ** Queries ([net/url]) *)

Definition unhex (c : ascii) : option N :=
  let n := N_of_ascii c in
  if (48 <=? n)%N && (n <=? 57)%N then Some (n - 48)%N
  else if (97 <=? n)%N && (n <=? 102)%N then Some (n - 87)%N
  else if (65 <=? n)%N && (n <=? 70)%N then Some (n - 55)%N
  else None.

(** [url.QueryUnescape]; [None] for a malformed escape. *)
Fixpoint QueryUnescape (s : string) : option string :=
  match s with
  | EmptyString => Some EmptyString
  | String "%" s' =>
      match s' with
      | String a (String b s'') =>
          match unhex a, unhex b, QueryUnescape s'' with
          | Some x, Some y, Some r => Some (String (ascii_of_N (x * 16 + y)) r)
          | _, _, _ => None
          end
      | _ => None
      end
  | String c s' => String (if (c =? "+")%char then " " else c) <$> QueryUnescape s'
  end.

(** One setting of a query: [None] when it is skipped. *)
Definition query_setting (kv : string) : option (string * string) :=
  if has_byte ";" kv || String.eqb kv "" then None
  else
    let '(key, value) := cut "=" kv in
    match QueryUnescape key, QueryUnescape (default "" value) with
    | Some k, Some v => Some (k, v)
    | _, _ => None
    end.

(** [r.URL.Query()]: the settings in order, malformed ones dropped. *)
Definition ParseQuery (query : string) : list (string * string) :=
  omap query_setting (Split "&" query).

(** [Values.Get]: the first value of a key, empty if it has none. *)
Fixpoint Query_Get (q : list (string * string)) (key : string) : string :=
  match q with
  | [] => ""
  | (k, v) :: q' => if String.eqb k key then v else Query_Get q' key
  end.

(** Bytes that stand for themselves in a query. *)
Definition query_byte (c : ascii) : bool :=
  negb ((c =? "&") || (c =? ";") || (c =? "%") || (c =? "+") || (c =? "#"))%char
  && (33 <=? N_of_ascii c)%N && (N_of_ascii c <=? 126)%N.
Definition query_safe (s : string) : bool := forallb query_byte (String.list_ascii_of_string s).

Lemma query_safe_cons c s : query_safe (String c s) = query_byte c && query_safe s.
Proof. done. Qed.
Lemma query_safe_app a b : query_safe (a +:+ b) = query_safe a && query_safe b.
Proof.
  induction a as [|c a IH]; [done|]. by rewrite app_cons, !query_safe_cons, IH, andb_assoc.
Qed.

Lemma query_safe_not c s : query_safe s = true → query_byte c = false → has_byte c s = false.
Proof.
  induction s as [|d s IH]; [done|]. rewrite query_safe_cons. cbn [has_byte].
  intros [H1 H2]%andb_true_iff Hc. rewrite IH by done.
  destruct (Ascii.eqb_spec d c); [congruence|done].
Qed.

Lemma QueryUnescape_safe s : query_safe s = true → QueryUnescape s = Some s.
Proof.
  induction s as [|c s IH]; [done|]. rewrite query_safe_cons. intros [H1 H2]%andb_true_iff.
  specialize (IH H2). destruct (Ascii.eqb_spec c "%") as [->|Hp]; [done|].
  destruct (Ascii.eqb_spec c "+") as [->|Hq]; [done|].
  assert (QueryUnescape (String c s) = String (if (c =? "+")%char then " " else c)%char <$> QueryUnescape s) as ->.
  { destruct c as [[] [] [] [] [] [] [] []]; done. }
  rewrite IH. simpl. by destruct (Ascii.eqb_spec c "+").
Qed.

(** The settings of a query whose parts stand for themselves. *)
Lemma query_setting_safe key value :
  query_safe key = true → query_safe value = true → has_byte "=" key = false → key ≠ "" →
  query_setting (key +:+ "=" +:+ value) = Some (key, value).
Proof.
  intros Hk Hv He Hne. unfold query_setting.
  change ("=" +:+ value) with (String "=" value).
  rewrite has_byte_app. cbn [has_byte].
  rewrite !(query_safe_not ";") by done.
  destruct (String.eqb_spec (key +:+ String "=" value) "") as [Heq|_]; [by destruct key|].
  simpl. rewrite cut_at by done. simpl. by rewrite !QueryUnescape_safe.
Qed.

Lemma ParseQuery_two k1 v1 k2 v2 :
  query_safe k1 = true → query_safe v1 = true → has_byte "=" k1 = false → k1 ≠ "" →
  query_safe k2 = true → query_safe v2 = true → has_byte "=" k2 = false → k2 ≠ "" →
  ParseQuery ((k1 +:+ "=" +:+ v1) +:+ "&" +:+ (k2 +:+ "=" +:+ v2)) = [(k1, v1); (k2, v2)].
Proof.
  intros. unfold ParseQuery.
  change (?a +:+ "&" +:+ ?b) with (String.concat (String "&" "") [a; b]).
  rewrite Split_join; [|done|].
  - simpl. by rewrite !query_setting_safe.
  - repeat constructor; apply query_safe_not; rewrite ?query_safe_app; repeat (apply andb_true_intro; split); done.
Qed.

Example ParseQuery_ex :
  ParseQuery "id=node-2&addr=127.0.0.1:8301" = [("id", "node-2"); ("addr", "127.0.0.1:8301")]
  ∧ ParseQuery "a=1%202+3&b;c=2&d" = [("a", "1 2 3"); ("d", "")].
Proof. done. Qed.
