(* ===== verification/Badger.v ===== *)
(** * The interface of BadgerDB

    The program keeps everything in one BadgerDB, a third-party store.  Its
    operations are a parameter of the model: [BadgerOps] lists the calls the
    program makes, [BadgerLaws] what their documentation promises.  Every
    theorem about a client is proved against the interface.  [MapBadger] is
    one store that satisfies it, used to evaluate the model on concrete
    inputs. *)

From S2P Require Import Prelude GoStd.
From Stdlib Require Import Lia ZArith.

(** An entry under a key: the value and the Unix time (in seconds) at which
    it expires, 0 for never ([Item.ExpiresAt]). *)
Record entry := Entry { e_val : string; e_exp : Z }.

#[export] Instance entry_eq_dec : EqDecision entry.
Proof. solve_decision. Defined.

Inductive db_err :=
  | ErrKeyNotFound
  | ErrBadger (msg : string).

#[export] Instance db_err_eq_dec : EqDecision db_err.
Proof. solve_decision. Defined.

(** Instants are passed to the calls that compare an expiry with the clock. *)
Class BadgerOps := {
  db : Type;
  txn : Type;
  NewTransaction : db → txn;
  Commit : txn → db_err + db;
  txn_Get : Z → string → txn → db_err + entry;
  txn_SetEntry : string → entry → txn → db_err + txn;
  txn_Delete : string → txn → db_err + txn;
  (** [Item.ValueCopy(nil)]: a slice that may be nil, and an error. *)
  item_ValueCopy : entry → option string * option db_err;
  (** The keys of the items an iterator yields from [Seek(key)] to its end;
      [true] for a reverse iterator. *)
  iter_Seek : Z → bool → string → txn → list string;
  (** The expiry [Entry.WithTTL] records at an instant for a duration. *)
  WithTTL : Z → Z → Z;
  db_err_text : db_err → string;
}.

(** An entry is visible at an instant unless its Unix time has come. *)
Definition live (now : Z) (e : entry) : bool :=
  (e_exp e =? 0) || (now / second <? e_exp e).

Definition vget (now : Z) (v : gmap string entry) (k : string) : option entry :=
  match v !! k with
  | Some e => if live now e then Some e else None
  | None => None
  end.

(** [view t] is what the transaction would read without expiry; [healthy t]
    that it is open on a working database.  A write may be refused (too big a
    transaction, a key that is too long): then the transaction is as before. *)
Class BadgerLaws (B : BadgerOps) := {
  view : txn → gmap string entry;
  healthy : txn → Prop;
  dview : db → gmap string entry;
  dhealthy : db → Prop;
  NewTransaction_law d :
    dhealthy d → healthy (NewTransaction d) ∧ view (NewTransaction d) = dview d;
  Commit_law t d :
    healthy t → Commit t = inr d → dhealthy d ∧ dview d = view t;
  Get_law now k t :
    k ≠ "" → healthy t →
    txn_Get now k t = match vget now (view t) k with
                      | Some e => inr e
                      | None => inl ErrKeyNotFound
                      end;
  SetEntry_law k e t t' :
    healthy t → txn_SetEntry k e t = inr t' →
    healthy t' ∧ view t' = <[k := e]> (view t);
  Delete_law k t t' :
    healthy t → txn_Delete k t = inr t' →
    healthy t' ∧ view t' = delete k (view t);
  ValueCopy_law now k t e :
    healthy t → txn_Get now k t = inr e →
    ∃ o, item_ValueCopy e = (o, None) ∧ default "" o = e_val e;
  Seek_law now rev k t :
    healthy t →
    NoDup (iter_Seek now rev k t)
    ∧ StronglySorted (λ a b, if rev then bytes_le b a else bytes_le a b) (iter_Seek now rev k t)
    ∧ (∀ x, x ∈ iter_Seek now rev k t ↔
         (if rev then bytes_le x k else bytes_le k x) ∧ is_Some (vget now (view t) x));
  WithTTL_law now d : 0 <= now + d < second * 2 ^ 63 → WithTTL now d = (now + d) / second;
}.

Section vget.
Implicit Types (v : gmap string entry) (k : string).

Lemma vget_insert now v k k' e :
  vget now (<[k := e]> v) k' =
  if decide (k = k') then (if live now e then Some e else None) else vget now v k'.
Proof. unfold vget. rewrite lookup_insert. by case_decide. Qed.

Lemma vget_delete now v k k' :
  vget now (delete k v) k' = if decide (k = k') then None else vget now v k'.
Proof. unfold vget. rewrite lookup_delete. by case_decide. Qed.

Lemma vget_Some now v k e : vget now v k = Some e ↔ v !! k = Some e ∧ live now e = true.
Proof.
  unfold vget. destruct (v !! k) as [e'|]; [|by split; [|intros [? _]]].
  destruct (live now e') eqn:L; split; try done.
  - by intros [= <-].
  - by intros [[= <-] _].
  - intros [[= <-] ?]. congruence.
Qed.

(** Time only hides entries. *)
Lemma live_antitone now now' e : now <= now' → live now' e = true → live now e = true.
Proof.
  unfold live. intros Hn. rewrite !orb_true_iff, !Z.ltb_lt.
  pose proof (Z.div_le_mono now now' second ltac:(done) Hn). intros [|]; [by left|right; lia].
Qed.
End vget.

(** ** [db.View] and [db.Update]

    A read-only transaction is discarded; a read-write one is committed when
    the function returns no error and discarded otherwise. *)
Section transactions.
Context `{B : BadgerOps}.

Definition db_View {A} (d : db) (f : txn → A) : A := f (NewTransaction d).

Definition db_Update {E A} (of_db : db_err → E) (d : db) (f : M txn E A) : (E + A) * db :=
  match f (NewTransaction d) with
  | (inl e, _) => (inl e, d)
  | (inr a, t) =>
      match Commit t with
      | inl e => (inl (of_db e), d)
      | inr d' => (inr a, d')
      end
  end.

(** A failed update leaves the database as it was. *)
Lemma db_Update_error {E A} of_db d (f : M txn E A) e d' :
  db_Update of_db d f = (inl e, d') → d' = d.
Proof.
  unfold db_Update. destruct (f (NewTransaction d)) as [[e'|a] t]; [naive_solver|].
  destruct (Commit t); naive_solver.
Qed.
End transactions.

(** ** A store in memory

    Keys longer than [max_key] are refused, as BadgerDB refuses keys over its
    limit; an empty value is copied to a nil slice. *)
Section MapBadger.
Context (max_key : nat).

#[local] Instance seek_dec now (rev : bool) (v : gmap string entry) k x :
  Decision (is_Some (vget now v x) ∧ (if rev then bytes_le x k else bytes_le k x)).
Proof. destruct rev; apply _. Defined.

Definition map_keys (now : Z) (rev : bool) (k : string) (v : gmap string entry) : list string :=
  let ks := filter (λ x, is_Some (vget now v x) ∧
                         (if rev then bytes_le x k else bytes_le k x))
              (elements (dom v)) in
  if rev then reverse (merge_sort bytes_le ks) else merge_sort bytes_le ks.

Definition map_set (k : string) (e : entry) (v : gmap string entry)
    : db_err + gmap string entry :=
  if (max_key <? String.length k)%nat then inl (ErrBadger "key too long")
  else inr (<[k := e]> v).

Definition MapBadger : BadgerOps := {|
  db := gmap string entry;
  txn := gmap string entry;
  NewTransaction d := d;
  Commit t := inr t;
  txn_Get now k t :=
    match vget now t k with Some e => inr e | None => inl ErrKeyNotFound end;
  txn_SetEntry := map_set;
  txn_Delete k t := inr (delete k t);
  item_ValueCopy e := (if decide (e_val e = "") then None else Some (e_val e), None);
  iter_Seek now rev k t := map_keys now rev k t;
  WithTTL now d := wrapu64 ((now + d) / second);
  db_err_text e :=
    match e with ErrKeyNotFound => "Key not found" | ErrBadger m => m end;
|}.

Lemma map_keys_spec now rev k v :
  NoDup (map_keys now rev k v)
  ∧ StronglySorted (λ a b, if rev then bytes_le b a else bytes_le a b) (map_keys now rev k v)
  ∧ (∀ x, x ∈ map_keys now rev k v ↔
       (if rev then bytes_le x k else bytes_le k x) ∧ is_Some (vget now v x)).
Proof.
  unfold map_keys.
  set (ks := filter _ _).
  assert (Hn : NoDup (merge_sort bytes_le ks)).
  { rewrite merge_sort_Permutation. apply NoDup_filter, NoDup_elements. }
  assert (Hs : StronglySorted bytes_le (merge_sort bytes_le ks))
    by (apply StronglySorted_merge_sort; apply _).
  assert (Hm : ∀ x, x ∈ merge_sort bytes_le ks ↔
     (if rev then bytes_le x k else bytes_le k x) ∧ is_Some (vget now v x)).
  { intros x. rewrite merge_sort_Permutation. unfold ks.
    rewrite list_elem_of_filter, elem_of_elements, elem_of_dom.
    unfold vget. destruct (v !! x) as [e|]; [|split; intros [H1 H2]; by destruct H1 || destruct H2].
    split; [intros [[??] ?]; eauto|intros [? ?]; eauto]. }
  destruct rev; [|done]. split_and!.
  - rewrite reverse_Permutation. done.
  - clear -Hs. induction Hs as [|a l Hs IH Ha]; [constructor|].
    rewrite reverse_cons. apply StronglySorted_app_2; [|done|by repeat constructor].
    intros x y Hx ->%list_elem_of_singleton.
    rewrite elem_of_reverse in Hx. by eapply Forall_forall in Ha.
  - intros x. by rewrite elem_of_reverse.
Qed.

Program Definition MapBadgerLaws : BadgerLaws MapBadger := {|
  view := id;
  healthy _ := True;
  dview := id;
  dhealthy _ := True;
|}.
Next Obligation. done. Qed.
Next Obligation. intros t d _ [= ->]. done. Qed.
Next Obligation. intros. done. Qed.
Next Obligation.
  intros k e t t' _. simpl. unfold map_set. by case_match; intros [= <-].
Qed.
Next Obligation. intros k t t' _ [= <-]. done. Qed.
Next Obligation. intros now k t e _ _. simpl. eexists. split; [done|]. by case_decide. Qed.
Next Obligation. intros. apply map_keys_spec. Qed.
Next Obligation.
  intros now d H. simpl. apply wrapu64_id.
  split; [apply Z.div_pos; [lia|done]|]. apply Z.div_lt_upper_bound; [done|lia].
Qed.
End MapBadger.
