(* ===== verification/Codec.v ===== *)
(** * Serialization: store/encoding.go and the structures that are encoded

    The program serializes hashes, lists and sets (as the list of their
    members), FSM commands and Raft log entries with the third-party msgpack
    codec, a parameter here.  [CodecLaws] states that decoding inverts
    encoding; [BitCodec] is one codec that satisfies it. *)

From S2P Require Import Prelude.
From stdpp Require Import countable.
From Stdlib Require Import Ascii.

(** A replicated operation (store/fsm.go). *)
Record Command := mkCommand {
  Op : string;
  Key : string;
  Args : list string;
  TTLMs : Z;
  Condition : string;
  ReturnOld : bool;
}.

(** A Raft log entry ([raft.Log]). *)
Record RaftLog := mkRaftLog {
  Index : Z;
  Term : Z;
  LogType : Z;
  Data : string;
  Extensions : string;
  AppendedAt : Z;
}.

#[export] Instance Command_eq_dec : EqDecision Command.
Proof. solve_decision. Defined.
#[export] Instance RaftLog_eq_dec : EqDecision RaftLog.
Proof. solve_decision. Defined.

(** The codec.  An encoder appends what it encodes to the bytes its buffer has,
    and returns the text of its error, if any; a decoder returns the text of its
    error or the value.  Commands and log entries are encoded in one piece. *)
Class Codec := {
  Encode_list : list string → string → option string * string;
  Decode_list : string → string + list string;
  Encode_hash : gmap string string → string → option string * string;
  Decode_hash : string → string + gmap string string;
  enc_cmd : Command → string;
  dec_cmd : string → string + Command;
  enc_log : RaftLog → string + string;
  dec_log : string → string + RaftLog;
}.

Class CodecLaws (C : Codec) : Prop := {
  Decode_Encode_list l : ∃ b, Encode_list l "" = (None, b) ∧ Decode_list b = inr l;
  Decode_Encode_hash h : ∃ b, Encode_hash h "" = (None, b) ∧ Decode_hash b = inr h;
  dec_enc_cmd c : dec_cmd (enc_cmd c) = inr c;
  dec_enc_log l b : enc_log l = inr b → dec_log b = inr l;
}.

(** ** encodeMsgpack and decodeMsgpack (store/encoding.go)

    The Go functions are generic in the value; each type the program passes
    has an instance of the codec. *)
Class Msgpack (C : Codec) (A : Type) := {
  Encode : A → string → option string * string;
  Decode : string → string + A;
}.
#[export] Instance msgpack_list {C : Codec} : Msgpack C (list string) :=
  {| Encode := Encode_list; Decode := Decode_list |}.
#[export] Instance msgpack_hash {C : Codec} : Msgpack C (gmap string string) :=
  {| Encode := Encode_hash; Decode := Decode_hash |}.

(** The buffer is empty at first, and the error is dropped. *)
Definition encodeMsgpack {C : Codec} {A} `{!Msgpack C A} (v : A) : string :=
  let '(_, buf) := Encode v "" in buf.
Definition decodeMsgpack {C : Codec} {A} `{!Msgpack C A} (data : string) : string + A :=
  Decode data.
#[global] Arguments encodeMsgpack : simpl never.
#[global] Arguments decodeMsgpack : simpl never.

Section msgpack.
Context `{C : Codec} {CL : CodecLaws C}.

Lemma decode_encode_list (l : list string) : decodeMsgpack (encodeMsgpack l) = inr l.
Proof.
  unfold decodeMsgpack, encodeMsgpack. simpl. by destruct (Decode_Encode_list l) as (b & -> & ?).
Qed.
Lemma decode_encode_hash (h : gmap string string) : decodeMsgpack (encodeMsgpack h) = inr h.
Proof.
  unfold decodeMsgpack, encodeMsgpack. simpl. by destruct (Decode_Encode_hash h) as (b & -> & ?).
Qed.
End msgpack.

(** ** A codec *)

#[export] Instance Command_countable : Countable Command.
Proof.
  refine (inj_countable'
    (λ c, (Op c, Key c, Args c, TTLMs c, Condition c, ReturnOld c))
    (λ '(o, k, a, t, c, r), mkCommand o k a t c r) _).
  by intros [].
Defined.

#[export] Instance RaftLog_countable : Countable RaftLog.
Proof.
  refine (inj_countable'
    (λ l, (Index l, Term l, LogType l, Data l, Extensions l, AppendedAt l))
    (λ '(i, t, y, d, e, a), mkRaftLog i t y d e a) _).
  by intros [].
Defined.

Fixpoint bits_of_pos (p : positive) : string :=
  match p with
  | xH => ""
  | xO p' => String "0" (bits_of_pos p')
  | xI p' => String "1" (bits_of_pos p')
  end.

Fixpoint pos_of_bits (s : string) : positive :=
  match s with
  | EmptyString => xH
  | String c s' => if (c =? "0")%char then xO (pos_of_bits s') else xI (pos_of_bits s')
  end.

Lemma pos_of_bits_of_pos p : pos_of_bits (bits_of_pos p) = p.
Proof. induction p; simpl; congruence. Qed.

Definition bit_encode {A} `{Countable A} (x : A) : string := bits_of_pos (encode x).
Definition bit_decode {A} `{Countable A} (s : string) : string + A :=
  match decode (pos_of_bits s) with Some x => inr x | None => inl "msgpack decode error" end.

Lemma bit_decode_encode `{Countable A} (x : A) : bit_decode (bit_encode x) = inr x.
Proof. unfold bit_decode, bit_encode. by rewrite pos_of_bits_of_pos, decode_encode. Qed.

Definition BitCodec : Codec := {|
  Encode_list l buf := (None, buf +:+ bit_encode l);
  Decode_list := bit_decode;
  Encode_hash h buf := (None, buf +:+ bit_encode h);
  Decode_hash := bit_decode;
  enc_cmd := bit_encode;
  dec_cmd := bit_decode;
  enc_log l := inr (bit_encode l);
  dec_log := bit_decode;
|}.

Lemma BitCodecLaws : CodecLaws BitCodec.
Proof.
  split; simpl; intros; simplify_eq; try (eexists; split; [done|]); apply bit_decode_encode.
Qed.
