(* ===== verification/Glob.v ===== *)
(** * The KEYS pattern matcher: redisGlobMatch (store/fsm.go)

    The matcher walks the pattern and the text with two indices; here it
    walks the suffixes they denote.  It may fail with "bad pattern".  The
    recursion is bounded by the length of the pattern, which is the fuel. *)

From S2P Require Import Prelude.
From Stdlib Require Import Lia Ascii Bool.

Definition bad_pattern : string := "bad pattern".

(** [for pi < len(pattern) && pattern[pi] == '*' { pi++ }] *)
Fixpoint skip_stars (p : string) : string :=
  match p with
  | String c p' => if (c =? "*")%char then skip_stars p' else p
  | EmptyString => EmptyString
  end.

(** The bytes up to the next ']' and the pattern after it. *)
Fixpoint split_class (p : string) : option (string * string) :=
  match p with
  | EmptyString => None
  | String c p' =>
      if (c =? "]")%char then Some ("", p')
      else match split_class p' with
           | Some (cls, rest) => Some (String c cls, rest)
           | None => None
           end
  end.

Definition char_in (lo a hi : ascii) : bool :=
  (N_of_ascii lo <=? N_of_ascii a)%N && (N_of_ascii a <=? N_of_ascii hi)%N.

(** The loop over the bytes of a class: ranges [x-y] and single bytes. *)
Fixpoint class_loop (a : ascii) (s : string) : bool :=
  match s with
  | EmptyString => false
  | String x s1 =>
      match s1 with
      | String d (String hi s') =>
          if (d =? "-")%char then char_in x a hi || class_loop a s'
          else (a =? x)%char || class_loop a s1
      | _ => (a =? x)%char || class_loop a s1
      end
  end.

Definition negated (cls : string) : bool :=
  match cls with String c _ => (c =? "^")%char | EmptyString => false end.
Definition class_body (cls : string) : string :=
  match cls with
  | String c cls' => if (c =? "^")%char then cls' else cls
  | EmptyString => EmptyString
  end.

(** [for i := ti; i <= len(text); i++ { ok, err := match(pi, i); ... }] *)
Fixpoint star_loop (f : string → option (string + bool)) (t : string)
    : option (string + bool) :=
  match f t with
  | Some (inr false) =>
      match t with
      | EmptyString => Some (inr false)
      | String _ t' => star_loop f t'
      end
  | r => r
  end.

Fixpoint glob_match (fuel : nat) (p t : string) : option (string + bool) :=
  match fuel with
  | O => None
  | S fuel =>
      let literal c p' :=
        match t with
        | String a t' => if (c =? a)%char then glob_match fuel p' t' else Some (inr false)
        | EmptyString => Some (inr false)
        end in
      match p with
      | EmptyString => Some (inr (String.eqb t ""))
      | String c p' =>
          if (c =? "*")%char then
            match skip_stars p' with
            | EmptyString => Some (inr true)
            | q => star_loop (glob_match fuel q) t
            end
          else if (c =? "?")%char then
            match t with
            | EmptyString => Some (inr false)
            | String _ t' => glob_match fuel p' t'
            end
          else if (c =? "[")%char then
            match split_class p' with
            | None => Some (inl bad_pattern)
            | Some (cls, rest) =>
                match t with
                | EmptyString => Some (inr false)
                | String a t' =>
                    if Bool.eqb (class_loop a (class_body cls)) (negated cls)
                    then Some (inr false)
                    else glob_match fuel rest t'
                end
            end
          else if (c =? "\")%char then
            match p' with
            | EmptyString => Some (inl bad_pattern)
            | String c' p'' => literal c' p''
            end
          else literal c p'
      end
  end.

(** The fuel is never exhausted: see [glob_match_total]. *)
Definition redisGlobMatch (pattern text : string) : string + bool :=
  default (inl "out of fuel") (glob_match (S (String.length pattern)) pattern text).

(** ** Specification *)

(** The byte ranges a class denotes. *)
Fixpoint class_ranges (s : string) : list (ascii * ascii) :=
  match s with
  | EmptyString => []
  | String x s1 =>
      match s1 with
      | String d (String hi s') =>
          if (d =? "-")%char then (x, hi) :: class_ranges s' else (x, x) :: class_ranges s1
      | _ => (x, x) :: class_ranges s1
      end
  end.

Definition class_accepts (cls : string) (a : ascii) : Prop :=
  (∃ r, r ∈ class_ranges (class_body cls) ∧ char_in r.1 a r.2 = true)
  ↔ negated cls = false.

Definition special (c : ascii) : bool :=
  (c =? "*")%char || (c =? "?")%char || (c =? "[")%char || (c =? "\")%char.

(** What it means for a text to match a pattern. *)
Inductive glob : string → string → Prop :=
  | glob_nil : glob "" ""
  | glob_star_empty p t : glob p t → glob (String "*" p) t
  | glob_star_more p a t : glob (String "*" p) t → glob (String "*" p) (String a t)
  | glob_any p a t : glob p t → glob (String "?" p) (String a t)
  | glob_class p cls rest a t :
      split_class p = Some (cls, rest) → class_accepts cls a → glob rest t →
      glob (String "[" p) (String a t)
  | glob_escape c p t : glob p t → glob (String "\" (String c p)) (String c t)
  | glob_literal c p t : special c = false → glob p t → glob (String c p) (String c t).

(** Patterns whose classes are closed and whose escapes are complete. *)
Inductive glob_wf : string → Prop :=
  | wf_nil : glob_wf ""
  | wf_star p : glob_wf p → glob_wf (String "*" p)
  | wf_any p : glob_wf p → glob_wf (String "?" p)
  | wf_class p cls rest :
      split_class p = Some (cls, rest) → glob_wf rest → glob_wf (String "[" p)
  | wf_escape c p : glob_wf p → glob_wf (String "\" (String c p))
  | wf_literal c p : special c = false → glob_wf p → glob_wf (String c p).

(** ** Facts about the helpers *)

Lemma skip_stars_length p : (String.length (skip_stars p) <= String.length p)%nat.
Proof. induction p as [|c p IH]; simpl; [lia|]. case_match; simpl; lia. Qed.

Lemma split_class_length p cls rest :
  split_class p = Some (cls, rest) → (String.length rest < String.length p)%nat.
Proof.
  revert cls. induction p as [|c p IH]; intros cls; simpl; [done|].
  case_match; [intros; simplify_eq; lia|].
  destruct (split_class p) as [[cls' rest']|]; [|done].
  intros; simplify_eq. specialize (IH _ eq_refl). lia.
Qed.

Lemma glob_skip_stars p t : glob (String "*" (skip_stars p)) t ↔ glob (String "*" p) t.
Proof.
  induction p as [|c p IH]; [done|]. simpl.
  destruct (Ascii.eqb_spec c "*") as [->|Hc]; [|done]. rewrite IH. split.
  - by apply glob_star_empty.
  - clear IH. intros H. remember (String "*" (String "*" p)) as q eqn:Hq.
    revert Hq. induction H as [|p' t H _|p' a t H IH'| | | |c p' t Hs]; intros; simplify_eq.
    + done.
    + apply glob_star_more; auto.
Qed.

(** A leading star matches when the rest matches some suffix. *)
Fixpoint some_suffix (P : string → Prop) (t : string) : Prop :=
  P t ∨ match t with EmptyString => False | String _ t' => some_suffix P t' end.

Lemma glob_star_suffix p t : glob (String "*" p) t ↔ some_suffix (glob p) t.
Proof.
  split.
  - intros H. remember (String "*" p) as q eqn:Hq. revert Hq.
    induction H as [|p' t H _|p' a t H IH| | | |c p' t Hs]; intros; simplify_eq.
    + destruct t; simpl; auto.
    + simpl. right. auto.
  - revert p. induction t as [|a t IH]; intros p; simpl.
    + intros [H|[]]. by apply glob_star_empty.
    + intros [H|H]; [by apply glob_star_empty|]. apply glob_star_more. auto.
Qed.

Lemma class_loop_ranges a s :
  class_loop a s = true ↔ ∃ r, r ∈ class_ranges s ∧ char_in r.1 a r.2 = true.
Proof.
  assert (Hone : ∀ x, (a =? x)%char = char_in x a x).
  { intros x. unfold char_in. destruct (Ascii.eqb_spec a x) as [->|Hne].
    - by rewrite N.leb_refl.
    - destruct (N.leb_spec (N_of_ascii x) (N_of_ascii a)),
        (N.leb_spec (N_of_ascii a) (N_of_ascii x)); try done.
      exfalso. apply Hne, N_of_ascii_inj. lia. }
  assert (Hcons : ∀ x y l, (∃ r, r ∈ (x, y) :: l ∧ char_in r.1 a r.2 = true) ↔
            char_in x a y = true ∨ ∃ r, r ∈ l ∧ char_in r.1 a r.2 = true).
  { intros x y l. setoid_rewrite elem_of_cons. naive_solver. }
  assert (Hlen : ∀ n s, (String.length s <= n)%nat →
     class_loop a s = true ↔ ∃ r, r ∈ class_ranges s ∧ char_in r.1 a r.2 = true).
  { clear s. induction n as [|n IH]; intros [|x s1] Hn; simpl in Hn; try lia.
    1,2: simpl; setoid_rewrite elem_of_nil; naive_solver.
    destruct s1 as [|d [|hi s']].
    - simpl. rewrite Hcons, orb_true_iff, Hone. setoid_rewrite elem_of_nil. naive_solver.
    - cbn [class_loop class_ranges]. rewrite Hcons, orb_true_iff, Hone, (IH (String d "")); [done|simpl in *; lia].
    - cbn [class_loop class_ranges]. destruct (d =? "-")%char; rewrite Hcons, orb_true_iff.
      + rewrite (IH s'); [done|simpl in Hn; lia].
      + rewrite Hone. apply or_iff_compat_l. apply (IH (String d (String hi s'))). simpl in *; lia. }
  by apply (Hlen (String.length s)).
Qed.

Lemma class_accepts_loop cls a :
  class_accepts cls a ↔ Bool.eqb (class_loop a (class_body cls)) (negated cls) = false.
Proof.
  unfold class_accepts. rewrite <- class_loop_ranges.
  destruct (class_loop _ _), (negated cls); simpl; naive_solver.
Qed.

(** ** Correctness *)

Lemma glob_glob_wf p t : glob p t → glob_wf p.
Proof. induction 1; eauto using glob_wf. Qed.

Lemma some_suffix_ex P t : some_suffix P t → ∃ u, P u.
Proof. induction t; simpl; naive_solver. Qed.

(** Outcome [r] of matching text [t] decides [P], and is an error only when
    [W] fails. *)
Definition decides (P W : Prop) (r : option (string + bool)) : Prop :=
  ∃ v, r = Some v ∧ (v = inr true ↔ P) ∧ (W → ∃ b, v = inr b).

Lemma star_loop_spec (f : string → option (string + bool)) (P : string → Prop) (W : Prop) t :
  (∀ u, decides (P u) W (f u)) → (∀ u, P u → W) →
  decides (some_suffix P t) W (star_loop f t).
Proof.
  intros Hf HW. induction t as [|a t IH]; simpl.
  - destruct (Hf "") as ([e|[]] & -> & Hr & Hw); eexists; (split; [done|]); naive_solver.
  - destruct (Hf (String a t)) as ([e|[]] & Hfu & Hr & Hw); rewrite Hfu.
    + eexists. split; [done|]. split; [|done]. split; [done|].
      intros Hs. destruct (Hw (ltac:(destruct Hs as [?|[? ?]%some_suffix_ex]; eauto))). done.
    + eexists. split; [done|]. naive_solver.
    + destruct IH as (r & -> & Hr' & Hw'). eexists. split; [done|].
      split; [|done]. rewrite Hr'. naive_solver.
Qed.

Lemma decides_iff P P' W W' r : (P ↔ P') → (W' → W) → decides P W r → decides P' W' r.
Proof. intros HP HW (v & -> & H1 & H2). eexists. split; [done|]. naive_solver. Qed.

Lemma decides_bool (P W : Prop) (b : bool) : (b = true ↔ P) → decides P W (Some (inr b)).
Proof. intros H. eexists. split; [done|]. split; [|eauto]. rewrite <- H. naive_solver. Qed.

Lemma decides_bad (P W : Prop) e : ¬ P → ¬ W → decides P W (Some (inl e)).
Proof. intros H1 H2. eexists. split; [done|]. naive_solver. Qed.

Ltac glob_inv :=
  repeat match goal with
  | H : glob (String _ _) _ |- _ => inv H
  | H : glob "" _ |- _ => inv H
  | H : glob_wf (String _ _) |- _ => inv H
  end.

Lemma glob_literal_step fuel c p t :
  special c = false →
  (∀ t', decides (glob p t') (glob_wf p) (glob_match fuel p t')) →
  decides (glob (String c p) t) (glob_wf (String c p))
    match t with
    | String a t' => if (c =? a)%char then glob_match fuel p t' else Some (inr false)
    | EmptyString => Some (inr false)
    end.
Proof.
  intros Hc IH. destruct t as [|a t].
  { apply decides_bool. split; [done|]. intros. by glob_inv. }
  destruct (Ascii.eqb_spec c a) as [->|Hne].
  - eapply decides_iff; [..|apply IH].
    + split; [by apply glob_literal|]. intros. by glob_inv.
    + intros. by glob_inv.
  - apply decides_bool. split; [done|]. intros. by glob_inv.
Qed.

Lemma glob_wf_skip_stars p : glob_wf p → glob_wf (skip_stars p).
Proof.
  induction 1; simpl; eauto using glob_wf.
  case_match eqn:E; [done|]. by constructor.
Qed.

Lemma glob_match_spec fuel p t :
  (String.length p < fuel)%nat →
  decides (glob p t) (glob_wf p) (glob_match fuel p t).
Proof.
  revert p t. induction fuel as [|fuel IH]; intros p t Hf; [lia|].
  destruct p as [|c p]; cbn [glob_match String.length] in *.
  { apply decides_bool. rewrite String.eqb_eq. split; [intros ->; constructor|]. intros. by glob_inv. }
  destruct (Ascii.eqb_spec c "*") as [->|Hstar].
  { pose proof (skip_stars_length p) as Hl.
    assert (Hw : glob_wf (String "*" p) → glob_wf (skip_stars p)).
    { intros Hw. glob_inv. by apply glob_wf_skip_stars. }
    destruct (skip_stars p) as [|d q] eqn:Hq.
    - apply decides_bool. split; [|done]. intros _. apply glob_skip_stars. rewrite Hq.
      apply glob_star_suffix. clear. induction t; simpl; [left; constructor|by right].
    - rewrite <- Hq in Hl, Hw |- *. eapply decides_iff; [|done|apply star_loop_spec].
      + rewrite <- glob_skip_stars. symmetry. apply glob_star_suffix.
      + intros u. apply IH. lia.
      + intros u. apply glob_glob_wf. }
  destruct (Ascii.eqb_spec c "?") as [->|Hany].
  { destruct t as [|a t].
    { apply decides_bool. split; [done|]. intros. by glob_inv. }
    eapply decides_iff; [..|apply IH; lia].
    - split; [by constructor|]. intros. by glob_inv.
    - intros. by glob_inv. }
  destruct (Ascii.eqb_spec c "[") as [->|Hbr].
  { destruct (split_class p) as [[cls rest]|] eqn:Hs.
    2: { apply decides_bad; intros ?; glob_inv; first [done|congruence]. }
    destruct t as [|a t].
    { apply decides_bool. split; [done|]. intros. by glob_inv. }
    pose proof (class_accepts_loop cls a) as Hacc.
    destruct (Bool.eqb _ _).
    - apply decides_bool. split; [done|]. intros. glob_inv; simplify_eq; naive_solver.
    - pose proof (split_class_length _ _ _ Hs).
      eapply decides_iff; [..|apply IH; lia].
      + split; [intros; eapply glob_class; naive_solver|]. intros. by glob_inv; simplify_eq.
      + intros. by glob_inv; simplify_eq. }
  destruct (Ascii.eqb_spec c "\") as [->|Hesc].
  { destruct p as [|c p].
    { apply decides_bad; intros ?; by glob_inv. }
    cbn [String.length] in *. destruct t as [|a t].
    { apply decides_bool. split; [done|]. intros. by glob_inv. }
    destruct (Ascii.eqb_spec c a) as [->|Hne].
    - eapply decides_iff; [..|apply IH; lia].
      + split; [by constructor|]. intros. by glob_inv.
      + intros. by glob_inv.
    - apply decides_bool. split; [done|]. intros. by glob_inv. }
  apply glob_literal_step; [|intros; apply IH; lia].
  unfold special. by rewrite !orb_false_iff, !Ascii.eqb_neq.
Qed.

(** The matcher is total: the fuel is enough for every pattern. *)
Lemma glob_match_total p t : is_Some (glob_match (S (String.length p)) p t).
Proof. destruct (glob_match_spec (S (String.length p)) p t) as (v & -> & _); [lia|eauto]. Qed.

(** The answer is true exactly for the texts that match. *)
Lemma redisGlobMatch_spec p t : redisGlobMatch p t = inr true ↔ glob p t.
Proof.
  unfold redisGlobMatch.
  destruct (glob_match_spec (S (String.length p)) p t) as (v & -> & H & _); [lia|]. done.
Qed.

(** A well-formed pattern is never refused. *)
Lemma redisGlobMatch_wf p t : glob_wf p → ∃ b, redisGlobMatch p t = inr b.
Proof.
  unfold redisGlobMatch. intros Hw.
  destruct (glob_match_spec (S (String.length p)) p t) as (v & -> & _ & H); [lia|]. auto.
Qed.

(** The only error is "bad pattern". *)
Lemma glob_match_error fuel p t e : glob_match fuel p t = Some (inl e) → e = bad_pattern.
Proof.
  revert p t. induction fuel as [|fuel IH]; intros p t; [done|]. cbn [glob_match].
  assert (Hstar : ∀ q u, star_loop (glob_match fuel q) u = Some (inl e) → e = bad_pattern).
  { intros q u. induction u as [|a u IHu]; simpl;
      destruct (glob_match fuel q _) as [[|[]]|] eqn:E; naive_solver. }
  repeat case_match; intros; simplify_eq; eauto.
Qed.

(** C23: The KEYS matcher decides the declarative meaning of patterns: it
    answers true exactly on the texts that match, a well-formed pattern always
    gets an answer, and the only error is "bad pattern" (the recursion ends on
    every input). *)
Theorem redisGlobMatch_correct p t :
  (redisGlobMatch p t = inr true ↔ glob p t)
  ∧ (glob_wf p → ∃ b, redisGlobMatch p t = inr b)
  ∧ (∀ e, redisGlobMatch p t = inl e → e = bad_pattern).
Proof.
  split; [apply redisGlobMatch_spec|]. split; [apply redisGlobMatch_wf|].
  intros e. unfold redisGlobMatch. destruct (glob_match_total p t) as [v Hv]. rewrite Hv.
  simpl. intros ->. by apply glob_match_error in Hv.
Qed.

Example glob_ex :
  redisGlobMatch "h[a-e]l*?o\*" "hello  wo*" = inr true
  ∧ redisGlobMatch "[^a]x" "ax" = inr false
  ∧ redisGlobMatch "a[" "ab" = inl bad_pattern.
Proof. vm_compute. done. Qed.
