(* ===== verification/Sha1.v ===== *)
(** * SHA-1 and hexadecimal, of Go's standard library

    [crypto/sha1] and [hex.EncodeToString], by which store/lua.go names a
    script.  Words are 32-bit integers. *)

From S2P Require Import Prelude GoStd.
From Stdlib Require Import Lia ZArith Ascii.

Definition wrap32 (z : Z) : Z := z mod 2 ^ 32.
Definition rotl (n z : Z) : Z := Z.lor (wrap32 (Z.shiftl z n)) (Z.shiftr z (32 - n)).

Definition bytes_of (s : string) : list Z :=
  map (λ c, Z.of_N (N_of_ascii c)) (String.list_ascii_of_string s).

(** The message, a 1 bit, zeros, and the length in bits on 64 bits: a multiple
    of 64 bytes. *)
Definition pad (msg : list Z) : list Z :=
  let len := Z.of_nat (length msg) in
  msg ++ [0x80] ++ replicate (Z.to_nat ((55 - len) mod 64)) 0
      ++ bytes_of (PutUint64 (wrapu64 (8 * len))).

Fixpoint words_of (bs : list Z) : list Z :=
  match bs with
  | a :: b :: c :: d :: bs' => (((a * 256 + b) * 256 + c) * 256 + d) :: words_of bs'
  | _ => []
  end.

(** The message schedule, last word first: each new word is made of the 16
    before it. *)
Fixpoint extend (n : nat) (rev : list Z) : list Z :=
  match n with
  | O => rev
  | S n =>
      let w i := nth i rev 0 in
      extend n (rotl 1 (Z.lxor (Z.lxor (w 2%nat) (w 7%nat)) (Z.lxor (w 13%nat) (w 15%nat))) :: rev)
  end.
Definition schedule (block : list Z) : list Z := reverse (extend 64 (reverse block)).

Definition state : Type := Z * Z * Z * Z * Z.

Definition round (st : state) (tw : nat * Z) : state :=
  let '(a, b, c, d, e) := st in
  let '(t, w) := tw in
  let '(f, k) :=
    if (t <? 20)%nat then (Z.lor (Z.land b c) (Z.land (Z.lxor b (2 ^ 32 - 1)) d), 0x5A827999)
    else if (t <? 40)%nat then (Z.lxor (Z.lxor b c) d, 0x6ED9EBA1)
    else if (t <? 60)%nat then
      (Z.lor (Z.lor (Z.land b c) (Z.land b d)) (Z.land c d), 0x8F1BBCDC)
    else (Z.lxor (Z.lxor b c) d, 0xCA62C1D6) in
  (wrap32 (rotl 5 a + f + e + k + w), a, rotl 30 b, c, d).

Definition process (st : state) (block : list Z) : state :=
  let '(a, b, c, d, e) := st in
  let '(a', b', c', d', e') := foldl round st (zip (seq 0 80) (schedule block)) in
  (wrap32 (a + a'), wrap32 (b + b'), wrap32 (c + c'), wrap32 (d + d'), wrap32 (e + e')).

Fixpoint blocks (n : nat) (st : state) (ws : list Z) : state :=
  match n with
  | O => st
  | S n => blocks n (process st (take 16 ws)) (drop 16 ws)
  end.

Definition sha1_init : state := (0x67452301, 0xEFCDAB89, 0x98BADCFE, 0x10325476, 0xC3D2E1F0).

Definition sha1_words (msg : string) : state :=
  let bs := pad (bytes_of msg) in
  blocks (length bs / 64) sha1_init (words_of bs).

Definition hex_digit (d : Z) : ascii :=
  ascii_of_N (Z.to_N (if d <? 10 then 48 + d else 87 + d)).

(** The digits of a word, most significant first. *)
Fixpoint hex_word (n : nat) (w : Z) : string :=
  match n with
  | O => EmptyString
  | S n => String (hex_digit (w / 16 ^ Z.of_nat n mod 16)) (hex_word n w)
  end.

(** [hex.EncodeToString(h.Sum(nil))] *)
Definition sha1_hex (msg : string) : string :=
  let '(a, b, c, d, e) := sha1_words msg in
  hex_word 8 a +:+ hex_word 8 b +:+ hex_word 8 c +:+ hex_word 8 d +:+ hex_word 8 e.

(** The test vectors of FIPS 180. *)
Example sha1_ex :
  sha1_hex "abc" = "a9993e364706816aba3e25717850c26c9cd0d89d"
  ∧ sha1_hex "" = "da39a3ee5e6b4b0d3255bfef95601890afd80709"
  ∧ sha1_hex "abcdbcdecdefdefgefghfghighijhijkijkljklmklmnlmnomnopnopq"
    = "84983e441c3bd26ebaae4aa1f95129e5e54670f1".
Proof. vm_compute. done. Qed.

Lemma hex_word_length n w : String.length (hex_word n w) = n.
Proof. induction n; simpl; auto. Qed.

Lemma append_length a b : String.length (a +:+ b) = (String.length a + String.length b)%nat.
Proof. induction a as [|c a IH]; [done|]. change (String c a +:+ b) with (String c (a +:+ b)). simpl. by rewrite IH. Qed.

Lemma sha1_hex_length msg : String.length (sha1_hex msg) = 40%nat.
Proof.
  unfold sha1_hex. destruct (sha1_words msg) as [[[[a b] c] d] e].
  by rewrite !append_length, !hex_word_length.
Qed.
