(* ===== verification/Keys.v ===== *)
(** * The key spaces of the store

    One BadgerDB holds the user data (prefix K for values and T for their
    types, store/fsm.go), the Raft log (L) and the Raft stable store (S,
    store/raft_store.go), and the Lua scripts (SCRIPT:, store/lua.go). *)

From S2P Require Import Prelude GoStd.
From Stdlib Require Import Lia Ascii.

Definition prefixUser : ascii := "K".
Definition prefixType : ascii := "T".
Definition prefixLog : ascii := "L".
Definition prefixStable : ascii := "S".
Definition scriptPrefix : string := "SCRIPT:".

Definition userKey (key : string) : string := String prefixUser key.
Definition typeKey (key : string) : string := String prefixType key.
Definition logKey (index : Z) : string := String prefixLog (PutUint64 index).
Definition stableKey (key : string) : string := String prefixStable key.
Definition getScriptKey (sha : string) : string := scriptPrefix +:+ sha.

(** The spaces a command of the data model may touch. *)
Definition data_key (k : string) : bool :=
  match k with
  | String c _ => (c =? prefixUser)%char || (c =? prefixType)%char
  | EmptyString => false
  end.
Definition script_key (k : string) : bool := has_prefix scriptPrefix k.
(** The spaces of Raft. *)
Definition raft_key (k : string) : bool :=
  match k with
  | String c _ => (c =? prefixLog)%char || (c =? prefixStable)%char
  | EmptyString => false
  end.

#[export] Instance userKey_inj : Inj (=) (=) userKey.
Proof. intros a b. by intros [= ->]. Qed.
#[export] Instance typeKey_inj : Inj (=) (=) typeKey.
Proof. intros a b. by intros [= ->]. Qed.
#[export] Instance stableKey_inj : Inj (=) (=) stableKey.
Proof. intros a b. by intros [= ->]. Qed.

Lemma logKey_inj i j :
  0 <= i < 2 ^ 64 → 0 <= j < 2 ^ 64 → logKey i = logKey j → i = j.
Proof.
  intros Hi Hj H. apply PutUint64_inj; [done..|].
  by apply (f_equal (λ s, match s with String _ r => r | EmptyString => "" end)) in H.
Qed.

Lemma logKey_le i j :
  0 <= i < 2 ^ 64 → 0 <= j < 2 ^ 64 → bytes_le (logKey i) (logKey j) ↔ i <= j.
Proof. intros Hi Hj. rewrite <- PutUint64_le by done. done. Qed.

Lemma userKey_typeKey a b : userKey a ≠ typeKey b.
Proof. done. Qed.
Lemma typeKey_userKey a b : typeKey a ≠ userKey b.
Proof. done. Qed.

Lemma data_userKey k : data_key (userKey k) = true.
Proof. done. Qed.
Lemma data_typeKey k : data_key (typeKey k) = true.
Proof. done. Qed.

Lemma data_not_raft k : data_key k = true → raft_key k = false.
Proof.
  destruct k as [|c k]; [done|]. simpl. rewrite orb_true_iff, !Ascii.eqb_eq.
  by intros [-> | ->].
Qed.

Lemma script_getScriptKey sha : script_key (getScriptKey sha) = true.
Proof. by destruct sha. Qed.

(** The scripts live in the space of the stable store. *)
Lemma script_in_stable_space sha : getScriptKey sha = stableKey ("CRIPT:" +:+ sha).
Proof. done. Qed.

Create HintDb badis.
#[export] Hint Resolve userKey_typeKey typeKey_userKey data_userKey data_typeKey : badis.
