(* ===== verification/Fsm.v ===== *)
(** * The finite state machine: store/fsm.go

    The commands Raft applies ([applyCmdInTxn] and its branches) and the
    read-only methods, over the BadgerDB interface.  An [Env] gives what a
    command reads besides the store: the clock, sampled once per command, and
    the order in which Go ranges over a map, which the language leaves open
    (one order per [range] statement of a command). *)

From S2P Require Import Prelude GoStd Badger Codec Glob Keys.
From Stdlib Require Import Lia ZArith.

Inductive gerr :=
  | EDb (e : db_err)
  | EWrongType
  | EMsg (msg : string)
  (** A run-time panic of the Go program. *)
  | EPanic (msg : string).

(** The values a command returns as [interface{}]. *)
Inductive goval :=
  | GNil
  | GString (s : string)
  | GBytes (s : string)
  | GInt (z : Z)
  | GInt64 (z : Z)
  | GStrings (l : list string)
  | GInt64s (l : list Z)
  | GArray (l : list goval).

(** [fmt.Sprintf("%v", v)] *)
Fixpoint sprint (v : goval) : string :=
  match v with
  | GNil => "<nil>"
  | GString s => s
  | GBytes s =>
      "[" +:+ String.concat " "
                (map (λ c, FormatInt (Z.of_N (Ascii.N_of_ascii c))) (String.list_ascii_of_string s))
          +:+ "]"
  | GInt n | GInt64 n => FormatInt n
  | GStrings l => "[" +:+ String.concat " " l +:+ "]"
  | GInt64s l => "[" +:+ String.concat " " (map FormatInt l) +:+ "]"
  | GArray l => "[" +:+ String.concat " " (map sprint l) +:+ "]"
  end.

Record Env := mkEnv {
  now : Z;
  range : nat → gset string → list string;
}.

(** The clock is a time Go can represent in nanoseconds and a range visits
    every key once. *)
Definition env_ok (en : Env) : Prop :=
  0 <= now en <= max_int64 ∧ ∀ i s, range en i s ≡ₚ elements s.

Definition err_range : string := "value is not an integer or out of range".

Section fsm.
Context `{B : BadgerOps} `{C : Codec}.

Abbreviation FM := (M txn gerr).

(** ErrWrongType and the other errors as text. *)
Definition err_text (e : gerr) : string :=
  match e with
  | EDb e => db_err_text e
  | EWrongType => "WRONGTYPE Operation against a key holding the wrong kind of value"
  | EMsg m => m
  | EPanic m => m
  end.

(** ** Calls of the store *)

Definition t_Get (en : Env) (k : string) : FM (db_err + entry) := λ t,
  (inr (txn_Get (now en) k t), t).
Definition t_SetEntry (k : string) (e : entry) : FM unit := λ t,
  match txn_SetEntry k e t with
  | inl er => (inl (EDb er), t)
  | inr t' => (inr tt, t')
  end.
Definition t_Delete (k : string) : FM unit := λ t,
  match txn_Delete k t with
  | inl er => (inl (EDb er), t)
  | inr t' => (inr tt, t')
  end.
(** [_ = txn.Delete(k)] *)
Definition t_Delete_ (k : string) : FM unit := λ t,
  match txn_Delete k t with
  | inl _ => (inr tt, t)
  | inr t' => (inr tt, t')
  end.
(** [val, _ := item.ValueCopy(nil)], as the bytes of the slice. *)
Definition valueCopy_ (item : entry) : string := default "" (item_ValueCopy item).1.
(** [val, err := item.ValueCopy(nil)]; a nil slice is [None]. *)
Definition valueCopy (item : entry) : FM (option string) :=
  match item_ValueCopy item with
  | (o, None) => ret o
  | (_, Some e) => raise (EDb e)
  end.

(** ** Helpers *)

(** Each [WithTTL] reads the clock: at [en1] for the value entry, at [en2] for
    the type entry. *)
Definition setValue_at (en1 en2 : Env) (key val typ : string) (ttlMs : Z) : FM unit :=
  let expiry (en : Env) := if 0 <? ttlMs then WithTTL (now en) (duration_ms ttlMs) else 0 in
  t_SetEntry (userKey key) (Entry val (expiry en1));;;
  t_SetEntry (typeKey key) (Entry typ (expiry en2)).

(** [setValue] in a command, whose clock stands still. *)
Definition setValue (en : Env) : string → string → string → Z → FM unit := setValue_at en en.

(** [time.Until] reads the clock. *)
Definition remainingTTLMs (en : Env) (item : entry) : Z :=
  if e_exp item =? 0 then 0
  else
    let ttl := Duration_Milliseconds (time_Until (now en) (wrap64 (e_exp item))) in
    if ttl <? 1 then 1 else ttl.

(** In a command [en] is also the instant at which the value was found: the type
    entry does not expire in between. *)
Definition getExistingType (en : Env) (key : string) : FM string :=
  r <- t_Get en (typeKey key);;
  match r with
  | inl ErrKeyNotFound => ret "string"
  | inl e => raise (EDb e)
  | inr item => v <- valueCopy item;; ret (default "" v)
  end.

Definition ensureExistingType (en : Env) (key want : string) : FM unit :=
  typ <- getExistingType en key;;
  if String.eqb typ want then ret tt else raise EWrongType.

Definition sliceList (l : list string) (start stop : Z) : list string :=
  let len := Z.of_nat (length l) in
  if len =? 0 then []
  else
    let start := if start <? 0 then len + start else start in
    let stop := if stop <? 0 then len + stop else stop in
    let start := if start <? 0 then 0 else start in
    let stop := if len <=? stop then len - 1 else stop in
    if (stop <? start) || (len <=? start) then []
    else take (Z.to_nat (stop + 1 - start)) (drop (Z.to_nat start) l).

Definition lift_dec {A} (r : string + A) : FM A :=
  match r with inl m => raise (EMsg m) | inr a => ret a end.

(** ** SET, GETSET, APPEND *)

Definition cmd_set (en : Env) (cmd : Command) : FM goval :=
  let op := Op cmd in
  match Args cmd with
  | [] => raise (EMsg (op +:+ " missing args"))
  | arg0 :: _ =>
      r <- t_Get en (userKey (Key cmd));;
      st <- match r with
            | inr item =>
                ensureExistingType en (Key cmd) "string";;;
                let oldVal :=
                  if ReturnOld cmd || str_in op ["GETSET"; "APPEND"]
                  then valueCopy_ item else "" in
                ret (true, oldVal, remainingTTLMs en item)
            | inl ErrKeyNotFound => ret (false, "", 0)
            | inl e => raise (EDb e)
            end;;
      let '(exists_, oldVal, oldTTLMs) := st in
      let setKey :=
        negb (String.eqb (Condition cmd) "NX" && exists_)
        && negb (String.eqb (Condition cmd) "XX" && negb exists_) in
      let append := String.eqb op "APPEND" in
      let newVal := if append then oldVal +:+ arg0 else arg0 in
      (if setKey then
         let ttlMs := if (TTLMs cmd =? 0) && append then oldTTLMs else TTLMs cmd in
         setValue en (Key cmd) newVal "string" ttlMs
       else ret tt);;;
      if append then ret (GInt (Z.of_nat (String.length newVal)))
      else if ReturnOld cmd || String.eqb op "GETSET" then
        ret (if exists_ then GBytes oldVal else GNil)
      else if negb setKey then ret GNil
      else ret (GString "OK")
  end.

(** ** MSET *)

Fixpoint mset_loop (en : Env) (args : list string) : FM unit :=
  match args with
  | k :: v :: args' => setValue en k v "string" 0;;; mset_loop en args'
  | _ => ret tt
  end.

Definition cmd_mset (en : Env) (cmd : Command) : FM goval :=
  if negb (Nat.even (length (Args cmd))) then raise (EMsg "MSET invalid args")
  else mset_loop en (Args cmd);;; ret (GString "OK").

(** ** DEL *)

Definition del_one (en : Env) (count : Z) (k : string) : FM Z :=
  r <- t_Get en (userKey k);;
  match r with
  | inl ErrKeyNotFound => ret count
  | inl e => raise (EDb e)
  | inr _ => t_Delete (userKey k);;; t_Delete_ (typeKey k);;; ret (count + 1)
  end.

Definition cmd_del (en : Env) (cmd : Command) : FM goval :=
  count <- foldM (del_one en) 0 (Args cmd);;
  count <- (if (match Args cmd with [] => true | _ => false end)
               && negb (String.eqb (Key cmd) "")
            then
              r <- t_Get en (userKey (Key cmd));;
              match r with
              | inr _ => λ t, match txn_Delete (userKey (Key cmd)) t with
                              | inr t' => (inr (count + 1), t')
                              | inl _ => (inr count, t)
                              end
              | inl _ => ret count
              end
            else ret count);;
  ret (GInt count).

(** ** FLUSHDB *)

Definition iter_keys (en : Env) (prefix : string) (t : txn) : list string :=
  take_while (has_prefix prefix) (iter_Seek (now en) false prefix t).

(** The iterator reads the transaction as it was when it was created. *)
Definition delete_prefix (en : Env) (prefix : string) : FM unit := λ t,
  foldM (λ _ k, t_Delete k) tt (iter_keys en prefix t) t.

Definition cmd_flushdb (en : Env) (cmd : Command) : FM goval :=
  delete_prefix en (String prefixUser "");;;
  delete_prefix en (String prefixType "");;;
  ret (GString "OK").

(** ** INCR, DECR, INCRBY, DECRBY *)

(** The amount to add: the argument of INCRBY and DECRBY, else 1. *)
Definition incr_delta (cmd : Command) : FM Z :=
  if str_in (Op cmd) ["INCRBY"; "DECRBY"] then
    match Args cmd with
    | [] => raise (EPanic "index out of range")
    | a :: _ =>
        match ParseInt a with
        | (d, None) => ret d
        | (_, Some _) => raise (EMsg err_range)
        end
    end
  else ret 1.

Definition cmd_incr (en : Env) (cmd : Command) : FM goval :=
  r <- t_Get en (userKey (Key cmd));;
  st <- match r with
        | inr item =>
            ensureExistingType en (Key cmd) "string";;;
            match ParseInt (valueCopy_ item) with
            | (parsed, None) => ret (parsed, remainingTTLMs en item)
            | (_, Some _) => raise (EMsg err_range)
            end
        | inl ErrKeyNotFound => ret (0, 0)
        | inl e => raise (EDb e)
        end;;
  let '(val, oldTTLMs) := st in
  delta <- incr_delta cmd;;
  let val := if str_in (Op cmd) ["INCR"; "INCRBY"] then wrap64 (val + delta)
             else wrap64 (val - delta) in
  setValue en (Key cmd) (FormatInt val) "string" oldTTLMs;;;
  ret (GInt64 val).

(** ** EXPIRE, PERSIST *)

Definition cmd_expire (en : Env) (cmd : Command) : FM goval :=
  r <- t_Get en (userKey (Key cmd));;
  match r with
  | inl ErrKeyNotFound => ret (GInt 0)
  | inl e => raise (EDb e)
  | inr item =>
      t_SetEntry (userKey (Key cmd))
        (Entry (valueCopy_ item) (WithTTL (now en) (duration_ms (TTLMs cmd))));;;
      ret (GInt 1)
  end.

Definition cmd_persist (en : Env) (cmd : Command) : FM goval :=
  r <- t_Get en (userKey (Key cmd));;
  match r with
  | inl ErrKeyNotFound => ret (GInt 0)
  | inl e => raise (EDb e)
  | inr item =>
      if e_exp item =? 0 then ret (GInt 0)
      else
        tr <- t_Get en (typeKey (Key cmd));;
        let typ := match tr with inr typeItem => valueCopy_ typeItem | inl _ => "string" end in
        setValue en (Key cmd) (valueCopy_ item) typ 0;;;
        ret (GInt 1)
  end.
End fsm.
