(* ===== verification/FsmColl.v ===== *)
(** * Hashes, lists and sets: the collection commands of store/fsm.go

    A hash is stored as a serialized map, a list as a serialized slice and a
    set as the serialized slice of its members. *)

From S2P Require Import Prelude GoStd Badger Codec Keys Fsm.
From Stdlib Require Import Lia ZArith.

Section collections.
Context `{B : BadgerOps} `{C : Codec}.

Abbreviation FM := (M txn gerr).

(** Read the collection under a key: the type check, the remaining TTL and
    the decoding that open every collection command; [None] when the key is
    not there. *)
Definition load {A} `{!Msgpack C A} (typ : string) (en : Env) (key : string)
    : FM (option (A * Z)) :=
  r <- t_Get en (userKey key);;
  match r with
  | inr item =>
      ensureExistingType en key typ;;;
      a <- lift_dec (decodeMsgpack (valueCopy_ item));;
      ret (Some (a, remainingTTLMs en item))
  | inl ErrKeyNotFound => ret None
  | inl e => raise (EDb e)
  end.
Definition loadHash : Env → string → FM (option (gmap string string * Z)) := load "hash".
Definition loadList : Env → string → FM (option (list string * Z)) := load "list".
(** The members of a set as they are stored. *)
Definition loadSet : Env → string → FM (option (list string * Z)) := load "set".

(** [_ = txn.Delete(ukey); _ = txn.Delete(typeKey(cmd.Key))] *)
Definition dropKey (key : string) : FM unit :=
  t_Delete_ (userKey key);;; t_Delete_ (typeKey key).

(** ** HSET, HSETNX, HDEL *)

Fixpoint hset_loop (nx : bool) (args : list string) (hash : gmap string string) (count : Z)
    : gmap string string * Z :=
  match args with
  | field :: v :: args' =>
      let ok := bool_decide (is_Some (hash !! field)) in
      if nx && ok then hset_loop nx args' hash count
      else hset_loop nx args' (<[field := v]> hash) (if ok then count else count + 1)
  | _ => (hash, count)
  end.

Definition cmd_hset (en : Env) (cmd : Command) : FM goval :=
  if negb (Nat.even (length (Args cmd))) then raise (EMsg (Op cmd +:+ " invalid args"))
  else
    o <- loadHash en (Key cmd);;
    let '(hash, oldTTLMs) := default (∅, 0) o in
    let '(hash, count) := hset_loop (String.eqb (Op cmd) "HSETNX") (Args cmd) hash 0 in
    setValue en (Key cmd) (encodeMsgpack hash) "hash" oldTTLMs;;;
    ret (GInt count).

Fixpoint hdel_loop (args : list string) (hash : gmap string string) (count : Z)
    : gmap string string * Z :=
  match args with
  | field :: args' =>
      if bool_decide (is_Some (hash !! field))
      then hdel_loop args' (delete field hash) (count + 1)
      else hdel_loop args' hash count
  | [] => (hash, count)
  end.

Definition cmd_hdel (en : Env) (cmd : Command) : FM goval :=
  o <- loadHash en (Key cmd);;
  match o with
  | None => ret (GInt 0)
  | Some (hash, oldTTLMs) =>
      let '(hash, count) := hdel_loop (Args cmd) hash 0 in
      (if bool_decide (hash = ∅) then dropKey (Key cmd)
       else setValue en (Key cmd) (encodeMsgpack hash) "hash" oldTTLMs);;;
      ret (GInt count)
  end.

(** ** LPUSH, RPUSH, LPUSHX, RPUSHX *)

Definition push_loop (left : bool) (args l : list string) : list string :=
  foldl (λ l arg, if left then arg :: l else l ++ [arg]) l args.

Definition cmd_push (en : Env) (cmd : Command) : FM goval :=
  o <- loadList en (Key cmd);;
  match o with
  | None =>
      if str_in (Op cmd) ["LPUSHX"; "RPUSHX"] then ret (GInt 0)
      else
        let l := push_loop (str_in (Op cmd) ["LPUSH"; "LPUSHX"]) (Args cmd) [] in
        setValue en (Key cmd) (encodeMsgpack l) "list" 0;;;
        ret (GInt (Z.of_nat (length l)))
  | Some (l, oldTTLMs) =>
      let l := push_loop (str_in (Op cmd) ["LPUSH"; "LPUSHX"]) (Args cmd) l in
      setValue en (Key cmd) (encodeMsgpack l) "list" oldTTLMs;;;
      ret (GInt (Z.of_nat (length l)))
  end.

(** Write a list back, or remove the key when nothing is left. *)
Definition storeList (en : Env) (key : string) (l : list string) (ttlMs : Z) : FM unit :=
  match l with
  | [] => dropKey key
  | _ => setValue en key (encodeMsgpack l) "list" ttlMs
  end.

(** ** LPOP, RPOP *)

(** The number of elements asked for: 1 without an argument. *)
Definition pop_count (cmd : Command) : FM Z :=
  match Args cmd with
  | [] => ret 1
  | a :: _ =>
      match Atoi a with
      | (parsed, None) => if parsed <? 0 then raise (EMsg err_range) else ret parsed
      | (_, Some _) => raise (EMsg err_range)
      end
  end.

(** The popped elements and the rest; [popped[i] = list[len(list)-1-i]] on
    the right. *)
Definition pop_split (left : bool) (n : nat) (l : list string) : list string * list string :=
  if left then (take n l, drop n l) else (take n (reverse l), take (length l - n) l).

Definition pop_reply (cmd : Command) (popped : list string) : FM goval :=
  match Args cmd with
  | [] => match popped with
          | p :: _ => ret (GBytes p)
          | [] => raise (EPanic "index out of range")
          end
  | _ => ret (GStrings popped)
  end.

Definition cmd_pop (en : Env) (cmd : Command) : FM goval :=
  o <- loadList en (Key cmd);;
  let '(l, oldTTLMs) := default ([], 0) o in
  match l with
  | [] => ret GNil
  | _ =>
      count <- pop_count cmd;;
      let len := Z.of_nat (length l) in
      let count := if len <? count then len else count in
      let '(popped, rest) := pop_split (String.eqb (Op cmd) "LPOP") (Z.to_nat count) l in
      storeList en (Key cmd) rest oldTTLMs;;;
      pop_reply cmd popped
  end.

(** ** LTRIM, LREM *)

Definition cmd_ltrim (en : Env) (cmd : Command) : FM goval :=
  o <- loadList en (Key cmd);;
  let '(l, oldTTLMs) := default ([], 0) o in
  match Args cmd with
  | a0 :: a1 :: _ =>
      storeList en (Key cmd) (sliceList l (Atoi a0).1 (Atoi a1).1) oldTTLMs;;;
      ret (GString "OK")
  | _ => raise (EPanic "index out of range")
  end.

Fixpoint lrem_forward (needle : string) (limit : Z) (l : list string) (count : Z)
    : list string * Z :=
  match l with
  | [] => ([], count)
  | v :: l' =>
      if String.eqb v needle && ((limit =? 0) || (count <? limit))
      then lrem_forward needle limit l' (count + 1)
      else let '(kept, n) := lrem_forward needle limit l' count in (v :: kept, n)
  end.

(** The loop of the negative limits, from the last element to the first. *)
Fixpoint lrem_backward (needle : string) (limit : Z) (rl : list string)
    (kept : list string) (count : Z) : list string * Z :=
  match rl with
  | [] => (kept, count)
  | v :: rl' =>
      if String.eqb v needle && (count <? wrap64 (- limit))
      then lrem_backward needle limit rl' kept (count + 1)
      else lrem_backward needle limit rl' (v :: kept) count
  end.

Definition lrem (needle : string) (limit : Z) (l : list string) : list string * Z :=
  if 0 <=? limit then lrem_forward needle limit l 0
  else lrem_backward needle limit (reverse l) [] 0.

Definition cmd_lrem (en : Env) (cmd : Command) : FM goval :=
  o <- loadList en (Key cmd);;
  let '(l, oldTTLMs) := default ([], 0) o in
  match Args cmd with
  | a0 :: needle :: _ =>
      let '(kept, count) := lrem needle (Atoi a0).1 l in
      storeList en (Key cmd) kept oldTTLMs;;;
      ret (GInt count)
  | _ => raise (EPanic "index out of range")
  end.

(** ** SADD, SREM, SPOP *)

Fixpoint sadd_loop (args : list string) (set : gset string) (count : Z) : gset string * Z :=
  match args with
  | [] => (set, count)
  | m :: args' =>
      if bool_decide (m ∈ set) then sadd_loop args' set count
      else sadd_loop args' ({[m]} ∪ set) (count + 1)
  end.

Definition cmd_sadd (en : Env) (cmd : Command) : FM goval :=
  o <- loadSet en (Key cmd);;
  let '(members, oldTTLMs) := default ([], 0) o in
  let '(set, count) := sadd_loop (Args cmd) (list_to_set members) 0 in
  setValue en (Key cmd) (encodeMsgpack (range en 0%nat set)) "set" oldTTLMs;;;
  ret (GInt count).

Fixpoint srem_loop (args : list string) (set : gset string) (count : Z) : gset string * Z :=
  match args with
  | [] => (set, count)
  | m :: args' =>
      if bool_decide (m ∈ set) then srem_loop args' (set ∖ {[m]}) (count + 1)
      else srem_loop args' set count
  end.

(** [for m := range set] in the order the runtime picks, removing as it
    goes. *)
Fixpoint spop_loop (order : list string) (count : Z) (popped : list string)
    (set : gset string) : list string * gset string :=
  match order with
  | [] => (popped, set)
  | m :: order' =>
      if count <=? Z.of_nat (length popped) then (popped, set)
      else spop_loop order' count (popped ++ [m]) (set ∖ {[m]})
  end.

Definition storeSet (en : Env) (key : string) (set : gset string) (ttlMs : Z) : FM unit :=
  match range en 1%nat set with
  | [] => dropKey key
  | members => setValue en key (encodeMsgpack members) "set" ttlMs
  end.

Definition cmd_srem (en : Env) (cmd : Command) : FM goval :=
  let spop := String.eqb (Op cmd) "SPOP" in
  o <- loadSet en (Key cmd);;
  match o with
  | None =>
      ret (if spop then match Args cmd with [] => GNil | _ => GStrings [] end
           else GInt 0)
  | Some (members, oldTTLMs) =>
      let set : gset string := list_to_set members in
      if spop then
        let count := match Args cmd with [] => 1 | a :: _ => (Atoi a).1 end in
        let '(popped, set) := spop_loop (range en 0%nat set) count [] set in
        storeSet en (Key cmd) set oldTTLMs;;;
        ret (match Args cmd, popped with
             | _ :: _, _ => GStrings popped
             | [], [] => GNil
             | [], p :: _ => GBytes p
             end)
      else
        let '(set, count) := srem_loop (Args cmd) set 0 in
        storeSet en (Key cmd) set oldTTLMs;;;
        ret (GInt count)
  end.
End collections.
