(* ===== verification/FsmApply.v ===== *)
(** * Applying commands: applyCmdInTxn and Apply (store/fsm.go) *)

From S2P Require Import Prelude GoStd Badger Codec Keys Fsm FsmColl.

Definition lua_ops : list string :=
  ["EVAL"; "EVALSHA"; "SCRIPT_LOAD"; "SCRIPT_EXISTS"; "SCRIPT_FLUSH"].

Section apply.
Context `{B : BadgerOps} `{C : Codec}.

Abbreviation FM := (M txn gerr).

(** The switch of applyCmdInTxn.  The Lua commands are handled by
    [handleLua], which itself applies commands. *)
Definition applyCmdInTxn (handleLua : Env → Command → FM goval) (en : Env) (cmd : Command)
    : FM goval :=
  let op := Op cmd in
  if str_in op lua_ops then handleLua en cmd
  else if str_in op ["SET"; "GETSET"; "APPEND"] then cmd_set en cmd
  else if str_in op ["MSET"] then cmd_mset en cmd
  else if str_in op ["DEL"] then cmd_del en cmd
  else if str_in op ["FLUSHDB"] then cmd_flushdb en cmd
  else if str_in op ["INCR"; "DECR"; "INCRBY"; "DECRBY"] then cmd_incr en cmd
  else if str_in op ["EXPIRE"] then cmd_expire en cmd
  else if str_in op ["PERSIST"] then cmd_persist en cmd
  else if str_in op ["HSET"; "HSETNX"] then cmd_hset en cmd
  else if str_in op ["HDEL"] then cmd_hdel en cmd
  else if str_in op ["LPUSH"; "RPUSH"; "LPUSHX"; "RPUSHX"] then cmd_push en cmd
  else if str_in op ["LPOP"; "RPOP"] then cmd_pop en cmd
  else if str_in op ["LTRIM"] then cmd_ltrim en cmd
  else if str_in op ["LREM"] then cmd_lrem en cmd
  else if str_in op ["SADD"] then cmd_sadd en cmd
  else if str_in op ["SREM"; "SPOP"] then cmd_srem en cmd
  else raise (EMsg ("unknown op: " +:+ op)).

(** FSM.Apply: decode the log entry and run the command in a read-write
    transaction. *)
Definition Apply (handleLua : Env → Command → FM goval) (en : Env) (d : db) (data : string)
    : (gerr + goval) * db :=
  match dec_cmd data with
  | inl msg => (inl (EMsg msg), d)
  | inr cmd => db_Update EDb d (applyCmdInTxn handleLua en cmd)
  end.
End apply.
