(* ===== verification/FsmRead.v ===== *)
(** * The read-only methods of the FSM (store/fsm.go)

    Each runs in a read-only transaction.  A slice that may be nil is an
    [option string]. *)

From S2P Require Import Prelude GoStd Badger Codec Glob Keys Fsm FsmColl.
From Stdlib Require Import Lia ZArith.

Section read.
Context `{B : BadgerOps} `{C : Codec}.

Abbreviation FM := (M txn gerr).

Definition View {A} (d : db) (f : FM A) : gerr + A := db_View d (λ t, (f t).1).

Definition map_res {A A'} (f : A → A') (r : gerr + A) : gerr + A' :=
  match r with inl e => inl e | inr a => inr (f a) end.

Definition GetString_txn (en : Env) (key : string) : FM (option string) :=
  r <- t_Get en (userKey key);;
  match r with
  | inl e => raise (EDb e)
  | inr item => ensureExistingType en key "string";;; valueCopy item
  end.

Definition GetString (en : Env) (d : db) (key : string) : gerr + option string :=
  match View d (GetString_txn en key) with
  | inl (EDb ErrKeyNotFound) => inr None
  | r => r
  end.

Fixpoint GetStrings_txn (en : Env) (keys : list string) : FM (list (option string)) :=
  match keys with
  | [] => ret []
  | key :: keys' =>
      r <- t_Get en (userKey key);;
      v <- match r with
           | inl ErrKeyNotFound => ret None
           | inl e => raise (EDb e)
           | inr item => valueCopy item
           end;;
      vs <- GetStrings_txn en keys';;
      ret (v :: vs)
  end.

Definition GetStrings (en : Env) (d : db) (keys : list string)
    : gerr + list (option string) := View d (GetStrings_txn en keys).

Definition exists_one (en : Env) (count : Z) (key : string) : FM Z :=
  r <- t_Get en (userKey key);;
  match r with
  | inl ErrKeyNotFound => ret count
  | inl e => raise (EDb e)
  | inr _ => ret (count + 1)
  end.

Definition Exists (en : Env) (d : db) (keys : list string) : gerr + Z :=
  View d (foldM (exists_one en) 0 keys).

(** TTL and PTTL: -2 for a missing key, -1 for one that does not expire. *)
Definition ttl_with (remaining : Z → Z) (en : Env) (d : db) (key : string) : gerr + Z :=
  View d
    (r <- t_Get en (userKey key);;
     match r with
     | inl ErrKeyNotFound => ret (-2)
     | inl e => raise (EDb e)
     | inr item =>
         if e_exp item =? 0 then ret (-1)
         else
           let ttl := remaining (time_Until (now en) (wrap64 (e_exp item))) in
           ret (if ttl <? 0 then -2 else ttl)
     end).
Definition TTL : Env → db → string → gerr + Z := ttl_with Duration_Seconds_int64.
Definition PTTL : Env → db → string → gerr + Z := ttl_with Duration_Milliseconds.

Definition Type_ (en : Env) (d : db) (key : string) : gerr + string :=
  View d
    (r <- t_Get en (userKey key);;
     match r with
     | inl ErrKeyNotFound => ret "none"
     | inl e => raise (EDb e)
     | inr _ =>
         r <- t_Get en (typeKey key);;
         match r with
         | inl ErrKeyNotFound => ret "string"
         | inl e => raise (EDb e)
         | inr item => v <- valueCopy item;; ret (default "" v)
         end
     end).

Definition tail (k : string) : string :=
  match k with String _ k' => k' | EmptyString => EmptyString end.

Fixpoint keys_loop (pattern : string) (ks : list string) (keys : list string)
    : gerr + list string :=
  match ks with
  | [] => inr keys
  | k :: ks' =>
      match redisGlobMatch pattern (tail k) with
      | inl e => inl (EMsg e)
      | inr true => keys_loop pattern ks' (keys ++ [tail k])
      | inr false => keys_loop pattern ks' keys
      end
  end.

Definition Keys (en : Env) (d : db) (pattern : string) : gerr + list string :=
  db_View d (λ t, keys_loop pattern (iter_keys en (String prefixUser "") t) []).

Definition StrLen (en : Env) (d : db) (key : string) : gerr + Z :=
  match GetString en d key with
  | inl e => inl e
  | inr None => inr 0
  | inr (Some v) => inr (Z.of_nat (String.length v))
  end.

(** ** Hashes *)

(** The body shared by the collection readers: check the type, copy, decode;
    [dflt] when the key is missing. *)
Definition read_coll {A} `{!Msgpack C A} (typ : string) (dflt : A) (en : Env) (key : string)
    : FM A :=
  r <- t_Get en (userKey key);;
  match r with
  | inl ErrKeyNotFound => ret dflt
  | inl e => raise (EDb e)
  | inr item =>
      ensureExistingType en key typ;;;
      data <- valueCopy item;;
      lift_dec (decodeMsgpack (default "" data))
  end.

Definition HGetAll (en : Env) (d : db) (key : string) : gerr + gmap string string :=
  View d (read_coll "hash" ∅ en key).

Definition HGet (en : Env) (d : db) (key field : string) : gerr + option string :=
  map_res (λ h : gmap string string, h !! field) (View d (read_coll "hash" ∅ en key)).

Definition HLen (en : Env) (d : db) (key : string) : gerr + Z :=
  map_res (λ h, Z.of_nat (size h)) (HGetAll en d key).

Definition HExists (en : Env) (d : db) (key field : string) : gerr + Z :=
  map_res (λ h : gmap string string, if bool_decide (is_Some (h !! field)) then 1 else 0) (HGetAll en d key).

Definition HMGet (en : Env) (d : db) (key : string) (fields : list string)
    : gerr + list (option string) :=
  map_res (λ h : gmap string string, map (λ f, h !! f) fields) (HGetAll en d key).

(** [for k, v := range hash] *)
Definition range_hash (en : Env) (h : gmap string string) : list (string * string) :=
  omap (λ k, (k,.) <$> h !! k) (range en 0%nat (dom h)).

Definition HKeys (en : Env) (d : db) (key : string) : gerr + list string :=
  map_res (λ h, (range_hash en h).*1) (HGetAll en d key).

Definition HVals (en : Env) (d : db) (key : string) : gerr + list string :=
  map_res (λ h, (range_hash en h).*2) (HGetAll en d key).

(** ** Lists *)

Definition LRange (en : Env) (d : db) (key : string) (start stop : Z) : gerr + list string :=
  map_res (λ l, sliceList l start stop) (View d (read_coll "list" [] en key)).

Definition LLen (en : Env) (d : db) (key : string) : gerr + Z :=
  map_res (λ l, Z.of_nat (length l)) (LRange en d key 0 (-1)).

Definition LIndex (en : Env) (d : db) (key : string) (index : Z) : gerr + option string :=
  map_res (λ l : list string,
    let len := Z.of_nat (length l) in
    let index := if index <? 0 then len + index else index in
    if (index <? 0) || (len <=? index) then None else l !! Z.to_nat index)
    (LRange en d key 0 (-1)).

(** ** Sets *)

Definition SMembers (en : Env) (d : db) (key : string) : gerr + list string :=
  View d (read_coll "set" [] en key).

Definition SCard (en : Env) (d : db) (key : string) : gerr + Z :=
  map_res (λ l : list string, Z.of_nat (length l)) (SMembers en d key).

(** [make] panics on a negative length, which [-count] is for the least
    integer. *)
Definition SRandMember (en : Env) (d : db) (key : string) (count : option Z)
    : gerr + list string :=
  match SMembers en d key with
  | inl e => inl e
  | inr members =>
      let len := Z.of_nat (length members) in
      match count with
      | Some c =>
          if c <? 0 then
            if len =? 0 then inr []
            else if wrap64 (- c) <? 0 then inl (EPanic "makeslice: len out of range")
            else inr (omap (λ i, members !! (i mod length members)%nat)
                        (seq 0 (Z.to_nat (- c))))
          else if len <=? c then inr members
          else inr (take (Z.to_nat c) members)
      | None => inr members
      end
  end.

Definition SIsMember (en : Env) (d : db) (key member : string) : gerr + Z :=
  map_res (λ l : list string, if bool_decide (member ∈ l) then 1 else 0)
    (View d (read_coll "set" [] en key)).
End read.
