(* ===== verification/FsmSpec.v ===== *)
(** * What the commands mean: an abstract Redis

    The state maps each key to a typed value and the Unix time at which it
    expires (0 for never).  The operations say what a command answers and how
    it changes that state, with no mention of key prefixes, type entries,
    serialization or transactions.  FsmRefine.v shows that store/fsm.go
    implements them. *)

From S2P Require Import Prelude GoStd Badger Codec Fsm.
From Stdlib Require Import Lia ZArith.

Inductive rval :=
  | RStr (s : string)
  | RHash (h : gmap string string)
  | RList (l : list string)
  | RSet (s : gset string).

Abbreviation rstate := (gmap string (rval * Z)).

Definition type_name (r : rval) : string :=
  match r with RStr _ => "string" | RHash _ => "hash" | RList _ => "list" | RSet _ => "set" end.

(** ** Pure effects of the collection commands *)

Fixpoint pairs (args : list string) : list (string * string) :=
  match args with
  | k :: v :: args' => (k, v) :: pairs args'
  | _ => []
  end.

(** HSET: the last value given for a field wins; HSETNX: the present value,
    or else the first one given. *)
Definition hash_set (nx : bool) (args : list string) (h : gmap string string)
    : gmap string string :=
  if nx then h ∪ list_to_map (pairs args) else list_to_map (reverse (pairs args)) ∪ h.

Definition hash_del (fields : list string) (h : gmap string string) : gmap string string :=
  without fields h.

Definition list_push (left : bool) (args l : list string) : list string :=
  if left then reverse args ++ l else l ++ args.

(** Remove the first [n] occurrences. *)
Fixpoint remove_n (n : nat) (x : string) (l : list string) : list string :=
  match l, n with
  | [], _ => []
  | _, O => l
  | y :: l', S n' => if String.eqb y x then remove_n n' x l' else y :: remove_n n x l'
  end.

(** LREM: all, the first ones, or the last ones ([-limit] is an [int]). *)
Definition list_rem (x : string) (limit : Z) (l : list string) : list string :=
  if limit =? 0 then filter (λ y, y ≠ x) l
  else if 0 <? limit then remove_n (Z.to_nat limit) x l
  else reverse (remove_n (Z.to_nat (wrap64 (- limit))) x (reverse l)).

(** The last [n] elements, in the order they are popped from the right. *)
Definition pop_right (n : nat) (l : list string) : list string * list string :=
  (take n (reverse l), take (length l - n) l).
Definition pop_left (n : nat) (l : list string) : list string * list string :=
  (take n l, drop n l).

Section spec.
Context `{B : BadgerOps}.

(** The expiry a TTL in milliseconds stands for; none for a TTL that is not
    positive. *)
Definition exp_of (en : Env) (ttlMs : Z) : Z :=
  if 0 <? ttlMs then WithTTL (now en) (duration_ms ttlMs) else 0.
Definition rem_ms (en : Env) (exp : Z) : Z := remainingTTLMs en (Entry "" exp).
(** The expiry after a command that keeps the TTL of its key. *)
Definition retain (en : Env) (exp : Z) : Z := exp_of en (rem_ms en exp).

(** Write a value; it is not there if its expiry has come. *)
Definition put (en : Env) (k : string) (r : rval) (exp : Z) (m : rstate) : rstate :=
  if live (now en) (Entry "" exp) then <[k := (r, exp)]> m else delete k m.

Abbreviation outcome := ((gerr + goval) * rstate)%type.

(** SET with its options, GETSET and APPEND. *)
Definition spec_set (en : Env) (c : Command) (m : rstate) : outcome :=
  match Args c with
  | [] => (inl (EMsg (Op c +:+ " missing args")), m)
  | a :: _ =>
      let write (old : option (string * Z)) : outcome :=
        let present := bool_decide (is_Some old) in
        let skip := (String.eqb (Condition c) "NX" && present)
                    || (String.eqb (Condition c) "XX" && negb present) in
        let append := String.eqb (Op c) "APPEND" in
        let val := if append then from_option fst "" old +:+ a else a in
        let exp := if (TTLMs c =? 0) && append then retain en (from_option snd 0 old)
                   else exp_of en (TTLMs c) in
        let reply :=
          if append then GInt (Z.of_nat (String.length val))
          else if ReturnOld c || String.eqb (Op c) "GETSET" then
            from_option (GBytes ∘ fst) GNil old
          else if skip then GNil else GString "OK" in
        (inr reply, if skip then m else put en (Key c) (RStr val) exp m) in
      match m !! Key c with
      | None => write None
      | Some (RStr s, exp) => write (Some (s, exp))
      | Some _ => (inl EWrongType, m)
      end
  end.

Definition spec_mset (en : Env) (c : Command) (m : rstate) : outcome :=
  if negb (Nat.even (length (Args c))) then (inl (EMsg "MSET invalid args"), m)
  else (inr (GString "OK"), foldl (λ m kv, <[kv.1 := (RStr kv.2, 0)]> m) m (pairs (Args c))).

(** DEL counts the keys it removes; without arguments it removes [Key]. *)
Definition spec_del (c : Command) (m : rstate) : outcome :=
  let ks := match Args c with
            | [] => if String.eqb (Key c) "" then [] else [Key c]
            | ks => ks
            end in
  let m' := without ks m in
  (inr (GInt (Z.of_nat (size m) - Z.of_nat (size m'))), m').

Definition spec_flushdb (m : rstate) : outcome := (inr (GString "OK"), ∅).

(** INCR and its variants add a delta to the integer a string spells. *)
Definition delta_of (c : Command) : gerr + Z :=
  if str_in (Op c) ["INCRBY"; "DECRBY"] then
    match Args c with
    | [] => inl (EPanic "index out of range")
    | a :: _ => match ParseInt a with
                | (d, None) => inr d
                | _ => inl (EMsg err_range)
                end
    end
  else inr 1.

Definition spec_incr (en : Env) (c : Command) (m : rstate) : outcome :=
  let add (v exp : Z) : outcome :=
    match delta_of c with
    | inl e => (inl e, m)
    | inr delta =>
        let v' := wrap64 (if str_in (Op c) ["INCR"; "INCRBY"] then v + delta else v - delta) in
        (inr (GInt64 v'), put en (Key c) (RStr (FormatInt v')) (retain en exp) m)
    end in
  match m !! Key c with
  | None => add 0 0
  | Some (RStr s, exp) =>
      match ParseInt s with
      | (v, None) => add v exp
      | _ => (inl (EMsg err_range), m)
      end
  | Some _ => (inl EWrongType, m)
  end.

Definition spec_expire (en : Env) (c : Command) (m : rstate) : outcome :=
  match m !! Key c with
  | None => (inr (GInt 0), m)
  | Some (r, _) =>
      (inr (GInt 1), put en (Key c) r (WithTTL (now en) (duration_ms (TTLMs c))) m)
  end.

Definition spec_persist (c : Command) (m : rstate) : outcome :=
  match m !! Key c with
  | None => (inr (GInt 0), m)
  | Some (r, exp) =>
      if exp =? 0 then (inr (GInt 0), m)
      else (inr (GInt 1), <[Key c := (r, 0)]> m)
  end.

(** A command on a collection of one type: [f] gets the collection (the
    empty one for a missing key) and its expiry. *)
Definition on_hash (c : Command) (m : rstate)
    (f : bool → gmap string string → Z → outcome) : outcome :=
  match m !! Key c with
  | None => f false ∅ 0
  | Some (RHash h, exp) => f true h exp
  | Some _ => (inl EWrongType, m)
  end.
Definition on_list (c : Command) (m : rstate)
    (f : bool → list string → Z → outcome) : outcome :=
  match m !! Key c with
  | None => f false [] 0
  | Some (RList l, exp) => f true l exp
  | Some _ => (inl EWrongType, m)
  end.
Definition on_set (c : Command) (m : rstate)
    (f : bool → gset string → Z → outcome) : outcome :=
  match m !! Key c with
  | None => f false ∅ 0
  | Some (RSet s, exp) => f true s exp
  | Some _ => (inl EWrongType, m)
  end.

Definition spec_hset (en : Env) (c : Command) (m : rstate) : outcome :=
  if negb (Nat.even (length (Args c))) then (inl (EMsg (Op c +:+ " invalid args")), m)
  else on_hash c m (λ _ h exp,
    let h' := hash_set (String.eqb (Op c) "HSETNX") (Args c) h in
    (inr (GInt (Z.of_nat (size h') - Z.of_nat (size h))),
     put en (Key c) (RHash h') (retain en exp) m)).

Definition spec_hdel (en : Env) (c : Command) (m : rstate) : outcome :=
  on_hash c m (λ _ h exp,
    let h' := hash_del (Args c) h in
    (inr (GInt (Z.of_nat (size h) - Z.of_nat (size h'))),
     if bool_decide (h' = ∅) then delete (Key c) m
     else put en (Key c) (RHash h') (retain en exp) m)).

Definition put_list (en : Env) (k : string) (l : list string) (exp : Z) (m : rstate) : rstate :=
  if bool_decide (l = []) then delete k m else put en k (RList l) (retain en exp) m.

Definition spec_push (en : Env) (c : Command) (m : rstate) : outcome :=
  on_list c m (λ present l exp,
    if str_in (Op c) ["LPUSHX"; "RPUSHX"] && negb present then (inr (GInt 0), m)
    else
      let l' := list_push (str_in (Op c) ["LPUSH"; "LPUSHX"]) (Args c) l in
      (inr (GInt (Z.of_nat (length l'))), put en (Key c) (RList l') (retain en exp) m)).

Definition count_of (c : Command) : gerr + Z :=
  match Args c with
  | [] => inr 1
  | a :: _ => match Atoi a with
              | (n, None) => if n <? 0 then inl (EMsg err_range) else inr n
              | _ => inl (EMsg err_range)
              end
  end.

Definition spec_pop (en : Env) (c : Command) (m : rstate) : outcome :=
  on_list c m (λ _ l exp,
    if bool_decide (l = []) then (inr GNil, m)
    else
      match count_of c with
      | inl e => (inl e, m)
      | inr count =>
          let n := (Z.to_nat count `min` length l)%nat in
          let '(popped, rest) := if String.eqb (Op c) "LPOP" then pop_left n l else pop_right n l in
          (inr match Args c with
               | [] => from_option GBytes GNil (head popped)
               | _ => GStrings popped
               end,
           put_list en (Key c) rest exp m)
      end).

Definition spec_ltrim (en : Env) (c : Command) (m : rstate) : outcome :=
  on_list c m (λ _ l exp,
    match Args c with
    | a0 :: a1 :: _ =>
        (inr (GString "OK"),
         put_list en (Key c) (sliceList l (Atoi a0).1 (Atoi a1).1) exp m)
    | _ => (inl (EPanic "index out of range"), m)
    end).

Definition spec_lrem (en : Env) (c : Command) (m : rstate) : outcome :=
  on_list c m (λ _ l exp,
    match Args c with
    | a0 :: x :: _ =>
        let l' := list_rem x (Atoi a0).1 l in
        (inr (GInt (Z.of_nat (length l) - Z.of_nat (length l'))), put_list en (Key c) l' exp m)
    | _ => (inl (EPanic "index out of range"), m)
    end).

Definition spec_sadd (en : Env) (c : Command) (m : rstate) : outcome :=
  on_set c m (λ _ s exp,
    let s' := s ∪ list_to_set (Args c) in
    (inr (GInt (Z.of_nat (size s') - Z.of_nat (size s))),
     put en (Key c) (RSet s') (retain en exp) m)).

Definition put_set (en : Env) (k : string) (s : gset string) (exp : Z) (m : rstate) : rstate :=
  if bool_decide (s = ∅) then delete k m else put en k (RSet s) (retain en exp) m.

(** SPOP takes the members a range over the set yields first. *)
Definition spec_srem (en : Env) (c : Command) (m : rstate) : outcome :=
  on_set c m (λ present s exp,
    if String.eqb (Op c) "SPOP" then
      if negb present then (inr match Args c with [] => GNil | _ => GStrings [] end, m)
      else
        let count := match Args c with [] => 1 | a :: _ => (Atoi a).1 end in
        let popped := take (Z.to_nat count) (range en 0%nat s) in
        (inr match Args c with
             | [] => from_option GBytes GNil (head popped)
             | _ => GStrings popped
             end,
         put_set en (Key c) (s ∖ list_to_set popped) exp m)
    else if negb present then (inr (GInt 0), m)
    else
      let s' := s ∖ list_to_set (Args c) in
      (inr (GInt (Z.of_nat (size s) - Z.of_nat (size s'))), put_set en (Key c) s' exp m)).

Definition spec_apply (en : Env) (c : Command) (m : rstate) : outcome :=
  let op := Op c in
  if str_in op ["SET"; "GETSET"; "APPEND"] then spec_set en c m
  else if str_in op ["MSET"] then spec_mset en c m
  else if str_in op ["DEL"] then spec_del c m
  else if str_in op ["FLUSHDB"] then spec_flushdb m
  else if str_in op ["INCR"; "DECR"; "INCRBY"; "DECRBY"] then spec_incr en c m
  else if str_in op ["EXPIRE"] then spec_expire en c m
  else if str_in op ["PERSIST"] then spec_persist c m
  else if str_in op ["HSET"; "HSETNX"] then spec_hset en c m
  else if str_in op ["HDEL"] then spec_hdel en c m
  else if str_in op ["LPUSH"; "RPUSH"; "LPUSHX"; "RPUSHX"] then spec_push en c m
  else if str_in op ["LPOP"; "RPOP"] then spec_pop en c m
  else if str_in op ["LTRIM"] then spec_ltrim en c m
  else if str_in op ["LREM"] then spec_lrem en c m
  else if str_in op ["SADD"] then spec_sadd en c m
  else if str_in op ["SREM"; "SPOP"] then spec_srem en c m
  else (inl (EMsg ("unknown op: " +:+ op)), m).

(** Time passing removes the keys whose expiry has come. *)
Definition expire (t : Z) (m : rstate) : rstate :=
  filter (λ kv, live t (Entry "" kv.2.2) = true) m.
End spec.
