(* ===== verification/FsmLoops.v ===== *)
(** * The loops of the collection commands compute the specified effects *)

From S2P Require Import Prelude GoStd Badger Codec Fsm FsmColl FsmSpec.
From Stdlib Require Import Lia ZArith Wf_nat.

(** ** Hashes *)

Lemma size_insert_Z {A} (m : gmap string A) k x :
  Z.of_nat (size (<[k := x]> m)) =
  Z.of_nat (size m) + (if bool_decide (is_Some (m !! k)) then 0 else 1).
Proof.
  case_bool_decide as H; [rewrite map_size_insert_Some by done; lia|].
  rewrite map_size_insert_None by (by apply eq_None_not_Some). lia.
Qed.

Lemma hash_set_cons nx k x args h :
  hash_set nx (k :: x :: args) h =
  if nx && bool_decide (is_Some (h !! k)) then hash_set nx args h
  else hash_set nx args (<[k := x]> h).
Proof.
  unfold hash_set. cbn [pairs]. destruct nx; simpl.
  - apply map_eq. intros k'. case_bool_decide as H;
      rewrite !lookup_union, !lookup_insert; case_decide; subst; try done.
    + destruct H as [y ->]. by destruct (list_to_map (pairs args) !! k').
    + apply eq_None_not_Some in H. rewrite H. by destruct (list_to_map (pairs args) !! k').
  - rewrite reverse_cons, list_to_map_app. simpl.
    rewrite <- map_union_assoc. f_equal.
    by rewrite <- insert_union_l, (left_id_L ∅ (∪)).
Qed.

Lemma hset_loop_spec nx args h count :
  hset_loop nx args h count =
  (hash_set nx args h, count + (Z.of_nat (size (hash_set nx args h)) - Z.of_nat (size h))).
Proof.
  revert h count. induction args as [args IH] using (induction_ltof1 _ length).
  unfold ltof in IH. destruct args as [|k [|x args]]; intros h count.
  1,2: unfold hash_set; simpl; destruct nx;
       rewrite ?(right_id_L ∅ (∪)), ?(left_id_L ∅ (∪)); f_equal; lia.
  cbn [hset_loop]. rewrite hash_set_cons.
  destruct (nx && bool_decide (is_Some (h !! k))) eqn:Hnx; rewrite IH by (simpl; lia); [done|].
  f_equal. rewrite size_insert_Z. case_bool_decide; lia.
Qed.

Lemma hdel_loop_spec args h count :
  hdel_loop args h count =
  (hash_del args h, count + (Z.of_nat (size h) - Z.of_nat (size (hash_del args h)))).
Proof.
  unfold hash_del. revert h count. induction args as [|k args IH]; intros h count; simpl.
  { rewrite without_nil. f_equal. lia. }
  rewrite without_cons. case_bool_decide as H.
  - destruct H as [x Hx]. rewrite IH, (size_delete_Z h k x Hx). f_equal. lia.
  - apply eq_None_not_Some in H. by rewrite IH, delete_id.
Qed.

(** ** Lists *)

Lemma push_loop_spec left args l : push_loop left args l = list_push left args l.
Proof.
  unfold push_loop, list_push. destruct left.
  - revert l. induction args as [|a args IH]; intros l; simpl; [done|].
    by rewrite IH, reverse_cons, <- app_assoc.
  - revert l. induction args as [|a args IH]; intros l; simpl; [by rewrite app_nil_r|].
    by rewrite IH, <- app_assoc.
Qed.

Lemma remove_n_0 x l : remove_n 0 x l = l.
Proof. by destruct l. Qed.

Lemma lrem_forward_all x l count :
  lrem_forward x 0 l count =
  (filter (λ y, y ≠ x) l,
   count + (Z.of_nat (length l) - Z.of_nat (length (filter (λ y, y ≠ x) l)))).
Proof.
  revert count. induction l as [|y l IH]; intros count; [simpl; f_equal; lia|].
  cbn [lrem_forward]. rewrite filter_cons. destruct (String.eqb_spec y x) as [->|Hne]; simpl.
  - rewrite decide_False by naive_solver. rewrite IH. f_equal. lia.
  - rewrite decide_True by done. rewrite IH. simpl. f_equal. lia.
Qed.

Lemma lrem_forward_spec x limit l count :
  0 < limit → 0 <= count →
  lrem_forward x limit l count =
  (remove_n (Z.to_nat (limit - count)) x l,
   count + (Z.of_nat (length l) - Z.of_nat (length (remove_n (Z.to_nat (limit - count)) x l)))).
Proof.
  intros Hl. revert count. induction l as [|y l IH]; intros count Hc; [simpl; f_equal; lia|].
  cbn [lrem_forward]. rewrite (proj2 (Z.eqb_neq limit 0)) by lia. cbn [orb].
  destruct (Z.ltb_spec count limit).
  - replace (Z.to_nat (limit - count)) with (S (Z.to_nat (limit - (count + 1)))) by lia.
    cbn [remove_n]. destruct (String.eqb_spec y x) as [->|Hne]; simpl andb; cbv iota.
    + rewrite IH by lia. cbn [length]. f_equal. lia.
    + rewrite IH by lia.
      replace (Z.to_nat (limit - count)) with (S (Z.to_nat (limit - (count + 1)))) by lia.
      cbn [length]. f_equal. lia.
  - rewrite andb_false_r, IH by lia.
    replace (Z.to_nat (limit - count)) with 0%nat by lia. rewrite !remove_n_0.
    f_equal. simpl length. lia.
Qed.

Lemma lrem_backward_spec x limit rl kept count :
  0 <= count →
  let n := Z.to_nat (wrap64 (- limit) - count) in
  lrem_backward x limit rl kept count =
  (reverse (remove_n n x rl) ++ kept,
   count + (Z.of_nat (length rl) - Z.of_nat (length (remove_n n x rl)))).
Proof.
  revert kept count. induction rl as [|y rl IH]; intros kept count Hc n; subst n.
  { simpl. f_equal. lia. }
  cbn [lrem_backward]. destruct (Z.ltb_spec count (wrap64 (- limit))).
  - replace (Z.to_nat (wrap64 (- limit) - count))
      with (S (Z.to_nat (wrap64 (- limit) - (count + 1)))) by lia.
    cbn [remove_n]. destruct (String.eqb_spec y x) as [->|Hne]; simpl andb; cbv iota.
    + rewrite IH by lia. cbn [length]. f_equal. lia.
    + rewrite IH by lia.
      replace (Z.to_nat (wrap64 (- limit) - count))
        with (S (Z.to_nat (wrap64 (- limit) - (count + 1)))) by lia.
      rewrite reverse_cons, <- app_assoc. cbn [length]. f_equal. lia.
  - rewrite andb_false_r, IH by lia.
    replace (Z.to_nat (wrap64 (- limit) - count)) with 0%nat by lia.
    rewrite !remove_n_0, reverse_cons, <- app_assoc. cbn [length]. f_equal. lia.
Qed.

Lemma lrem_spec x limit l :
  lrem x limit l =
  (list_rem x limit l, Z.of_nat (length l) - Z.of_nat (length (list_rem x limit l))).
Proof.
  unfold lrem, list_rem. destruct (Z.eqb_spec limit 0) as [->|Hne].
  { rewrite lrem_forward_all. f_equal. }
  destruct (Z.ltb_spec 0 limit), (Z.leb_spec 0 limit); try lia.
  - rewrite lrem_forward_spec by lia. by rewrite Z.sub_0_r.
  - rewrite lrem_backward_spec by lia. simpl. rewrite Z.sub_0_r, app_nil_r, !length_reverse.
    f_equal.
Qed.

(** ** Sets *)

Lemma sadd_loop_spec args s count :
  sadd_loop args s count =
  (s ∪ list_to_set args, count + (Z.of_nat (size (s ∪ list_to_set args)) - Z.of_nat (size s))).
Proof.
  revert s count. induction args as [|x args IH]; intros s count; simpl.
  { rewrite (right_id_L ∅ (∪)). f_equal. lia. }
  case_bool_decide as H.
  - rewrite IH. replace (s ∪ ({[x]} ∪ list_to_set args)) with (s ∪ list_to_set args) by set_solver.
    done.
  - rewrite IH. replace ({[x]} ∪ s ∪ list_to_set args) with (s ∪ ({[x]} ∪ list_to_set args))
      by set_solver. f_equal.
    rewrite (size_union {[x]} s), size_singleton by set_solver. lia.
Qed.

Lemma srem_loop_spec args s count :
  srem_loop args s count =
  (s ∖ list_to_set args, count + (Z.of_nat (size s) - Z.of_nat (size (s ∖ list_to_set args)))).
Proof.
  revert s count. induction args as [|x args IH]; intros s count; simpl.
  { rewrite (difference_empty_L s). f_equal. lia. }
  case_bool_decide as H; rewrite IH.
  - replace (s ∖ ({[x]} ∪ list_to_set args)) with (s ∖ {[x]} ∖ list_to_set args) by set_solver.
    f_equal. rewrite (size_difference s {[x]}), size_singleton by set_solver.
    assert (size s ≠ 0%nat) by (intros E%size_empty_inv; set_solver). lia.
  - by replace (s ∖ ({[x]} ∪ list_to_set args)) with (s ∖ list_to_set args) by set_solver.
Qed.

Lemma spop_loop_spec order count popped s :
  let n := Z.to_nat (count - Z.of_nat (length popped)) in
  spop_loop order count popped s = (popped ++ take n order, s ∖ list_to_set (take n order)).
Proof.
  revert popped s. induction order as [|x order IH]; intros popped s n; subst n; simpl.
  { rewrite take_nil, app_nil_r. simpl. by rewrite difference_empty_L. }
  destruct (Z.leb_spec count (Z.of_nat (length popped))).
  - replace (Z.to_nat (count - Z.of_nat (length popped))) with 0%nat by lia. simpl.
    by rewrite app_nil_r, difference_empty_L.
  - rewrite IH. replace (Z.to_nat (count - Z.of_nat (length popped)))
      with (S (Z.to_nat (count - Z.of_nat (length (popped ++ [x]))))) by (rewrite length_app; simpl; lia).
    cbn [take]. rewrite <- app_assoc. simpl. f_equal.
    rewrite <- difference_difference_l_L. done.
Qed.
