(* ===== verification/FsmSim.v ===== *)
(** * The relation between the store and the abstract Redis state

    [Sim now v m]: at instant [now] the entries [v] of the store represent the
    abstract state [m], and will keep doing so as time passes.  The lemmas run
    the building blocks of the commands and show what they do to [Sim]. *)

From S2P Require Import Prelude GoStd Badger Codec Keys Fsm FsmColl FsmSpec.
From Stdlib Require Import Lia ZArith.

Section sim.
Context `{B : BadgerOps} {L : BadgerLaws B} `{C : Codec} {CL : CodecLaws C}.
Implicit Types (v : gmap string entry) (m : rstate) (t : txn) (en : Env) (k : string).

(** The type the store records for a key; "string" when there is none. *)
Definition type_of (now : Z) v k : string :=
  match vget now v (typeKey k) with Some e => e_val e | None => "string" end.

Definition decode_val (typ data : string) : option rval :=
  if String.eqb typ "string" then Some (RStr data)
  else if String.eqb typ "hash" then
    match decodeMsgpack (A := gmap string string) data with inr h => Some (RHash h) | inl _ => None end
  else if String.eqb typ "list" then
    match decodeMsgpack (A := list string) data with inr l => Some (RList l) | inl _ => None end
  else if String.eqb typ "set" then
    match decodeMsgpack (A := list string) data with
    | inr l => if decide (NoDup l) then Some (RSet (list_to_set l)) else None
    | inl _ => None
    end
  else None.

(** Every visible value decodes under its type, and is the abstract one. *)
Definition Rep (now : Z) v m : Prop := ∀ k,
  match vget now v (userKey k) with
  | None => m !! k = None
  | Some e => ∃ r, decode_val (type_of now v k) (e_val e) = Some r ∧ m !! k = Some (r, e_exp e)
  end.

(** The type of a key does not change while its value is visible. *)
Definition Stable (now : Z) v : Prop := ∀ k e tm,
  v !! userKey k = Some e → now <= tm → live tm e = true → type_of tm v k = type_of now v k.

Definition Sim (now : Z) v m : Prop := Rep now v m ∧ Stable now v.

Lemma decode_type typ data r : decode_val typ data = Some r → typ = type_name r.
Proof.
  unfold decode_val. intros H.
  repeat match type of H with
  | context [String.eqb ?a ?b] => destruct (String.eqb_spec a b); subst
  end; repeat case_match; simplify_eq; done.
Qed.

Lemma live_exp now e : live now (Entry "" (e_exp e)) = live now e.
Proof. done. Qed.

(** ** Running the calls of the store *)

Lemma t_Get_run en k t :
  k ≠ "" → healthy t →
  t_Get en k t = (inr (match vget (now en) (view t) k with
                       | Some e => inr e | None => inl ErrKeyNotFound end), t).
Proof. intros Hk H. unfold t_Get. by rewrite Get_law. Qed.

Lemma vget_copy now k t e :
  healthy t → vget now (view t) k = Some e → k ≠ "" → valueCopy_ e = e_val e.
Proof.
  intros Ht Hg Hk. destruct (ValueCopy_law now k t e Ht) as (o & Ho & Hv).
  { by rewrite Get_law, Hg. }
  unfold valueCopy_. by rewrite Ho.
Qed.

Lemma vget_copy_run now k t e :
  healthy t → vget now (view t) k = Some e → k ≠ "" →
  ∃ o, valueCopy e t = (inr o, t) ∧ default "" o = e_val e.
Proof.
  intros Ht Hg Hk. destruct (ValueCopy_law now k t e Ht) as (o & Ho & Hv).
  { by rewrite Get_law, Hg. }
  exists o. unfold valueCopy. by rewrite Ho.
Qed.

Lemma getExistingType_run en k t :
  healthy t → getExistingType en k t = (inr (type_of (now en) (view t) k), t).
Proof.
  intros Ht. unfold getExistingType, type_of.
  erewrite bind_inr by (by apply t_Get_run).
  destruct (vget (now en) (view t) (typeKey k)) as [e|] eqn:He; [|done].
  destruct (vget_copy_run _ _ _ _ Ht He ltac:(done)) as (o & Ho & Hv).
  erewrite bind_inr by done. by rewrite Hv.
Qed.

Lemma ensureExistingType_run en k want t :
  healthy t →
  ensureExistingType en k want t =
  (if String.eqb (type_of (now en) (view t) k) want then inr tt else inl EWrongType, t).
Proof.
  intros Ht. unfold ensureExistingType.
  erewrite bind_inr by (by apply getExistingType_run). by case_match.
Qed.

(** The store takes writes under the two entries of a key. *)
Definition writable k : Prop :=
  ∀ k' t, k' = userKey k ∨ k' = typeKey k → healthy t →
    (∀ e, ∃ t', txn_SetEntry k' e t = inr t') ∧ (∃ t', txn_Delete k' t = inr t').

Lemma setValue_run en k val typ ms t :
  writable k → healthy t →
  ∃ t', setValue en k val typ ms t = (inr tt, t') ∧ healthy t' ∧
    view t' = <[typeKey k := Entry typ (exp_of en ms)]>
                (<[userKey k := Entry val (exp_of en ms)]> (view t)).
Proof.
  intros Hw Ht. unfold setValue, setValue_at. cbv zeta beta.
  destruct (Hw (userKey k) t (or_introl eq_refl) Ht) as [Hs _].
  destruct (Hs (Entry val (exp_of en ms))) as [t1 H1].
  destruct (SetEntry_law _ _ _ _ Ht H1) as [Ht1 Hv1].
  destruct (Hw (typeKey k) t1 (or_intror eq_refl) Ht1) as [Hs' _].
  destruct (Hs' (Entry typ (exp_of en ms))) as [t2 H2].
  destruct (SetEntry_law _ _ _ _ Ht1 H2) as [Ht2 Hv2].
  exists t2. split; [|by rewrite Hv2, Hv1].
  unfold bind, t_SetEntry. fold (exp_of en ms). by rewrite H1, H2.
Qed.

Lemma dropKey_run k t :
  writable k → healthy t →
  ∃ t', dropKey k t = (inr tt, t') ∧ healthy t' ∧
    view t' = delete (typeKey k) (delete (userKey k) (view t)).
Proof.
  intros Hw Ht. unfold dropKey, bind, t_Delete_.
  destruct (Hw (userKey k) t (or_introl eq_refl) Ht) as [_ [t1 H1]].
  destruct (Delete_law _ _ _ Ht H1) as [Ht1 Hv1].
  destruct (Hw (typeKey k) t1 (or_intror eq_refl) Ht1) as [_ [t2 H2]].
  destruct (Delete_law _ _ _ Ht1 H2) as [Ht2 Hv2].
  exists t2. by rewrite H1, H2, Hv2, Hv1.
Qed.

(** The keys an iterator yields while they have a prefix. *)
Lemma iter_keys_spec en p t x :
  healthy t →
  x ∈ iter_keys en p t ↔ has_prefix p x = true ∧ is_Some (vget (now en) (view t) x).
Proof.
  intros Ht. destruct (Seek_law (now en) false p t Ht) as (_ & Hs & Hm).
  unfold iter_keys. rewrite take_while_prefix; [|done|naive_solver].
  rewrite Hm. split; [naive_solver|]. intros [Hp Hx]. by auto using has_prefix_le.
Qed.

Definition deletable : Prop :=
  ∀ k t, data_key k = true → healthy t → ∃ t', txn_Delete k t = inr t'.

Lemma delete_all_run ks t :
  deletable → Forall (λ k, data_key k = true) ks → healthy t →
  ∃ t', foldM (λ _ k, t_Delete k) tt ks t = (inr tt, t') ∧ healthy t' ∧
    (∀ x, view t' !! x = if decide (x ∈ ks) then None else view t !! x).
Proof.
  intros Hd Hks. revert t. induction Hks as [|k ks Hk Hks IH]; intros t Ht; simpl.
  { eauto. }
  destruct (Hd k t Hk Ht) as [t1 H1]. destruct (Delete_law _ _ _ Ht H1) as [Ht1 Hv1].
  destruct (IH t1 Ht1) as (t' & Hr & Ht' & Hv'). exists t'.
  erewrite bind_inr by (unfold t_Delete; by rewrite H1).
  split; [done|]. split; [done|]. intros x. rewrite Hv', Hv1, lookup_delete.
  repeat case_decide; set_solver.
Qed.

(** ** Representation lemmas *)

Lemma type_of_frame now v (e : entry) k' u :
  u ≠ typeKey k' → type_of now (<[u := e]> v) k' = type_of now v k'.
Proof. intros H. unfold type_of. rewrite vget_insert. by rewrite decide_False. Qed.

Lemma type_of_delete now v k' u :
  u ≠ typeKey k' → type_of now (delete u v) k' = type_of now v k'.
Proof. intros H. unfold type_of. rewrite vget_delete. by rewrite decide_False. Qed.

(** Writing a value and its type with one expiry. *)
Lemma Sim_put en v m k val typ r exp :
  Sim (now en) v m → decode_val typ val = Some r →
  Sim (now en) (<[typeKey k := Entry typ exp]> (<[userKey k := Entry val exp]> v))
    (put en k r exp m).
Proof.
  intros [HR HS] Hd.
  assert (Hty : ∀ tm k', k' ≠ k →
    type_of tm (<[typeKey k := Entry typ exp]> (<[userKey k := Entry val exp]> v)) k'
    = type_of tm v k').
  { intros tm k' Hk. by rewrite !type_of_frame by (done || (intros ?; simplify_eq)). }
  assert (Hty' : ∀ tm, live tm (Entry "" exp) = true →
    type_of tm (<[typeKey k := Entry typ exp]> (<[userKey k := Entry val exp]> v)) k = typ).
  { intros tm Hl. unfold type_of. rewrite vget_insert, decide_True by done.
    unfold live in *; simpl in *. by rewrite Hl. }
  split.
  - intros k'. unfold put. rewrite vget_insert, decide_False by done.
    rewrite vget_insert. destruct (decide (k = k')) as [->|Hne].
    + rewrite decide_True by done.
      change (live (now en) (Entry val exp)) with (live (now en) (Entry "" exp)).
      destruct (live (now en) (Entry "" exp)) eqn:Hl.
      * exists r. rewrite Hty' by done. by rewrite lookup_insert_eq.
      * by rewrite lookup_delete_eq.
    + rewrite decide_False by (intros ?; simplify_eq). specialize (HR k').
      rewrite Hty by done. destruct (vget (now en) v (userKey k')) as [e|].
      * destruct HR as (r' & ? & ?). exists r'. split; [done|].
        case_match; [by rewrite lookup_insert_ne|by rewrite lookup_delete_ne].
      * case_match; [by rewrite lookup_insert_ne|by rewrite lookup_delete_ne].
  - intros k' e tm. rewrite lookup_insert_ne by done. rewrite lookup_insert.
    case_decide as Hk; simplify_eq.
    + intros [= <-] Hle Hl. rewrite !Hty'; [done| |done].
      by eapply live_antitone.
    + intros He Hle Hl. rewrite !Hty by (intros ->; congruence). by eapply HS.
Qed.

(** Removing a key and its type. *)
Lemma Sim_drop now v m k :
  Sim now v m → Sim now (delete (typeKey k) (delete (userKey k) v)) (delete k m).
Proof.
  intros [HR HS].
  assert (Hty : ∀ tm k', k' ≠ k →
    type_of tm (delete (typeKey k) (delete (userKey k) v)) k' = type_of tm v k').
  { intros tm k' Hk. by rewrite !type_of_delete by (done || (intros ?; simplify_eq)). }
  split.
  - intros k'. rewrite vget_delete, decide_False by done. rewrite vget_delete.
    destruct (decide (k = k')) as [->|Hne].
    + rewrite decide_True by done. by rewrite lookup_delete_eq.
    + rewrite decide_False by (intros ?; simplify_eq). rewrite Hty by done.
      rewrite lookup_delete_ne by done. apply HR.
  - intros k' e tm. rewrite lookup_delete_ne by done. rewrite lookup_delete_Some.
    intros [Hne He]. rewrite !Hty by congruence. by apply HS.
Qed.

(** Removing a key but not its type. *)
Lemma Sim_drop_user now v m k :
  Sim now v m → Sim now (delete (userKey k) v) (delete k m).
Proof.
  intros [HR HS].
  assert (Hty : ∀ tm k', type_of tm (delete (userKey k) v) k' = type_of tm v k')
    by (intros; by rewrite type_of_delete).
  split.
  - intros k'. rewrite vget_delete, Hty. destruct (decide (k = k')) as [->|Hne].
    + by rewrite decide_True, lookup_delete_eq.
    + rewrite decide_False by (intros ?; simplify_eq). rewrite lookup_delete_ne by done.
      apply HR.
  - intros k' e tm. rewrite lookup_delete_Some, !Hty. intros [_ He]. by apply HS.
Qed.

(** A store with no visible value represents the empty state. *)
Lemma Sim_empty now v : (∀ k, vget now v (userKey k) = None) → Sim now v ∅.
Proof.
  intros Hv. split.
  - intros k. by rewrite Hv.
  - intros k e tm He Hle Hl. specialize (Hv k).
    assert (vget now v (userKey k) = Some e) by (apply vget_Some; eauto using live_antitone).
    congruence.
Qed.

(** Time passing. *)
Lemma Sim_expire now now' v m : now <= now' → Sim now v m → Sim now' v (expire now' m).
Proof.
  intros Hn [HR HS]. split.
  - intros k. specialize (HR k). unfold expire.
    destruct (vget now' v (userKey k)) as [e|] eqn:He.
    + apply vget_Some in He as [He Hl].
      assert (vget now v (userKey k) = Some e) as Hg
        by (apply vget_Some; eauto using live_antitone).
      rewrite Hg in HR. destruct HR as (r & Hd & Hm). exists r.
      rewrite (HS k e now') by done. split; [done|].
      by rewrite map_lookup_filter_Some.
    + apply map_lookup_filter_None.
      destruct (vget now v (userKey k)) as [e|] eqn:Hg; [|by left].
      destruct HR as (r & Hd & Hm). right. intros [r' exp'] Hm'. simplify_eq. simpl.
      rewrite live_exp. intros Hl. apply vget_Some in Hg as [Hg _].
      assert (vget now' v (userKey k) = Some e) by (by apply vget_Some). congruence.
  - intros k e tm He Hle Hl. rewrite (HS k e tm), (HS k e now') by
      (done || lia || by eapply live_antitone). done.
Qed.

Lemma Sim_lookup now v m k :
  Sim now v m →
  match m !! k with
  | None => vget now v (userKey k) = None
  | Some (r, exp) => ∃ e, vget now v (userKey k) = Some e ∧ e_exp e = exp
                          ∧ decode_val (type_name r) (e_val e) = Some r
                          ∧ type_of now v k = type_name r
  end.
Proof.
  intros [HR _]. specialize (HR k). destruct (vget now v (userKey k)) as [e|].
  - destruct HR as (r & Hd & ->). pose proof (decode_type _ _ _ Hd) as Ht.
    exists e. rewrite <- Ht at 1. by rewrite Hd.
  - by rewrite HR.
Qed.

(** Encoding a value gives data that decodes to it. *)
Lemma decode_str s : decode_val "string" s = Some (RStr s).
Proof. done. Qed.
Lemma decode_hash h : decode_val "hash" (encodeMsgpack h) = Some (RHash h).
Proof. unfold decode_val. simpl. by rewrite decode_encode_hash. Qed.
Lemma decode_list l : decode_val "list" (encodeMsgpack l) = Some (RList l).
Proof. unfold decode_val. simpl. by rewrite decode_encode_list. Qed.
Lemma decode_set l s : l ≡ₚ elements s → decode_val "set" (encodeMsgpack l) = Some (RSet s).
Proof.
  intros Hl. unfold decode_val. simpl. rewrite decode_encode_list.
  rewrite decide_True by (rewrite Hl; apply NoDup_elements).
  do 2 f_equal. apply set_eq. intros x. by rewrite elem_of_list_to_set, Hl, elem_of_elements.
Qed.

(** ** Running a command *)

Abbreviation FM := (M txn gerr).

(** Running [f] on [t] gives [out]'s answer and a store for its state. *)
Definition runs_to en (f : FM goval) t (out : (gerr + goval) * rstate) : Prop :=
  ∃ t', f t = (out.1, t') ∧ healthy t' ∧ Sim (now en) (view t') out.2.

Lemma runs_same en (r : gerr + goval) t m (f : FM goval) :
  f t = (r, t) → healthy t → Sim (now en) (view t) m → runs_to en f t (r, m).
Proof. intros. exists t. auto. Qed.

Lemma runs_put en k val typ ms r reply t m :
  writable k → healthy t → Sim (now en) (view t) m → decode_val typ val = Some r →
  runs_to en (setValue en k val typ ms;;; ret reply) t
    (inr reply, put en k r (exp_of en ms) m).
Proof.
  intros Hw Ht Hs Hd. destruct (setValue_run en k val typ ms t Hw Ht) as (t' & Hr & Ht' & Hv).
  exists t'. erewrite bind_inr by done. split; [done|]. split; [done|].
  rewrite Hv. by apply Sim_put.
Qed.

Lemma runs_drop en k reply t m :
  writable k → healthy t → Sim (now en) (view t) m →
  runs_to en (dropKey k;;; ret reply) t (inr reply, delete k m).
Proof.
  intros Hw Ht Hs. destruct (dropKey_run k t Hw Ht) as (t' & Hr & Ht' & Hv).
  exists t'. erewrite bind_inr by done. split; [done|]. split; [done|].
  rewrite Hv. by apply Sim_drop.
Qed.

Lemma runs_bind {A} en (f : FM A) (a : A) t g out :
  f t = (inr a, t) → runs_to en (g a) t out → runs_to en (x <- f;; g x) t out.
Proof. intros Hf (t' & Hg & H). exists t'. by erewrite bind_inr. Qed.

Lemma runs_bind_err {A} en (f : FM A) (e : gerr) t m (g : A → FM goval) :
  f t = (inl e, t) → healthy t → Sim (now en) (view t) m →
  runs_to en (x <- f;; g x) t (inl e, m).
Proof. intros Hf Ht Hs. exists t. by erewrite bind_inl. Qed.

Lemma remaining_rem en e : remainingTTLMs en e = rem_ms en (e_exp e).
Proof. done. Qed.
End sim.

#[export] Hint Resolve decode_str decode_hash decode_list decode_set : badis.

(** Case analysis on the comparisons of strings a command makes. *)
Ltac str_cases :=
  rewrite ?str_in_cons, ?str_in_nil;
  repeat match goal with
  | |- context [String.eqb ?a ?b] => destruct (String.eqb_spec a b); simplify_eq/=; try congruence
  end.
Ltac finish := first [ by apply runs_same | by apply runs_put; auto with badis
                     | by apply runs_drop ].
