(* ===== verification/Concrete.v ===== *)
(** * A concrete store, codec and environment

    The parameters of the model instantiated by functions, on which the
    definitions evaluate and the hypotheses of the theorems hold. *)

From S2P Require Import Prelude GoStd Badger Codec Keys Fsm FsmColl FsmSpec FsmSim.
From Stdlib Require Import Lia ZArith.

Definition B0 : BadgerOps := MapBadger 1000.
Definition L0 : BadgerLaws B0 := MapBadgerLaws 1000.
Definition C0 : Codec := BitCodec.
Definition CL0 : CodecLaws C0 := BitCodecLaws.

Definition cmd (op key : string) (args : list string) : Command := mkCommand op key args 0 "" false.

(** A clock and Go's map order: increasing keys. *)
Definition en0 (now : Z) : Env := mkEnv now (λ _ s, elements s).

Lemma en0_ok now : 0 <= now <= max_int64 → env_ok (en0 now).
Proof. done. Qed.

(** Lua commands are refused. *)
Definition noLua (_ : Env) (_ : Command) : M (@txn B0) gerr goval := raise (EMsg "no Lua").

Lemma writable0 k : (String.length k < 1000)%nat → writable (B := B0) (L := L0) k.
Proof.
  intros Hk k' t Hk' _. split; [|by eexists].
  intros e. simpl. unfold map_set. destruct (Nat.ltb_spec 1000 (String.length k')); [|eauto].
  destruct Hk' as [-> | ->]; simpl in *; lia.
Qed.

Lemma Sim_empty0 now : Sim (C := C0) now ∅ ∅.
Proof. apply Sim_empty. done. Qed.

(** A store with a value of each type, and what it represents. *)
Definition bind0 (k typ data : string) (v : gmap string entry) : gmap string entry :=
  <[typeKey k := Entry typ 0]> (<[userKey k := Entry data 0]> v).

Definition hash0 : gmap string string := {["f" := "v"; "g" := "w"]}.
Definition list0 : list string := ["a"; "b"; "c"].
Definition set0 : gset string := {["x"; "y"]}.

Definition store0 : gmap string entry :=
  bind0 "set" "set" (@encodeMsgpack C0 _ _ (elements set0))
    (bind0 "list" "list" (@encodeMsgpack C0 _ _ list0)
      (bind0 "hash" "hash" (@encodeMsgpack C0 _ _ hash0)
        (bind0 "str" "string" "hello" ∅))).

Definition state0 : rstate :=
  <["set" := (RSet set0, 0)]> (<["list" := (RList list0, 0)]>
    (<["hash" := (RHash hash0, 0)]> (<["str" := (RStr "hello", 0)]> ∅))).

Lemma Sim_store0 now : Sim (C := C0) now store0 state0.
Proof.
  change now with (Fsm.now (en0 now)).
  assert (Hput : ∀ k typ data r v m, Sim (C := C0) (Fsm.now (en0 now)) v m →
    decode_val (C := C0) typ data = Some r →
    Sim (C := C0) (Fsm.now (en0 now)) (bind0 k typ data v) (<[k := (r, 0)]> m)).
  { intros k typ data r v m Hs Hd. exact (Sim_put (C := C0) (en0 now) v m k data typ r 0 Hs Hd). }
  pose proof (@decode_encode_hash C0 CL0) as Hh. pose proof (@decode_encode_list C0 CL0) as Hl.
  unfold store0, state0. repeat apply Hput; [by apply Sim_empty0|done| | |]; unfold decode_val.
  - by rewrite Hh.
  - by rewrite Hl.
  - rewrite Hl. cbn [String.eqb]. simpl. rewrite decide_True by apply NoDup_elements.
    by rewrite list_to_set_elements_L.
Qed.

Definition db0 : @db B0 := store0.
Definition txn0 : @txn B0 := store0.

Lemma dhealthy0 (d : @db B0) : @dhealthy B0 L0 d.
Proof. done. Qed.
Lemma healthy0 (t : @txn B0) : @healthy B0 L0 t.
Proof. done. Qed.
