(* ===== verification/FsmRefine.v ===== *)
(** * The commands refine the abstract Redis

    Each command of store/fsm.go, run on a store that represents an abstract
    state, gives the answer of its specification and leaves a store that
    represents the specified state. *)

From S2P Require Import Prelude GoStd Badger Codec Keys Fsm FsmColl FsmApply FsmSpec FsmSim.
From Stdlib Require Import Lia ZArith Wf_nat.

Section refine.
Context `{B : BadgerOps} {L : BadgerLaws B} `{C : Codec} {CL : CodecLaws C}.
Implicit Types (v : gmap string entry) (m : rstate) (t : txn) (en : Env) (k : string).

(** ** Strings *)

Lemma cmd_set_runs en c t m :
  writable (Key c) → healthy t → Sim (now en) (view t) m →
  runs_to en (cmd_set en c) t (spec_set en c m).
Proof.
  intros Hw Ht Hs. unfold cmd_set, spec_set.
  destruct (Args c) as [|a args]; [by apply runs_same|].
  eapply runs_bind; [by apply t_Get_run|].
  pose proof (Sim_lookup _ _ _ (Key c) Hs) as Hk.
  destruct (m !! Key c) as [[r exp]|] eqn:Hm.
  - destruct Hk as (e & Hg & <- & Hd & Hty). rewrite Hg.
    destruct r as [s|?|?|?]; simpl in Hty.
    2-4: eapply runs_bind_err; [|done|done];
         apply bind_inl; rewrite ensureExistingType_run, Hty by done; done.
    eapply runs_bind.
    { erewrite bind_inr; [done|]. rewrite ensureExistingType_run, Hty by done. done. }
    rewrite (vget_copy _ _ _ _ Ht Hg ltac:(done)), remaining_rem.
    rewrite decode_str in Hd. simplify_eq/=. unfold retain.
    destruct (ReturnOld c), (TTLMs c =? 0); str_cases; finish.
  - rewrite Hk. eapply runs_bind; [done|]. simpl.
    destruct (ReturnOld c), (TTLMs c =? 0); str_cases; finish.
Qed.

Lemma incr_delta_run c t : incr_delta c t = (delta_of c, t).
Proof.
  unfold incr_delta, delta_of. case_match; [|done].
  destruct (Args c) as [|a ?]; [done|]. by destruct (ParseInt a) as [d [er|]].
Qed.

Lemma cmd_incr_runs en c t m :
  writable (Key c) → healthy t → Sim (now en) (view t) m →
  runs_to en (cmd_incr en c) t (spec_incr en c m).
Proof.
  intros Hw Ht Hs. unfold cmd_incr, spec_incr.
  eapply runs_bind; [by apply t_Get_run|].
  pose proof (Sim_lookup _ _ _ (Key c) Hs) as Hk.
  assert (Hadd : ∀ val ms exp, exp_of en ms = retain en exp → runs_to en
    (delta <- incr_delta c;;
     let val := if str_in (Op c) ["INCR"; "INCRBY"] then wrap64 (val + delta)
                else wrap64 (val - delta) in
     setValue en (Key c) (FormatInt val) "string" ms;;; ret (GInt64 val)) t
    match delta_of c with
    | inl e => (inl e, m)
    | inr delta =>
        let v' := wrap64 (if str_in (Op c) ["INCR"; "INCRBY"] then val + delta else val - delta) in
        (inr (GInt64 v'), put en (Key c) (RStr (FormatInt v')) (retain en exp) m)
    end).
  { intros val ms exp <-. pose proof (incr_delta_run c t) as Hd.
    destruct (delta_of c) as [er|d]; [by eapply runs_bind_err|].
    eapply runs_bind; [done|]. destruct (str_in (Op c) _); finish. }
  destruct (m !! Key c) as [[r exp]|] eqn:Hm.
  - destruct Hk as (e & Hg & <- & Hd & Hty). rewrite Hg.
    destruct r as [s|?|?|?]; simpl in Hty.
    2-4: eapply runs_bind_err; [|done|done];
         apply bind_inl; rewrite ensureExistingType_run, Hty by done; done.
    rewrite (vget_copy _ _ _ _ Ht Hg ltac:(done)), remaining_rem.
    rewrite decode_str in Hd. simplify_eq.
    destruct (ParseInt (e_val e)) as [p [er|]].
    { eapply runs_bind_err; [|done|done]. erewrite bind_inr; [done|].
      rewrite ensureExistingType_run, Hty by done. done. }
    eapply runs_bind.
    { erewrite bind_inr; [done|]. rewrite ensureExistingType_run, Hty by done. done. }
    by apply Hadd.
  - rewrite Hk. eapply runs_bind; [done|]. by apply Hadd.
Qed.

Lemma cmd_persist_runs en c t m :
  writable (Key c) → healthy t → Sim (now en) (view t) m →
  runs_to en (cmd_persist en c) t (spec_persist c m).
Proof.
  intros Hw Ht Hs. unfold cmd_persist, spec_persist.
  eapply runs_bind; [by apply t_Get_run|].
  pose proof (Sim_lookup _ _ _ (Key c) Hs) as Hk.
  destruct (m !! Key c) as [[r exp]|] eqn:Hm; [|rewrite Hk; finish].
  destruct Hk as (e & Hg & <- & Hd & Hty). rewrite Hg. case_match; [finish|].
  eapply runs_bind; [by apply t_Get_run|].
  set (typ := match _ with inr _ => _ | inl _ => _ end).
  assert (typ = type_name r) as ->.
  { rewrite <- Hty. unfold typ, type_of.
    destruct (vget (now en) (view t) (typeKey (Key c))) as [te|] eqn:Hte; [|done].
    by apply (vget_copy _ _ _ _ Ht Hte ltac:(done)). }
  rewrite (vget_copy _ _ _ _ Ht Hg ltac:(done)).
  change (<[Key c := (r, 0)]> m) with (put en (Key c) r (exp_of en 0) m). by apply runs_put.
Qed.

(** EXPIRE refines its specification at the instant it runs.  Whether the
    representation outlives the old expiry of the type entry is the subject
    of FsmTtl.v. *)
Lemma cmd_expire_runs en c t m :
  writable (Key c) → healthy t → Sim (now en) (view t) m →
  ∃ t', cmd_expire en c t = ((spec_expire en c m).1, t') ∧ healthy t' ∧
    Rep (now en) (view t') (spec_expire en c m).2.
Proof.
  intros Hw Ht Hs. unfold cmd_expire, spec_expire.
  erewrite bind_inr by (by apply t_Get_run).
  pose proof (Sim_lookup _ _ _ (Key c) Hs) as Hk.
  destruct (m !! Key c) as [[r exp]|] eqn:Hm.
  2: { rewrite Hk. exists t. split; [done|]. split; [done|]. apply Hs. }
  destruct Hk as (e & Hg & <- & Hd & Hty). rewrite Hg.
  destruct (Hw (userKey (Key c)) t (or_introl eq_refl) Ht) as [Hset _].
  set (en' := Entry _ _). destruct (Hset en') as [t1 H1].
  destruct (SetEntry_law _ _ _ _ Ht H1) as [Ht1 Hv1]. exists t1.
  split; [unfold bind, t_SetEntry; by rewrite H1|]. split; [done|].
  rewrite Hv1. simpl. intros k'. rewrite vget_insert, type_of_frame by done.
  destruct Hs as [HR _]. unfold put. subst en'.
  destruct (decide (Key c = k')) as [<-|Hne].
  - rewrite decide_True by done. change (live (now en) (Entry ?a ?b)) with (live (now en) (Entry "" b)).
    destruct (live _ _) eqn:Hl; [|by rewrite lookup_delete_eq].
    exists r. rewrite lookup_insert_eq, Hty. simpl. by rewrite (vget_copy _ _ _ _ Ht Hg ltac:(done)).
  - rewrite decide_False by (intros ?; simplify_eq). specialize (HR k').
    destruct (vget (now en) (view t) (userKey k')) as [e'|].
    + destruct HR as (r' & ? & ?). exists r'. split; [done|].
      destruct (live _ _); [by rewrite lookup_insert_ne|by rewrite lookup_delete_ne].
    + destruct (live _ _); [by rewrite lookup_insert_ne|by rewrite lookup_delete_ne].
Qed.

(** ** MSET *)

Lemma mset_loop_runs en args t m :
  (∀ k, k ∈ (pairs args).*1 → writable k) → healthy t → Sim (now en) (view t) m →
  ∃ t', mset_loop en args t = (inr tt, t') ∧ healthy t' ∧
    Sim (now en) (view t') (foldl (λ m kv, <[kv.1 := (RStr kv.2, 0)]> m) m (pairs args)).
Proof.
  revert t m. induction args as [args IH] using (induction_ltof1 _ length).
  unfold ltof in IH. destruct args as [|k [|val args]]; intros t m Hw Ht Hs.
  1,2: exists t; auto.
  simpl in Hw. destruct (runs_put en k val "string" 0 (RStr val) GNil t m)
    as (t1 & H1 & Ht1 & Hs1); [apply Hw; set_solver|done|done|apply decode_str|].
  destruct (IH args ltac:(simpl; lia) t1 (<[k := (RStr val, 0)]> m)) as (t' & H' & Ht' & Hs');
    [set_solver|done|done|].
  exists t'. split_and!; [|done|done]. cbn [mset_loop]. unfold bind, ret in *.
  destruct (setValue en k val "string" 0 t) as [[e|[]] t2]; simplify_eq/=. done.
Qed.

Lemma cmd_mset_runs en c t m :
  (∀ k, k ∈ (pairs (Args c)).*1 → writable k) → healthy t → Sim (now en) (view t) m →
  runs_to en (cmd_mset en c) t (spec_mset en c m).
Proof.
  intros Hw Ht Hs. unfold cmd_mset, spec_mset. case_match; [finish|].
  destruct (mset_loop_runs en (Args c) t m Hw Ht Hs) as (t' & Hr & Ht' & Hs').
  exists t'. by erewrite bind_inr.
Qed.

(** ** DEL and FLUSHDB *)

Lemma del_loop_runs en ks count t m :
  (∀ k, k ∈ ks → writable k) → healthy t → Sim (now en) (view t) m →
  ∃ t', foldM (del_one en) count ks t
        = (inr (count + (Z.of_nat (size m) - Z.of_nat (size (without ks m)))), t')
    ∧ healthy t' ∧ Sim (now en) (view t') (without ks m).
Proof.
  revert count t m. induction ks as [|k ks IH]; intros count t m Hw Ht Hs.
  { exists t. rewrite without_nil. split; [|done]. simpl. unfold ret. do 2 f_equal. lia. }
  cbn [foldM]. unfold del_one at 1. rewrite without_cons.
  pose proof (Sim_lookup _ _ _ k Hs) as Hk.
  destruct (m !! k) as [[r exp]|] eqn:Hm.
  - destruct Hk as (e & Hg & _).
    destruct (Hw k ltac:(set_solver) (userKey k) t (or_introl eq_refl) Ht) as [_ [t1 H1]].
    destruct (runs_drop en k GNil t m) as (t2 & H2 & Ht2 & Hs2); [set_solver|done..|].
    destruct (IH (count + 1) t2 (delete k m)) as (t' & Hr & Ht' & Hs'); [set_solver|done..|].
    exists t'. split; [|done].
    assert (count + (Z.of_nat (size m) - Z.of_nat (size (without ks (delete k m))))
      = count + 1 + (Z.of_nat (size (delete k m))
                     - Z.of_nat (size (without ks (delete k m))))) as ->
      by (rewrite (size_delete_Z m k _ Hm); lia).
    rewrite <- Hr. unfold dropKey, bind, t_Delete, t_Delete_, t_Get, ret in *.
    rewrite Get_law, Hg, H1 in * by done. destruct (txn_Delete (typeKey k) t1); by simplify_eq.
  - destruct (IH count t m) as (t' & Hr & Ht' & Hs'); [set_solver|done..|].
    rewrite delete_id by done. exists t'. split; [|done]. rewrite <- Hr.
    unfold bind, t_Get, ret. by rewrite Get_law, Hk by done.
Qed.

Lemma cmd_del_runs en c t m :
  (∀ k, k ∈ Key c :: Args c → writable k) → healthy t → Sim (now en) (view t) m →
  runs_to en (cmd_del en c) t (spec_del c m).
Proof.
  intros Hw Ht Hs. unfold cmd_del, spec_del.
  destruct (Args c) as [|a args].
  - cbn [foldM]. eapply runs_bind; [done|]. simpl andb.
    destruct (String.eqb_spec (Key c) "") as [_|Hne]; simpl negb; cbv iota.
    { rewrite without_nil. eapply runs_bind; [done|]. rewrite Z.sub_diag. finish. }
    rewrite without_cons, without_nil.
    pose proof (Sim_lookup _ _ _ (Key c) Hs) as Hk.
    destruct (m !! Key c) as [[r exp]|] eqn:Hm.
    + destruct Hk as (e & Hg & _).
      destruct (Hw (Key c) ltac:(set_solver) (userKey (Key c)) t (or_introl eq_refl) Ht)
        as [_ [t1 H1]].
      destruct (Delete_law _ _ _ Ht H1) as [Ht1 Hv1]. exists t1. simpl.
      rewrite Hv1. split_and!; [|done|by apply Sim_drop_user].
      unfold bind, t_Get, ret. rewrite Get_law, Hg, H1 by done.
      rewrite (size_delete_Z m _ _ Hm). do 3 f_equal. lia.
    + rewrite delete_id, Z.sub_diag by done. eapply runs_bind; [|finish].
      unfold bind, t_Get, ret. by rewrite Get_law, Hk by done.
  - destruct (del_loop_runs en (a :: args) 0 t m) as (t' & Hr & Ht' & Hs'); [set_solver|done..|].
    exists t'. erewrite bind_inr by done. split_and!; [|done|done].
    simpl andb. cbv iota. erewrite bind_inr by done. done.
Qed.

Lemma cmd_flushdb_runs en c t m :
  deletable → healthy t → Sim (now en) (view t) m →
  runs_to en (cmd_flushdb en c) t (spec_flushdb m).
Proof.
  intros Hd Ht Hs. unfold cmd_flushdb, spec_flushdb, delete_prefix.
  assert (Hdata : ∀ p t, healthy t → p = String prefixUser "" ∨ p = String prefixType "" →
    Forall (λ k, data_key k = true) (iter_keys en p t)).
  { intros p t0 Ht0 Hp. apply Forall_forall. intros x Hx.
    apply iter_keys_spec in Hx as [Hx _]; [|done].
    destruct Hp as [-> | ->]; apply has_prefix_char in Hx as [x' ->]; auto with badis. }
  destruct (delete_all_run (iter_keys en (String prefixUser "") t) t) as (t1 & H1 & Ht1 & Hv1);
    [done|by eapply Hdata; eauto|done|].
  destruct (delete_all_run (iter_keys en (String prefixType "") t1) t1) as (t2 & H2 & Ht2 & Hv2);
    [done|by eapply Hdata; eauto|done|].
  exists t2. split_and!; [|done|].
  - unfold bind. by rewrite H1, H2.
  - apply Sim_empty. intros k. unfold vget. rewrite Hv2, Hv1.
    case_decide; [done|]. case_decide as Hn; [done|].
    destruct (view t !! userKey k) as [e|] eqn:He; [|done].
    destruct (live (now en) e) eqn:Hl; [|done]. exfalso. apply Hn.
    apply iter_keys_spec; [done|]. split; [by destruct k|].
    exists e. by apply vget_Some.
Qed.
End refine.
