(* ===== verification/FsmRefineColl.v ===== *)
(** * The collection commands refine the abstract Redis *)

From S2P Require Import Prelude GoStd Badger Codec Keys Fsm FsmColl FsmSpec FsmLoops FsmSim.
From Stdlib Require Import Lia ZArith.

Section refine_coll.
Context `{B : BadgerOps} {L : BadgerLaws B} `{C : Codec} {CL : CodecLaws C}.
Implicit Types (v : gmap string entry) (m : rstate) (t : txn) (en : Env) (k : string).

(** ** Loading a collection *)

Lemma load_missing {A} `{!Msgpack C A} typ en k t m :
  healthy t → Sim (now en) (view t) m → m !! k = None →
  load (A := A) typ en k t = (inr None, t).
Proof.
  intros Ht Hs Hm. pose proof (Sim_lookup _ _ _ k Hs) as Hk. rewrite Hm in Hk.
  unfold load. erewrite bind_inr by (by apply t_Get_run). by rewrite Hk.
Qed.

Lemma load_wrong {A} `{!Msgpack C A} typ en k t m r exp :
  healthy t → Sim (now en) (view t) m → m !! k = Some (r, exp) → type_name r ≠ typ →
  load (A := A) typ en k t = (inl EWrongType, t).
Proof.
  intros Ht Hs Hm Hne. pose proof (Sim_lookup _ _ _ k Hs) as Hk. rewrite Hm in Hk.
  destruct Hk as (e & Hg & _ & _ & Hty).
  unfold load. erewrite bind_inr by (by apply t_Get_run). rewrite Hg.
  apply bind_inl. rewrite ensureExistingType_run, Hty by done.
  by destruct (String.eqb_spec (type_name r) typ).
Qed.

(** The stored data of a key that holds a value of the expected type. *)
Lemma load_data {A} `{!Msgpack C A} typ en k t m r exp :
  healthy t → Sim (now en) (view t) m → m !! k = Some (r, exp) → type_name r = typ →
  ∃ data, decode_val typ data = Some r ∧
    ∀ a, decodeMsgpack data = inr a → load (A := A) typ en k t = (inr (Some (a, rem_ms en exp)), t).
Proof.
  intros Ht Hs Hm <-. pose proof (Sim_lookup _ _ _ k Hs) as Hk. rewrite Hm in Hk.
  destruct Hk as (e & Hg & <- & Hd & Hty). exists (e_val e). split; [done|]. intros a Ha.
  unfold load. erewrite bind_inr by (by apply t_Get_run). rewrite Hg.
  erewrite bind_inr by (rewrite ensureExistingType_run, Hty, String.eqb_refl by done; done).
  rewrite (vget_copy _ _ _ _ Ht Hg ltac:(done)), Ha. done.
Qed.

Lemma loadHash_run en k t m :
  healthy t → Sim (now en) (view t) m →
  loadHash en k t = (match m !! k with
                     | None => inr None
                     | Some (RHash h, exp) => inr (Some (h, rem_ms en exp))
                     | Some _ => inl EWrongType
                     end, t).
Proof.
  intros Ht Hs. destruct (m !! k) as [[[s|h|l|s] exp]|] eqn:Hm;
    try (by eapply load_wrong); [|by eapply load_missing].
  destruct (load_data (A := gmap string string) "hash" en k t m _ _ Ht Hs Hm eq_refl)
    as (data & Hd & Hload).
  apply Hload. unfold decode_val in Hd. simpl in *. by case_match; simplify_eq.
Qed.

Lemma loadList_run en k t m :
  healthy t → Sim (now en) (view t) m →
  loadList en k t = (match m !! k with
                     | None => inr None
                     | Some (RList l, exp) => inr (Some (l, rem_ms en exp))
                     | Some _ => inl EWrongType
                     end, t).
Proof.
  intros Ht Hs. destruct (m !! k) as [[[s|h|l|s] exp]|] eqn:Hm;
    try (by eapply load_wrong); [|by eapply load_missing].
  destruct (load_data (A := list string) "list" en k t m _ _ Ht Hs Hm eq_refl)
    as (data & Hd & Hload).
  apply Hload. unfold decode_val in Hd. simpl in *. by case_match; simplify_eq.
Qed.

(** The members of a set come in some order, without repetition. *)
Lemma loadSet_run en k t m :
  healthy t → Sim (now en) (view t) m →
  match m !! k with
  | None => loadSet en k t = (inr None, t)
  | Some (RSet s, exp) =>
      ∃ l, NoDup l ∧ list_to_set l = s ∧ loadSet en k t = (inr (Some (l, rem_ms en exp)), t)
  | Some _ => loadSet en k t = (inl EWrongType, t)
  end.
Proof.
  intros Ht Hs. destruct (m !! k) as [[[s|h|l|s] exp]|] eqn:Hm;
    try (by eapply load_wrong); [|by eapply load_missing].
  destruct (load_data (A := list string) "set" en k t m _ _ Ht Hs Hm eq_refl)
    as (data & Hd & Hload).
  unfold decode_val in Hd. simpl in *. destruct (decodeMsgpack data) as [|l]; [done|].
  case_decide; simplify_eq. exists l. split; [done|]. split; [done|]. by apply Hload.
Qed.

(** ** Hashes *)

Ltac on_keys := match goal with
  | |- context [?m !! Key ?c] => destruct (m !! Key c) as [[[?s|?h|?l|?s] exp]|] eqn:Hm
  end.

Lemma cmd_hset_runs en c t m :
  writable (Key c) → healthy t → Sim (now en) (view t) m →
  runs_to en (cmd_hset en c) t (spec_hset en c m).
Proof.
  intros Hw Ht Hs. unfold cmd_hset, spec_hset, on_hash. case_match; [finish|].
  pose proof (loadHash_run en (Key c) t m Ht Hs) as Hload. on_keys;
    try (by eapply runs_bind_err);
    (eapply runs_bind; [done|]); simpl; rewrite hset_loop_spec; finish.
Qed.

Lemma cmd_hdel_runs en c t m :
  writable (Key c) → healthy t → Sim (now en) (view t) m →
  runs_to en (cmd_hdel en c) t (spec_hdel en c m).
Proof.
  intros Hw Ht Hs. unfold cmd_hdel, spec_hdel, on_hash.
  pose proof (loadHash_run en (Key c) t m Ht Hs) as Hload. on_keys;
    try (by eapply runs_bind_err); (eapply runs_bind; [done|]); simpl.
  - rewrite hdel_loop_spec. case_bool_decide; finish.
  - assert (hash_del (Args c) ∅ = ∅) as ->.
    { apply map_eq. intros k. unfold hash_del. rewrite lookup_without. by case_decide. }
    rewrite bool_decide_eq_true_2 by done. rewrite delete_id by done. finish.
Qed.

(** ** Lists *)

Lemma cmd_push_runs en c t m :
  writable (Key c) → healthy t → Sim (now en) (view t) m →
  runs_to en (cmd_push en c) t (spec_push en c m).
Proof.
  intros Hw Ht Hs. unfold cmd_push, spec_push, on_list.
  pose proof (loadList_run en (Key c) t m Ht Hs) as Hload. on_keys;
    try (by eapply runs_bind_err); (eapply runs_bind; [done|]); simpl;
    rewrite push_loop_spec, ?andb_false_r, ?andb_true_r; [finish|].
  case_match; finish.
Qed.

Lemma runs_storeList en k l exp reply t m :
  writable k → healthy t → Sim (now en) (view t) m →
  runs_to en (storeList en k l (rem_ms en exp);;; ret reply) t
    (inr reply, put_list en k l exp m).
Proof.
  intros Hw Ht Hs. unfold storeList, put_list. destruct l; simpl; finish.
Qed.

Lemma pop_count_run c t : pop_count c t = (count_of c, t).
Proof.
  unfold pop_count, count_of. destruct (Args c) as [|a ?]; [done|].
  destruct (Atoi a) as [n [er|]]; [done|]. by case_match.
Qed.

Lemma count_of_inr c n : count_of c = inr n → 0 <= n ∧ (Args c = [] → n = 1).
Proof.
  unfold count_of. destruct (Args c) as [|a ?]; [intros [= <-]; lia|].
  destruct (Atoi a) as [p [er|]]; [done|]. destruct (Z.ltb_spec p 0); [done|].
  intros [= <-]. done.
Qed.

(** One element is popped from a list that has one. *)
Lemma pop_split_one left l : l ≠ [] → ∃ p rest, pop_split left 1 l = ([p], rest).
Proof.
  intros Hl. unfold pop_split. destruct left.
  - destruct l; [done|]. simpl. rewrite take_0. eauto.
  - destruct (reverse l) as [|p rl] eqn:Hr.
    { apply (f_equal reverse) in Hr. by rewrite reverse_involutive in Hr. }
    simpl. rewrite take_0. eauto.
Qed.

Lemma cmd_pop_runs en c t m :
  writable (Key c) → healthy t → Sim (now en) (view t) m →
  runs_to en (cmd_pop en c) t (spec_pop en c m).
Proof.
  intros Hw Ht Hs. unfold cmd_pop, spec_pop, on_list.
  pose proof (loadList_run en (Key c) t m Ht Hs) as Hload. on_keys;
    try (by eapply runs_bind_err); (eapply runs_bind; [done|]); simpl; [|finish].
  destruct l as [|x l0]; [finish|]. rewrite bool_decide_eq_false_2 by done.
  set (l := x :: l0). assert (Hl : (0 < length l)%nat) by (simpl; lia).
  pose proof (pop_count_run c t) as Hc.
  destruct (count_of c) as [er|count] eqn:Hcount; [by eapply runs_bind_err|].
  apply count_of_inr in Hcount as [Hpos Hone]. eapply runs_bind; [done|].
  assert (Z.to_nat (if Z.of_nat (length l) <? count then Z.of_nat (length l) else count)
          = (Z.to_nat count `min` length l)%nat) as ->
    by (destruct (Z.ltb_spec (Z.of_nat (length l)) count); lia).
  set (n := (_ `min` _)%nat).
  replace (if String.eqb (Op c) "LPOP" then pop_left n l else pop_right n l)
    with (pop_split (String.eqb (Op c) "LPOP") n l) by (by destruct (String.eqb _ _)).
  destruct (Args c) eqn:Ha; unfold pop_reply.
  - assert (n = 1%nat) as -> by (specialize (Hone eq_refl); lia).
    destruct (pop_split_one (String.eqb (Op c) "LPOP") l ltac:(done)) as (p & rest & ->).
    rewrite Ha. by apply runs_storeList.
  - destruct (pop_split _ n l). rewrite Ha. by apply runs_storeList.
Qed.

Lemma cmd_ltrim_runs en c t m :
  writable (Key c) → healthy t → Sim (now en) (view t) m →
  runs_to en (cmd_ltrim en c) t (spec_ltrim en c m).
Proof.
  intros Hw Ht Hs. unfold cmd_ltrim, spec_ltrim, on_list.
  pose proof (loadList_run en (Key c) t m Ht Hs) as Hload. on_keys;
    try (by eapply runs_bind_err); (eapply runs_bind; [done|]); simpl;
    (destruct (Args c) as [|a0 [|a1 ?]]; [finish|finish|]).
  - by apply runs_storeList.
  - by apply (runs_storeList en (Key c) [] 0).
Qed.

Lemma list_rem_nil x limit : list_rem x limit [] = [].
Proof. unfold list_rem. repeat case_match; simpl; done || by destruct (Z.to_nat _). Qed.

Lemma cmd_lrem_runs en c t m :
  writable (Key c) → healthy t → Sim (now en) (view t) m →
  runs_to en (cmd_lrem en c) t (spec_lrem en c m).
Proof.
  intros Hw Ht Hs. unfold cmd_lrem, spec_lrem, on_list.
  pose proof (loadList_run en (Key c) t m Ht Hs) as Hload. on_keys;
    try (by eapply runs_bind_err); (eapply runs_bind; [done|]); simpl;
    (destruct (Args c) as [|a0 [|a1 ?]]; [finish|finish|]); rewrite lrem_spec.
  - by apply runs_storeList.
  - rewrite list_rem_nil. by apply (runs_storeList en (Key c) [] 0).
Qed.

(** ** Sets *)

Lemma runs_storeSet en k s exp reply t m :
  env_ok en → writable k → healthy t → Sim (now en) (view t) m →
  runs_to en (storeSet en k s (rem_ms en exp);;; ret reply) t
    (inr reply, put_set en k s exp m).
Proof.
  intros [_ Hen] Hw Ht Hs. unfold storeSet, put_set. specialize (Hen 1%nat s).
  destruct (range en 1 s) as [|x l] eqn:Hr.
  - symmetry in Hen. apply Permutation_nil_r in Hen. apply elements_empty_inv in Hen.
    rewrite bool_decide_eq_true_2 by (by apply leibniz_equiv). finish.
  - rewrite bool_decide_eq_false_2.
    2: { intros ->. rewrite elements_empty in Hen. by apply Permutation_nil_r in Hen. }
    apply runs_put; [done..|]. by apply decode_set.
Qed.

Lemma cmd_sadd_runs en c t m :
  env_ok en → writable (Key c) → healthy t → Sim (now en) (view t) m →
  runs_to en (cmd_sadd en c) t (spec_sadd en c m).
Proof.
  intros [_ Hen] Hw Ht Hs. unfold cmd_sadd, spec_sadd, on_set.
  pose proof (loadSet_run en (Key c) t m Ht Hs) as Hload. on_keys;
    try (by eapply runs_bind_err).
  - destruct Hload as (l & Hl & <- & Hload). eapply runs_bind; [done|]. simpl.
    rewrite sadd_loop_spec. apply runs_put; [done..|]. by apply decode_set.
  - eapply runs_bind; [done|]. simpl. rewrite sadd_loop_spec.
    apply (runs_put en (Key c) _ _ 0); [done..|]. by apply decode_set.
Qed.

Lemma cmd_srem_runs en c t m :
  env_ok en → writable (Key c) → healthy t → Sim (now en) (view t) m →
  runs_to en (cmd_srem en c) t (spec_srem en c m).
Proof.
  intros Hen Hw Ht Hs. unfold cmd_srem, spec_srem, on_set.
  pose proof (loadSet_run en (Key c) t m Ht Hs) as Hload. on_keys;
    try (by eapply runs_bind_err).
  - destruct Hload as (l & Hl & <- & Hload). eapply runs_bind; [done|]. cbv beta iota.
    destruct (String.eqb (Op c) "SPOP"); cbn [negb].
    + rewrite spop_loop_spec. cbn [length]. rewrite Z.sub_0_r. cbn [app].
      destruct (Args c); [|by apply runs_storeSet].
      destruct (take _ _); by apply runs_storeSet.
    + rewrite srem_loop_spec. by apply runs_storeSet.
  - eapply runs_bind; [done|]. destruct (String.eqb (Op c) "SPOP"); finish.
Qed.
End refine_coll.
