(* ===== verification/FsmProps.v ===== *)
(** * Correctness of the state machine *)

From S2P Require Import Prelude GoStd Badger Codec Keys Fsm FsmColl FsmApply FsmRead.
From S2P Require Import FsmSpec FsmLoops FsmSim Concrete FsmRefine FsmRefineColl.
From Stdlib Require Import Lia ZArith.

(** The keys a command writes. *)
Definition touched (c : Command) : list string :=
  if str_in (Op c) ["MSET"] then (pairs (Args c)).*1
  else if str_in (Op c) ["DEL"] then Key c :: Args c
  else [Key c].

(** The commands of the data model other than EXPIRE. *)
Definition data_op (op : string) : bool := negb (str_in op ("EXPIRE" :: lua_ops)).

Create HintDb frames.

Section props.
Context `{B : BadgerOps} {L : BadgerLaws B} `{C : Codec} {CL : CodecLaws C}.
Implicit Types (v : gmap string entry) (m : rstate) (t : txn) (en : Env) (k : string).
Context (handleLua : Env → Command → M txn gerr goval).

(** The store takes the writes of a command. *)
Definition accepted (c : Command) : Prop :=
  (∀ k, k ∈ touched c → writable k) ∧ (Op c = "FLUSHDB" → deletable).

Lemma apply_runs en c t m :
  env_ok en → data_op (Op c) = true → accepted c → healthy t → Sim (now en) (view t) m →
  runs_to en (applyCmdInTxn handleLua en c) t (spec_apply en c m).
Proof.
  unfold data_op, accepted, touched, applyCmdInTxn, spec_apply.
  intros Hen Hop [Hw Hd] Ht Hs.
  rewrite negb_true_iff, str_in_cons, orb_false_iff in Hop. destruct Hop as [He ->].
  rewrite (str_in_cons _ "EXPIRE"), str_in_nil, He.
  assert (Hk : str_in (Op c) ["MSET"] = false → writable (Key c)).
  { intros E. rewrite E in Hw. destruct (str_in (Op c) ["DEL"]); apply Hw; set_solver. }
  destruct (str_in (Op c) ["SET"; "GETSET"; "APPEND"]) eqn:H1.
  { apply cmd_set_runs; [|done..]. apply Hk. rewrite !str_in_cons, str_in_nil in *.
    revert H1. by str_cases. }
  destruct (str_in (Op c) ["MSET"]) eqn:H2; [by apply cmd_mset_runs|].
  specialize (Hk eq_refl).
  destruct (str_in (Op c) ["DEL"]) eqn:H3; [by apply cmd_del_runs|].
  destruct (str_in (Op c) ["FLUSHDB"]) eqn:H4.
  { apply cmd_flushdb_runs; [|done..]. apply Hd. apply str_in_spec in H4. set_solver. }
  simpl orb. cbv iota.
  repeat case_match; auto using cmd_incr_runs, cmd_persist_runs, cmd_hset_runs, cmd_hdel_runs,
    cmd_push_runs, cmd_pop_runs, cmd_ltrim_runs, cmd_lrem_runs, cmd_sadd_runs, cmd_srem_runs.
  finish.
Qed.

(** C1: A command that Raft applies (any but EXPIRE and the Lua ones) refines
    the abstract Redis: on a transaction whose entries represent an abstract
    state, it returns exactly the answer of the specification, errors
    included, and leaves entries that represent the specified next state. *)
Theorem applyCmdInTxn_refines en c t m :
  env_ok en → data_op (Op c) = true → accepted c → healthy t → Sim (now en) (view t) m →
  ∃ t', applyCmdInTxn handleLua en c t = ((spec_apply en c m).1, t') ∧ healthy t' ∧
    Sim (now en) (view t') (spec_apply en c m).2.
Proof. apply apply_runs. Qed.

(** ** Apply *)

Definition commits : Prop := ∀ t, healthy t → ∃ d, Commit t = inr d.

(** A failed command leaves the abstract state alone. *)
Lemma spec_apply_error en c m e : (spec_apply en c m).1 = inl e → (spec_apply en c m).2 = m.
Proof.
  unfold spec_apply, spec_set, spec_mset, spec_del, spec_flushdb, spec_incr, spec_expire,
    spec_persist, spec_hset, spec_hdel, spec_push, spec_pop, spec_ltrim, spec_lrem,
    spec_sadd, spec_srem, on_hash, on_list, on_set.
  repeat case_match; naive_solver.
Qed.

(** Apply commits the transaction of a command that succeeds. *)
Lemma Apply_of_runs en c d m :
  commits → dhealthy d → Sim (now en) (dview d) m →
  runs_to en (applyCmdInTxn handleLua en c) (NewTransaction d) (spec_apply en c m) →
  ∃ d', Apply handleLua en d (enc_cmd c) = ((spec_apply en c m).1, d') ∧ dhealthy d' ∧
    Sim (now en) (dview d') (spec_apply en c m).2.
Proof.
  intros Hcom Hd Hs (t' & Hr & Ht' & Hs'). unfold Apply. rewrite dec_enc_cmd.
  destruct (NewTransaction_law d Hd) as [_ Hv]. rewrite <- Hv in Hs.
  unfold db_Update. rewrite Hr. destruct (spec_apply en c m).1 as [e|a] eqn:He.
  - exists d. rewrite (spec_apply_error _ _ _ _ He). by rewrite <- Hv.
  - destruct (Hcom t' Ht') as [d' Hd']. exists d'. rewrite Hd'.
    destruct (Commit_law _ _ Ht' Hd') as [? ->]. done.
Qed.

Lemma Apply_runs en c d m :
  commits → env_ok en → data_op (Op c) = true → accepted c → dhealthy d →
  Sim (now en) (dview d) m →
  ∃ d', Apply handleLua en d (enc_cmd c) = ((spec_apply en c m).1, d') ∧ dhealthy d' ∧
    Sim (now en) (dview d') (spec_apply en c m).2.
Proof.
  intros Hcom Hen Hop Hacc Hd Hs. apply Apply_of_runs; [done..|].
  destruct (NewTransaction_law d Hd) as [Ht Hv]. apply apply_runs; [done..|]. by rewrite Hv.
Qed.

(** ** Isolation *)

(** A computation that touches the user's key spaces only, whether or not it
    fails. *)
Definition frames {A} (f : M txn gerr A) : Prop := ∀ t, healthy t →
  healthy (f t).2 ∧ ∀ k, data_key k = false → view (f t).2 !! k = view t !! k.

Lemma frames_ret {A} (a : A) : frames (ret a).
Proof. intros t Ht. done. Qed.
Lemma frames_raise {A} (e : gerr) : frames (raise (A := A) e).
Proof. intros t Ht. done. Qed.
Lemma frames_bind {A A'} (f : M txn gerr A) (g : A → M txn gerr A') :
  frames f → (∀ a, frames (g a)) → frames (bind f g).
Proof.
  intros Hf Hg t Ht. destruct (Hf t Ht) as [Ht1 Hv1]. unfold bind.
  destruct (f t) as [[e|a] t1]; simpl in *; [done|].
  destruct (Hg a t1 Ht1) as [Ht2 Hv2]. split; [done|]. intros k Hk.
  by rewrite Hv2, Hv1.
Qed.
Lemma frames_get en k : frames (t_Get en k).
Proof. intros t Ht. done. Qed.
Lemma frames_set k e : data_key k = true → frames (t_SetEntry k e).
Proof.
  intros Hk t Ht. unfold t_SetEntry. destruct (txn_SetEntry k e t) as [er|t'] eqn:H; [done|].
  destruct (SetEntry_law _ _ _ _ Ht H) as [? Hv]. split; [done|]. intros k' Hk'. simpl.
  rewrite Hv. apply lookup_insert_ne. congruence.
Qed.
Lemma frames_delete k : data_key k = true → frames (t_Delete k).
Proof.
  intros Hk t Ht. unfold t_Delete. destruct (txn_Delete k t) as [er|t'] eqn:H; [done|].
  destruct (Delete_law _ _ _ Ht H) as [? Hv]. split; [done|]. intros k' Hk'. simpl.
  rewrite Hv. apply lookup_delete_ne. congruence.
Qed.
Lemma frames_delete_ k : data_key k = true → frames (t_Delete_ k).
Proof.
  intros Hk t Ht. unfold t_Delete_. destruct (txn_Delete k t) as [er|t'] eqn:H; [done|].
  destruct (Delete_law _ _ _ Ht H) as [? Hv]. split; [done|]. intros k' Hk'. simpl.
  rewrite Hv. apply lookup_delete_ne. congruence.
Qed.

Lemma frames_foldM {A A'} (f : A' → A → M txn gerr A') b l :
  (∀ b x, frames (f b x)) → frames (foldM f b l).
Proof.
  intros Hf. revert b. induction l as [|x l IH]; intros b; simpl.
  - apply frames_ret.
  - apply frames_bind; auto.
Qed.

Hint Resolve frames_ret frames_raise frames_get frames_set frames_delete frames_delete_
  frames_foldM data_userKey data_typeKey : frames.

Ltac frames_tac :=
  repeat lazymatch goal with
  | |- frames _ => first [ solve [auto with frames] | apply frames_bind | case_match ]
  | |- ∀ _, _ => intro
  end.

Lemma frames_setValue en k val typ ms : frames (setValue en k val typ ms).
Proof. unfold setValue, setValue_at. frames_tac. Qed.
Lemma frames_dropKey k : frames (dropKey k).
Proof. unfold dropKey. frames_tac. Qed.
Lemma frames_valueCopy e : frames (valueCopy e).
Proof. unfold valueCopy. frames_tac. Qed.
Lemma frames_ensure en k want : frames (ensureExistingType en k want).
Proof. unfold ensureExistingType, getExistingType. frames_tac. apply frames_valueCopy. Qed.
Lemma frames_lift {A} (r : string + A) : frames (lift_dec r).
Proof. unfold lift_dec. frames_tac. Qed.
Hint Resolve frames_setValue frames_dropKey frames_valueCopy frames_ensure frames_lift : frames.
Lemma frames_load {A} `{!Msgpack C A} typ en k : frames (load (A := A) typ en k).
Proof. unfold load. frames_tac. Qed.
Hint Resolve frames_load : frames.
Lemma frames_storeList en k l ms : frames (storeList en k l ms).
Proof. unfold storeList. frames_tac. Qed.
Lemma frames_storeSet en k l ms : frames (storeSet en k l ms).
Proof. unfold storeSet. frames_tac. Qed.
Hint Resolve frames_storeList frames_storeSet : frames.

Lemma frames_delete_prefix en c : (c = prefixUser ∨ c = prefixType) →
  frames (delete_prefix en (String c "")).
Proof.
  intros Hc t Ht. unfold delete_prefix.
  assert (Hks : Forall (λ k, data_key k = true) (iter_keys en (String c "") t)).
  { apply Forall_forall. intros x Hx. apply iter_keys_spec in Hx as [Hx _]; [|done].
    apply has_prefix_char in Hx as [x' ->]. destruct Hc as [-> | ->]; auto with badis. }
  assert (frames (foldM (λ _ k, t_Delete k) tt (iter_keys en (String c "") t))) as H; [|by apply H].
  induction Hks; simpl; [apply frames_ret|].
  apply frames_bind; [auto with frames|]. by intros [].
Qed.

Lemma frames_mset_loop en args : frames (mset_loop en args).
Proof.
  induction args as [args IH] using (Wf_nat.induction_ltof1 _ length).
  unfold Wf_nat.ltof in IH. destruct args as [|k [|x args]]; simpl; auto with frames.
  apply frames_bind; [auto with frames|]. intros _. apply IH. simpl. lia.
Qed.

Lemma frames_del en c : frames (cmd_del en c).
Proof.
  unfold cmd_del. apply frames_bind.
  { apply frames_foldM. unfold del_one. frames_tac. }
  intros count. apply frames_bind; [|auto with frames]. frames_tac;
    (intros t Ht; destruct (frames_delete_ (userKey (Key c)) ltac:(done) t Ht);
     unfold t_Delete_ in *; by destruct (txn_Delete _ t)).
Qed.
Hint Resolve frames_mset_loop frames_del : frames.

Lemma applyCmdInTxn_frames en c :
  str_in (Op c) lua_ops = false → frames (applyCmdInTxn handleLua en c).
Proof.
  intros Hop. unfold applyCmdInTxn. rewrite Hop.
  unfold cmd_set, cmd_mset, cmd_flushdb, cmd_incr, incr_delta, cmd_expire, cmd_persist, cmd_hset,
    cmd_hdel, cmd_push, cmd_pop, pop_count, pop_reply, cmd_ltrim, cmd_lrem, cmd_sadd, cmd_srem,
    loadHash, loadList, loadSet.
  frames_tac; apply frames_delete_prefix; auto.
Qed.

(** C9: The commands of the data model stay in the key spaces of the user's
    data: the Raft log, the Raft stable store and the scripts that share the
    database are left as they were, on success and on every error. *)
Theorem applyCmdInTxn_isolated en c t k :
  str_in (Op c) lua_ops = false → healthy t → data_key k = false →
  view (applyCmdInTxn handleLua en c t).2 !! k = view t !! k.
Proof. intros Hop Ht. by apply applyCmdInTxn_frames. Qed.
End props.

(** ** The theorems at concrete inputs *)

Section witnesses.
#[local] Existing Instances B0 L0 C0 CL0.

Lemma applyCmdInTxn_refines_witness :
  ∃ t', applyCmdInTxn noLua (en0 0) (cmd "INCR" "n" []) ∅ = (inr (GInt64 1), t')
    ∧ Sim 0 (view t') {["n" := (RStr "1", 0)]}.
Proof.
  destruct (applyCmdInTxn_refines noLua (en0 0) (cmd "INCR" "n" []) ∅ ∅) as (t' & H1 & _ & H2).
  - by apply en0_ok.
  - done.
  - split; [|done]. intros k Hk. apply writable0.
    apply list_elem_of_singleton in Hk as ->. simpl. lia.
  - done.
  - apply Sim_empty0.
  - exists t'. exact (conj H1 H2).
Defined.

Lemma commits0 : commits.
Proof. intros t _. by eexists. Qed.

Definition store1 : gmap string entry :=
  {[stableKey "CurrentTerm" := Entry "5" 0; userKey "k" := Entry "v" 0]}.

Lemma applyCmdInTxn_isolated_witness :
  view (applyCmdInTxn noLua (en0 0) (cmd "FLUSHDB" "" []) store1).2 !! stableKey "CurrentTerm"
  = Some (Entry "5" 0).
Proof.
  rewrite (applyCmdInTxn_isolated noLua (en0 0) (cmd "FLUSHDB" "" []) store1); done.
Defined.
End witnesses.
