(* ===== verification/FsmTypes.v ===== *)
(** * The dynamic types of the answers

    The state machine answers an [interface{}]; the server, and the scripts,
    switch on its dynamic type.  Whatever the store holds, each command answers
    values of its own types and ranges only. *)

From S2P Require Import Prelude GoStd Badger Codec Keys Fsm FsmColl FsmApply Concrete.
From Stdlib Require Import Lia ZArith.

(** Commands that count what they did, once per argument at most. *)
Definition counts (op : string) : bool :=
  str_in op ["DEL"; "EXPIRE"; "PERSIST"; "HSET"; "HSETNX"; "HDEL"; "SADD"; "SREM"].
(** Commands that answer a length or a number of elements. *)
Definition measures (op : string) : bool :=
  str_in op ["APPEND"; "LPUSH"; "RPUSH"; "LPUSHX"; "RPUSHX"; "LREM"].

Definition answer_ok (c : Command) (v : goval) : Prop :=
  match v with
  | GNil => str_in (Op c) ["SET"; "GETSET"; "LPOP"; "RPOP"; "SPOP"] = true
  | GString s => s = "OK" ∧ str_in (Op c) ["SET"; "MSET"; "FLUSHDB"; "LTRIM"] = true
  | GBytes _ => str_in (Op c) ["SET"; "GETSET"] = true
                ∨ str_in (Op c) ["LPOP"; "RPOP"; "SPOP"] = true ∧ Args c = []
  | GInt n => counts (Op c) = true ∧ 0 <= n <= Z.max 1 (Z.of_nat (length (Args c)))
              ∨ measures (Op c) = true ∧ 0 <= n
  | GInt64 n => str_in (Op c) ["INCR"; "DECR"; "INCRBY"; "DECRBY"] = true ∧ in_int64 n
  | GStrings _ => str_in (Op c) ["LPOP"; "RPOP"; "SPOP"] = true ∧ Args c ≠ []
  | GInt64s _ | GArray _ => False
  end.

(** ** How far the counters of the loops go *)

Section loops.
Implicit Types (n : Z) (args : list string).

Definition within n args (m : Z) : Prop := n <= m <= n + Z.of_nat (length args).

Lemma hset_loop_count nx args h n : within n args (hset_loop nx args h n).2.
Proof.
  revert h n. unfold within.
  induction args as [args IH] using (Wf_nat.induction_ltof1 _ length). unfold Wf_nat.ltof in IH.
  intros h n. destruct args as [|f [|v args]]; simpl; [lia..|]. case_match.
  - pose proof (IH args ltac:(simpl; lia) h n). lia.
  - pose proof (IH args ltac:(simpl; lia) (<[f := v]> h)
      (if bool_decide (is_Some (h !! f)) then n else n + 1)). case_match; lia.
Qed.

Lemma hdel_loop_count args h n : within n args (hdel_loop args h n).2.
Proof.
  revert h n. unfold within. induction args as [|f args IH]; intros h n; simpl; [lia|].
  case_match; [pose proof (IH (delete f h) (n + 1))|pose proof (IH h n)]; lia.
Qed.

Lemma sadd_loop_count args s n : within n args (sadd_loop args s n).2.
Proof.
  revert s n. unfold within. induction args as [|m args IH]; intros s n; simpl; [lia|].
  case_match; [pose proof (IH s n)|pose proof (IH ({[m]} ∪ s) (n + 1))]; lia.
Qed.

Lemma srem_loop_count args s n : within n args (srem_loop args s n).2.
Proof.
  revert s n. unfold within. induction args as [|m args IH]; intros s n; simpl; [lia|].
  case_match; [pose proof (IH (s ∖ {[m]}) (n + 1))|pose proof (IH s n)]; lia.
Qed.

Lemma lrem_count needle limit l : 0 <= (lrem needle limit l).2.
Proof.
  unfold lrem. case_match.
  - assert (∀ n, n <= (lrem_forward needle limit l n).2) as Hf; [|apply Hf].
    induction l as [|v l IH]; intros n; simpl; [lia|]. case_match.
    + pose proof (IH (n + 1)). lia.
    + pose proof (IH n). by destruct (lrem_forward needle limit l n).
  - assert (∀ kept n, n <= (lrem_backward needle limit (reverse l) kept n).2) as Hf; [|apply Hf].
    induction (reverse l) as [|v rl IH]; intros kept n; simpl; [lia|].
    case_match; [pose proof (IH kept (n + 1))|pose proof (IH (v :: kept) n)]; lia.
Qed.
End loops.

(** ** What a computation returns *)

Create HintDb returns.

Section returns.
Context `{B : BadgerOps} `{C : Codec}.
Abbreviation FM := (M txn gerr).

Definition returns {A} (P : A → Prop) (f : FM A) : Prop :=
  ∀ t, match (f t).1 with inr a => P a | inl _ => True end.

Lemma returns_ret {A} (P : A → Prop) a : P a → returns P (ret a).
Proof. by intros H t. Qed.
Lemma returns_raise {A} (P : A → Prop) e : returns P (raise e).
Proof. done. Qed.
Lemma returns_bind {A A'} (Q : A → Prop) (P : A' → Prop) (f : FM A) (g : A → FM A') :
  returns Q f → (∀ a, Q a → returns P (g a)) → returns P (bind f g).
Proof.
  intros Hf Hg t. unfold bind. specialize (Hf t). destruct (f t) as [[e|a] t1]; simpl in *; [done|].
  by apply Hg.
Qed.
Lemma returns_any {A} (f : FM A) : returns (λ _, True) f.
Proof. intros t. by destruct (f t).1. Qed.

(** Nothing is needed of what the first part returns. *)
Lemma returns_seq {A A'} (P : A' → Prop) (f : FM A) (g : A → FM A') :
  (∀ a, returns P (g a)) → returns P (bind f g).
Proof. intros Hg. apply (returns_bind (λ _, True)); [apply returns_any|auto]. Qed.

Lemma returns_foldM {A A'} (P : nat → A' → Prop) (f : A' → A → FM A') b l :
  P 0%nat b → (∀ n b x, P n b → returns (P (S n)) (f b x)) → returns (P (length l)) (foldM f b l).
Proof.
  intros Hb Hf. assert (∀ n b, P n b → returns (P (n + length l)%nat) (foldM f b l)) as H.
  { clear Hb b. induction l as [|x l IH]; intros n b Hb; simpl.
    { rewrite Nat.add_0_r. by apply returns_ret. }
    eapply returns_bind; [by apply Hf|]. intros b' Hb'. rewrite <- Nat.add_succ_comm. by apply IH. }
  by apply (H 0%nat).
Qed.
End returns.

(** Split a command into its branches, keeping the conditions. *)
Ltac returns_tac :=
  repeat lazymatch goal with
  | |- returns _ (raise _) => apply returns_raise
  | |- returns _ (ret _) => apply returns_ret
  | |- returns _ (bind _ _) => apply returns_seq; intros ?
  | |- returns _ (match _ with _ => _ end) => case_match
  | |- returns _ (let '_ := _ in _) => case_match
  end.

Section typed.
Context `{B : BadgerOps} `{C : Codec}.
Context (handleLua : Env → Command → M txn gerr goval).

Lemma cmd_set_typed en c :
  str_in (Op c) ["SET"; "GETSET"; "APPEND"] = true → returns (answer_ok c) (cmd_set en c).
Proof.
  rewrite !str_in_cons, str_in_nil, !orb_true_iff, !String.eqb_eq. intros Hop. unfold cmd_set.
  destruct (Args c) as [|arg0 args] eqn:Ha; [apply returns_raise|].
  apply returns_seq; intros r. apply returns_seq; intros [[ex old] ttl]. apply returns_seq; intros _.
  destruct Hop as [H|[H|[H|]]]; try done; rewrite H; simpl String.eqb; cbv iota;
    returns_tac; try case_match; simpl; rewrite ?H; auto.
  - by rewrite orb_true_r in *.
  - right. split; [done|lia].
Qed.

Lemma cmd_del_typed en c : Op c = "DEL" → returns (answer_ok c) (cmd_del en c).
Proof.
  intros H. unfold cmd_del.
  eapply (returns_bind (λ n, 0 <= n <= Z.of_nat (length (Args c)))).
  { apply (returns_foldM (λ k n, 0 <= n <= Z.of_nat k)); [lia|]. intros k n x Hn. unfold del_one.
    returns_tac; lia. }
  intros n Hn. eapply (returns_bind (λ n, 0 <= n <= Z.max 1 (Z.of_nat (length (Args c))))).
  - revert Hn. destruct (Args c) as [|a args]; simpl; intros Hn; [|apply returns_ret; lia].
    destruct (negb _); [|apply returns_ret; lia].
    apply returns_seq; intros [e|item]; [apply returns_ret; lia|].
    intros t. destruct (txn_Delete _ t); simpl; lia.
  - intros m Hm. apply returns_ret. left. by rewrite H.
Qed.

Lemma cmd_incr_typed en c :
  str_in (Op c) ["INCR"; "DECR"; "INCRBY"; "DECRBY"] = true → returns (answer_ok c) (cmd_incr en c).
Proof.
  intros H. unfold cmd_incr. apply returns_seq; intros r. apply returns_seq; intros [val ttl].
  apply returns_seq; intros delta. apply returns_seq; intros _. apply returns_ret. split; [done|].
  case_match; apply wrap64_range.
Qed.

Lemma cmd_hset_typed en c :
  str_in (Op c) ["HSET"; "HSETNX"] = true → returns (answer_ok c) (cmd_hset en c).
Proof.
  intros H. unfold cmd_hset. case_match; [apply returns_raise|]. apply returns_seq; intros o.
  destruct (default (∅, 0) o) as [h ttl].
  pose proof (hset_loop_count (String.eqb (Op c) "HSETNX") (Args c) h 0) as Hc. unfold within in Hc.
  destruct (hset_loop _ _ _ _) as [h' n]. simpl in Hc.
  apply returns_seq; intros _. apply returns_ret. left. split; [|lia].
  unfold counts. rewrite !str_in_cons, str_in_nil, !orb_true_iff in *. tauto.
Qed.

Lemma cmd_hdel_typed en c : Op c = "HDEL" → returns (answer_ok c) (cmd_hdel en c).
Proof.
  intros H. unfold cmd_hdel. apply returns_seq; intros [[h ttl]|].
  - pose proof (hdel_loop_count (Args c) h 0) as Hc. unfold within in Hc.
    destruct (hdel_loop _ _ _) as [h' n]. simpl in Hc.
    apply returns_seq; intros _. apply returns_ret. left. rewrite H. split; [done|lia].
  - apply returns_ret. left. rewrite H. split; [done|lia].
Qed.

Lemma cmd_push_typed en c :
  str_in (Op c) ["LPUSH"; "RPUSH"; "LPUSHX"; "RPUSHX"] = true → returns (answer_ok c) (cmd_push en c).
Proof.
  intros H. assert (measures (Op c) = true).
  { unfold measures. rewrite !str_in_cons, str_in_nil, !orb_true_iff in *. tauto. }
  unfold cmd_push. returns_tac; right; (split; [done|lia]).
Qed.

Lemma cmd_pop_typed en c :
  str_in (Op c) ["LPOP"; "RPOP"] = true → returns (answer_ok c) (cmd_pop en c).
Proof.
  intros H.
  assert (str_in (Op c) ["SET"; "GETSET"; "LPOP"; "RPOP"; "SPOP"] = true
          ∧ str_in (Op c) ["LPOP"; "RPOP"; "SPOP"] = true) as [H1 H2].
  { rewrite !str_in_cons, str_in_nil, !orb_true_iff in *. tauto. }
  unfold cmd_pop, pop_reply. apply returns_seq; intros o. destruct (default ([], 0) o) as [l ttl].
  returns_tac; simpl; auto; (split; [done|congruence]).
Qed.

Lemma cmd_lrem_typed en c : Op c = "LREM" → returns (answer_ok c) (cmd_lrem en c).
Proof.
  intros H. unfold cmd_lrem. apply returns_seq; intros o. destruct (default ([], 0) o) as [l ttl].
  destruct (Args c) as [|a0 [|needle args]]; [apply returns_raise..|].
  pose proof (lrem_count needle (Atoi a0).1 l) as Hc. destruct (lrem _ _ _) as [kept n].
  apply returns_seq; intros _. apply returns_ret. right. by rewrite H.
Qed.

Lemma cmd_sadd_typed en c : Op c = "SADD" → returns (answer_ok c) (cmd_sadd en c).
Proof.
  intros H. unfold cmd_sadd. apply returns_seq; intros o. destruct (default ([], 0) o) as [l ttl].
  pose proof (sadd_loop_count (Args c) (list_to_set l) 0) as Hc. unfold within in Hc.
  destruct (sadd_loop _ _ _) as [s n]. simpl in Hc.
  apply returns_seq; intros _. apply returns_ret. left. rewrite H. split; [done|lia].
Qed.

Lemma cmd_srem_typed en c :
  str_in (Op c) ["SREM"; "SPOP"] = true → returns (answer_ok c) (cmd_srem en c).
Proof.
  rewrite !str_in_cons, str_in_nil, !orb_true_iff, !String.eqb_eq. unfold cmd_srem.
  intros [H|[H|]]; [rewrite H..|done]; simpl String.eqb; cbv zeta iota; apply returns_seq;
    intros [[l ttl]|].
  - pose proof (srem_loop_count (Args c) (list_to_set l) 0) as Hc. unfold within in Hc.
    destruct (srem_loop _ _ _) as [s n]. simpl in Hc.
    apply returns_seq; intros _. apply returns_ret. left. rewrite H. split; [done|lia].
  - apply returns_ret. left. rewrite H. split; [done|lia].
  - destruct (spop_loop _ _ _ _) as [popped s]. apply returns_seq; intros _. apply returns_ret.
    destruct (Args c) eqn:Ha, popped; simpl; rewrite H, ?Ha; auto.
  - apply returns_ret. destruct (Args c) eqn:Ha; simpl; rewrite H, ?Ha; auto.
Qed.

Lemma cmd_expire_typed en c : Op c = "EXPIRE" → returns (answer_ok c) (cmd_expire en c).
Proof. intros H. unfold cmd_expire. returns_tac; left; rewrite H; (split; [done|lia]). Qed.
Lemma cmd_persist_typed en c : Op c = "PERSIST" → returns (answer_ok c) (cmd_persist en c).
Proof. intros H. unfold cmd_persist. returns_tac; left; rewrite H; (split; [done|lia]). Qed.
Lemma cmd_ok_typed c {A} (f : M txn gerr A) :
  str_in (Op c) ["SET"; "MSET"; "FLUSHDB"; "LTRIM"] = true →
  returns (answer_ok c) (f;;; ret (GString "OK")).
Proof. intros H. apply returns_seq; intros _. by apply returns_ret. Qed.

Hint Resolve cmd_set_typed cmd_del_typed cmd_incr_typed cmd_hset_typed cmd_hdel_typed cmd_push_typed
  cmd_pop_typed cmd_lrem_typed cmd_sadd_typed cmd_srem_typed cmd_expire_typed cmd_persist_typed
  returns_raise : returns.

Lemma str_in_one s x : str_in s [x] = true → s = x.
Proof. intros H%str_in_spec. set_solver. Qed.

Lemma cmd_mset_typed en c : Op c = "MSET" → returns (answer_ok c) (cmd_mset en c).
Proof. intros H. unfold cmd_mset. case_match; [apply returns_raise|]. apply cmd_ok_typed. by rewrite H. Qed.
Lemma cmd_flushdb_typed en c : Op c = "FLUSHDB" → returns (answer_ok c) (cmd_flushdb en c).
Proof. intros H. apply returns_seq; intros _. apply cmd_ok_typed. by rewrite H. Qed.
Lemma cmd_ltrim_typed en c : Op c = "LTRIM" → returns (answer_ok c) (cmd_ltrim en c).
Proof.
  intros H. unfold cmd_ltrim. apply returns_seq; intros o. returns_tac. split; [done|by rewrite H].
Qed.
Hint Resolve cmd_mset_typed cmd_flushdb_typed cmd_ltrim_typed : returns.

Lemma applyCmdInTxn_returns en c :
  str_in (Op c) lua_ops = false → returns (answer_ok c) (applyCmdInTxn handleLua en c).
Proof.
  intros Hop. unfold applyCmdInTxn. rewrite Hop.
  repeat lazymatch goal with
  | |- returns _ (if str_in ?op ?l then _ else _) =>
      let H := fresh "H" in destruct (str_in op l) eqn:H;
      [try apply str_in_one in H; auto with returns|clear H]
  end.
  apply returns_raise.
Qed.

(** C19: Whatever the store holds and whatever its arguments are, a data command
    that the state machine applies without error answers a value of one of the
    command's own types: OK, a bulk or none, a list when it was asked for a
    count, a 64-bit counter, a length, or a count of at most one per
    argument; never a value that the server's switch on types would answer OK
    to by default. *)
Theorem Apply_typed `{!CodecLaws C} en d c v d' :
  str_in (Op c) lua_ops = false →
  Apply handleLua en d (enc_cmd c) = (inr v, d') → answer_ok c v.
Proof.
  intros Hop. unfold Apply, db_Update. rewrite dec_enc_cmd.
  pose proof (applyCmdInTxn_returns en c Hop (NewTransaction d)) as H.
  destruct (applyCmdInTxn handleLua en c (NewTransaction d)) as [[e|a] t]; [done|].
  destruct (Commit t); [done|]. by intros [= <- <-].
Qed.
End typed.

Section witnesses.
#[local] Existing Instances B0 L0 C0 CL0.

Lemma Apply_typed_witness : answer_ok (cmd "SADD" "set" ["x"; "z"]) (GInt 1).
Proof.
  apply (Apply_typed noLua (en0 0) db0 (cmd "SADD" "set" ["x"; "z"]) (GInt 1)
    (Apply noLua (en0 0) db0 (enc_cmd (cmd "SADD" "set" ["x"; "z"]))).2).
  - done.
  - apply pair_fst. vm_compute. reflexivity.
Defined.
End witnesses.
