(* ===== verification/FsmReadProps.v ===== *)
(** * The read-only methods read the abstract state *)

From S2P Require Import Prelude GoStd Badger Codec Glob Keys Fsm FsmColl FsmRead FsmSpec FsmSim Concrete.
From Stdlib Require Import Lia ZArith.

(** ** sliceList *)

(** An index counted from the end when it is negative. *)
Definition norm_index (len i : Z) : Z := if i <? 0 then len + i else i.

(** C24: LRANGE and LTRIM select exactly the elements whose index lies between
    the two bounds, negative bounds counting from the end and bounds out of
    range being harmless. *)
Theorem sliceList_spec l start stop (i : nat) :
  sliceList l start stop !! i =
  let len := Z.of_nat (length l) in
  let first := Z.max 0 (norm_index len start) in
  if first + Z.of_nat i <=? norm_index len stop then l !! (Z.to_nat first + i)%nat else None.
Proof.
  unfold sliceList, norm_index. cbv zeta. set (len := Z.of_nat (length l)).
  destruct (Z.eqb_spec len 0) as [H0|H0].
  { assert (l = []) as -> by (apply nil_length_inv; lia). rewrite lookup_nil. by case_match. }
  set (a := if start <? 0 then len + start else start).
  set (b := if stop <? 0 then len + stop else stop).
  assert ((if a <? 0 then 0 else a) = Z.max 0 a) as ->
    by (destruct (Z.ltb_spec a 0); lia).
  set (f := Z.max 0 a). assert (0 <= f) by lia.
  assert (Hout : ∀ j, len <= Z.of_nat j → l !! j = None) by (intros; apply lookup_ge_None_2; lia).
  destruct (Z.leb_spec len b), (Z.leb_spec len f); rewrite ?orb_true_r, ?orb_false_r.
  - rewrite lookup_nil. case_match; [rewrite Hout by lia|]; done.
  - destruct (Z.ltb_spec (len - 1) f); [lia|].
    rewrite lookup_take, lookup_drop. destruct (Z.leb_spec (f + Z.of_nat i) b).
    + case_decide; [done|]. rewrite Hout by lia. done.
    + case_decide; [lia|done].
  - rewrite lookup_nil. case_match; [rewrite Hout by lia|]; done.
  - destruct (Z.ltb_spec b f).
    + rewrite lookup_nil. destruct (Z.leb_spec (f + Z.of_nat i) b); [lia|done].
    + rewrite lookup_take, lookup_drop.
      destruct (Z.leb_spec (f + Z.of_nat i) b); case_decide; done || lia.
Qed.

Lemma sliceList_all l : sliceList l 0 (-1) = l.
Proof.
  unfold sliceList. cbv zeta. set (len := Z.of_nat (length l)).
  destruct (Z.eqb_spec len 0) as [H0|H0]; [by rewrite (nil_length_inv l) by lia|].
  change (0 <? 0) with false. change (-1 <? 0) with true. cbv iota.
  destruct (Z.leb_spec len (len + -1)); [lia|].
  change (if 0 <? 0 then 0 else 0) with 0.
  destruct (Z.ltb_spec (len + -1) 0), (Z.leb_spec len 0); [lia..|].
  cbn [orb]. rewrite drop_0. apply take_ge. lia.
Qed.

Section read_props.
Context `{B : BadgerOps} {L : BadgerLaws B} `{C : Codec} {CL : CodecLaws C}.
Implicit Types (v : gmap string entry) (m : rstate) (en : Env) (k : string).

Ltac run_step := erewrite bind_inr by done; cbv beta iota.

Lemma View_run {A} (d : db) (f : M txn gerr A) r t' :
  f (NewTransaction d) = (r, t') → View d f = r.
Proof. unfold View, db_View. by intros ->. Qed.

(** A reader of collections sees the decoded value, the empty one for a
    missing key and WRONGTYPE for a value of another type. *)
Lemma read_coll_run {A} `{!Msgpack C A} typ (dflt : A) en d m k :
  dhealthy d → Sim (now en) (dview d) m →
  match m !! k with
  | None => View d (read_coll typ dflt en k) = inr dflt
  | Some (r, _) =>
      if String.eqb (type_name r) typ then
        ∃ data, decode_val typ data = Some r ∧
          ∀ a, decodeMsgpack data = inr a → View d (read_coll typ dflt en k) = inr a
      else View d (read_coll typ dflt en k) = inl EWrongType
  end.
Proof.
  intros Hd Hs. destruct (NewTransaction_law d Hd) as [Ht Hv]. rewrite <- Hv in Hs.
  pose proof (Sim_lookup _ _ _ k Hs) as Hk.
  assert (Hget := t_Get_run en (userKey k) _ ltac:(done) Ht).
  destruct (m !! k) as [[r exp]|].
  2: { eapply View_run. unfold read_coll. run_step. by rewrite Hk. }
  destruct Hk as (e & Hg & _ & Hdec & Hty). rewrite Hg in Hget.
  destruct (vget_copy_run _ _ _ _ Ht Hg ltac:(done)) as (o & Ho & Hval).
  assert (Hens := ensureExistingType_run en k typ _ Ht). rewrite Hty in Hens.
  destruct (String.eqb_spec (type_name r) typ) as [<-|Hne].
  - exists (e_val e). split; [done|]. intros a Ha.
    eapply View_run. unfold read_coll. run_step. run_step.
    run_step. by rewrite Hval, Ha.
  - eapply View_run. unfold read_coll. run_step. by erewrite bind_inl.
Qed.

Lemma read_hash en d m k :
  dhealthy d → Sim (now en) (dview d) m →
  View d (read_coll "hash" ∅ en k) =
  match m !! k with
  | None => inr ∅
  | Some (RHash h, _) => inr h
  | Some _ => inl EWrongType
  end.
Proof.
  intros Hd Hs. pose proof (read_coll_run (A := gmap string string) "hash" ∅ en d m k Hd Hs) as H.
  destruct (m !! k) as [[[]]|]; try done. simpl in H. destruct H as (data & Hdec & H).
  apply H. unfold decode_val in Hdec. simpl in *. by case_match; simplify_eq.
Qed.

Lemma read_list en d m k :
  dhealthy d → Sim (now en) (dview d) m →
  View d (read_coll "list" [] en k) =
  match m !! k with
  | None => inr []
  | Some (RList l, _) => inr l
  | Some _ => inl EWrongType
  end.
Proof.
  intros Hd Hs. pose proof (read_coll_run (A := list string) "list" [] en d m k Hd Hs) as H.
  destruct (m !! k) as [[[]]|]; try done. simpl in H. destruct H as (data & Hdec & H).
  apply H. unfold decode_val in Hdec. simpl in *. by case_match; simplify_eq.
Qed.

Lemma read_set en d m k :
  dhealthy d → Sim (now en) (dview d) m →
  match m !! k with
  | None => SMembers en d k = inr []
  | Some (RSet s, _) => ∃ l, NoDup l ∧ list_to_set l = s ∧ SMembers en d k = inr l
  | Some _ => SMembers en d k = inl EWrongType
  end.
Proof.
  intros Hd Hs. pose proof (read_coll_run (A := list string) "set" [] en d m k Hd Hs) as H.
  destruct (m !! k) as [[[]]|]; try done. simpl in H. destruct H as (data & Hdec & H).
  unfold decode_val in Hdec. simpl in *. destruct (decodeMsgpack data) as [|l]; [done|].
  case_decide; simplify_eq. exists l. split; [done|]. split; [done|]. by apply H.
Qed.

(** ** Strings *)

Lemma read_string en d m k :
  dhealthy d → Sim (now en) (dview d) m →
  match m !! k with
  | None => GetString en d k = inr None
  | Some (RStr s, _) => ∃ o, GetString en d k = inr o ∧ default "" o = s
  | Some _ => GetString en d k = inl EWrongType
  end.
Proof.
  intros Hd Hs. destruct (NewTransaction_law d Hd) as [Ht Hv]. rewrite <- Hv in Hs.
  pose proof (Sim_lookup _ _ _ k Hs) as Hk. unfold GetString.
  assert (Hget := t_Get_run en (userKey k) _ ltac:(done) Ht).
  destruct (m !! k) as [[r exp]|]; [|by erewrite View_run;
    [|unfold GetString_txn; erewrite bind_inr by done; by rewrite Hk]].
  destruct Hk as (e & Hg & _ & Hdec & Hty). rewrite Hg in Hget.
  destruct (vget_copy_run _ _ _ _ Ht Hg ltac:(done)) as (o & Ho & Hval).
  assert (Hens := ensureExistingType_run en k "string" _ Ht). rewrite Hty in Hens.
  assert (View d (GetString_txn en k)
          = match r with RStr _ => inr o | _ => inl EWrongType end) as ->.
  { eapply View_run. unfold GetString_txn. run_step. unfold bind. rewrite Hens.
    by destruct r. }
  destruct r; try done. rewrite decode_str in Hdec. simplify_eq. eauto.
Qed.

(** ** Collections *)

(** The value of a key as a hash, a string, a list or a set: none or the empty
    one for a missing key, WRONGTYPE for a value of another type. *)
Definition as_hash (o : option (rval * Z)) : gerr + gmap string string :=
  match o with None => inr ∅ | Some (RHash h, _) => inr h | Some _ => inl EWrongType end.
Definition as_string (o : option (rval * Z)) : gerr + option string :=
  match o with None => inr None | Some (RStr s, _) => inr (Some s) | Some _ => inl EWrongType end.
Definition as_list (o : option (rval * Z)) : gerr + list string :=
  match o with None => inr [] | Some (RList l, _) => inr l | Some _ => inl EWrongType end.
Definition as_set (o : option (rval * Z)) : gerr + gset string :=
  match o with None => inr ∅ | Some (RSet s, _) => inr s | Some _ => inl EWrongType end.

(** The fields and the values come in one order, each field once. *)
Lemma range_hash_spec en h :
  env_ok en → range_hash en h ≡ₚ map_to_list h.
Proof.
  intros [_ Hr]. unfold range_hash. rewrite Hr.
  apply NoDup_Permutation.
  - apply NoDup_fmap_1 with (f := fst).
    assert (∀ ks, (omap (λ k, (k,.) <$> h !! k) ks).*1 = filter (λ k, is_Some (h !! k)) ks) as ->.
    { induction ks as [|x ks IH]; [done|]. rewrite filter_cons. simpl.
      case_decide as Hx; [destruct Hx as [y ->]; simpl; f_equal; apply IH|].
      apply eq_None_not_Some in Hx as ->. apply IH. }
    apply NoDup_filter, NoDup_elements.
  - apply NoDup_map_to_list.
  - intros [k x]. rewrite elem_of_map_to_list, list_elem_of_omap. split.
    + intros (k' & _ & H). destruct (h !! k') eqn:E; simplify_eq/=. done.
    + intros H. exists k. rewrite H. split; [|done].
      rewrite elem_of_elements. by apply elem_of_dom_2 in H.
Qed.

(** The element at an index that counts from the end when it is negative. *)
Definition element (i : Z) (l : list string) : option string :=
  let j := norm_index (Z.of_nat (length l)) i in if 0 <=? j then l !! Z.to_nat j else None.

Lemma read_index en d m k i :
  dhealthy d → Sim (now en) (dview d) m → LIndex en d k i = map_res (element i) (as_list (m !! k)).
Proof.
  intros Hd Hs. unfold LIndex, LRange. rewrite (read_list en d m k Hd Hs).
  assert (∀ l : list string,
    (let len := Z.of_nat (length l) in
     let index := if i <? 0 then len + i else i in
     if (index <? 0) || (len <=? index) then None else l !! Z.to_nat index) = element i l) as He.
  { intros l. unfold element, norm_index. cbv zeta. set (j := if i <? 0 then _ else _).
    destruct (Z.ltb_spec j 0), (Z.leb_spec 0 j); try lia; simpl; [done|].
    destruct (Z.leb_spec (Z.of_nat (length l)) j); [|done].
    symmetry. apply lookup_ge_None_2. lia. }
  destruct (m !! k) as [[[]]|]; cbn [as_list map_res]; try done;
    rewrite ?sliceList_all, He; done.
Qed.

Lemma read_members en d m k :
  dhealthy d → Sim (now en) (dview d) m →
  match as_set (m !! k) with
  | inl e => SMembers en d k = inl e
  | inr s => ∃ l, SMembers en d k = inr l ∧ l ≡ₚ elements s
  end.
Proof.
  intros Hd Hs. pose proof (read_set en d m k Hd Hs) as Hr.
  destruct (m !! k) as [[[]]|]; simpl; try done.
  - destruct Hr as (l & Hn & <- & Hl). exists l. by rewrite elements_list_to_set.
  - exists []. by rewrite elements_empty.
Qed.

(** TYPE names the type of the value, "none" for a missing key. *)
Lemma Type_reads en d m k :
  dhealthy d → Sim (now en) (dview d) m →
  Type_ en d k = inr (from_option (type_name ∘ fst) "none" (m !! k)).
Proof.
  intros Hd Hs. destruct (NewTransaction_law d Hd) as [Ht Hv]. rewrite <- Hv in Hs.
  pose proof (Sim_lookup _ _ _ k Hs) as Hk.
  assert (Hget := t_Get_run en (userKey k) _ ltac:(done) Ht). unfold Type_.
  destruct (m !! k) as [[r exp]|].
  2: { eapply View_run. run_step. by rewrite Hk. }
  destruct Hk as (e & Hg & _ & _ & Hty). rewrite Hg in Hget.
  eapply View_run. run_step.
  pose proof (getExistingType_run en k _ Ht) as H. rewrite Hty in H. exact H.
Qed.

(** EXISTS counts the keys that are there, repetitions included. *)
Lemma Exists_reads en d m ks :
  dhealthy d → Sim (now en) (dview d) m →
  Exists en d ks = inr (Z.of_nat (length (filter (λ k, is_Some (m !! k)) ks))).
Proof.
  intros Hd Hs. destruct (NewTransaction_law d Hd) as [Ht Hv]. rewrite <- Hv in Hs.
  unfold Exists. eapply View_run.
  enough (∀ count, foldM (exists_one en) count ks (NewTransaction d) =
    (inr (count + Z.of_nat (length (filter (λ k, is_Some (m !! k)) ks))), NewTransaction d)) as H
    by exact (H 0).
  induction ks as [|k ks IH]; intros count; [by rewrite Z.add_0_r|].
  cbn [foldM]. rewrite filter_cons.
  pose proof (Sim_lookup _ _ _ k Hs) as Hk.
  case_decide as Hx.
  - destruct Hx as [[r exp] Hm]. rewrite Hm in Hk. destruct Hk as (e & Hg & _).
    erewrite bind_inr. 2: { unfold exists_one. erewrite bind_inr by (by apply t_Get_run). by rewrite Hg. }
    rewrite IH. do 2 f_equal. simpl. lia.
  - apply eq_None_not_Some in Hx. rewrite Hx in Hk.
    erewrite bind_inr. 2: { unfold exists_one. erewrite bind_inr by (by apply t_Get_run). by rewrite Hk. }
    by rewrite IH.
Qed.

(** ** All readers *)

(** What each reader answers about a key, from the abstract state. *)
Record readers_agree en d m k : Prop := {
  ra_get : match m !! k with
           | None => GetString en d k = inr None
           | Some (RStr s, _) => ∃ o, GetString en d k = inr o ∧ default "" o = s
           | Some _ => GetString en d k = inl EWrongType
           end;
  ra_type : Type_ en d k = inr (from_option (type_name ∘ fst) "none" (m !! k));
  ra_exists ks : Exists en d ks = inr (Z.of_nat (length (filter (λ k, is_Some (m !! k)) ks)));
  ra_hgetall : HGetAll en d k = as_hash (m !! k);
  ra_hget f : HGet en d k f = map_res (λ h, h !! f) (as_hash (m !! k));
  ra_hmget fs : HMGet en d k fs = map_res (λ h, (λ f, h !! f) <$> fs) (as_hash (m !! k));
  ra_hexists f : HExists en d k f
    = map_res (λ h, if bool_decide (f ∈ dom h) then 1 else 0) (as_hash (m !! k));
  ra_hlen : HLen en d k = map_res (λ h, Z.of_nat (size (dom h))) (as_hash (m !! k));
  ra_hkeys : match as_hash (m !! k) with
             | inl e => HKeys en d k = inl e ∧ HVals en d k = inl e
             | inr h => ∃ l, l ≡ₚ map_to_list h ∧ HKeys en d k = inr l.*1 ∧ HVals en d k = inr l.*2
             end;
  ra_lrange start stop : LRange en d k start stop
    = map_res (λ l, sliceList l start stop) (as_list (m !! k));
  ra_llen : LLen en d k = map_res (λ l, Z.of_nat (length l)) (as_list (m !! k));
  ra_lindex i : LIndex en d k i = map_res (element i) (as_list (m !! k));
  ra_smembers : match as_set (m !! k) with
                | inl e => SMembers en d k = inl e
                | inr s => ∃ l, SMembers en d k = inr l ∧ l ≡ₚ elements s
                end;
  ra_scard : SCard en d k = map_res (λ s, Z.of_nat (size s)) (as_set (m !! k));
  ra_sismember x : SIsMember en d k x
    = map_res (λ s, if bool_decide (x ∈ s) then 1 else 0) (as_set (m !! k));
}.

Lemma readers_run en d m k :
  env_ok en → dhealthy d → Sim (now en) (dview d) m → readers_agree en d m k.
Proof.
  intros Hen Hd Hs. pose proof (read_hash en d m k Hd Hs) as Hh.
  pose proof (read_list en d m k Hd Hs) as Hl. pose proof (read_members en d m k Hd Hs) as Hm.
  split; intros; unfold HGetAll, HGet, HMGet, HExists, HLen, HKeys, HVals, HGetAll, LRange, LLen, LRange;
    rewrite ?Hh, ?Hl.
  - by apply read_string.
  - by apply Type_reads.
  - by apply Exists_reads.
  - done.
  - done.
  - done.
  - destruct (m !! k) as [[[]]|]; cbn [as_hash map_res]; try done;
      by rewrite (bool_decide_ext (f ∈ dom _) (is_Some (_ !! f)) (elem_of_dom _ _)).
  - destruct (m !! k) as [[[]]|]; cbn [as_hash map_res]; try done; by rewrite size_dom.
  - destruct (m !! k) as [[[]]|]; cbn [as_hash map_res]; try done;
      eexists; (split; [by apply range_hash_spec|done]).
  - done.
  - destruct (m !! k) as [[[]]|]; cbn [as_list map_res]; try done; by rewrite sliceList_all.
  - by apply read_index.
  - done.
  - unfold SCard. destruct (as_set (m !! k)) as [e|s]; [by rewrite Hm|].
    destruct Hm as (l & -> & Hp). simpl. by rewrite Hp.
  - unfold SIsMember. change (View d (read_coll "set" [] en k)) with (SMembers en d k).
    destruct (as_set (m !! k)) as [e|s]; [by rewrite Hm|]. destruct Hm as (l & -> & Hp). simpl.
    by rewrite (bool_decide_ext (x ∈ l) (x ∈ s)) by (by rewrite Hp, elem_of_elements).
Qed.

(** C18: The readers answer what the abstract state holds: GET the bytes of a
    string, TYPE and EXISTS what is there, HGET, HMGET, HEXISTS, HLEN, HKEYS,
    HVALS and HGETALL the hash, LRANGE, LLEN and LINDEX the list, SMEMBERS,
    SCARD and SISMEMBER the set; a missing key reads as empty, and a value of
    another type as WRONGTYPE. *)
Theorem readers_refine en d m k :
  env_ok en → dhealthy d → Sim (now en) (dview d) m → readers_agree en d m k.
Proof. apply readers_run. Qed.

(** MGET of strings and missing keys. *)
Lemma GetStrings_reads en d m ks :
  dhealthy d → Sim (now en) (dview d) m → Forall (λ k, ∃ o, as_string (m !! k) = inr o) ks →
  ∃ l, GetStrings en d ks = inr l
    ∧ Forall2 (λ k o, as_string (m !! k) = inr None ∧ o = None
                      ∨ as_string (m !! k) = inr (Some (default "" o))) ks l.
Proof.
  intros Hd Hs Hks. destruct (NewTransaction_law d Hd) as [Ht Hv]. rewrite <- Hv in Hs.
  enough (∃ l, GetStrings_txn en ks (NewTransaction d) = (inr l, NewTransaction d)
    ∧ Forall2 (λ k o, as_string (m !! k) = inr None ∧ o = None
                      ∨ as_string (m !! k) = inr (Some (default "" o))) ks l) as (l & Hl & HF).
  { exists l. split; [by eapply View_run|done]. }
  induction Hks as [|k ks [o Ho] _ (l & Hl & HF)]; [by exists []|]. cbn [GetStrings_txn].
  erewrite bind_inr by (by apply t_Get_run). pose proof (Sim_lookup _ _ _ k Hs) as Hk.
  destruct (m !! k) as [[[] exp]|] eqn:Hm; try done; cbv beta.
  - destruct Hk as (e & Hg & _ & Hdec & _). rewrite Hg. rewrite decode_str in Hdec. simplify_eq.
    destruct (vget_copy_run _ _ _ _ Ht Hg ltac:(done)) as (o' & Ho' & Hval).
    erewrite bind_inr by exact Ho'. cbv beta. erewrite bind_inr by exact Hl.
    exists (o' :: l). split; [done|]. constructor; [|done]. right. by rewrite Hm, Hval.
  - rewrite Hk. run_step. erewrite bind_inr by exact Hl. exists (None :: l). split; [done|].
    constructor; [|done]. left. by rewrite Hm.
Qed.

Lemma StrLen_reads en d m k :
  dhealthy d → Sim (now en) (dview d) m →
  StrLen en d k = map_res (λ o, Z.of_nat (String.length (default "" o))) (as_string (m !! k)).
Proof.
  intros Hd Hs. pose proof (read_string en d m k Hd Hs) as H. unfold StrLen.
  destruct (m !! k) as [[[] exp]|]; cbn [as_string map_res]; try by rewrite H.
  destruct H as (o & -> & <-). by destruct o.
Qed.

(** SRANDMEMBER: distinct members, as many as asked for and there are; with a
    negative count that many members, repetitions allowed. *)
Definition random_members (s : gset string) (count : Z) (l : list string) : Prop :=
  Forall (.∈ s) l ∧
  if 0 <=? count then NoDup l ∧ length l = (Z.to_nat count `min` size s)%nat
  else s ≠ ∅ → Z.of_nat (length l) = - count.

Lemma omap_total {A A'} (f : A → option A') l :
  Forall (λ x, is_Some (f x)) l → length (omap f l) = length l.
Proof. induction 1 as [|x l [y Hy] _ IH]; [done|]. simpl. rewrite Hy. simpl. f_equal. exact IH. Qed.

Lemma SRandMember_reads en d m k count :
  dhealthy d → Sim (now en) (dview d) m → min_int64 < count <= max_int64 →
  match as_set (m !! k) with
  | inl e => SRandMember en d k (Some count) = inl e
  | inr s => ∃ l, SRandMember en d k (Some count) = inr l ∧ random_members s count l
  end.
Proof.
  intros Hd Hs Hc. pose proof (read_members en d m k Hd Hs) as Hm. unfold SRandMember.
  destruct (as_set (m !! k)) as [e|s]; [by rewrite Hm|]. destruct Hm as (l & -> & Hl).
  assert (∀ x, x ∈ l ↔ x ∈ s) as Hin by (intros x; by rewrite Hl, elem_of_elements).
  assert (length l = size s) as Hlen by (by rewrite Hl). unfold random_members.
  destruct (Z.ltb_spec count 0), (Z.leb_spec 0 count); try lia.
  - destruct (Z.eqb_spec (Z.of_nat (length l)) 0) as [Hz|Hz].
    { exists []. split; [done|]. split; [constructor|]. intros []. apply leibniz_equiv, size_empty_inv. lia. }
    rewrite wrap64_id by (unfold in_int64, min_int64, max_int64 in *; lia).
    destruct (Z.ltb_spec (- count) 0); [lia|]. eexists. split; [done|].
    assert (∀ i, is_Some (l !! (i mod length l)%nat)) as Hi.
    { intros i. apply lookup_lt_is_Some. apply Nat.mod_upper_bound. lia. }
    split; [|intros _; rewrite omap_total, length_seq by (by apply Forall_true); lia].
    apply Forall_forall. intros x (i & _ & Hx)%list_elem_of_omap.
    apply Hin. by eapply list_elem_of_lookup_2.
  - assert (NoDup l) as Hn by (rewrite Hl; apply NoDup_elements).
    destruct (Z.leb_spec (Z.of_nat (length l)) count).
    + exists l. split; [done|]. split; [by apply Forall_forall; intros x ?%Hin|].
      split; [done|]. lia.
    + eexists. split; [done|]. split; [|split; [by eapply sublist_NoDup; [|apply sublist_take]|rewrite length_take; lia]].
      apply Forall_take. by apply Forall_forall; intros x ?%Hin.
Qed.

(** ** KEYS *)

(** The loop fails only on an ill-formed pattern. *)
Lemma keys_loop_run p ks acc :
  (∃ e, keys_loop p ks acc = inl (EMsg e) ∧ ¬ glob_wf p) ∨
  keys_loop p ks acc = inr (acc ++ filter (λ k, redisGlobMatch p k = inr true) (map tail ks)).
Proof.
  revert acc. induction ks as [|k ks IH]; intros acc.
  { right. by rewrite app_nil_r. }
  cbn [keys_loop map]. rewrite filter_cons.
  destruct (redisGlobMatch p (tail k)) as [e|[]] eqn:Hb; (case_decide; [|]); try done.
  - left. exists e. split; [done|]. intros Hp.
    destruct (redisGlobMatch_wf p (tail k) Hp) as [b Hb']. by rewrite Hb in Hb'.
  - destruct (IH (acc ++ [tail k])) as [?|Ht]; [by left|right]. by rewrite Ht, <- app_assoc.
Qed.

Lemma Keys_run en d m p :
  dhealthy d → Sim (now en) (dview d) m →
  (∃ e, Keys en d p = inl (EMsg e) ∧ ¬ glob_wf p) ∨
  ∃ l, Keys en d p = inr l ∧ NoDup l ∧ ∀ k, k ∈ l ↔ is_Some (m !! k) ∧ glob p k.
Proof.
  intros Hd Hs. destruct (NewTransaction_law d Hd) as [Ht Hv]. rewrite <- Hv in Hs.
  unfold Keys, db_View.
  destruct (keys_loop_run p (iter_keys en (String prefixUser "") (NewTransaction d)) [])
    as [?|Hl]; [by left|right]. eexists. split; [exact Hl|]. simpl app.
  set (ks := iter_keys en _ _).
  assert (Hks : ∀ x, x ∈ ks → x = userKey (tail x)).
  { intros x Hx. apply iter_keys_spec in Hx as [Hx _]; [|done].
    by apply has_prefix_char in Hx as [x' ->]. }
  split.
  - apply NoDup_filter. apply (NoDup_fmap_1 userKey).
    assert (userKey <$> map tail ks = ks) as ->.
    { clear -Hks. induction ks as [|x ks IH]; [done|]. simpl. f_equal.
      - symmetry. apply Hks. by left.
      - apply IH. intros y Hy. apply Hks. by right. }
    destruct (Seek_law (now en) false (String prefixUser "") _ Ht) as (Hn & _).
    by apply NoDup_take_while.
  - intros k. rewrite list_elem_of_filter, redisGlobMatch_spec.
    trans (k ∈ map tail ks ∧ glob p k); [tauto|]. apply and_iff_compat_r.
    assert (k ∈ map tail ks ↔ userKey k ∈ ks) as ->.
    { rewrite list_elem_of_fmap. split.
      - intros (x & -> & Hx). by rewrite <- Hks.
      - intros Hx. by exists (userKey k). }
    unfold ks. rewrite iter_keys_spec by done.
    pose proof (Sim_lookup _ _ _ k Hs) as Hk.
    destruct (m !! k) as [[r exp]|].
    + destruct Hk as (e & -> & _). split; [by eauto|]. intros _. split; [by destruct k|eauto].
    + rewrite Hk. split; [intros [_ []]|intros []]; done.
Qed.

(** KEYS with a well-formed pattern answers every visible key that
    matches it, each once, and no other. *)
Theorem Keys_reads en d m p :
  dhealthy d → Sim (now en) (dview d) m → glob_wf p →
  ∃ l, Keys en d p = inr l ∧ NoDup l ∧ ∀ k, k ∈ l ↔ is_Some (m !! k) ∧ glob p k.
Proof. intros Hd Hs Hp. destruct (Keys_run en d m p Hd Hs) as [(e & _ & Hn)|H]; done. Qed.
End read_props.

(** ** The theorems at a concrete store *)

Section witnesses.
#[local] Existing Instances B0 L0 C0 CL0.

Lemma readers_refine_witness :
  GetString (en0 0) db0 "list" = inl EWrongType
  ∧ HGet (en0 0) db0 "hash" "g" = inr (Some "w")
  ∧ LIndex (en0 0) db0 "list" (-1) = inr (Some "c")
  ∧ SIsMember (en0 0) db0 "set" "z" = inr 0.
Proof.
  pose proof (λ k, readers_refine (en0 0) db0 state0 k (en0_ok 0 ltac:(done)) (dhealthy0 _) (Sim_store0 0)) as H.
  split; [exact (ra_get _ _ _ _ (H "list"))|]. split; [exact (ra_hget _ _ _ _ (H "hash") "g")|].
  split; [exact (ra_lindex _ _ _ _ (H "list") (-1))|exact (ra_sismember _ _ _ _ (H "set") "z")].
Defined.

Lemma Keys_reads_witness :
  ∃ l, Keys (en0 0) db0 "*s*t" = inr l ∧ "list" ∈ l.
Proof.
  destruct (Keys_reads (en0 0) db0 state0 "*s*t" (dhealthy0 _) (Sim_store0 0)) as (l & H1 & _ & H2).
  - repeat first [apply wf_star | apply wf_literal; [done|] | apply wf_nil].
  - exists l. split; [exact H1|]. apply H2. split; [by eexists|].
    apply redisGlobMatch_spec. vm_compute. done.
Defined.
End witnesses.
