(* ===== verification/FsmTtl.v ===== *)
(** * Expiry: what SET ... PX, EXPIRE and the commands that keep a TTL promise

    BadgerDB keeps expiries in whole seconds.  The theorems bound what the
    rounding does, show that EXPIRE keeps the representation for strings, and
    what it does to the type of a collection. *)

From S2P Require Import Prelude GoStd Badger Codec Keys Fsm FsmColl FsmApply FsmRead.
From S2P Require Import FsmSpec FsmSim Concrete FsmRefine FsmProps FsmReadProps.
From Stdlib Require Import Lia ZArith.

Section ttl.
Context `{B : BadgerOps} {L : BadgerLaws B} `{C : Codec} {CL : CodecLaws C}.
Implicit Types (v : gmap string entry) (m : rstate) (t : txn) (en : Env) (k : string).

(** ** Lifetimes *)

Lemma exp_of_bounds en ms :
  0 <= now en → 0 < ms → now en + ms * millisecond <= max_int64 →
  exp_of en ms = (now en + ms * millisecond) / second
  ∧ exp_of en ms * second <= now en + ms * millisecond < (exp_of en ms + 1) * second.
Proof.
  intros Hn Hms Hmax. unfold exp_of, duration_ms.
  destruct (Z.ltb_spec 0 ms); [|lia].
  rewrite wrap64_id by (unfold in_int64, min_int64, max_int64, millisecond in *; lia).
  rewrite WithTTL_law by (unfold max_int64, second, millisecond in *; lia).
  split; [done|].
  pose proof (Z.div_mod (now en + ms * millisecond) second ltac:(done)).
  pose proof (Z.mod_pos_bound (now en + ms * millisecond) second ltac:(done)). lia.
Qed.

Lemma live_before tm e : live tm e = true ↔ e_exp e = 0 ∨ tm < e_exp e * second.
Proof.
  unfold live. rewrite orb_true_iff, Z.eqb_eq, Z.ltb_lt.
  assert (tm / second < e_exp e ↔ tm < e_exp e * second); [|tauto].
  pose proof (Z.div_mod tm second ltac:(done)).
  pose proof (Z.mod_pos_bound tm second ltac:(done)).
  split; [|intros; apply Z.div_lt_upper_bound; [done|lia]].
  assert (0 < second) by done. nia.
Qed.

Lemma setValue_view en1 en2 k val typ ms t t' :
  healthy t → setValue_at en1 en2 k val typ ms t = (inr tt, t') →
  view t' = <[typeKey k := Entry typ (exp_of en2 ms)]>
              (<[userKey k := Entry val (exp_of en1 ms)]> (view t)).
Proof.
  intros Ht. unfold setValue_at, bind, t_SetEntry. cbv zeta beta.
  fold (exp_of en1 ms) (exp_of en2 ms).
  destruct (txn_SetEntry (userKey k) _ t) as [|t1] eqn:H1; [done|].
  destruct (SetEntry_law _ _ _ _ Ht H1) as [Ht1 Hv1].
  destruct (txn_SetEntry (typeKey k) _ t1) as [|t2] eqn:H2; [done|].
  destruct (SetEntry_law _ _ _ _ Ht1 H2) as [_ Hv2].
  intros [= <-]. by rewrite Hv2, Hv1.
Qed.

Lemma exp_of_mono en1 en2 ms :
  0 <= now en1 <= now en2 → 0 <= ms → now en2 + ms * millisecond <= max_int64 →
  exp_of en1 ms <= exp_of en2 ms.
Proof.
  intros Hn Hms Hmax. destruct (decide (ms = 0)) as [->|]; [done|].
  destruct (exp_of_bounds en1 ms) as [-> _]; [lia..|].
  destruct (exp_of_bounds en2 ms) as [-> _]; [lia..|].
  apply Z.div_le_mono; [done|lia].
Qed.

(** An entry written at an instant with a TTL is gone once the TTL has elapsed,
    and is there until one second before. *)
Lemma exp_of_gone en ms tm :
  second <= now en → 0 < ms → now en + ms * millisecond <= max_int64 →
  now en + ms * millisecond <= tm → live tm (Entry "" (exp_of en ms)) = false.
Proof.
  intros Hn Hpos Hmax Hle. destruct (exp_of_bounds en ms) as [Hexp Hb]; [unfold second in *; lia|done..|].
  destruct (live tm _) eqn:Hl; [|done].
  apply live_before in Hl as [H0|Hl]; simpl in *; [|lia].
  rewrite H0 in Hb. unfold second, millisecond in *. lia.
Qed.
Lemma exp_of_there en ms tm :
  0 <= now en → 0 <= ms → now en + ms * millisecond <= max_int64 →
  ms = 0 ∨ tm <= now en + ms * millisecond - second → live tm (Entry "" (exp_of en ms)) = true.
Proof.
  intros Hn Hms Hmax Hor. apply live_before. simpl. destruct (decide (ms = 0)) as [->|]; [by left|right].
  destruct (exp_of_bounds en ms) as [_ Hb]; [done|lia|done|]. lia.
Qed.

(** C20: A value written with a TTL of [ms] milliseconds is never visible once
    the TTL has elapsed since the clock was read for it, and is visible until
    one second before; a value written without a TTL is always visible.  The
    type entry, for which the clock is read later, has its own lifetime, and is
    visible whenever the value is; its expiry is that of the value when the two
    readings agree. *)
Theorem setValue_lifetime en1 en2 k val typ ms t t' :
  healthy t → second <= now en1 <= now en2 → 0 <= ms → now en2 + ms * millisecond <= max_int64 →
  setValue_at en1 en2 k val typ ms t = (inr tt, t') → ∀ tm,
  (0 < ms → now en1 + ms * millisecond <= tm → vget tm (view t') (userKey k) = None)
  ∧ (0 < ms → now en2 + ms * millisecond <= tm → vget tm (view t') (typeKey k) = None)
  ∧ (ms = 0 ∨ tm <= now en1 + ms * millisecond - second →
     ∃ exp exp', vget tm (view t') (userKey k) = Some (Entry val exp)
            ∧ vget tm (view t') (typeKey k) = Some (Entry typ exp')
            ∧ exp <= exp' ∧ (now en1 = now en2 → exp = exp'))
  ∧ (is_Some (vget tm (view t') (userKey k)) → is_Some (vget tm (view t') (typeKey k))).
Proof.
  intros Ht Hn Hms Hmax Hset tm.
  rewrite (setValue_view _ _ _ _ _ _ _ _ Ht Hset), !vget_insert,
    (decide_False (P := typeKey k = userKey k)), !decide_True by done.
  change (live tm (Entry ?a ?b)) with (live tm (Entry "" b)).
  assert (second = 1000000000) as Hsec by done.
  pose proof (exp_of_mono en1 en2 ms ltac:(lia) Hms Hmax) as Hmono.
  split_and!.
  - intros Hpos Hle. by rewrite exp_of_gone by lia.
  - intros Hpos Hle. by rewrite exp_of_gone by lia.
  - intros Hor. exists (exp_of en1 ms), (exp_of en2 ms).
    rewrite !exp_of_there by lia.
    split_and!; [done..|]. intros Hnow. unfold exp_of. by rewrite Hnow.
  - destruct (decide (ms = 0)) as [->|Hne]; [done|].
    destruct (live tm (Entry "" (exp_of en1 ms))) eqn:Hl; [intros _|by intros []].
    assert (live tm (Entry "" (exp_of en2 ms)) = true) as ->; [|done].
    apply live_before in Hl. apply live_before. simpl in *. right.
    destruct (exp_of_bounds en1 ms) as [_ Hb]; [lia..|]. change millisecond with 1000000 in *. lia.
Qed.

(** ** Keeping a TTL *)

Lemma remaining_bounds en item :
  0 <= now en → e_exp item * second <= max_int64 → e_exp item ≠ 0 → live (now en) item = true →
  remainingTTLMs en item = Z.max 1 ((e_exp item * second - now en) / millisecond)
  ∧ 0 < e_exp item * second - now en.
Proof.
  intros Hn Hmax H0 Hl. apply live_before in Hl as [|Hl]; [done|].
  unfold remainingTTLMs, time_Until, Duration_Milliseconds.
  destruct (Z.eqb_spec (e_exp item) 0); [done|].
  rewrite wrap64_id by (unfold in_int64, min_int64, max_int64, second in *; lia).
  rewrite Z.min_r, Z.max_r by (unfold min_int64, max_int64 in *; lia).
  rewrite Z.quot_div_nonneg by (done || lia).
  split; [|lia]. destruct (Z.ltb_spec ((e_exp item * second - now en) / millisecond) 1); lia.
Qed.

(** The expiry of an entry that is rewritten with the TTL it had left. *)
Lemma kept_expiry en en' item :
  second <= now en <= now en' → e_exp item * second + (now en' - now en) <= max_int64 - second →
  e_exp item ≠ 0 → live (now en) item = true →
  let left := e_exp item * second - now en in
  let delay := now en' - now en in
  let exp := exp_of en' (remainingTTLMs en item) in
  e_exp item - 1 <= exp
  ∧ exp <= e_exp item + (delay + millisecond) / second
  ∧ (millisecond <= left → exp = e_exp item + (delay - left `mod` millisecond) / second).
Proof.
  intros Hn Hmax H0 Hl left delay exp.
  destruct (remaining_bounds en item) as [Hr Hpos]; [unfold second in *; lia..|done|done|].
  fold left in Hr, Hpos. unfold exp. set (ms := remainingTTLMs en item) in *.
  pose proof (Z.div_mod left millisecond ltac:(done)) as Hd.
  pose proof (Z.mod_pos_bound left millisecond ltac:(done)) as Hb.
  assert (left = e_exp item * second - now en) as Hleft by done.
  assert (delay = now en' - now en) as Hdelay by done. clearbody left delay.
  change millisecond with 1000000 in *. change second with 1000000000 in *.
  destruct (exp_of_bounds en' ms) as [Hexp Hx];
    [lia|lia|change millisecond with 1000000; unfold max_int64 in *; lia|].
  change millisecond with 1000000 in *. change second with 1000000000 in *.
  split_and!.
  - lia.
  - assert (exp_of en' ms - e_exp item <= (delay + 1000000) / 1000000000); [|lia].
    apply Z.div_le_lower_bound; lia.
  - intros Hle. assert ((delay - left `mod` 1000000) / 1000000000 = exp_of en' ms - e_exp item); [|lia].
    symmetry. apply (Z.div_unique_pos _ _ _
      (delay - left `mod` 1000000 - 1000000000 * (exp_of en' ms - e_exp item))); lia.
Qed.

(** C21: A command that keeps the TTL of its key reads the clock for the time
    that is left and again for each entry it writes.  What it writes expires at
    most one second before the old expiry, and later only as the command is
    slow.  Exactly (with a millisecond or more left): truncating the time left
    to milliseconds loses the part [r], and the new expiry is the old one plus
    the delay between the readings less [r], in whole seconds, rounded down:
    one second is lost when the delay is shorter than [r], none when it is not
    and the command takes less than a second.  The type entry does not expire
    before the value. *)
Theorem setValue_keeps_ttl en en1 en2 k item val typ t t' :
  healthy t → second <= now en <= now en1 → now en1 <= now en2 →
  e_exp item * second + (now en2 - now en) <= max_int64 - second →
  e_exp item ≠ 0 → live (now en) item = true →
  setValue_at en1 en2 k val typ (remainingTTLMs en item) t = (inr tt, t') →
  let left := e_exp item * second - now en in
  let r := left `mod` millisecond in
  let delay := now en1 - now en in
  ∃ exp exp', view t' !! userKey k = Some (Entry val exp)
    ∧ view t' !! typeKey k = Some (Entry typ exp')
    ∧ e_exp item - 1 <= exp <= exp'
    ∧ exp' <= e_exp item + (now en2 - now en + millisecond) / second
    ∧ (millisecond <= left →
         exp = e_exp item + (delay - r) / second
         ∧ (delay < r → exp = e_exp item - 1)
         ∧ (r <= delay < second → exp = e_exp item)).
Proof.
  intros Ht Hn Hn2 Hmax H0 Hl Hset left r delay. rewrite (setValue_view _ _ _ _ _ _ _ _ Ht Hset).
  set (ms := remainingTTLMs en item) in *. exists (exp_of en1 ms), (exp_of en2 ms).
  rewrite lookup_insert_eq, lookup_insert_ne, lookup_insert_eq by done.
  destruct (kept_expiry en en1 item) as (Hlow & _ & Hex); [lia..|done|done|].
  destruct (kept_expiry en en2 item) as (_ & Hup & _); [lia..|done|done|].
  fold left r delay ms in Hlow, Hex, Hup.
  assert (0 <= ms ∧ now en2 + ms * millisecond <= max_int64) as [Hms Hms'].
  { destruct (remaining_bounds en item) as [Hr Hpos]; [unfold second in *; lia..|done|done|].
    fold ms left in Hr, Hpos. pose proof (Z.div_mod left millisecond ltac:(done)).
    pose proof (Z.mod_pos_bound left millisecond ltac:(done)).
    assert (left = e_exp item * second - now en) by done.
    change millisecond with 1000000 in *. change second with 1000000000 in *. lia. }
  pose proof (exp_of_mono en1 en2 ms ltac:(unfold second in *; lia) Hms Hms').
  split_and!; [done..|lia|lia|done|]. intros Hle. specialize (Hex Hle). split; [done|].
  pose proof (Z.mod_pos_bound left millisecond ltac:(done)) as Hb. fold r in Hb.
  assert (0 <= delay) by lia. change millisecond with 1000000 in *. change second with 1000000000 in *.
  split; intros Hd; rewrite Hex.
  - assert ((delay - r) / 1000000000 = -1); [|lia].
    symmetry. apply (Z.div_unique_pos _ _ _ (delay - r + 1000000000)); lia.
  - rewrite Z.div_small by lia. lia.
Qed.

(** TTL and PTTL compute from the time left, in their unit. *)
Lemma ttl_with_reads remaining en d m k :
  dhealthy d → Sim (now en) (dview d) m → 0 <= now en →
  (∀ r exp, m !! k = Some (r, exp) → exp * second <= max_int64) →
  ttl_with remaining en d k = inr match m !! k with
    | None => -2
    | Some (_, exp) =>
        if exp =? 0 then -1
        else let ttl := remaining (exp * second - now en) in if ttl <? 0 then -2 else ttl
    end.
Proof.
  intros Hd Hs Hn Hmax. destruct (NewTransaction_law d Hd) as [Ht Hv]. rewrite <- Hv in Hs.
  pose proof (Sim_lookup _ _ _ k Hs) as Hk. unfold ttl_with. eapply View_run.
  erewrite bind_inr by (by apply t_Get_run). cbv beta.
  destruct (m !! k) as [[r exp]|]; [|by rewrite Hk].
  destruct Hk as (e & Hg & Hexp & _). rewrite Hg. cbv beta iota. subst exp.
  specialize (Hmax _ _ eq_refl). apply vget_Some in Hg as [_ Hl].
  destruct (Z.eqb_spec (e_exp e) 0); [done|].
  apply live_before in Hl as [|Hl]; [done|]. unfold time_Until.
  rewrite wrap64_id by (unfold in_int64, min_int64, max_int64, second in *; lia).
  rewrite Z.min_r, Z.max_r by (unfold min_int64, max_int64 in *; lia). done.
Qed.

(** PTTL answers -2 for a key that is not there, -1 for one that does not
    expire and otherwise the whole milliseconds it has left. *)
Theorem PTTL_reads en d m k :
  dhealthy d → Sim (now en) (dview d) m → 0 <= now en →
  (∀ r exp, m !! k = Some (r, exp) → exp * second <= max_int64) →
  PTTL en d k = inr match m !! k with
                    | None => -2
                    | Some (_, exp) =>
                        if exp =? 0 then -1 else (exp * second - now en) / millisecond
                    end.
Proof.
  intros Hd Hs Hn Hmax. unfold PTTL. rewrite (ttl_with_reads _ en d m k) by done.
  destruct (NewTransaction_law d Hd) as [_ Hv]. rewrite <- Hv in Hs.
  pose proof (Sim_lookup _ _ _ k Hs) as Hk. destruct (m !! k) as [[r exp]|]; [|done].
  destruct Hk as (e & Hg & Hexp & _). subst exp. apply vget_Some in Hg as [_ Hl].
  destruct (Z.eqb_spec (e_exp e) 0); [done|]. apply live_before in Hl as [|Hl]; [done|].
  unfold Duration_Milliseconds. cbv zeta. rewrite Z.quot_div_nonneg by (done || lia).
  pose proof (Z.div_pos (e_exp e * second - now en) millisecond ltac:(lia) ltac:(done)).
  destruct (Z.ltb_spec ((e_exp e * second - now en) / millisecond) 0); [lia|done].
Qed.

(** ** EXPIRE *)

(** The type entry of a key lives as long as an expiry. *)
Definition outlives v k (exp : Z) : Prop :=
  ∀ te, v !! typeKey k = Some te → ∀ tm, live tm (Entry "" exp) = true → live tm te = true.

Lemma string_type_stable now v k tm :
  now <= tm → type_of now v k = "string" → type_of tm v k = "string".
Proof.
  intros Hle. unfold type_of.
  destruct (vget tm v (typeKey k)) as [e|] eqn:Hg; [|done].
  apply vget_Some in Hg as [He Hl].
  assert (vget now v (typeKey k) = Some e) as ->; [|done].
  apply vget_Some. eauto using live_antitone.
Qed.

(** EXPIRE rewrites the value entry and nothing else. *)
Lemma cmd_expire_view en c t m t' r :
  writable (Key c) → healthy t → Sim (now en) (view t) m →
  cmd_expire en c t = (r, t') →
  match m !! Key c with
  | None => view t' = view t
  | Some _ => ∃ e, vget (now en) (view t) (userKey (Key c)) = Some e ∧
      view t' = <[userKey (Key c) :=
                    Entry (e_val e) (WithTTL (now en) (duration_ms (TTLMs c)))]> (view t)
  end.
Proof.
  intros Hw Ht Hs. unfold cmd_expire. erewrite bind_inr by (by apply t_Get_run).
  pose proof (Sim_lookup _ _ _ (Key c) Hs) as Hk.
  destruct (m !! Key c) as [[r' exp]|]; [|rewrite Hk; by intros [= _ <-]].
  destruct Hk as (e & Hg & _). rewrite Hg, (vget_copy _ _ _ _ Ht Hg) by done.
  destruct (Hw (userKey (Key c)) t (or_introl eq_refl) Ht) as [Hset _].
  set (e' := Entry _ _). destruct (Hset e') as [t1 H1].
  destruct (SetEntry_law _ _ _ _ Ht H1) as [Ht1 Hv1].
  unfold bind, t_SetEntry, ret. rewrite H1. intros [= _ <-]. eauto.
Qed.

Lemma expire_runs handleLua en c t m :
  Op c = "EXPIRE" → writable (Key c) → healthy t → Sim (now en) (view t) m →
  (∀ r exp, m !! Key c = Some (r, exp) →
     type_name r = "string"
     ∨ outlives (view t) (Key c) (WithTTL (now en) (duration_ms (TTLMs c)))) →
  runs_to en (applyCmdInTxn handleLua en c) t (spec_expire en c m).
Proof.
  intros Hop Hw Ht Hs Hty. unfold applyCmdInTxn. rewrite Hop. simpl orb. cbv iota.
  destruct (cmd_expire_runs en c t m Hw Ht Hs) as (t' & Hr & Ht' & HR).
  exists t'. split; [done|]. split; [done|]. split; [done|].
  pose proof (cmd_expire_view en c t m t' _ Hw Ht Hs Hr) as Hv.
  pose proof (Sim_lookup _ _ _ (Key c) Hs) as Hk. destruct Hs as [_ HS].
  destruct (m !! Key c) as [[r exp]|]; [|by rewrite Hv].
  destruct Hv as (e0 & Hg & Hv). destruct Hk as (e1 & Hg1 & _ & _ & Htype).
  specialize (Hty _ _ eq_refl).
  intros k e tm. rewrite Hv, !type_of_frame by done. rewrite lookup_insert.
  case_decide as Hk; simplify_eq; [|apply HS]. intros [= <-] Hle Hl.
  destruct Hty as [Hstr|Hout].
  - rewrite Hstr in Htype. rewrite Htype. by eapply string_type_stable.
  - unfold type_of, vget. destruct (view t !! typeKey (Key c)) as [te|] eqn:Hte; [|done].
    assert (live tm te = true) as Hlt by (by eapply Hout).
    by rewrite Hlt, (live_antitone _ _ _ Hle Hlt).
Qed.

(** The commands that refine the abstract Redis on a state: all but the Lua
    ones, EXPIRE when its key holds no collection. *)
Definition supported m (c : Command) : Prop :=
  data_op (Op c) = true
  ∨ Op c = "EXPIRE" ∧ ∀ r exp, m !! Key c = Some (r, exp) → type_name r = "string".

Lemma Apply_supported handleLua en c d m :
  commits → env_ok en → supported m c → accepted c → dhealthy d → Sim (now en) (dview d) m →
  ∃ d', Apply handleLua en d (enc_cmd c) = ((spec_apply en c m).1, d') ∧ dhealthy d' ∧
    Sim (now en) (dview d') (spec_apply en c m).2.
Proof.
  intros Hcom Hen [Hop|[Hop Hstr]] Hacc Hd Hs; [by apply Apply_runs|].
  apply Apply_of_runs; [done..|]. unfold spec_apply. rewrite Hop.
  destruct (NewTransaction_law d Hd) as [Ht Hv].
  apply expire_runs; [done| |done|by rewrite Hv|by intros; left; eapply Hstr].
  apply Hacc. unfold touched. rewrite Hop. set_solver.
Qed.

(** C22: EXPIRE on a string, or on a value whose type entry does not expire
    before the new expiry, refines the abstract EXPIRE: the answer is 1 or
    0, the value is kept with its new expiry (and is gone if that instant
    has passed), and later reads see it that way. *)
Theorem expire_refines handleLua en c t m :
  Op c = "EXPIRE" → writable (Key c) → healthy t → Sim (now en) (view t) m →
  (∀ r exp, m !! Key c = Some (r, exp) →
     type_name r = "string"
     ∨ outlives (view t) (Key c) (WithTTL (now en) (duration_ms (TTLMs c)))) →
  ∃ t', applyCmdInTxn handleLua en c t = ((spec_expire en c m).1, t') ∧ healthy t' ∧
    Sim (now en) (view t') (spec_expire en c m).2.
Proof.
  apply expire_runs.
Qed.

(** Reading a key whose value is visible and whose type is recorded. *)
Lemma reads_by_type en d k e :
  dhealthy d → vget (now en) (dview d) (userKey k) = Some e →
  (∀ f, type_of (now en) (dview d) k ≠ "hash" → HGet en d k f = inl EWrongType)
  ∧ (type_of (now en) (dview d) k = "string" →
     ∃ o, GetString en d k = inr o ∧ default "" o = e_val e).
Proof.
  intros Hd Hg. destruct (NewTransaction_law d Hd) as [Ht Hv]. rewrite <- Hv in *.
  assert (Hget := t_Get_run en (userKey k) _ ltac:(done) Ht). rewrite Hg in Hget.
  assert (Hens := λ want, ensureExistingType_run en k want _ Ht). split.
  - intros f Hty. unfold HGet. rewrite (View_run _ _ (inl EWrongType) (NewTransaction d)); [done|].
    unfold read_coll.
    erewrite bind_inr by done. cbv beta iota. erewrite bind_inl; [done|].
    rewrite Hens. by destruct (String.eqb_spec (type_of (now en) (view (NewTransaction d)) k) "hash").
  - intros Hty. destruct (vget_copy_run _ _ _ _ Ht Hg ltac:(done)) as (o & Ho & Hval).
    exists o. split; [|done]. unfold GetString.
    rewrite (View_run _ _ (inr o) (NewTransaction d)); [done|]. unfold GetString_txn.
    erewrite bind_inr by done. cbv beta iota. erewrite bind_inr; [exact Ho|].
    by rewrite Hens, Hty.
Qed.

(** EXPIRE renews the value entry only.  A hash whose entries expire at
    [exp] (as any write of it with a TTL leaves them) and whose life EXPIRE
    extends loses its type at [exp]: until the new expiry, HGET answers
    WRONGTYPE and GET answers the encoded hash. *)
Theorem expire_loses_type handleLua en c t m h exp te t' r d' en' :
  Op c = "EXPIRE" → writable (Key c) → healthy t → Sim (now en) (view t) m →
  m !! Key c = Some (RHash h, exp) → view t !! typeKey (Key c) = Some te → e_exp te = exp →
  exp ≠ 0 →
  applyCmdInTxn handleLua en c t = (r, t') → Commit t' = inr d' →
  exp <= now en' / second < WithTTL (now en) (duration_ms (TTLMs c)) →
  HGet en' d' (Key c) "f" = inl EWrongType
  ∧ ∃ o, GetString en' d' (Key c) = inr o ∧ decodeMsgpack (default "" o) = inr h.
Proof.
  intros Hop Hw Ht Hs Hm Hte Hexp H0 Hr Hc Htm.
  unfold applyCmdInTxn in Hr. rewrite Hop in Hr.
  change (cmd_expire en c t = (r, t')) in Hr.
  destruct (cmd_expire_runs en c t m Hw Ht Hs) as (t1 & Hr1 & Ht1 & _).
  rewrite Hr1 in Hr. injection Hr as _ <-.
  pose proof (cmd_expire_view en c t m t1 _ Hw Ht Hs Hr1) as Hv. rewrite Hm in Hv.
  destruct Hv as (e & Hg & Hv).
  pose proof (Sim_lookup _ _ _ (Key c) Hs) as Hk. rewrite Hm in Hk.
  destruct Hk as (e1 & Hg1 & _ & Hdec & _). rewrite Hg in Hg1. injection Hg1 as <-.
  destruct (Commit_law _ _ Ht1 Hc) as [Hd' Hdv].
  assert (Hvis : vget (now en') (dview d') (userKey (Key c))
                 = Some (Entry (e_val e) (WithTTL (now en) (duration_ms (TTLMs c))))).
  { rewrite Hdv, Hv. apply vget_Some. rewrite lookup_insert_eq. split; [done|].
    unfold live. simpl. apply orb_true_iff. right. apply Z.ltb_lt. lia. }
  assert (Hty : type_of (now en') (dview d') (Key c) = "string").
  { rewrite Hdv, Hv, type_of_frame by done. unfold type_of, vget. rewrite Hte.
    assert (live (now en') te = false) as ->; [|done].
    unfold live. rewrite Hexp. apply orb_false_iff. rewrite Z.eqb_neq, Z.ltb_ge. lia. }
  destruct (reads_by_type en' d' (Key c) _ Hd' Hvis) as [H1 H2]. split.
  - apply H1. by rewrite Hty.
  - destruct (H2 Hty) as (o & Ho & Hval). exists o. split; [done|]. rewrite Hval. simpl.
    unfold decode_val in Hdec. simpl in Hdec. by case_match; simplify_eq.
Qed.
End ttl.

(** ** The theorems at concrete inputs *)

Section witnesses.
#[local] Existing Instances B0 L0 C0 CL0.

Definition empty0 : @txn B0 := ∅.

(** The clock is read at 1 s for the value and at 1.2 s for the type. *)
Lemma setValue_lifetime_witness :
  let t' := (setValue_at (en0 second) (en0 (6 * second / 5)) "k" "v" "string" 2500 empty0).2 in
  vget (7 * second / 2) (view t') (userKey "k") = None
  ∧ is_Some (vget (5 * second / 2) (view t') (userKey "k")).
Proof.
  destruct (setValue_lifetime (en0 second) (en0 (6 * second / 5)) "k" "v" "string" 2500 empty0 _ (healthy0 _)
    ltac:(done) ltac:(done) ltac:(done) eq_refl (7 * second / 2)) as [H1 _].
  destruct (setValue_lifetime (en0 second) (en0 (6 * second / 5)) "k" "v" "string" 2500 empty0 _ (healthy0 _)
    ltac:(done) ltac:(done) ltac:(done) eq_refl (5 * second / 2)) as (_ & _ & H2 & _).
  split; [by apply H1|]. destruct H2 as (exp & exp' & H2 & _); [by right|]. by exists (Entry "v" exp).
Defined.

(** A key that has 8 seconds left, less half a millisecond: rewritten a tenth of
    a millisecond later it has 7. *)
Lemma setValue_keeps_ttl_witness : ∃ exp exp',
  view (setValue_at (en0 (2 * second + 600000)) (en0 (2 * second + 700000)) "k" "v" "string"
    (remainingTTLMs (en0 (2 * second + 500000)) (Entry "u" 10)) empty0).2 !! userKey "k"
  = Some (Entry "v" exp) ∧ exp = 9 ∧ exp <= exp'.
Proof.
  destruct (setValue_keeps_ttl (en0 (2 * second + 500000)) (en0 (2 * second + 600000))
    (en0 (2 * second + 700000)) "k" (Entry "u" 10) "v" "string" empty0 _ (healthy0 _)
    ltac:(done) ltac:(done) ltac:(done) ltac:(done) ltac:(done) eq_refl)
    as (exp & exp' & H & _ & Hexp & _ & Hex).
  exists exp, exp'. split; [exact H|]. split; [|exact (proj2 Hexp)].
  exact (proj1 (proj2 (Hex ltac:(done))) ltac:(done)).
Defined.

Lemma PTTL_reads_witness : PTTL (en0 0) db0 "list" = inr (-1).
Proof.
  rewrite (PTTL_reads (en0 0) db0 state0 "list" (dhealthy0 _) (Sim_store0 0));
    [done|done|intros r exp H; by injection H as _ <-].
Defined.

Lemma expire_refines_witness :
  ∃ t', applyCmdInTxn noLua (en0 0) (mkCommand "EXPIRE" "list" [] 5000 "" false) db0
        = (inr (GInt 1), t')
    ∧ Sim 0 (view t') (<["list" := (RList list0, 5)]> state0).
Proof.
  destruct (expire_refines noLua (en0 0) (mkCommand "EXPIRE" "list" [] 5000 "" false) db0 state0)
    as (t' & H1 & _ & H2).
  - done.
  - apply writable0. simpl. lia.
  - done.
  - apply Sim_store0.
  - intros r exp _. right. intros te Hte tm _. vm_compute in Hte. by injection Hte as <-.
  - exists t'. exact (conj H1 H2).
Defined.

(** The hash of [store0] after EXPIRE and a write, with entries that expire
    together. *)
Definition hash_store : @txn B0 :=
  <[typeKey "h" := Entry "hash" 5]> (<[userKey "h" := Entry (@encodeMsgpack C0 _ _ hash0) 5]> ∅).

Lemma expire_loses_type_witness :
  let '(_, t') := applyCmdInTxn noLua (en0 second) (mkCommand "EXPIRE" "h" [] 60000 "" false) hash_store in
  HGet (en0 (20 * second)) (t' : @db B0) "h" "f" = inl EWrongType.
Proof.
  destruct (applyCmdInTxn noLua (en0 second) _ hash_store) as [r t'] eqn:Hr.
  eapply (expire_loses_type noLua (en0 second) (mkCommand "EXPIRE" "h" [] 60000 "" false) hash_store
    {["h" := (RHash hash0, 5)]} hash0 5 (Entry "hash" 5) t' r t' (en0 (20 * second))).
  - done.
  - apply writable0. simpl. lia.
  - done.
  - apply (Sim_put (en0 second) ∅ ∅ "h" (encodeMsgpack hash0) "hash" (RHash hash0) 5 (Sim_empty0 _)).
    unfold decode_val. simpl String.eqb. cbv iota. by rewrite (@decode_encode_hash C0 CL0).
  - done.
  - done.
  - done.
  - done.
  - exact Hr.
  - done.
  - vm_compute. done.
Defined.
End witnesses.
