(* ===== verification/FsmLog.v ===== *)
(** * A log of entries

    Raft hands the entries of its log to Apply one after another, while time
    passes.  The theorem says that a replica that applies a log implements the
    abstract Redis. *)

From S2P Require Import Prelude GoStd Badger Codec Keys Fsm FsmColl FsmApply.
From S2P Require Import FsmSpec FsmSim Concrete FsmProps FsmTtl.
From Stdlib Require Import Lia ZArith.

(** The abstract run of a log: time passes, then the command applies. *)
Fixpoint spec_log `{B : BadgerOps} (log : list (Env * Command)) (m : rstate)
    : list (gerr + goval) * rstate :=
  match log with
  | [] => ([], m)
  | (en, c) :: log' =>
      let '(r, m1) := spec_apply en c (expire (now en) m) in
      let '(rs, m2) := spec_log log' m1 in
      (r :: rs, m2)
  end.

Section log.
Context `{B : BadgerOps} {L : BadgerLaws B} `{C : Codec} {CL : CodecLaws C}.
Implicit Types (m : rstate) (en : Env).
Context (handleLua : Env → Command → M txn gerr goval).

(** The answers of [Apply] to the entries of a log, and the database at the
    end. *)
Fixpoint applyLog (log : list (Env * string)) (d : db) : list (gerr + goval) * db :=
  match log with
  | [] => ([], d)
  | (en, data) :: log' =>
      let '(r, d1) := Apply handleLua en d data in
      let '(rs, d2) := applyLog log' d1 in
      (r :: rs, d2)
  end.

(** A log whose clock does not go back, of commands that the store accepts and
    that the state they find supports: EXPIRE is for keys that hold no
    collection, and there are no scripts. *)
Fixpoint log_ok (t0 : Z) m (log : list (Env * Command)) : Prop :=
  match log with
  | [] => True
  | (en, c) :: log' =>
      let m := expire (now en) m in
      t0 <= now en ∧ env_ok en ∧ supported m c ∧ accepted c
      ∧ log_ok (now en) (spec_apply en c m).2 log'
  end.

Lemma applyLog_runs (t0 : Z) log d m :
  commits → dhealthy d → Sim t0 (dview d) m → log_ok t0 m log →
  ∃ d' (t1 : Z), applyLog (map (λ ec, (ec.1, enc_cmd ec.2)) log) d
           = ((spec_log log m).1, d') ∧ dhealthy d' ∧
    Sim t1 (dview d') (spec_log log m).2.
Proof.
  intros Hcom. revert t0 d m. induction log as [|[en c] log IH]; intros t0 d m Hd Hs Hlog; simpl.
  { eauto. }
  destruct Hlog as (Hle & Hen & Hop & Hacc & Hlog).
  destruct (Apply_supported handleLua en c d (expire (now en) m)) as (d1 & Hr & Hd1 & Hs1);
    [done..|by eapply Sim_expire|].
  rewrite Hr. destruct (spec_apply en c (expire (now en) m)) as [r m1]. simpl in *.
  destruct (IH (now en) d1 m1 Hd1 Hs1 Hlog) as (d' & t1 & Hr' & Hd' & Hs').
  exists d', t1. rewrite Hr'. by destruct (spec_log log m1).
Qed.

(** C5: Applying a log of serialized commands (any but scripts; EXPIRE for keys
    that hold no collection when it is applied) over the database, at instants
    that do not go back, gives the answers of the abstract Redis for the whole
    log, and the final database represents its final state: keys expire when
    their time comes, failed commands change nothing. *)
Theorem applyLog_refines (t0 : Z) log d m :
  commits → dhealthy d → Sim t0 (dview d) m → log_ok t0 m log →
  ∃ d' (t1 : Z), applyLog (map (λ ec, (ec.1, enc_cmd ec.2)) log) d
           = ((spec_log log m).1, d') ∧ dhealthy d' ∧
    Sim t1 (dview d') (spec_log log m).2.
Proof. apply applyLog_runs. Qed.
End log.

(** ** The theorem at a concrete log *)

Section witnesses.
#[local] Existing Instances B0 L0 C0 CL0.

Definition log0 : list (Env * Command) :=
  [(en0 0, cmd "SET" "k" ["v"]); (en0 0, mkCommand "EXPIRE" "k" [] 5000 "" false);
   (en0 second, cmd "APPEND" "k" ["w"]);
   (en0 (7 * second), cmd "APPEND" "k" ["x"]); (en0 (8 * second), cmd "LPUSH" "k" ["y"])].

Lemma applyLog_refines_witness :
  ∃ d' t1, applyLog noLua (map (λ ec, (ec.1, enc_cmd ec.2)) log0) ∅
    = ([inr (GString "OK"); inr (GInt 1); inr (GInt 2); inr (GInt 1); inl EWrongType], d')
    ∧ Sim t1 (dview d') {["k" := (RStr "x", 0)]}.
Proof.
  destruct (applyLog_refines noLua 0 log0 ∅ ∅) as (d' & t1 & H1 & _ & H2).
  - apply commits0.
  - done.
  - apply Sim_empty0.
  - assert (Hw : ∀ c, touched c = ["k"] → Op c ≠ "FLUSHDB" → accepted c).
    { intros c Hc Hop. split; [|done]. intros k Hk. rewrite Hc in Hk.
      apply list_elem_of_singleton in Hk as ->. apply writable0. simpl. lia. }
    cbn [log_ok log0]. repeat (apply conj; [first [done | by apply Hw | by left | idtac]|]); try done.
    right. split; [done|]. intros r exp Hk. vm_compute in Hk. by injection Hk as <- _.
  - exists d', t1. exact (conj H1 H2).
Defined.
End witnesses.
