(* ===== verification/FsmReplica.v ===== *)
(** * Replicas that apply the same log

    Raft hands every replica the same commands in the same order.  Each
    applies them at its own instants and with its own map orders.  The
    theorems say when the replicas agree all the same, and exhibit the
    commands on which they do not. *)

From S2P Require Import Prelude GoStd Badger Codec Keys Fsm FsmColl FsmApply FsmRead.
From S2P Require Import FsmSpec FsmSim Concrete FsmProps FsmReadProps FsmTtl FsmLog.
From Stdlib Require Import Lia ZArith.

Section replicas.
Context `{B : BadgerOps} {L : BadgerLaws B} `{C : Codec} {CL : CodecLaws C}.
Implicit Types (m : rstate) (en : Env) (k : string).
Context (handleLua : Env → Command → M txn gerr goval).

(** The order in which a map is ranged over shows in SPOP only. *)
Lemma spec_apply_order en1 en2 c m :
  now en1 = now en2 → Op c ≠ "SPOP" → spec_apply en1 c m = spec_apply en2 c m.
Proof.
  destruct en1 as [n1 r1], en2 as [n2 r2]. simpl. intros <- Hop.
  assert (spec_srem (mkEnv n1 r1) c m = spec_srem (mkEnv n1 r2) c m) as Hs.
  { unfold spec_srem. by destruct (String.eqb_spec (Op c) "SPOP"). }
  unfold spec_apply. rewrite Hs. done.
Qed.

(** A state in which no key expires. *)
Definition eternal m : Prop := ∀ k r exp, m !! k = Some (r, exp) → exp = 0.

Lemma eternal_insert k r m : eternal m → eternal (<[k := (r, 0)]> m).
Proof. intros Hm k' r' exp. rewrite lookup_insert. case_decide; [by intros [= _ <-]|apply Hm]. Qed.
Lemma eternal_put en k r m : eternal m → eternal (put en k r 0 m).
Proof. apply eternal_insert. Qed.
Lemma eternal_delete k m : eternal m → eternal (delete k m).
Proof. intros Hm k' r' exp [_ H]%lookup_delete_Some. by eapply Hm. Qed.
Lemma eternal_without ks m : eternal m → eternal (without ks m).
Proof. intros Hm k' r' exp. rewrite lookup_without. case_decide; [done|apply Hm]. Qed.
Lemma eternal_empty : eternal ∅.
Proof. by intros k r exp. Qed.
Lemma eternal_mset (l : list (string * string)) m :
  eternal m → eternal (foldl (λ m kv, <[kv.1 := (RStr kv.2, 0)]> m) m l).
Proof. revert m. induction l as [|kv l IH]; intros m Hm; [done|]. by apply IH, eternal_insert. Qed.

Lemma eternal_expire tm m : eternal m → expire tm m = m.
Proof.
  intros Hm. apply map_filter_id. intros k [r exp] Hk. by rewrite (Hm _ _ _ Hk).
Qed.

Hint Resolve eternal_insert eternal_delete eternal_without eternal_empty eternal_mset : badis.

Lemma spec_apply_eternal en1 en2 c m :
  eternal m → TTLMs c <= 0 → str_in (Op c) ["SPOP"; "EXPIRE"] = false →
  spec_apply en1 c m = spec_apply en2 c m ∧ eternal (spec_apply en1 c m).2.
Proof.
  intros Hm Httl Hop. rewrite !str_in_cons, str_in_nil, !orb_false_iff in Hop.
  destruct Hop as (Hspop & Hexp & _).
  assert (∀ en, exp_of en (TTLMs c) = 0) as Hset
    by (intros en; unfold exp_of; by destruct (Z.ltb_spec 0 (TTLMs c)); [lia|]).
  unfold spec_apply. rewrite (str_in_cons _ "EXPIRE"), Hexp, str_in_nil.
  change (if false || false then ?a else ?b) with b.
  unfold spec_set, spec_mset, spec_del, spec_flushdb, spec_incr,
    spec_persist, spec_hset, spec_hdel, spec_push, spec_pop, spec_ltrim, spec_lrem,
    spec_sadd, spec_srem, on_hash, on_list, on_set, put_list, put_set.
  rewrite Hspop, !Hset.
  destruct (m !! Key c) as [[r exp]|] eqn:Hk; [rewrite (Hm _ _ _ Hk)|].
  all: cbn [from_option fst snd].
  all: change (retain ?en 0) with 0; change (put ?en ?k ?r 0 m) with (<[k := (r, 0)]> m).
  all: split; [repeat case_match; reflexivity|].
  all: repeat case_match; simpl; auto using eternal_put with badis.
Qed.

(** Two logs with the same commands; the instants and the map orders are
    each replica's own. *)
Definition same_commands (log1 log2 : list (Env * Command)) : Prop := log1.*2 = log2.*2.

Definition ordered (c : Command) : Prop := Op c ≠ "SPOP".
Definition timeless (c : Command) : Prop :=
  TTLMs c <= 0 ∧ str_in (Op c) ["SPOP"; "EXPIRE"] = false.

Lemma spec_log_order log1 log2 m :
  same_commands log1 log2 → (now ∘ fst <$> log1) = (now ∘ fst <$> log2) →
  Forall ordered log1.*2 → spec_log log1 m = spec_log log2 m.
Proof.
  unfold same_commands. revert log2 m.
  induction log1 as [|[en1 c] log1 IH]; intros [|[en2 c2] log2] m Hc Hn Ho; try done.
  simpl in *. injection Hc as <- Hc. injection Hn as Hn1 Hn. apply Forall_cons in Ho as [Ho1 Ho].
  rewrite Hn1, (spec_apply_order en1 en2) by done.
  destruct (spec_apply en2 c _) as [r m1]. by rewrite (IH log2).
Qed.

Lemma spec_log_eternal log1 log2 m :
  same_commands log1 log2 → eternal m → Forall timeless log1.*2 →
  spec_log log1 m = spec_log log2 m.
Proof.
  unfold same_commands. revert log2 m.
  induction log1 as [|[en1 c] log1 IH]; intros [|[en2 c2] log2] m Hc Hm Ho; try done.
  simpl in *. injection Hc as <- Hc. apply Forall_cons in Ho as [[Httl Hop] Ho].
  rewrite !eternal_expire by done.
  destruct (spec_apply_eternal en1 en2 c m Hm Httl Hop) as [Heq He]. rewrite <- Heq.
  destruct (spec_apply en1 c m) as [r m1]. by rewrite (IH log2).
Qed.

(** Replicas whose abstract runs agree, agree. *)
Lemma replicas_run t1 t2 log1 log2 d1 d2 m :
  commits → dhealthy d1 → dhealthy d2 → Sim t1 (dview d1) m → Sim t2 (dview d2) m →
  log_ok t1 m log1 → log_ok t2 m log2 → spec_log log1 m = spec_log log2 m →
  let run log := applyLog handleLua (map (λ ec, (ec.1, enc_cmd ec.2)) log) in
  (run log1 d1).1 = (run log2 d2).1
  ∧ ∃ m' (t1' t2' : Z), Sim t1' (dview (run log1 d1).2) m' ∧ Sim t2' (dview (run log2 d2).2) m'.
Proof.
  intros Hc Hd1 Hd2 Hs1 Hs2 Hl1 Hl2 Heq run. subst run. cbv beta.
  destruct (applyLog_runs handleLua t1 log1 d1 m Hc Hd1 Hs1 Hl1) as (d1' & t1' & -> & _ & H1).
  destruct (applyLog_runs handleLua t2 log2 d2 m Hc Hd2 Hs2 Hl2) as (d2' & t2' & -> & _ & H2).
  simpl. rewrite Heq in *. split; [done|]. exists (spec_log log2 m).2, t1', t2'. done.
Qed.

(** C11: Replicas that start from stores representing one state and apply the
    same commands at the same instants give the same answers and end in
    stores that represent one state, whatever the order in which each of
    them ranges over its maps, as long as the log has no SPOP, no script, and
    EXPIRE only for keys that hold no collection when it is applied. *)
Theorem replicas_agree_on_clock (t0 : Z) log1 log2 d1 d2 m :
  commits → dhealthy d1 → dhealthy d2 → Sim t0 (dview d1) m → Sim t0 (dview d2) m →
  log_ok t0 m log1 → log_ok t0 m log2 → same_commands log1 log2 →
  (now ∘ fst <$> log1) = (now ∘ fst <$> log2) → Forall ordered log1.*2 →
  let run log := applyLog handleLua (map (λ ec, (ec.1, enc_cmd ec.2)) log) in
  (run log1 d1).1 = (run log2 d2).1
  ∧ ∃ m' (t1' t2' : Z), Sim t1' (dview (run log1 d1).2) m' ∧ Sim t2' (dview (run log2 d2).2) m'.
Proof. intros. apply (replicas_run t0 t0 _ _ _ _ m); [done..|]. by apply spec_log_order. Qed.

(** Without TTLs (no key expires, no command sets an expiry) and without
    SPOP, replicas agree whatever the instants at which they apply the
    commands. *)
Theorem replicas_agree_without_ttl (t1 t2 : Z) log1 log2 d1 d2 m :
  commits → dhealthy d1 → dhealthy d2 → Sim t1 (dview d1) m → Sim t2 (dview d2) m →
  log_ok t1 m log1 → log_ok t2 m log2 → same_commands log1 log2 →
  eternal m → Forall timeless log1.*2 →
  let run log := applyLog handleLua (map (λ ec, (ec.1, enc_cmd ec.2)) log) in
  (run log1 d1).1 = (run log2 d2).1
  ∧ ∃ m' (t1' t2' : Z), Sim t1' (dview (run log1 d1).2) m' ∧ Sim t2' (dview (run log2 d2).2) m'.
Proof. intros. apply (replicas_run t1 t2 _ _ _ _ m); [done..|]. by apply spec_log_eternal. Qed.

(** ** SPOP *)

(** A map order that begins with [x]. *)
Definition first_of (now : Z) (x : string) : Env :=
  mkEnv now (λ _ s, if decide (x ∈ s) then x :: elements (s ∖ {[x]}) else elements s).

Lemma first_of_ok tm x : 0 <= tm <= max_int64 → env_ok (first_of tm x).
Proof.
  intros Hn. split; [done|]. intros i s. cbn [range first_of]. case_decide as Hx; [|done].
  rewrite (union_difference_L {[x]} s) at 2 by set_solver.
  rewrite elements_disj_union by set_solver. by rewrite elements_singleton.
Qed.

(** SPOP under that order pops [x], and the others stay. *)
Lemma spop_first tm x k s d m :
  commits → 0 <= tm <= max_int64 → writable k → dhealthy d → Sim tm (dview d) m →
  m !! k = Some (RSet s, 0) → x ∈ s → s ≠ {[x]} →
  ∃ d', Apply handleLua (first_of tm x) d (enc_cmd (mkCommand "SPOP" k [] 0 "" false))
          = (inr (GBytes x), d')
    ∧ ∀ en, env_ok en → tm <= now en →
        ∃ l, SMembers en d' k = inr l ∧ l ≡ₚ elements (s ∖ {[x]}).
Proof.
  intros Hcom Htm Hw Hd Hs Hm Hx Hne. set (c := mkCommand "SPOP" k [] 0 "" false).
  assert (spec_apply (first_of tm x) c m = (inr (GBytes x), <[k := (RSet (s ∖ {[x]}), 0)]> m)) as Hspec.
  { change (spec_apply (first_of tm x) c m) with (spec_srem (first_of tm x) c m).
    unfold spec_srem, on_set. cbn [Key c]. rewrite Hm. cbn -[elements difference].
    rewrite decide_True by done. cbn -[elements difference]. unfold put_set.
    change (take (Z.to_nat 1) (x :: elements (s ∖ {[x]}))) with [x].
    replace (s ∖ list_to_set [x]) with (s ∖ {[x]}) by set_solver.
    rewrite bool_decide_eq_false_2; [reflexivity|].
    intros He. apply Hne. apply set_eq. intros z. rewrite elem_of_singleton. split; [|by intros ->].
    intros Hz. destruct (decide (z = x)); [done|].
    assert (z ∈ s ∖ {[x]}) as Hz' by set_solver. by rewrite He in Hz'. }
  destruct (Apply_runs handleLua (first_of tm x) c d m) as (d' & Hr & Hd' & Hs'); [done| |done| |done..|].
  { by apply first_of_ok. }
  { split; [|done]. by intros k' ->%list_elem_of_singleton. }
  rewrite Hspec in Hr, Hs'. cbn [fst snd] in Hr, Hs'. exists d'. split; [done|]. intros en Hen Hle.
  apply (Sim_expire _ (now en)) in Hs'; [|done].
  pose proof (ra_smembers _ _ _ _ (readers_run en d' _ k Hen Hd' Hs')) as Hread.
  assert (expire (now en) (<[k := (RSet (s ∖ {[x]}), 0)]> m) !! k = Some (RSet (s ∖ {[x]}), 0)) as Hk.
  { apply map_lookup_filter_Some. by rewrite lookup_insert_eq. }
  by rewrite Hk in Hread.
Qed.

(** C39: SPOP takes replicas apart whatever the store: of any set with two
    members and no expiry, two replicas with the same database that apply the
    same SPOP at the same instant may pop any two different members, answer
    differently, and hold different sets from then on; nothing but the order
    in which Go ranges over a map decides which. *)
Theorem spop_diverges tm x y k s d m :
  commits → 0 <= tm <= max_int64 → writable k → dhealthy d → Sim tm (dview d) m →
  m !! k = Some (RSet s, 0) → x ∈ s → y ∈ s → x ≠ y →
  let spop := enc_cmd (mkCommand "SPOP" k [] 0 "" false) in
  ∃ en1 en2 d1 d2, env_ok en1 ∧ env_ok en2 ∧ now en1 = tm ∧ now en2 = tm
    ∧ Apply handleLua en1 d spop = (inr (GBytes x), d1)
    ∧ Apply handleLua en2 d spop = (inr (GBytes y), d2)
    ∧ ∀ en, env_ok en → tm <= now en → ∃ l1 l2,
        SMembers en d1 k = inr l1 ∧ SMembers en d2 k = inr l2
        ∧ (x ∉ l1) ∧ (y ∈ l1) ∧ (x ∈ l2) ∧ (y ∉ l2).
Proof.
  intros Hcom Htm Hw Hd Hs Hm Hx Hy Hne spop.
  destruct (spop_first tm x k s d m) as (d1 & H1 & Hl1); [done..|set_solver|].
  destruct (spop_first tm y k s d m) as (d2 & H2 & Hl2); [done..|set_solver|].
  exists (first_of tm x), (first_of tm y), d1, d2.
  split_and!; [by apply first_of_ok..|done|done|done|done|].
  intros en Hen Hle. destruct (Hl1 en Hen Hle) as (l1 & -> & P1), (Hl2 en Hen Hle) as (l2 & -> & P2).
  exists l1, l2. do 2 (split; [done|]). rewrite P1, P2, !elem_of_elements. set_solver.
Qed.
End replicas.

(** ** Commands on which replicas part *)

Section divergence.
#[local] Existing Instances B0 L0 C0 CL0.

(** Go's map order on another replica. *)
Definition en_rev (now : Z) : Env := mkEnv now (λ _ s, reverse (elements s)).

Lemma en_rev_ok now : 0 <= now <= max_int64 → env_ok (en_rev now).
Proof. intros H. split; [done|]. intros i s. simpl. apply reverse_Permutation. Qed.

(** Two replicas that apply the same log a second apart may answer
    differently: SET NX fails on the one where the key is still alive. *)
Theorem ttl_diverges :
  let log (t : Z) := [(en0 second, enc_cmd (mkCommand "SET" "k" ["v"] 1000 "" false));
                      (en0 t, enc_cmd (mkCommand "SET" "k" ["w"] 0 "NX" false))] in
  (applyLog noLua (log second) ∅).1 = [inr (GString "OK"); inr GNil]
  ∧ (applyLog noLua (log (2 * second)) ∅).1 = [inr (GString "OK"); inr (GString "OK")].
Proof. vm_compute. done. Qed.

(** The state machine does not record the index of the last entry it
    applied, and its store outlives the process: entries that Raft replays
    when it restarts are applied once more, and a counter counts twice. *)
Theorem replay_counts_twice :
  let log := [(en0 0, enc_cmd (cmd "INCR" "n" [])); (en0 0, enc_cmd (cmd "RPUSH" "l" ["a"]))] in
  let d := (applyLog noLua log ∅).2 in
  GetString (en0 0) d "n" = inr (Some "1") ∧ LRange (en0 0) d "l" 0 (-1) = inr ["a"]
  ∧ GetString (en0 0) (applyLog noLua log d).2 "n" = inr (Some "2")
  ∧ LRange (en0 0) (applyLog noLua log d).2 "l" 0 (-1) = inr ["a"; "a"].
Proof. vm_compute. done. Qed.

(** INCR on the greatest 64-bit integer answers the least one. *)
Theorem incr_overflows :
  let d := (Apply noLua (en0 0) ∅ (enc_cmd (cmd "SET" "n" [FormatInt max_int64]))).2 in
  (Apply noLua (en0 0) d (enc_cmd (cmd "INCR" "n" []))).1 = inr (GInt64 min_int64).
Proof. vm_compute. done. Qed.

(** SET k v PX 500 may answer OK and leave no key, its expiry being
    rounded down to a second that has begun already. *)
Theorem set_px_lost :
  let r := Apply noLua (en0 second) ∅ (enc_cmd (mkCommand "SET" "k" ["v"] 500 "" false)) in
  r.1 = inr (GString "OK") ∧ GetString (en0 second) r.2 "k" = inr None.
Proof. vm_compute. done. Qed.

(** ** The theorems at concrete inputs *)

Definition log_at (en : Env) : list (Env * Command) :=
  [(en, cmd "SADD" "set" ["z"; "w"]); (en, cmd "SREM" "set" ["x"])].

Lemma accepted_set c : touched c = ["set"] → Op c ≠ "FLUSHDB" → accepted c.
Proof.
  intros Hc Hop. split; [|done]. intros k Hk. rewrite Hc in Hk.
  apply list_elem_of_singleton in Hk as ->. apply writable0. simpl. lia.
Qed.

Lemma log_at_ok (t0 : Z) en : t0 <= now en → env_ok en → log_ok t0 state0 (log_at en).
Proof.
  intros Ht Hen. cbn [log_ok log_at].
  repeat (apply conj; [first [done | lia | by apply accepted_set | by left]|]). done.
Qed.

Lemma replicas_agree_on_clock_witness :
  let run log := applyLog noLua (map (λ ec, (ec.1, enc_cmd ec.2)) log) in
  (run (log_at (en0 0)) db0).1 = (run (log_at (en_rev 0)) db0).1.
Proof.
  apply (replicas_agree_on_clock noLua 0 (log_at (en0 0)) (log_at (en_rev 0)) db0 db0 state0).
  - apply commits0.
  - done.
  - done.
  - apply Sim_store0.
  - apply Sim_store0.
  - by apply log_at_ok.
  - apply log_at_ok; [done|by apply en_rev_ok].
  - done.
  - done.
  - by repeat constructor.
Defined.

Lemma spop_diverges_witness : ∃ d1 d2 : @db B0, ∀ en, env_ok en → 0 <= now en → ∃ l1 l2,
  SMembers en d1 "set" = inr l1 ∧ SMembers en d2 "set" = inr l2
  ∧ ("x" ∉ l1) ∧ ("y" ∈ l1) ∧ ("x" ∈ l2) ∧ ("y" ∉ l2).
Proof.
  destruct (spop_diverges noLua 0 "x" "y" "set" set0 db0 state0)
    as (en1 & en2 & d1 & d2 & _ & _ & _ & _ & _ & _ & H).
  - apply commits0.
  - done.
  - apply writable0. simpl. lia.
  - done.
  - apply Sim_store0.
  - vm_compute. reflexivity.
  - set_solver.
  - set_solver.
  - done.
  - exists d1, d2. exact H.
Defined.

Lemma replicas_agree_without_ttl_witness :
  let run log := applyLog noLua (map (λ ec, (ec.1, enc_cmd ec.2)) log) in
  (run (log_at (en0 0)) db0).1 = (run (log_at (en_rev (5 * second))) db0).1.
Proof.
  apply (replicas_agree_without_ttl noLua 0 0 (log_at (en0 0)) (log_at (en_rev (5 * second)))
    db0 db0 state0).
  - apply commits0.
  - done.
  - done.
  - apply Sim_store0.
  - apply Sim_store0.
  - by apply log_at_ok.
  - apply log_at_ok; [done|by apply en_rev_ok].
  - done.
  - unfold state0. do 4 apply eternal_insert. apply eternal_empty.
  - by repeat constructor.
Defined.
End divergence.
