(* ===== verification/RaftStore.v ===== *)
(** * The Raft log and stable store (store/raft_store.go)

    The FSM is also Raft's [LogStore] and [StableStore], over the same
    database: an entry lives under L and its big-endian index, a stable value
    under S and its key.  The operations are proved against the abstract log,
    a map from indices to entries. *)

From S2P Require Import Prelude GoStd Badger Codec Keys Concrete.
From Stdlib Require Import Lia ZArith.

Inductive lerr :=
  | LDb (e : db_err)
  | LErrLogNotFound
  | LMsg (msg : string)
  | LPanic (msg : string).

Section raft_store.
Context `{B : BadgerOps} `{C : Codec}.

(** encodeLog and decodeLog call the codec on a [raft.Log]. *)
Definition encodeLog (log : RaftLog) : string + string := enc_log log.
Definition decodeLog (buf : string) : string + RaftLog := dec_log buf.

Definition key_index (k : string) : lerr + Z :=
  match k with
  | String _ k' => match Uint64 k' with
                   | Some idx => inr idx
                   | None => inl (LPanic "index out of range")
                   end
  | EmptyString => inl (LPanic "slice bounds out of range")
  end.

(** The index of the item an iterator stands on after a seek, 0 if it is not
    in the log's space. *)
Definition seek_index (ks : list string) : lerr + Z :=
  match ks with
  | k :: _ => if has_prefix (String prefixLog "") k then key_index k else inr 0
  | [] => inr 0
  end.

Definition FirstIndex (now : Z) (d : db) : lerr + Z :=
  db_View d (λ t, seek_index (iter_Seek now false (String prefixLog "") t)).

(** [prefixEnd[len(prefixEnd)-1]++] *)
Definition prefixEnd : string :=
  String (Ascii.ascii_of_N ((Ascii.N_of_ascii prefixLog + 1) mod 256)) "".

Definition LastIndex (now : Z) (d : db) : lerr + Z :=
  db_View d (λ t, seek_index (iter_Seek now true prefixEnd t)).

(** [item.Value] gives its callback the bytes [ValueCopy] would copy. *)
Definition GetLog (now : Z) (d : db) (index : Z) : lerr + RaftLog :=
  db_View d (λ t,
    match txn_Get now (logKey index) t with
    | inl ErrKeyNotFound => inl LErrLogNotFound
    | inl e => inl (LDb e)
    | inr item =>
        match item_ValueCopy item with
        | (_, Some e) => inl (LDb e)
        | (val, None) => match decodeLog (default "" val) with
                         | inl msg => inl (LMsg msg)
                         | inr log => inr log
                         end
        end
    end).

(** The first loop of StoreLogs: encode every entry, or give up. *)
Fixpoint encode_logs (logs : list RaftLog) : string + list (string * string) :=
  match logs with
  | [] => inr []
  | log :: logs' =>
      match encodeLog log with
      | inl msg => inl msg
      | inr val => match encode_logs logs' with
                   | inl msg => inl msg
                   | inr data => inr ((logKey (Index log), val) :: data)
                   end
      end
  end.

(** [txn.Set(key, val)] *)
Definition r_Set (k v : string) : M txn lerr unit := λ t,
  match txn_SetEntry k (Entry v 0) t with
  | inl e => (inl (LDb e), t)
  | inr t' => (inr tt, t')
  end.

Definition StoreLogs (logs : list RaftLog) (d : db) : (lerr + unit) * db :=
  match encode_logs logs with
  | inl msg => (inl (LMsg msg), d)
  | inr data => db_Update LDb d (foldM (λ _ kv, r_Set kv.1 kv.2) tt data)
  end.

Definition StoreLog (log : RaftLog) (d : db) : (lerr + unit) * db := StoreLogs [log] d.

(** [for i := min; i <= max; i++]: the counter is a [uint64].  [None] when
    the fuel ends before the loop does. *)
Fixpoint delete_loop (fuel : nat) (i max : Z) (t : txn) : option ((lerr + unit) * txn) :=
  match fuel with
  | O => None
  | S fuel =>
      if i <=? max then
        match txn_Delete (logKey i) t with
        | inl ErrKeyNotFound => delete_loop fuel (wrapu64 (i + 1)) max t
        | inl e => Some (inl (LDb e), t)
        | inr t' => delete_loop fuel (wrapu64 (i + 1)) max t'
        end
      else Some (inr tt, t)
  end.

Definition DeleteRange (fuel : nat) (min max : Z) (d : db) : option ((lerr + unit) * db) :=
  match delete_loop fuel min max (NewTransaction d) with
  | None => None
  | Some r => Some (db_Update LDb d (λ _, r))
  end.

(** ** The stable store *)

Definition Set_ (key val : string) (d : db) : (lerr + unit) * db :=
  db_Update LDb d (r_Set (stableKey key) val).

Definition Get_ (now : Z) (d : db) (key : string) : lerr + option string :=
  match db_View d (λ t,
    match txn_Get now (stableKey key) t with
    | inl e => inl e
    | inr item => match item_ValueCopy item with
                  | (_, Some e) => inl e
                  | (val, None) => inr val
                  end
    end)
  with
  | inl ErrKeyNotFound => inr None
  | inl e => inl (LDb e)
  | inr val => inr val
  end.

Definition SetUint64 (key : string) (val : Z) (d : db) : (lerr + unit) * db :=
  Set_ key (PutUint64 val) d.

Definition GetUint64 (now : Z) (d : db) (key : string) : lerr + Z :=
  match Get_ now d key with
  | inl e => inl e
  | inr val =>
      if (String.length (default "" val) =? 0)%nat then inr 0
      else match Uint64 (default "" val) with
           | Some v => inr v
           | None => inl (LPanic "index out of range")
           end
  end.
End raft_store.
