(* ===== verification/RaftStoreProps.v ===== *)
(** * Correctness of the Raft log and stable store *)

From S2P Require Import Prelude GoStd Badger Codec Keys Concrete FsmProps RaftStore.
From Stdlib Require Import Lia ZArith Ascii.

(** The indices Raft uses. *)
Definition is_uint64 (i : Z) : Prop := 0 <= i < 2 ^ 64.

#[export] Instance is_uint64_dec i : Decision (is_uint64 i).
Proof. unfold is_uint64. apply _. Defined.

(** Keys between the log's prefix and the end of its space. *)
Lemma log_space k :
  bytes_le (String prefixLog "") k → bytes_le k prefixEnd → k ≠ prefixEnd →
  has_prefix (String prefixLog "") k = true.
Proof.
  unfold bytes_le, has_prefix, prefixEnd. destruct k as [|c k]; [done|].
  change (Ascii.ascii_of_N _) with ("M"%char).
  cbn [bytes_leb String.prefix]. intros H1 H2 Hne.
  destruct (Ascii.ascii_dec prefixLog c) as [|Hc]; [by destruct k|]. exfalso.
  change (Ascii.N_of_ascii prefixLog) with 76%N in *. change (Ascii.N_of_ascii "M") with 77%N in *.
  assert (Ascii.N_of_ascii c ≠ 76%N).
  { intros H. apply Hc. apply N_of_ascii_inj. by rewrite H. }
  assert (Ascii.N_of_ascii c = 77%N) as Hm.
  { destruct (N.ltb_spec 76 (Ascii.N_of_ascii c)), (N.ltb_spec (Ascii.N_of_ascii c) 76),
      (N.ltb_spec (Ascii.N_of_ascii c) 77), (N.ltb_spec 77 (Ascii.N_of_ascii c)); try lia; done. }
  apply Hne. rewrite Hm in *. simpl in *. destruct k; [|done].
  f_equal. apply N_of_ascii_inj. by rewrite Hm.
Qed.

Lemma logKey_space i : has_prefix (String prefixLog "") (logKey i) = true ∧ bytes_le (logKey i) prefixEnd.
Proof. split; [unfold logKey; by destruct (PutUint64 i)|done]. Qed.

Section log_props.
Context `{B : BadgerOps} {L : BadgerLaws B} `{C : Codec} {CL : CodecLaws C}.
Implicit Types (v : gmap string entry) (lg : gmap Z RaftLog) (t : txn) (i : Z).

(** The entries of the log's space are the entries of the abstract log,
    serialized, and no key stands right behind that space. *)
Record LogRep v lg : Prop := {
  rep_index i l : lg !! i = Some l → is_uint64 i;
  rep_entry i : is_uint64 i →
    match lg !! i with
    | None => v !! logKey i = None
    | Some l => ∃ e, v !! logKey i = Some e ∧ e_exp e = 0 ∧ dec_log (e_val e) = inr l
    end;
  rep_space k : is_Some (v !! k) → has_prefix (String prefixLog "") k = true →
    ∃ i, is_uint64 i ∧ k = logKey i;
  rep_end : v !! prefixEnd = None;
}.

Lemma rep_vget now v lg i :
  LogRep v lg → is_uint64 i →
  match lg !! i with
  | None => vget now v (logKey i) = None
  | Some l => ∃ e, vget now v (logKey i) = Some e ∧ dec_log (e_val e) = inr l
  end.
Proof.
  intros HR Hi. pose proof (rep_entry _ _ HR i Hi) as H. unfold vget.
  destruct (lg !! i) as [l|]; [|by rewrite H].
  destruct H as ([data exp] & -> & Hexp & Hdec). simpl in Hexp. subst exp. eauto.
Qed.

Lemma GetLog_run now d lg i :
  dhealthy d → LogRep (dview d) lg → is_uint64 i →
  GetLog now d i = match lg !! i with Some l => inr l | None => inl LErrLogNotFound end.
Proof.
  intros Hd HR Hi. destruct (NewTransaction_law d Hd) as [Ht Hv]. rewrite <- Hv in HR.
  pose proof (rep_vget now _ _ i HR Hi) as H. unfold GetLog, db_View.
  rewrite Get_law by done.
  destruct (lg !! i) as [l|]; [|by rewrite H]. destruct H as (e & Hg & Hdec). rewrite Hg.
  destruct (ValueCopy_law now (logKey i) _ e Ht) as (o & -> & Ho).
  { by rewrite Get_law, Hg by done. }
  by rewrite Ho; unfold decodeLog; rewrite Hdec.
Qed.

(** ** FirstIndex and LastIndex *)

Lemma key_index_logKey i : is_uint64 i → key_index (logKey i) = inr i.
Proof. intros Hi. unfold key_index, logKey. by rewrite Uint64_PutUint64. Qed.

(** Where FirstIndex and LastIndex seek. *)
Definition seek_from (rev : bool) : string := if rev then prefixEnd else String prefixLog "".

Lemma seek_in now rev t lg j :
  healthy t → LogRep (view t) lg → is_Some (lg !! j) →
  logKey j ∈ iter_Seek now rev (seek_from rev) t.
Proof.
  intros Ht HR [l Hj]. apply (Seek_law now rev _ t Ht). split.
  - destruct (logKey_space j), rev; [done|by apply has_prefix_le].
  - pose proof (rep_vget now _ _ j HR (rep_index _ _ HR _ _ Hj)) as H.
    rewrite Hj in H. destruct H as (e & -> & _). eauto.
Qed.

Lemma seek_log now rev t lg x :
  healthy t → LogRep (view t) lg → x ∈ iter_Seek now rev (seek_from rev) t →
  has_prefix (String prefixLog "") x = true →
  ∃ i, is_uint64 i ∧ x = logKey i ∧ is_Some (lg !! i).
Proof.
  intros Ht HR Hx Hp. apply (Seek_law now rev _ t Ht) in Hx as [_ [e He]].
  apply vget_Some in He as [He _].
  destruct (rep_space _ _ HR x ltac:(by eexists) Hp) as (i & Hi & ->).
  exists i. split; [done|]. split; [done|]. pose proof (rep_entry _ _ HR i Hi).
  destruct (lg !! i); [eauto|congruence].
Qed.

(** An item before an entry of the log, in the order of the iterator, is in
    the log's space. *)
Lemma seek_space now (rev : bool) t lg x j :
  healthy t → LogRep (view t) lg → x ∈ iter_Seek now rev (seek_from rev) t →
  (if rev then bytes_le (logKey j) x else bytes_le x (logKey j)) →
  has_prefix (String prefixLog "") x = true.
Proof.
  intros Ht HR Hx Hle. apply (Seek_law now rev _ t Ht) in Hx as [Hb [e He]].
  destruct (logKey_space j) as [Hp _].
  destruct rev; unfold seek_from in Hb; [|by eapply has_prefix_convex].
  apply log_space; [etrans; [by apply has_prefix_le|done]|done|].
  intros ->. apply vget_Some in He as [He _]. by rewrite (rep_end _ _ HR) in He.
Qed.

(** The item a seek finds is that of the least (the greatest) index. *)
Lemma seek_spec now (rev : bool) t lg :
  healthy t → LogRep (view t) lg →
  ∃ i, seek_index (iter_Seek now rev (seek_from rev) t) = inr i ∧
    (lg = ∅ → i = 0) ∧
    (lg ≠ ∅ → is_Some (lg !! i) ∧
       ∀ j, is_Some (lg !! j) → if rev then j <= i else i <= j).
Proof.
  intros Ht HR. destruct (Seek_law now rev (seek_from rev) t Ht) as (_ & Hs & _).
  pose proof (λ j, seek_in now rev t lg j Ht HR) as Hin.
  pose proof (λ x, seek_log now rev t lg x Ht HR) as Hlog.
  pose proof (λ x j, seek_space now rev t lg x j Ht HR) as Hsp.
  destruct (iter_Seek now rev (seek_from rev) t) as [|x xs].
  { exists 0. split; [done|]. split; [done|]. intros Hne. exfalso.
    apply map_choose in Hne as (j & l & Hj). by eapply elem_of_nil, (Hin j). }
  cbn [seek_index]. apply StronglySorted_inv in Hs as [_ Hs].
  assert (Hx : ∀ j, is_Some (lg !! j) → if rev then bytes_le (logKey j) x else bytes_le x (logKey j)).
  { intros j Hj. specialize (Hin j Hj). apply elem_of_cons in Hin as [<-|Hj'].
    - by destruct rev.
    - by eapply Forall_forall in Hs. }
  destruct (has_prefix (String prefixLog "") x) eqn:Hp.
  - destruct (Hlog x ltac:(by left) Hp) as (i & Hi & -> & Hsome).
    exists i. rewrite key_index_logKey by done. split; [done|].
    split; [intros ->; by destruct Hsome|]. intros _. split; [done|]. intros j Hj.
    pose proof (Hx j Hj) as Hle. destruct Hj as [l Hj]. pose proof (rep_index _ _ HR _ _ Hj).
    by destruct rev; apply logKey_le in Hle.
  - exists 0. split; [done|]. split; [done|]. intros Hne. exfalso.
    apply map_choose in Hne as (j & l & Hj).
    rewrite (Hsp x j) in Hp; [done|by left|]. apply Hx. by eexists.
Qed.

Lemma indices_run now d lg :
  dhealthy d → LogRep (dview d) lg →
  ∃ first last, FirstIndex now d = inr first ∧ LastIndex now d = inr last ∧
    (lg = ∅ → first = 0 ∧ last = 0) ∧
    (lg ≠ ∅ → is_Some (lg !! first) ∧ is_Some (lg !! last) ∧
       ∀ j, is_Some (lg !! j) → first <= j <= last).
Proof.
  intros Hd HR. destruct (NewTransaction_law d Hd) as [Ht Hv]. rewrite <- Hv in HR.
  destruct (seek_spec now false _ lg Ht HR) as (i & Hi & Hi0 & Hi1).
  destruct (seek_spec now true _ lg Ht HR) as (j & Hj & Hj0 & Hj1).
  exists i, j. split; [done|]. split; [done|]. split; [auto|].
  intros Hne. destruct (Hi1 Hne) as [? Hi2], (Hj1 Hne) as [? Hj2]. split_and!; auto.
Qed.

(** C15: What Raft reads of its log is the abstract log: GetLog answers the entry
    stored at an index, or that there is none, FirstIndex and LastIndex the
    least and the greatest index, and 0 when the log is empty. *)
Theorem log_reads now d lg :
  dhealthy d → LogRep (dview d) lg →
  (∀ i, is_uint64 i →
     GetLog now d i = match lg !! i with Some l => inr l | None => inl LErrLogNotFound end)
  ∧ ∃ first last, FirstIndex now d = inr first ∧ LastIndex now d = inr last ∧
    (lg = ∅ → first = 0 ∧ last = 0) ∧
    (lg ≠ ∅ → is_Some (lg !! first) ∧ is_Some (lg !! last) ∧
       ∀ j, is_Some (lg !! j) → first <= j <= last).
Proof. intros Hd HR. split; [intros i; by apply GetLog_run|by apply indices_run]. Qed.

(** ** Writes *)

Lemma LogRep_insert v lg l b :
  LogRep v lg → is_uint64 (Index l) → enc_log l = inr b →
  LogRep (<[logKey (Index l) := Entry b 0]> v) (<[Index l := l]> lg).
Proof.
  intros HR Hl Henc. split.
  - intros i l'. rewrite lookup_insert. case_decide; [by intros; subst|apply (rep_index _ _ HR)].
  - intros i Hi. rewrite !lookup_insert. case_decide as Hd.
    + subst i. rewrite decide_True by done. eexists. split; [done|].
      split; [done|]. by apply dec_enc_log.
    + rewrite decide_False by (intros ?%logKey_inj; done). by apply (rep_entry _ _ HR).
  - intros k. rewrite lookup_insert. case_decide; [eauto|apply (rep_space _ _ HR)].
  - rewrite lookup_insert_ne by done. apply (rep_end _ _ HR).
Qed.

Lemma LogRep_delete v lg i :
  LogRep v lg → is_uint64 i → LogRep (delete (logKey i) v) (delete i lg).
Proof.
  intros HR Hi. split.
  - intros j l [_ H]%lookup_delete_Some. by eapply (rep_index _ _ HR).
  - intros j Hj. rewrite !lookup_delete. case_decide as Hd.
    + subst j. by rewrite decide_True.
    + rewrite decide_False by (intros ?%logKey_inj; done). by apply (rep_entry _ _ HR).
  - intros k [e [_ H]%lookup_delete_Some]. apply (rep_space _ _ HR). by eexists.
  - rewrite lookup_delete_ne by done. apply (rep_end _ _ HR).
Qed.

(** The log depends on its own space only. *)
Lemma LogRep_frame v v' lg :
  (∀ k, has_prefix (String prefixLog "") k = true ∨ k = prefixEnd → v' !! k = v !! k) →
  LogRep v lg → LogRep v' lg.
Proof.
  intros Hf HR. split.
  - apply (rep_index _ _ HR).
  - intros i Hi. rewrite Hf by (left; apply logKey_space). by apply (rep_entry _ _ HR).
  - intros k Hk Hp. rewrite Hf in Hk by auto. by apply (rep_space _ _ HR).
  - rewrite Hf by auto. apply (rep_end _ _ HR).
Qed.

(** The store takes writes in the log's space. *)
Definition log_writable : Prop := ∀ i e t, healthy t → ∃ t', txn_SetEntry (logKey i) e t = inr t'.

Definition store_all lg (logs : list RaftLog) : gmap Z RaftLog :=
  foldl (λ lg l, <[Index l := l]> lg) lg logs.

(** The second loop of StoreLogs, whether or not the store takes it all. *)
Lemma set_logs_run logs data t lg r t' :
  encode_logs logs = inr data → Forall (is_uint64 ∘ Index) logs →
  healthy t → LogRep (view t) lg →
  foldM (λ _ kv, r_Set kv.1 kv.2) tt data t = (r, t') →
  match r with
  | inr _ => healthy t' ∧ LogRep (view t') (store_all lg logs)
      ∧ ∀ k, has_prefix (String prefixLog "") k = false → view t' !! k = view t !! k
  | inl _ => ¬ log_writable
  end.
Proof.
  intros Henc Hl. revert data t lg Henc. induction Hl as [|l logs Hl _ IH]; intros data t lg Henc Ht HR.
  { simpl in Henc. injection Henc as <-. by intros [= <- <-]. }
  simpl in Henc. unfold encodeLog in Henc. destruct (enc_log l) as [|b] eqn:Hb; [done|].
  destruct (encode_logs logs) as [|data'] eqn:Hd; [done|]. injection Henc as <-.
  cbn [foldM]. unfold bind at 1. unfold r_Set at 1. cbn [fst snd].
  destruct (txn_SetEntry _ _ t) as [e|t1] eqn:H1.
  { intros [= <- <-] Hw. destruct (Hw (Index l) (Entry b 0) t Ht) as [t2 H2]. congruence. }
  destruct (SetEntry_law _ _ _ _ Ht H1) as [Ht1 Hv1]. intros Hrun.
  assert (HR1 : LogRep (view t1) (<[Index l := l]> lg)) by (rewrite Hv1; by apply LogRep_insert).
  specialize (IH data' t1 _ eq_refl Ht1 HR1 Hrun). destruct r; [done|].
  destruct IH as (? & ? & Hk). split; [done|]. split; [done|].
  intros k Hp. rewrite Hk, Hv1 by done. apply lookup_insert_ne.
  intros <-. by rewrite (proj1 (logKey_space _)) in Hp.
Qed.

(** C14: StoreLogs is all or nothing: on success the log has every entry at
    its index, later ones replacing earlier ones, and no other key of the
    database changes; on an error the database is as before.  It succeeds
    when the entries encode and the store takes them. *)
Theorem StoreLogs_refines logs d lg :
  dhealthy d → LogRep (dview d) lg → Forall (is_uint64 ∘ Index) logs →
  match StoreLogs logs d with
  | (inr _, d') => dhealthy d' ∧ LogRep (dview d') (store_all lg logs)
      ∧ ∀ k, has_prefix (String prefixLog "") k = false → dview d' !! k = dview d !! k
  | (inl _, d') => d' = d
      ∧ ¬ (log_writable ∧ commits ∧ Forall (λ l, ∃ b, enc_log l = inr b) logs)
  end.
Proof.
  intros Hd HR Hl. unfold StoreLogs. destruct (NewTransaction_law d Hd) as [Ht Hv].
  destruct (encode_logs logs) as [msg|data] eqn:Henc.
  { split; [done|]. intros (_ & _ & Hall). clear -Henc Hall.
    induction Hall as [|l logs [b Hb] Hall IH]; simpl in *; [done|].
    unfold encodeLog in Henc. rewrite Hb in Henc. destruct (encode_logs logs); [auto|done]. }
  unfold db_Update. rewrite <- Hv in HR |- *.
  destruct (foldM _ tt data (NewTransaction d)) as [r t'] eqn:Hrun.
  pose proof (set_logs_run logs data _ lg r t' Henc Hl Ht HR Hrun) as H.
  destruct r as [e|[]]; [split; [done|]; by intros (Hw & _)|].
  destruct H as (Ht' & HR' & Hk). destruct (Commit t') as [e|d'] eqn:Hc.
  - split; [done|]. intros (_ & Hcom & _). destruct (Hcom t' Ht') as [d' Hd']. congruence.
  - destruct (Commit_law _ _ Ht' Hc) as [? ->]. done.
Qed.

(** ** DeleteRange *)

(** The store takes all deletions of log entries; one that answers that a key is
    not there says so of keys that are not there only. *)
Definition log_deletable : Prop := ∀ i t, healthy t → ∃ t', txn_Delete (logKey i) t = inr t'.
Definition misses_reported : Prop := ∀ i t, healthy t →
  txn_Delete (logKey i) t = inl ErrKeyNotFound → view t !! logKey i = None.

(** The log without the indices of a range. *)
Definition drop_range (lo hi : Z) lg : gmap Z RaftLog := filter (λ il, ¬ lo <= il.1 <= hi) lg.

Lemma drop_range_step i hi lg :
  i <= hi → drop_range i hi lg = drop_range (i + 1) hi (delete i lg).
Proof.
  intros Hle. apply map_eq. intros j. unfold drop_range. rewrite !map_lookup_filter, lookup_delete.
  case_decide as Hj; [subst j|].
  - destruct (lg !! i); simpl; [|done]. case_guard; [simpl in *; lia|done].
  - destruct (lg !! j); simpl; [|done]. repeat case_guard; simpl in *; done || lia.
Qed.

(** One deletion: an error, or the entry is gone and nothing else. *)
Lemma delete_one i t lg :
  misses_reported → is_uint64 i → healthy t → LogRep (view t) lg →
  (∃ msg, txn_Delete (logKey i) t = inl (ErrBadger msg))
  ∨ ∃ t1, (txn_Delete (logKey i) t = inr t1 ∨ txn_Delete (logKey i) t = inl ErrKeyNotFound ∧ t1 = t)
      ∧ healthy t1 ∧ LogRep (view t1) (delete i lg)
      ∧ ∀ k, has_prefix (String prefixLog "") k = false → view t1 !! k = view t !! k.
Proof.
  intros Hmiss Hi Ht HR. destruct (txn_Delete (logKey i) t) as [[|msg]|t1] eqn:Hd; [right|left; by exists msg|right].
  - exists t. split; [by right|]. split; [done|]. split; [|done].
    rewrite <- (delete_id (view t) (logKey i)) by (by apply Hmiss). by apply LogRep_delete.
  - destruct (Delete_law _ _ _ Ht Hd) as [Ht1 Hv1]. exists t1. split; [by left|]. split; [done|].
    rewrite Hv1. split; [by apply LogRep_delete|]. intros k Hp. apply lookup_delete_ne.
    intros <-. by rewrite (proj1 (logKey_space _)) in Hp.
Qed.

Lemma delete_loop_run fuel i hi t lg :
  misses_reported → 0 <= i → hi < 2 ^ 64 - 1 → Z.max 0 (hi + 1 - i) < Z.of_nat fuel →
  healthy t → LogRep (view t) lg →
  ∃ r t', delete_loop fuel i hi t = Some (r, t') ∧ (log_deletable → r = inr tt) ∧
    (r = inr tt → healthy t' ∧ LogRep (view t') (drop_range i hi lg)
       ∧ ∀ k, has_prefix (String prefixLog "") k = false → view t' !! k = view t !! k).
Proof.
  intros Hmiss. revert i t lg. induction fuel as [|fuel IH]; intros i t lg Hi Hhi Hf Ht HR; [lia|].
  cbn [delete_loop]. destruct (Z.leb_spec i hi) as [Hle|].
  2: { exists (inr tt), t. split; [done|]. split; [done|]. intros _. split; [done|]. split; [|done].
    unfold drop_range. rewrite map_filter_id; [done|]. intros j l Hj. simpl. lia. }
  destruct (delete_one i t lg) as [[msg Hd]|(t1 & Hd & Ht1 & HR1 & Hk1)];
    [done|unfold is_uint64; lia|done..| |].
  { rewrite Hd. exists (inl (LDb (ErrBadger msg))), t. split; [done|]. split; [|done].
    intros Hdel. destruct (Hdel i t Ht) as [t1 H1]. congruence. }
  rewrite (wrapu64_id (i + 1)) by lia.
  destruct (IH (i + 1) t1 (delete i lg)) as (r & t' & Hr & Hok & Hres); [lia..|done|done|].
  exists r, t'. split; [by destruct Hd as [->|[-> <-]]|]. split; [done|]. intros He.
  destruct (Hres He) as (Ht' & HR' & Hk). rewrite (drop_range_step i hi) by done.
  split; [done|]. split; [done|]. intros k Hp. by rewrite Hk, Hk1.
Qed.

(** C16: DeleteRange up to any index but the greatest [uint64] ends: one
    iteration per index of the range, and one to leave the loop, are enough.
    Either it removes from the log exactly the entries of the (inclusive)
    range, and no other key of the database changes; or the store refuses a
    deletion or the commit (a transaction may be too big), and the database is
    as it was.  It succeeds when the store takes the deletions and commits. *)
Theorem DeleteRange_refines lo hi d lg :
  misses_reported → dhealthy d → LogRep (dview d) lg → 0 <= lo → hi < 2 ^ 64 - 1 →
  ∃ r d', DeleteRange (S (Z.to_nat (hi + 1 - lo))) lo hi d = Some (r, d') ∧ dhealthy d'
    ∧ match r with
      | inr _ => LogRep (dview d') (drop_range lo hi lg)
          ∧ ∀ k, has_prefix (String prefixLog "") k = false → dview d' !! k = dview d !! k
      | inl _ => d' = d
      end
    ∧ (log_deletable → commits → r = inr tt).
Proof.
  intros Hmiss Hd HR Hlo Hhi. destruct (NewTransaction_law d Hd) as [Ht Hv].
  rewrite <- Hv in HR |- *.
  destruct (delete_loop_run (S (Z.to_nat (hi + 1 - lo))) lo hi _ lg Hmiss Hlo Hhi ltac:(lia) Ht HR)
    as (r & t' & Hr & Hok & Hres).
  unfold DeleteRange. rewrite Hr. unfold db_Update. destruct r as [e|[]].
  { exists (inl e), d. split; [done|]. split; [done|]. split; [done|]. intros Hdel _. by apply Hok. }
  destruct (Hres eq_refl) as (Ht' & HR' & Hk). destruct (Commit t') as [e|d'] eqn:Hc.
  { exists (inl (LDb e)), d. split; [done|]. split; [done|]. split; [done|].
    intros _ Hcom. destruct (Hcom t' Ht') as [d' Hc']. congruence. }
  exists (inr tt), d'. destruct (Commit_law _ _ Ht' Hc) as [? ->]. done.
Qed.

(** The loop never leaves by its condition when the bound is the greatest
    [uint64]. *)
Lemma delete_loop_wraps fuel i t t' :
  is_uint64 i → delete_loop fuel i (2 ^ 64 - 1) t ≠ Some (inr tt, t').
Proof.
  revert i t. induction fuel as [|fuel IH]; intros i t Hi; [done|]. cbn [delete_loop].
  destruct (Z.leb_spec i (2 ^ 64 - 1)); [|unfold is_uint64 in Hi; lia].
  assert (is_uint64 (wrapu64 (i + 1))) by (by apply Z.mod_pos_bound).
  destruct (txn_Delete (logKey i) t) as [[]|t1]; [by apply IH|done|by apply IH].
Qed.

(** DeleteRange up to the greatest [uint64] never succeeds, however long
    it runs: the counter wraps around to 0 and stays within the bound. *)
Theorem DeleteRange_max_never_succeeds fuel lo d d' :
  is_uint64 lo → DeleteRange fuel lo (2 ^ 64 - 1) d ≠ Some (inr tt, d').
Proof.
  intros Hlo. unfold DeleteRange.
  destruct (delete_loop fuel lo (2 ^ 64 - 1) (NewTransaction d)) as [[r t']|] eqn:Hr; [|done].
  unfold db_Update. destruct r as [|[]]; [done|]. by apply delete_loop_wraps in Hr.
Qed.

(** ** The stable store *)

Lemma Get_reads now d key :
  dhealthy d →
  ∃ o, Get_ now d key = inr o
    ∧ default "" o = from_option e_val "" (vget now (dview d) (stableKey key)).
Proof.
  intros Hd. destruct (NewTransaction_law d Hd) as [Ht Hv]. unfold Get_, db_View.
  pose proof (Get_law now (stableKey key) _ ltac:(done) Ht) as Hg. rewrite Hg, Hv in *.
  destruct (vget now (dview d) (stableKey key)) as [e|] eqn:He; [|by exists None].
  destruct (ValueCopy_law now (stableKey key) _ e Ht Hg) as (o & -> & Ho). eauto.
Qed.

Lemma set_view key val d d' :
  dhealthy d → Set_ key val d = (inr tt, d') →
  dhealthy d' ∧ dview d' = <[stableKey key := Entry val 0]> (dview d).
Proof.
  intros Hd. destruct (NewTransaction_law d Hd) as [Ht Hv].
  unfold Set_, db_Update, r_Set.
  destruct (txn_SetEntry _ _ (NewTransaction d)) as [|t'] eqn:Hs; [done|].
  destruct (SetEntry_law _ _ _ _ Ht Hs) as [Ht' Hv'].
  destruct (Commit t') as [|d1] eqn:Hc; [done|]. intros [= <-].
  destruct (Commit_law _ _ Ht' Hc) as [Hd' Hdv]. by rewrite Hdv, Hv', Hv.
Qed.

Lemma GetUint64_run now d key :
  dhealthy d →
  GetUint64 now d key =
  let s := from_option e_val "" (vget now (dview d) (stableKey key)) in
  if (String.length s =? 0)%nat then inr 0
  else match Uint64 s with Some v => inr v | None => inl (LPanic "index out of range") end.
Proof. intros Hd. unfold GetUint64. by destruct (Get_reads now d key Hd) as (o & -> & ->). Qed.

Lemma uint64_roundtrip now key val d d' :
  dhealthy d → is_uint64 val → SetUint64 key val d = (inr tt, d') → GetUint64 now d' key = inr val.
Proof.
  intros Hd Hval Hset. destruct (set_view key _ d d' Hd Hset) as [Hd' Hdv].
  rewrite GetUint64_run by done.
  assert (from_option e_val "" (vget now (dview d') (stableKey key)) = PutUint64 val) as ->
    by (unfold vget; by rewrite Hdv, lookup_insert_eq).
  cbv zeta. by rewrite Uint64_PutUint64.
Qed.

(** C29: The stable store is a map: Set makes Get return the value and leaves
    every other key, of the stable store or not, alone; SetUint64 makes
    GetUint64 return any [uint64]; a key never set reads as empty, and as 0. *)
Theorem stable_roundtrip now key val d d' :
  dhealthy d → Set_ key val d = (inr tt, d') →
  dhealthy d'
  ∧ (∃ o, Get_ now d' key = inr o ∧ default "" o = val)
  ∧ (∀ k, k ≠ stableKey key → dview d' !! k = dview d !! k)
  ∧ (∀ n d2, is_uint64 n → SetUint64 key n d = (inr tt, d2) → GetUint64 now d2 key = inr n)
  ∧ (∀ k, dview d !! stableKey k = None →
       (∃ o, Get_ now d k = inr o ∧ default "" o = "") ∧ GetUint64 now d k = inr 0).
Proof.
  intros Hd Hset. destruct (set_view key val d d' Hd Hset) as [Hd' Hdv].
  split; [done|]. split_and!.
  - destruct (Get_reads now d' key Hd') as (o & Ho & Hval). exists o. split; [done|].
    rewrite Hval, Hdv. unfold vget. by rewrite lookup_insert_eq.
  - intros k Hk. rewrite Hdv. by apply lookup_insert_ne.
  - intros n d2 Hn. by apply uint64_roundtrip.
  - intros k Hk. destruct (Get_reads now d k Hd) as (o & Ho & Hval).
    rewrite GetUint64_run by done. unfold vget in *. rewrite Hk in *. eauto.
Qed.
End log_props.

(** ** The theorems at concrete inputs *)

Section witnesses.
#[local] Existing Instances B0 L0 C0 CL0.

Definition entry_at (i : Z) (data : string) : RaftLog := mkRaftLog i 1 0 data "" 0.

Definition logs0 : list RaftLog := [entry_at 7 "a"; entry_at 8 "b"; entry_at 300 "c"].

Definition raft0 : @db B0 := (StoreLogs logs0 (∅ : @db B0)).2.
Definition lg0 : gmap Z RaftLog := store_all ∅ logs0.

Lemma LogRep_empty : LogRep ∅ ∅.
Proof. split; [done|done| |done]. intros k [? H]. done. Qed.

Lemma uint64_logs0 : Forall (is_uint64 ∘ Index) logs0.
Proof. by repeat constructor. Qed.

Lemma LogRep_raft0 : LogRep (dview raft0) lg0.
Proof.
  unfold lg0, store_all, logs0. cbn [foldl].
  repeat (apply LogRep_insert; [|done|done]). apply LogRep_empty.
Qed.

Lemma log_reads_witness :
  GetLog 0 raft0 8 = inr (entry_at 8 "b")
  ∧ ∃ first last, FirstIndex 0 raft0 = inr first ∧ LastIndex 0 raft0 = inr last ∧ first <= 7 ∧ 300 <= last.
Proof.
  assert (is_uint64 8 ∧ lg0 ≠ ∅) as [H8 Hne] by done.
  assert (is_Some (lg0 !! 7) ∧ is_Some (lg0 !! 300)) as [H7 H300] by (split; by eexists).
  destruct (log_reads 0 raft0 lg0 (dhealthy0 _) LogRep_raft0) as (H0 & i & j & H1 & H2 & _ & H3).
  split; [exact (H0 8 H8)|].
  exists i, j. split; [exact H1|]. split; [exact H2|].
  destruct (H3 Hne) as (_ & _ & H4). split; [exact (proj1 (H4 7 H7))|exact (proj2 (H4 300 H300))].
Defined.

Lemma StoreLogs_refines_witness : LogRep (dview raft0) lg0.
Proof.
  exact (proj1 (proj2 (StoreLogs_refines logs0 (∅ : @db B0) ∅ (dhealthy0 _) LogRep_empty uint64_logs0))).
Defined.

Lemma DeleteRange_refines_witness : ∃ d',
  DeleteRange 4 7 9 raft0 = Some (inr tt, d') ∧ LogRep (dview d') {[300 := entry_at 300 "c"]}.
Proof.
  destruct (DeleteRange_refines 7 9 raft0 lg0) as (r & d' & H1 & _ & H2 & H3).
  - intros i t _ H. discriminate H.
  - apply dhealthy0.
  - apply LogRep_raft0.
  - done.
  - done.
  - assert (r = inr tt) as -> by (apply H3; [intros i t _; by eexists|apply commits0]).
    exists d'. split; [exact H1|]. exact (proj1 H2).
Defined.

Lemma DeleteRange_max_never_succeeds_witness : DeleteRange 100 5 (2 ^ 64 - 1) raft0 ≠ Some (inr tt, raft0).
Proof. by apply (DeleteRange_max_never_succeeds 100 5 raft0 raft0). Defined.

Lemma stable_roundtrip_witness : ∃ o,
  Get_ 0 (Set_ "LastVoteCand" "node1" raft0).2 "LastVoteCand" = inr o ∧ default "" o = "node1".
Proof.
  destruct (stable_roundtrip 0 "LastVoteCand" "node1" raft0 _ (dhealthy0 _) eq_refl) as (_ & H & _).
  exact H.
Defined.
End witnesses.
