(* ===== verification/Snapshot.v ===== *)
(** * Snapshots of the state machine (store/fsm.go)

    Raft asks the state machine for a snapshot (Snapshot), has it written while
    commands go on being applied (Persist), and hands it to a node that is to
    catch up (Restore).  The state machine and its snapshot hold the same
    pointer to the database: Persist backs up what the pointer leads to when it
    runs.  Backup and Load are BadgerDB's, the sink and the reader Raft's:
    parameters, with what their documentation promises as laws. *)

From S2P Require Import Prelude GoStd Badger Codec Keys Fsm FsmColl FsmApply FsmRead FsmSpec FsmSim.
From S2P Require Import Concrete FsmProps RaftStore.
From Stdlib Require Import Lia ZArith.

(** ** Stores that agree on what commands can observe

    From an instant on, about the keys of the user's data. *)
Section observation.
Implicit Types (v : gmap string entry).

Definition obs_eq (tm0 : Z) v v' : Prop :=
  ∀ tm k, tm0 <= tm → data_key k = true → vget tm v k = vget tm v' k.

#[export] Instance obs_eq_equivalence tm0 : Equivalence (obs_eq tm0).
Proof.
  split.
  - by intros v tm k _ _.
  - intros v v' H tm k Ht Hk. by rewrite H.
  - intros v v' v'' H H' tm k Ht Hk. by rewrite H, H'.
Qed.

Lemma obs_eq_later tm0 tm1 v v' : tm0 <= tm1 → obs_eq tm0 v v' → obs_eq tm1 v v'.
Proof. intros Hle H tm k Ht Hk. apply H; [lia|done]. Qed.

(** The same entries under the keys of the user's data. *)
Lemma obs_eq_data tm0 v v' : (∀ k, data_key k = true → v !! k = v' !! k) → obs_eq tm0 v v'.
Proof. intros H tm k _ Hk. unfold vget. by rewrite H. Qed.

Context `{C : Codec}.

Lemma type_of_obs tm0 tm v v' k : tm0 <= tm → obs_eq tm0 v v' → type_of tm v' k = type_of tm v k.
Proof. intros Ht H. unfold type_of. by rewrite H. Qed.

(** What a store represents depends on what can be observed of it. *)
#[export] Instance Sim_proper tm0 : Proper (obs_eq tm0 ==> (=) ==> iff) (Sim tm0).
Proof.
  assert (∀ v v' m, obs_eq tm0 v v' → Sim tm0 v m → Sim tm0 v' m) as H.
  { intros v v' m Ho [HR HS]. split.
    - intros k. rewrite <- (Ho tm0 (userKey k)) by done.
      rewrite (type_of_obs tm0 tm0 v) by done. apply HR.
    - intros k e tm He Hle Hl. rewrite (type_of_obs tm0 tm v v'), (type_of_obs tm0 tm0 v v') by done.
      assert (vget tm v (userKey k) = Some e) as Hg by (rewrite Ho by done; by apply vget_Some).
      apply vget_Some in Hg as [Hg _]. by apply (HS k e). }
  intros v v' Ho m ? <-. split; [by apply H|apply H; by symmetry].
Qed.
End observation.

(** ** Backup and Load *)

(** A backup: an entry, or the mark of a removed one, for each key it
    mentions. *)
Abbreviation backup := (gmap string (option entry)).

Definition bget (tm : Z) (b : backup) (k : string) : option entry :=
  match b !! k with
  | Some (Some e) => if live tm e then Some e else None
  | _ => None
  end.

(** Instants are passed to the calls that compare an expiry with the clock.  An
    error is its text. *)
Class BackupOps `{B : BadgerOps} := {
  (** [raft.SnapshotSink] and [io.ReadCloser] *)
  sink : Type;
  reader : Type;
  (** [db.Backup(sink, since)] *)
  db_Backup : Z → db → sink → Z → option string * sink;
  (** [db.Load(r, maxPendingWrites)] *)
  db_Load : Z → db → reader → Z → option string * db * reader;
  sink_Cancel : sink → sink;
  sink_Close : sink → option string * sink;
  reader_Close : reader → reader;
}.

(** [written s] is the backup that has been written to a sink, [holds r] the
    one that a reader gives; [complete s] that the snapshot has ended
    successfully; [unwritten d k] that the key was never written in the
    database.  Nothing is promised of the keys that both the backup and the
    database have. *)
Class BackupLaws `{B : BadgerOps} {L : BadgerLaws B} (K : BackupOps) := {
  written : sink → option backup;
  holds : reader → option backup;
  complete : sink → Prop;
  unwritten : db → string → Prop;
  unwritten_law d k : dhealthy d → unwritten d k → dview d !! k = None;
  Backup_law tm0 d s s' :
    dhealthy d → db_Backup tm0 d s 0 = (None, s') →
    ∃ b, written s' = Some b ∧ ∀ tm k, tm0 <= tm → bget tm b k = vget tm (dview d) k;
  Close_law s s' : sink_Close s = (None, s') → complete s' ∧ written s' = written s;
  Cancel_law s : ¬ complete (sink_Cancel s);
  Load_law tm0 d r n b d' r' :
    dhealthy d → holds r = Some b → db_Load tm0 d r n = (None, d', r') →
    dhealthy d'
    ∧ (∀ tm k, tm0 <= tm → unwritten d k → vget tm (dview d') k = bget tm b k)
    ∧ (∀ k, b !! k = None → dview d' !! k = dview d !! k);
}.

(** ** The methods *)

Section snapshots.
Context `{B : BadgerOps} {K : BackupOps}.

(** Databases live behind pointers. *)
Definition heap : Type := nat → db.
Record FSM := mkFSM { fsm_db : nat }.
Record fsmSnapshot := mkSnapshot { snap_db : nat }.

Definition Snapshot (f : FSM) : fsmSnapshot := mkSnapshot (fsm_db f).

Definition Persist (tm : Z) (h : heap) (s : fsmSnapshot) (sk : sink) : option string * sink :=
  match db_Backup tm (h (snap_db s)) sk 0 with
  | (Some err, sk') => (Some err, sink_Cancel sk')
  | (None, sk') => sink_Close sk'
  end.

Definition Release (s : fsmSnapshot) : unit := tt.

(** The reader is closed whatever Load says. *)
Definition Restore (tm : Z) (h : heap) (f : FSM) (rc : reader) : option string * heap * reader :=
  let '(err, d, rc') := db_Load tm (h (fsm_db f)) rc 10 in
  (err, λ p, if decide (p = fsm_db f) then d else h p, reader_Close rc').
End snapshots.

(** ** Their properties *)

Section snapshot_props.
Context `{B : BadgerOps} {L : BadgerLaws B} `{C : Codec} {CL : CodecLaws C}
  {K : BackupOps} {KL : BackupLaws K}.
Implicit Types (m : rstate) (h : heap) (d : db).

(** No key of the user's data was ever written. *)
Definition data_unwritten d : Prop := ∀ k, data_key k = true → unwritten d k.

Lemma Persist_writes tm0 h f sk sk' :
  dhealthy (h (fsm_db f)) → Persist tm0 h (Snapshot f) sk = (None, sk') →
  complete sk' ∧ ∃ b, written sk' = Some b
    ∧ ∀ tm k, tm0 <= tm → bget tm b k = vget tm (dview (h (fsm_db f))) k.
Proof.
  intros Hd. unfold Persist, Snapshot. simpl.
  destruct (db_Backup tm0 (h (fsm_db f)) sk 0) as [[err|] sk1] eqn:Hb; [done|].
  intros Hc. destruct (Close_law _ _ Hc) as [Hcom ->]. split; [done|].
  by eapply Backup_law.
Qed.

Lemma Restore_loads tm0 h f rc rc' b h' :
  dhealthy (h (fsm_db f)) → holds rc = Some b → Restore tm0 h f rc = (None, h', rc') →
  dhealthy (h' (fsm_db f))
  ∧ (∀ tm k, tm0 <= tm → unwritten (h (fsm_db f)) k → vget tm (dview (h' (fsm_db f))) k = bget tm b k)
  ∧ (∀ k, b !! k = None → dview (h' (fsm_db f)) !! k = dview (h (fsm_db f)) !! k)
  ∧ (∀ p, p ≠ fsm_db f → h' p = h p).
Proof.
  intros Hd Hh. unfold Restore.
  destruct (db_Load tm0 (h (fsm_db f)) rc 10) as [[err d] rc1] eqn:Hl. intros [= -> <- _].
  destruct (Load_law _ _ _ _ _ _ _ Hd Hh Hl) as (? & ? & ?).
  rewrite decide_True by done. split_and!; [done..|].
  intros p Hp. by rewrite decide_False.
Qed.

(** What a node that never held data gets from a snapshot of another. *)
Lemma Restore_obs tm1 tm2 h f sk sk' h2 f2 rc rc' h2' :
  dhealthy (h (fsm_db f)) → Persist tm1 h (Snapshot f) sk = (None, sk') →
  holds rc = written sk' → tm1 <= tm2 →
  dhealthy (h2 (fsm_db f2)) → data_unwritten (h2 (fsm_db f2)) →
  Restore tm2 h2 f2 rc = (None, h2', rc') →
  dhealthy (h2' (fsm_db f2)) ∧ obs_eq tm2 (dview (h (fsm_db f))) (dview (h2' (fsm_db f2))).
Proof.
  intros Hd Hp Hr Hle Hd2 Hu Hres.
  destruct (Persist_writes _ _ _ _ _ Hd Hp) as (_ & b & Hb & Hbv). rewrite Hb in Hr.
  destruct (Restore_loads _ _ _ _ _ _ _ Hd2 Hr Hres) as (Hd' & Hv & _). split; [done|].
  intros tm k Ht Hk. rewrite Hv, Hbv by (auto || lia). done.
Qed.

(** C17: A snapshot that Persist reports as written is complete, and a node that
    has never held data and restores it later represents the abstract state
    the source represented, less the keys that have expired meanwhile. *)
Theorem snapshot_roundtrip tm1 tm2 h f sk sk' h2 f2 rc rc' h2' m :
  dhealthy (h (fsm_db f)) → Sim tm1 (dview (h (fsm_db f))) m →
  Persist tm1 h (Snapshot f) sk = (None, sk') → holds rc = written sk' → tm1 <= tm2 →
  dhealthy (h2 (fsm_db f2)) → data_unwritten (h2 (fsm_db f2)) →
  Restore tm2 h2 f2 rc = (None, h2', rc') →
  complete sk' ∧ dhealthy (h2' (fsm_db f2))
  ∧ Sim tm2 (dview (h2' (fsm_db f2))) (expire tm2 m).
Proof.
  intros Hd Hs Hp Hr Hle Hd2 Hu Hres.
  destruct (Restore_obs tm1 tm2 h f sk sk' h2 f2 rc rc' h2') as [Hd' Ho]; [done..|].
  split; [by destruct (Persist_writes _ _ _ _ _ Hd Hp)|]. split; [done|].
  rewrite <- Ho. by eapply Sim_expire.
Qed.

(** A snapshot whose backup fails is cancelled, and the error is reported. *)
Theorem Persist_cancels tm h f sk err sk1 :
  db_Backup tm (h (fsm_db f)) sk 0 = (Some err, sk1) →
  ∃ sk', Persist tm h (Snapshot f) sk = (Some err, sk') ∧ ¬ complete sk'.
Proof.
  intros H. unfold Persist, Snapshot. simpl. rewrite H. eexists. split; [done|]. apply Cancel_law.
Qed.

(** Restore does not empty the database: a string that the snapshot does not
    mention is still there afterwards. *)
Theorem Restore_keeps_stale en tm h f rc rc' b h' k e :
  dhealthy (h (fsm_db f)) → holds rc = Some b → Restore tm h f rc = (None, h', rc') →
  b !! userKey k = None → b !! typeKey k = None →
  vget (now en) (dview (h (fsm_db f))) (userKey k) = Some e →
  vget (now en) (dview (h' (fsm_db f))) (userKey k) = Some e
  ∧ type_of (now en) (dview (h' (fsm_db f))) k = type_of (now en) (dview (h (fsm_db f))) k.
Proof.
  intros Hd Hh Hres Hk Ht He.
  destruct (Restore_loads _ _ _ _ _ _ _ Hd Hh Hres) as (_ & _ & Hkeep & _).
  unfold type_of, vget. by rewrite !Hkeep.
Qed.

(** A snapshot is one of the whole database: the node that restores it reads
    the source's Raft log in its own log store. *)
Theorem snapshot_carries_log tm1 tm2 tm h f sk sk' h2 f2 rc rc' h2' i :
  dhealthy (h (fsm_db f)) → Persist tm1 h (Snapshot f) sk = (None, sk') →
  holds rc = written sk' → tm1 <= tm2 → tm2 <= tm →
  dhealthy (h2 (fsm_db f2)) → unwritten (h2 (fsm_db f2)) (logKey i) →
  Restore tm2 h2 f2 rc = (None, h2', rc') →
  GetLog tm (h2' (fsm_db f2)) i = GetLog tm (h (fsm_db f)) i.
Proof.
  intros Hd Hp Hr Hle Hle' Hd2 Hu Hres.
  destruct (Persist_writes _ _ _ _ _ Hd Hp) as (_ & b & Hb & Hbv). rewrite Hb in Hr.
  destruct (Restore_loads _ _ _ _ _ _ _ Hd2 Hr Hres) as (Hd' & Hv & _).
  unfold GetLog, db_View.
  destruct (NewTransaction_law _ Hd) as [Ht1 Hv1], (NewTransaction_law _ Hd') as [Ht2 Hv2].
  by rewrite !Get_law, Hv1, Hv2, Hv, Hbv by (done || lia).
Qed.
End snapshot_props.

(** ** A store in memory *)

Section MapBackup.
#[local] Existing Instances B0 L0.

(** A sink: what was written, and whether it was closed. *)
Definition MapBackup : BackupOps := {|
  sink := option backup * bool;
  reader := option backup;
  db_Backup _ d _ _ := (None, (Some (Some <$> (d : gmap string entry)), false));
  db_Load _ d r _ :=
    match r with
    | Some b => (None, omap id b ∪ (d : gmap string entry), r)
    | None => (Some "unexpected EOF", d, r)
    end;
  sink_Cancel s := (s.1, false);
  sink_Close s := (None, (s.1, true));
  reader_Close r := r;
|}.

Lemma bget_backup (v : gmap string entry) tm k : bget tm (Some <$> v) k = vget tm v k.
Proof. unfold bget, vget. rewrite lookup_fmap. by destruct (v !! k). Qed.

Lemma lookup_load (b : backup) (v : gmap string entry) k :
  (omap id b ∪ v) !! k = match b !! k with Some (Some e) => Some e | _ => v !! k end.
Proof. rewrite lookup_union, lookup_omap. by destruct (b !! k) as [[e|]|], (v !! k). Qed.

Program Definition MapBackupLaws : BackupLaws MapBackup := {|
  written s := s.1;
  holds r := r;
  complete s := s.2 = true;
  unwritten d k := (d : gmap string entry) !! k = None;
|}.
Next Obligation. done. Qed.
Next Obligation.
  intros tm0 d s s' _ [= <-]. eexists. split; [done|]. intros tm k _. apply bget_backup.
Qed.
Next Obligation. intros s s' [= <-]. done. Qed.
Next Obligation. done. Qed.
Next Obligation.
  intros tm0 d r n b d' r' _ -> [= <- <-]. split; [done|]. split.
  - intros tm k _ Hk. unfold bget, vget. simpl. unfold id at 1. rewrite lookup_load, Hk.
    by destruct (b !! k) as [[e|]|].
  - intros k Hk. simpl. unfold id at 1. by rewrite lookup_load, Hk.
Qed.
End MapBackup.

(** ** The theorems at concrete inputs *)

Section witnesses.
#[local] Existing Instances B0 L0 C0 CL0.
#[local] Instance K0 : BackupOps := MapBackup.
#[local] Instance KL0 : BackupLaws K0 := MapBackupLaws.

Definition fsm0 : FSM := mkFSM 0.
(** One database behind every pointer. *)
Definition heap0 (d : @db B0) : heap := λ _, d.
Definition sink0 : sink := (None, false).

Lemma snapshot_roundtrip_witness :
  Sim 0 (dview ((Restore 0 (heap0 ∅) fsm0 (Persist 0 (heap0 db0) (Snapshot fsm0) sink0).2.1).1.2 0%nat))
    (expire 0 state0).
Proof.
  apply (snapshot_roundtrip 0 0 (heap0 db0) fsm0 sink0
    (Persist 0 (heap0 db0) (Snapshot fsm0) sink0).2 (heap0 ∅) fsm0
    (Persist 0 (heap0 db0) (Snapshot fsm0) sink0).2.1
    (Persist 0 (heap0 db0) (Snapshot fsm0) sink0).2.1 _ state0).
  - apply dhealthy0.
  - apply Sim_store0.
  - reflexivity.
  - reflexivity.
  - done.
  - apply dhealthy0.
  - by intros k _.
  - reflexivity.
Defined.

(** The pointer a snapshot holds is the one commands write through: when an
    entry is applied between Snapshot and Persist, the snapshot has its effect,
    and the node that restores it and goes on with that entry counts it
    twice. *)
Theorem snapshot_not_point_in_time :
  let incr := enc_cmd (cmd "INCR" "n" []) in
  let apply d := (Apply noLua (en0 0) d incr).2 in
  let snap := Snapshot fsm0 in
  let leader := apply ∅ in
  let sk := (Persist 0 (heap0 leader) snap sink0).2 in
  let follower := (Restore 0 (heap0 ∅) fsm0 sk.1).1.2 0%nat in
  GetString (en0 0) leader "n" = inr (Some "1")
  ∧ GetString (en0 0) (apply follower) "n" = inr (Some "2").
Proof. vm_compute. done. Qed.
End witnesses.
