(* ===== verification/Cluster.v ===== *)
(** * A shard: replicas that apply one log, catch up by snapshots, and keep
    Raft's own data in the same database

    Raft is a parameter: it chooses which commands are committed and when a
    replica applies the next one, stores entries, or is sent a snapshot.  The
    steps are the calls it makes of the state machine ([Apply], [StoreLogs],
    [DeleteRange], [Set_], [Snapshot], [Persist], [Restore]); the invariant says
    that all replicas implement one abstract Redis. *)

From stdpp Require Import relations.
From S2P Require Import Prelude GoStd Badger Codec Keys Fsm FsmColl FsmApply FsmRead FsmSpec FsmSim.
From S2P Require Import Concrete FsmProps FsmReadProps FsmLog FsmReplica RaftStore Snapshot.
From Stdlib Require Import Lia ZArith.
#[local] Open Scope Z_scope.

(** ** The Raft store leaves the user's data alone *)

Section raft_only.
Context `{B : BadgerOps} {L : BadgerLaws B} `{C : Codec}.
Implicit Types (d : db) (t : txn).

(** A computation that keeps the transaction open and the data as it was. *)
Definition spares t t' : Prop :=
  healthy t' ∧ ∀ k, data_key k = true → view t' !! k = view t !! k.
Definition spares_data {A} (f : M txn lerr A) : Prop := ∀ t, healthy t → spares t (f t).2.

Lemma spares_set k v : data_key k = false → spares_data (r_Set k v).
Proof.
  intros Hk t Ht. unfold r_Set. destruct (txn_SetEntry k (Entry v 0) t) as [e|t'] eqn:H; [done|].
  destruct (SetEntry_law _ _ _ _ Ht H) as [? Hv]. split; [done|]. intros k' Hk'. simpl.
  rewrite Hv. apply lookup_insert_ne. congruence.
Qed.

Lemma spares_set_all (data : list (string * string)) :
  Forall (λ kv, data_key kv.1 = false) data →
  spares_data (foldM (λ _ kv, r_Set kv.1 kv.2) tt data).
Proof.
  induction 1 as [|[k v] data Hk Hd IH]; intros t Ht; simpl; [done|].
  destruct (spares_set k v Hk t Ht) as [Ht1 Hv1]. unfold bind.
  destruct (r_Set k v t) as [[e|[]] t1]; simpl in *; [done|].
  destruct (IH t1 Ht1) as [Ht2 Hv2]. split; [done|]. intros k' Hk'. by rewrite Hv2, Hv1.
Qed.

Lemma encode_logs_keys logs data :
  encode_logs logs = inr data → Forall (λ kv, data_key kv.1 = false) data.
Proof.
  revert data. induction logs as [|l logs IH]; intros data; simpl; [by intros [= <-]|].
  destruct (encodeLog l); [done|]. destruct (encode_logs logs); [done|].
  intros [= <-]. constructor; [done|]. by apply IH.
Qed.

Lemma spares_delete_loop fuel i hi t r :
  healthy t → delete_loop fuel i hi t = Some r → spares t r.2.
Proof.
  revert i t. induction fuel as [|fuel IH]; intros i t Ht; cbn [delete_loop]; [done|].
  destruct (i <=? hi); [|by intros [= <-]].
  destruct (txn_Delete (logKey i) t) as [e|t1] eqn:Hd.
  { destruct e; [by apply IH|by intros [= <-]]. }
  destruct (Delete_law _ _ _ Ht Hd) as [Ht1 Hv1]. intros Hr.
  destruct (IH _ _ Ht1 Hr) as [? Hv]. split; [done|]. intros k Hk. rewrite Hv, Hv1 by done.
  by apply lookup_delete_ne; intros <-.
Qed.

Lemma Update_spares {A} (f : M txn lerr A) d :
  dhealthy d → spares (NewTransaction d) (f (NewTransaction d)).2 →
  dhealthy (db_Update LDb d f).2
  ∧ ∀ k, data_key k = true → dview (db_Update LDb d f).2 !! k = dview d !! k.
Proof.
  intros Hd [Ht' Hs]. destruct (NewTransaction_law d Hd) as [Ht Hv]. unfold db_Update.
  destruct (f (NewTransaction d)) as [[e|a] t']; [done|]. simpl in *.
  destruct (Commit t') as [e|d'] eqn:Hc; [done|]. destruct (Commit_law _ _ Ht' Hc) as [? Hd'].
  simpl. rewrite Hd'. split; [done|]. intros k Hk. by rewrite Hs, Hv.
Qed.

(** What Raft writes by itself. *)
Inductive raft_write d : db → Prop :=
  | write_logs logs : raft_write d (StoreLogs logs d).2
  | write_delete fuel lo hi r : DeleteRange fuel lo hi d = Some r → raft_write d r.2
  | write_stable key val : raft_write d (Set_ key val d).2.

Lemma raft_write_spares d d' :
  dhealthy d → raft_write d d' →
  dhealthy d' ∧ ∀ k, data_key k = true → dview d' !! k = dview d !! k.
Proof.
  intros Hd Hw. destruct (NewTransaction_law d Hd) as [Ht _].
  destruct Hw as [logs|fuel lo hi r Hr|key val].
  - unfold StoreLogs. destruct (encode_logs logs) as [msg|data] eqn:He; [done|].
    apply Update_spares; [done|]. by apply spares_set_all; [eapply encode_logs_keys|].
  - unfold DeleteRange in Hr.
    destruct (delete_loop fuel lo hi (NewTransaction d)) as [r'|] eqn:Hl; [|done].
    injection Hr as <-. apply Update_spares; [done|]. by eapply spares_delete_loop.
  - apply Update_spares; [done|]. by apply spares_set.
Qed.
End raft_only.

(** ** The shard *)

Module Shard.
Section shard.
Context `{B : BadgerOps} {L : BadgerLaws B} `{C : Codec} {CL : CodecLaws C}
  {K : BackupOps} {KL : BackupLaws K}.
Context (handleLua : Env → Command → M txn gerr goval).

(** A replica: its database, how many entries it has applied, and the instant
    it last did something. *)
Record replica := mkReplica { r_db : db; r_applied : nat; r_clock : Z }.

(** A shard: the committed commands, the replicas, and what replicas answered
    to which entry. *)
Record shard := mkShard {
  committed : list Command;
  replicas : gmap nat replica;
  answers : list (nat * (gerr + goval));
}.

(** The commands the invariant is about: those of the data model that the store
    takes, without expiry and without SPOP (on the others replicas part, see
    FsmReplica.v), and no scripts, which may call them. *)
Definition admissible (c : Command) : Prop :=
  data_op (Op c) = true ∧ accepted c ∧ timeless c.

Inductive step : shard → shard → Prop :=
  | step_commit cs rs ans c :
      admissible c → step (mkShard cs rs ans) (mkShard (cs ++ [c]) rs ans)
  | step_join cs rs ans i d tm :
      rs !! i = None → dhealthy d → data_unwritten d →
      step (mkShard cs rs ans) (mkShard cs (<[i := mkReplica d 0 tm]> rs) ans)
  | step_apply cs rs ans i r c en a d' :
      rs !! i = Some r → cs !! r_applied r = Some c → env_ok en → r_clock r <= now en →
      Apply handleLua en (r_db r) (enc_cmd c) = (a, d') →
      step (mkShard cs rs ans)
        (mkShard cs (<[i := mkReplica d' (S (r_applied r)) (now en)]> rs) ((r_applied r, a) :: ans))
  | step_raft cs rs ans i r d' :
      rs !! i = Some r → raft_write (r_db r) d' →
      step (mkShard cs rs ans)
        (mkShard cs (<[i := mkReplica d' (r_applied r) (r_clock r)]> rs) ans)
  (** Replica [i] takes a snapshot and writes it, no entry being applied in
      between; replica [j], which has never held data, restores it.  Otherwise
      the restored state may be that of no prefix of the log: see
      [snapshot_not_point_in_time] and [Restore_keeps_stale]. *)
  | step_snapshot cs rs ans i j ri rj tm1 tm2 sk sk' rc rc' h' :
      rs !! i = Some ri → rs !! j = Some rj →
      Persist tm1 (λ _, r_db ri) (Snapshot (mkFSM 0)) sk = (None, sk') → holds rc = written sk' →
      data_unwritten (r_db rj) → Restore tm2 (λ _, r_db rj) (mkFSM 0) rc = (None, h', rc') →
      r_clock ri <= tm1 <= tm2 →
      step (mkShard cs rs ans)
        (mkShard cs (<[j := mkReplica (h' 0%nat) (r_applied ri) tm2]> rs) ans).

Definition initial : shard := mkShard [] ∅ [].

(** The abstract Redis that runs the commands one after another.  The instant
    and the map orders make no difference to admissible commands. *)
Definition en_abs : Env := mkEnv 0 (λ _ s, elements s).
Definition abs_log (cs : list Command) : list (gerr + goval) * rstate :=
  spec_log ((λ c, (en_abs, c)) <$> cs) ∅.

Record inv (s : shard) : Prop := {
  inv_admissible : Forall admissible (committed s);
  inv_replica i r : replicas s !! i = Some r →
    dhealthy (r_db r) ∧ (r_applied r <= length (committed s))%nat
    ∧ Sim (r_clock r) (dview (r_db r)) (abs_log (take (r_applied r) (committed s))).2;
  inv_answer n a : (n, a) ∈ answers s → (abs_log (committed s)).1 !! n = Some a;
}.

(** The abstract run, one command more. *)
Lemma spec_log_snoc log en c m :
  spec_log (log ++ [(en, c)]) m =
  let '(rs, m1) := spec_log log m in
  let '(r, m2) := spec_apply en c (expire (now en) m1) in
  (rs ++ [r], m2).
Proof.
  revert m. induction log as [|[en' c'] log IH]; intros m; simpl.
  { by destruct (spec_apply en c _). }
  destruct (spec_apply en' c' _) as [r m1]. rewrite IH.
  destruct (spec_log log m1) as [rs m2]. by destruct (spec_apply en c _).
Qed.

Lemma abs_log_snoc cs c :
  abs_log (cs ++ [c]) =
  let '(rs, m1) := abs_log cs in
  let '(r, m2) := spec_apply en_abs c (expire 0 m1) in (rs ++ [r], m2).
Proof. unfold abs_log. rewrite fmap_app. apply spec_log_snoc. Qed.

Lemma abs_log_eternal cs : Forall admissible cs → eternal (abs_log cs).2.
Proof.
  induction cs as [|c cs IH] using rev_ind; intros Hcs; [apply eternal_empty|].
  apply Forall_app in Hcs as [Hcs Hc]. apply Forall_singleton in Hc as (_ & _ & Httl & Hop).
  rewrite abs_log_snoc. specialize (IH Hcs). destruct (abs_log cs) as [rs m]. simpl in *.
  rewrite eternal_expire by done.
  destruct (spec_apply_eternal en_abs en_abs c m IH Httl Hop) as [_ He].
  by destruct (spec_apply en_abs c m).
Qed.

Lemma abs_log_length cs : length (abs_log cs).1 = length cs.
Proof.
  induction cs as [|c cs IH] using rev_ind; [done|]. rewrite abs_log_snoc.
  destruct (abs_log cs) as [rs m]. destruct (spec_apply _ _ _). simpl in *.
  by rewrite !length_app, IH.
Qed.

(** A longer run begins with the answers of a shorter one. *)
Lemma abs_log_prefix cs cs' n a :
  (abs_log cs).1 !! n = Some a → (abs_log (cs ++ cs')).1 !! n = Some a.
Proof.
  intros Hn. induction cs' as [|c cs' IH] using rev_ind; [by rewrite app_nil_r|].
  rewrite app_assoc, abs_log_snoc. destruct (abs_log (cs ++ cs')) as [rs m].
  destruct (spec_apply _ _ _). simpl in *. by apply lookup_app_l_Some.
Qed.

(** Applying the next entry gives the abstract answer and state. *)
Lemma apply_next cs n c en d a d' (tm : Z) :
  commits → Forall admissible cs → cs !! n = Some c → env_ok en → tm <= now en →
  dhealthy d → Sim tm (dview d) (abs_log (take n cs)).2 →
  Apply handleLua en d (enc_cmd c) = (a, d') →
  dhealthy d' ∧ Sim (now en) (dview d') (abs_log (take (S n) cs)).2
  ∧ (abs_log cs).1 !! n = Some a.
Proof.
  intros Hcom Hcs Hc Hen Htm Hd Hs Ha.
  assert (admissible c) as (Hop & Hacc & Httl & Hop') by (by eapply Forall_lookup_1).
  assert (Forall admissible (take n cs)) as Htake by (by apply Forall_take).
  pose proof (abs_log_eternal _ Htake) as He.
  destruct (Apply_runs handleLua en c d (abs_log (take n cs)).2) as (d1 & Hr & Hd1 & Hs1);
    [done..| |].
  { rewrite <- (eternal_expire (now en) (abs_log (take n cs)).2) by done. by eapply Sim_expire. }
  rewrite Hr in Ha. injection Ha as <- <-. split; [done|].
  pose proof (abs_log_length (take n cs)) as Hlen.
  rewrite length_take_le in Hlen by (apply lookup_lt_Some in Hc; lia).
  assert (abs_log (take (S n) cs) =
    ((abs_log (take n cs)).1 ++ [(spec_apply en c (abs_log (take n cs)).2).1],
     (spec_apply en c (abs_log (take n cs)).2).2)) as Hnext.
  { rewrite (take_S_r _ _ _ Hc), abs_log_snoc. destruct (abs_log (take n cs)) as [rs m]. simpl in *.
    rewrite eternal_expire by done.
    destruct (spec_apply_eternal en_abs en c m He Httl Hop') as [<- _].
    by destruct (spec_apply en_abs c m). }
  split; [by rewrite Hnext|].
  pose proof (abs_log_prefix (take (S n) cs) (drop (S n) cs) n
    (spec_apply en c (abs_log (take n cs)).2).1) as Hp.
  rewrite take_drop in Hp. apply Hp. rewrite Hnext. simpl. by apply list_lookup_middle.
Qed.

Lemma shard_initial : inv initial.
Proof.
  split; [constructor|done|]. intros n a Ha. by apply elem_of_nil in Ha.
Qed.

(** A replica that moves to a state that agrees with the abstract run. *)
Lemma inv_move cs rs ans i r :
  inv (mkShard cs rs ans) → dhealthy (r_db r) → (r_applied r <= length cs)%nat →
  Sim (r_clock r) (dview (r_db r)) (abs_log (take (r_applied r) cs)).2 →
  inv (mkShard cs (<[i := r]> rs) ans).
Proof.
  intros [H1 H2 H3] Hd Hn Hs. split; [done| |done]. simpl in *. intros j r'.
  rewrite lookup_insert. case_decide; [by intros [= <-]|apply H2].
Qed.

Lemma shard_step s s' : commits → step s s' → inv s → inv s'.
Proof.
  intros Hcom Hs Hi. pose proof Hi as [H1 H2 H3].
  destruct Hs as [cs rs ans c Hc|cs rs ans i d tm Hn Hd Hu|cs rs ans i r c en a d' Hr Hc Hen Hck Ha
    |cs rs ans i r d' Hr Hw|cs rs ans i j ri rj tm1 tm2 sk sk' rc rc' h' Hri Hrj Hp Hh Hu Hres Htm];
    simpl in *.
  - split; simpl.
    + apply Forall_app. by rewrite Forall_singleton.
    + intros i r Hr. destruct (H2 i r Hr) as (Hd & Hn & Hsim). split; [done|].
      rewrite length_app. split; [lia|]. by rewrite take_app_le.
    + intros n a Ha. by apply abs_log_prefix, H3.
  - apply inv_move; simpl; [done|done|lia|]. apply Sim_empty. intros k. unfold vget.
    by rewrite unwritten_law by (try apply Hu; done).
  - destruct (H2 i r Hr) as (Hd & Hn & Hsim).
    destruct (apply_next cs (r_applied r) c en (r_db r) a d' (r_clock r)) as (Hd' & Hs' & Ha');
      [done..|].
    apply lookup_lt_Some in Hc. apply inv_move; simpl; [|done|lia|done]. split; [done|done|].
    simpl. intros n b [[= -> ->]|Hb]%elem_of_cons; auto.
  - destruct (H2 i r Hr) as (Hd & Hn & Hsim). destruct (raft_write_spares _ _ Hd Hw) as [Hd' Hv].
    apply inv_move; simpl; [done..|]. rewrite (obs_eq_data _ _ (dview (r_db r))); done.
  - destruct (H2 i ri Hri) as (Hd & Hn & Hsim), (H2 j rj Hrj) as (Hdj & _ & _).
    destruct (Restore_obs tm1 tm2 (λ _, r_db ri) (mkFSM 0) sk sk' (λ _, r_db rj) (mkFSM 0) rc rc' h')
      as [Hd' Ho]; [done..|lia|done|done|done|].
    apply inv_move; simpl in *; [done..|]. rewrite <- Ho.
    rewrite <- (eternal_expire tm2) by (by apply abs_log_eternal, Forall_take).
    eapply Sim_expire; [|done]. lia.
Qed.

Lemma shard_reachable s : commits → rtc step initial s → inv s.
Proof.
  intros Hcom H. assert (∀ s0, rtc step s0 s → inv s0 → inv s) as Hrtc.
  { intros s0. induction 1; eauto using shard_step. }
  eauto using shard_initial.
Qed.

(** C2: The shard implements one abstract Redis, for logs of commands without
    TTLs, SPOP and scripts that the store accepts.  Whatever the order in which
    replicas join, apply entries at their own instants and with their own map
    orders, and store and delete Raft entries, and when replicas that have never
    held data restore snapshots during whose writing no entry was applied, every
    replica's database represents the state after the committed commands it
    has applied, and every answer to an entry is the abstract one: replicas
    never disagree. *)
Theorem shard_implements_redis s :
  commits → rtc step initial s →
  (∀ i r, replicas s !! i = Some r → (r_applied r <= length (committed s))%nat
     ∧ Sim (r_clock r) (dview (r_db r)) (abs_log (take (r_applied r) (committed s))).2)
  ∧ (∀ n a, (n, a) ∈ answers s → (abs_log (committed s)).1 !! n = Some a).
Proof.
  intros Hcom H. destruct (shard_reachable s Hcom H) as [_ Hr Ha].
  split; [|done]. intros i r Hi. by destruct (Hr i r Hi).
Qed.

(** Reads are sequentially consistent: on every replica of a reachable
    shard, at any instant, all readers answer what the abstract Redis holds
    after a prefix of the committed commands, those the replica has applied. *)
Theorem shard_reads s i r en k :
  commits → rtc step initial s → replicas s !! i = Some r → env_ok en → r_clock r <= now en →
  readers_agree en (r_db r) (abs_log (take (r_applied r) (committed s))).2 k.
Proof.
  intros Hcom H Hi Hen Hle. destruct (shard_reachable s Hcom H) as [Hadm Hr _].
  destruct (Hr i r Hi) as (Hd & _ & Hs). apply readers_run; [done..|].
  rewrite <- (eternal_expire (now en)) by (by apply abs_log_eternal, Forall_take).
  by eapply Sim_expire.
Qed.
End shard.
End Shard.

(** ** The theorem at a concrete run *)

Section witnesses.
#[local] Existing Instances B0 L0 C0 CL0 K0 KL0.

Definition sadd0 : Command := cmd "SADD" "set" ["z"; "w"].
Definition db_sadd : @db B0 := (Apply noLua (en0 0) (∅ : @db B0) (enc_cmd sadd0)).2.
Definition db_term : @db B0 := (Set_ "CurrentTerm" "5" db_sadd).2.
Definition sink_of (d : @db B0) : @sink B0 K0 := (Persist 0 (λ _, d) (Snapshot (mkFSM 0)) sink0).2.
Definition db_restored : @db B0 := (Restore 7 (λ _, (∅ : @db B0)) (mkFSM 0) (sink_of db_term).1).1.2 0%nat.

(** Replica 0 applies a command and Raft writes its term; replica 1 is sent a
    snapshot of it. *)
Definition shard0 : Shard.shard :=
  Shard.mkShard [sadd0]
    (<[1%nat := Shard.mkReplica db_restored 1 7]>
      (<[0%nat := Shard.mkReplica db_term 1 0]>
        (<[0%nat := Shard.mkReplica db_sadd 1 0]>
          (<[1%nat := Shard.mkReplica (∅ : @db B0) 0 5]>
            (<[0%nat := Shard.mkReplica (∅ : @db B0) 0 0]> ∅)))))
    [(0%nat, inr (GInt 2))].

(** The run up to the write and its answer. *)
Lemma run_write : rtc (Shard.step noLua) Shard.initial
  (Shard.mkShard [sadd0]
    (<[0%nat := Shard.mkReplica db_sadd 1 0]>
      (<[1%nat := Shard.mkReplica (∅ : @db B0) 0 5]>
        (<[0%nat := Shard.mkReplica (∅ : @db B0) 0 0]> ∅))) [(0%nat, inr (GInt 2))]).
Proof.
  eapply rtc_l.
  { apply (Shard.step_commit _ _ _ _ sadd0). split; [done|]. split; [by apply accepted_set|done]. }
  eapply rtc_l; [apply (Shard.step_join _ _ _ _ 0 (∅ : @db B0) 0); [done|done|by intros k _]|].
  eapply rtc_l; [apply (Shard.step_join _ _ _ _ 1 (∅ : @db B0) 5); [done|done|by intros k _]|].
  apply rtc_once.
  eapply (Shard.step_apply _ _ _ _ 0 (Shard.mkReplica (∅ : @db B0) 0 0) sadd0 (en0 0) (inr (GInt 2)) db_sadd);
    [done|done|by apply en0_ok|done|]. apply pair_fst. vm_compute. reflexivity.
Qed.

Lemma run0 : rtc (Shard.step noLua) Shard.initial shard0.
Proof.
  etrans; [apply run_write|]. eapply rtc_l.
  { eapply (Shard.step_raft _ _ _ _ 0 (Shard.mkReplica db_sadd 1 0) db_term); [done|].
    apply (write_stable db_sadd "CurrentTerm" "5"). }
  apply rtc_once.
  eapply (Shard.step_snapshot _ _ _ _ 0 1 (Shard.mkReplica db_term 1 0) (Shard.mkReplica (∅ : @db B0) 0 5)
    0 7 sink0 (sink_of db_term) (sink_of db_term).1); done.
Qed.

Lemma scard0 :
  map_res (λ s : gset string, Z.of_nat (size s)) (as_set ((Shard.abs_log [sadd0]).2 !! "set")) = inr 2.
Proof. vm_compute. reflexivity. Qed.

Lemma shard_reads_witness : SCard (en0 9) db_restored "set" = inr 2.
Proof.
  pose proof (Shard.shard_reads noLua shard0 1%nat (Shard.mkReplica db_restored 1 7) (en0 9) "set"
    commits0 run0 eq_refl (en0_ok 9 ltac:(done)) ltac:(done)) as H.
  exact (eq_trans (ra_scard _ _ _ _ H) scard0).
Defined.

(** A read is answered from the replica it is sent to, which may lag behind:
    after replica 0 has answered a write, replica 1 still reads that there is
    nothing. *)
Theorem stale_read :
  let s := Shard.mkShard [sadd0]
    (<[0%nat := Shard.mkReplica db_sadd 1 0]>
      (<[1%nat := Shard.mkReplica (∅ : @db B0) 0 5]>
        (<[0%nat := Shard.mkReplica (∅ : @db B0) 0 0]> ∅))) [(0%nat, inr (GInt 2))] in
  rtc (Shard.step noLua) Shard.initial s
  ∧ SCard (en0 9) db_sadd "set" = inr 2 ∧ SCard (en0 9) (∅ : @db B0) "set" = inr 0.
Proof. split; [apply run_write|]. vm_compute. done. Qed.

Lemma shard_implements_redis_witness :
  Sim 7 (dview db_restored) (Shard.abs_log [sadd0]).2.
Proof.
  destruct (Shard.shard_implements_redis noLua shard0 commits0 run0) as [H _].
  destruct (H 1%nat (Shard.mkReplica db_restored 1 7) eq_refl) as [_ Hs]. exact Hs.
Defined.
End witnesses.
