(* ===== verification/Router.v ===== *)
(** * The slot map and the router (config/slotmap.go, router/router.go)

    A key belongs to one of 16384 slots, by the CRC-16 of Redis Cluster; the
    slot map records the shard and the address that own a slot.  The map is
    guarded by a mutex: its operations are atomic steps.  The consistent-hash
    ring is a field that no method of the router reads. *)

From S2P Require Import Prelude GoStd.
From Stdlib Require Import Lia ZArith Ascii.

(** ** SlotMap *)

Module SlotMap.
Record SlotInfo := mkInfo { ShardID : string; IP : string }.
Record t := mk { version : Z; slots : gmap Z SlotInfo }.

Definition NewSlotMap : t := mk 0 ∅.

Definition SetOwner (s : t) (slot : Z) (shardID ip : string) : t :=
  mk (wrapu64 (version s + 1)) (<[slot := mkInfo shardID ip]> (slots s)).

(** A slot that is not in the map reads as the zero [SlotInfo]. *)
Definition GetOwner (s : t) (slot : Z) : string * string :=
  match slots s !! slot with
  | Some info => (ShardID info, IP info)
  | None => ("", "")
  end.

Definition Version (s : t) : Z := version s.
End SlotMap.

(** ** Router *)

Definition byte_Z (c : ascii) : Z := Z.of_N (N_of_ascii c).

(** [hash/fnv]'s 64-bit FNV-1a. *)
Definition fnv_offset : Z := 14695981039346656037.
Definition fnv_prime : Z := 1099511628211.
Fixpoint fnv1a (h : Z) (data : string) : Z :=
  match data with
  | EmptyString => h
  | String b data' => fnv1a (wrapu64 (Z.lxor h (byte_Z b) * fnv_prime)) data'
  end.
Definition Sum64 (data : string) : Z := fnv1a fnv_offset data.

(** One turn of the inner loop of crc16. *)
Definition crc_bit (crc : Z) : Z :=
  if negb (Z.land crc 0x8000 =? 0) then Z.lxor (wrapu16 (Z.shiftl crc 1)) 0x1021
  else wrapu16 (Z.shiftl crc 1).

Definition crc_byte (crc : Z) (b : ascii) : Z :=
  Nat.iter 8 crc_bit (Z.lxor crc (wrapu16 (Z.shiftl (byte_Z b) 8))).

Fixpoint crc_loop (crc : Z) (data : string) : Z :=
  match data with
  | EmptyString => crc
  | String b data' => crc_loop (crc_byte crc b) data'
  end.
Definition crc16 (data : string) : Z := crc_loop 0 data.

Record Router := NewRouter { slotMap : SlotMap.t; localName : string }.

Definition KeyToSlot (key : string) : Z := crc16 key mod 16384.

Definition LocateKey (r : Router) (key : string) : string * string * bool :=
  let slot := KeyToSlot key in
  let '(shardID, ip) := SlotMap.GetOwner (slotMap r) slot in
  let isLocal := String.eqb shardID (localName r) in
  (shardID, ip, isLocal).

(** The check values of the two hashes. *)
Example hash_ex :
  crc16 "123456789" = 0x31C3 ∧ KeyToSlot "foo" = 12182
  ∧ Sum64 "" = 0xcbf29ce484222325 ∧ Sum64 "a" = 0xaf63dc4c8601ec8c.
Proof. vm_compute. done. Qed.

(** ** CRC-16 is the remainder of polynomial division

    Polynomials over GF(2) are integers, bit n being the coefficient of x^n;
    their sum is the exclusive or.  The multiples of [p] are what 0, the
    product by x and the sum with [p] generate. *)
Inductive multiple (p : Z) : Z → Prop :=
  | multiple_0 : multiple p 0
  | multiple_shift z : multiple p z → multiple p (2 * z)
  | multiple_add z : multiple p z → multiple p (Z.lxor z p).

(** x^16 + x^12 + x^5 + 1 *)
Definition crc_poly : Z := 0x11021.

Lemma lxor_range a b n : 0 <= n → 0 <= a < 2 ^ n → 0 <= b < 2 ^ n → 0 <= Z.lxor a b < 2 ^ n.
Proof.
  intros Hn Ha Hb.
  assert (0 <= Z.lxor a b) by (apply Z.lxor_nonneg; lia). split; [done|].
  assert (Z.lxor a b = Z.lxor a b mod 2 ^ n) as ->; [|by apply Z.mod_pos_bound; lia].
  apply Z.bits_inj'. intros i Hi. destruct (Z.ltb_spec i n).
  - by rewrite Z.mod_pow2_bits_low.
  - rewrite Z.mod_pow2_bits_high by lia.
    rewrite <- (Z.mod_small a (2 ^ n)), <- (Z.mod_small b (2 ^ n)), Z.lxor_spec by done.
    by rewrite !Z.mod_pow2_bits_high by lia.
Qed.

Lemma land_pow2 c n : 0 <= n → Z.land c (2 ^ n) = if Z.testbit c n then 2 ^ n else 0.
Proof.
  intros Hn. apply Z.bits_inj'. intros i Hi. rewrite Z.land_spec, Z.pow2_bits_eqb by lia.
  destruct (Z.eqb_spec n i) as [<-|Hne].
  - rewrite andb_true_r. destruct (Z.testbit c n); [by rewrite Z.pow2_bits_true|by rewrite Z.bits_0].
  - rewrite andb_false_r. destruct (Z.testbit c n); [by rewrite Z.pow2_bits_false|by rewrite Z.bits_0].
Qed.

(** One turn doubles the polynomial, up to one multiple of [crc_poly]. *)
Lemma crc_bit_spec c : 0 <= c < 2 ^ 16 →
  (Z.lxor (crc_bit c) (2 * c) = 0 ∨ Z.lxor (crc_bit c) (2 * c) = crc_poly) ∧ 0 <= crc_bit c < 2 ^ 16.
Proof.
  intros Hc. pose proof (Z.testbit_spec' c 15 ltac:(lia)) as Ht.
  rewrite (Z.mod_small (c / 2 ^ 15)) in Ht
    by (split; [apply Z.div_pos|apply Z.div_lt_upper_bound]; lia).
  pose proof (Z.div_mod c (2 ^ 15) ltac:(lia)). pose proof (Z.mod_pos_bound c (2 ^ 15) ltac:(lia)).
  unfold crc_bit. change 0x8000 with (2 ^ 15). rewrite land_pow2, Z.shiftl_mul_pow2 by lia.
  rewrite (Z.mul_comm c (2 ^ 1)). change (2 ^ 1) with 2.
  destruct (Z.testbit c 15); cbn [Z.b2z] in Ht.
  - change (negb (2 ^ 15 =? 0)) with true. cbv iota.
    assert (Hr : 2 * c = Z.lxor (2 * c - 2 ^ 16) (2 ^ 16)).
    { rewrite <- Z.add_nocarry_lxor; [lia|]. rewrite land_pow2 by lia.
      by rewrite <- (Z.mod_small (2 * c - 2 ^ 16) (2 ^ 16)), Z.mod_pow2_bits_high by lia. }
    assert (wrapu16 (2 * c) = 2 * c - 2 ^ 16) as ->.
    { symmetry. apply (Z.mod_unique _ _ 1); lia. }
    set (r := 2 * c - 2 ^ 16) in *. split; [right|apply lxor_range; lia].
    rewrite Hr, <- Z.lxor_assoc, (Z.lxor_comm r), (Z.lxor_assoc 0x1021), Z.lxor_nilpotent. done.
  - change (negb (0 =? 0)) with false. cbv iota.
    assert (wrapu16 (2 * c) = 2 * c) as -> by (apply Z.mod_small; lia).
    rewrite Z.lxor_nilpotent. split; [by left|lia].
Qed.

Lemma lxor_double a b : Z.lxor (2 * a) (2 * b) = 2 * Z.lxor a b.
Proof. by rewrite !(Z.mul_comm 2), <- !(Z.shiftl_mul_pow2 _ 1), Z.shiftl_lxor by lia. Qed.

(** After n turns: the polynomial is multiplied by x^n modulo [crc_poly]. *)
Lemma crc_bits_spec n a c :
  0 <= c < 2 ^ 16 → multiple crc_poly a →
  ∃ a', multiple crc_poly a' ∧ Z.lxor a' (Nat.iter n crc_bit c) = 2 ^ Z.of_nat n * Z.lxor a c
    ∧ 0 <= Nat.iter n crc_bit c < 2 ^ 16.
Proof.
  intros Hc Ha. induction n as [|n (a' & Ha' & Heq & Hb)].
  { exists a. split; [done|]. split; [|done]. by rewrite Z.mul_1_l. }
  rewrite Nat2Z.inj_succ, Z.pow_succ_r, <- Z.mul_assoc, <- Heq, <- lxor_double by lia.
  simpl Nat.iter. set (c' := Nat.iter n crc_bit c) in *.
  destruct (crc_bit_spec c' Hb) as [Hx Hb'].
  exists (Z.lxor (2 * a') (Z.lxor (crc_bit c') (2 * c'))). split.
  - destruct Hx as [-> | ->]; [rewrite Z.lxor_0_r|]; repeat constructor; done.
  - split; [|done]. rewrite Z.lxor_assoc. f_equal.
    by rewrite (Z.lxor_comm (crc_bit c')), Z.lxor_assoc, Z.lxor_nilpotent, Z.lxor_0_r.
Qed.

Lemma byte_Z_range b : 0 <= byte_Z b < 256.
Proof. unfold byte_Z. pose proof (N_ascii_bounded b). lia. Qed.

(** One byte: the message gets eight more bits. *)
Lemma crc_byte_spec m c b :
  0 <= m → 0 <= c < 2 ^ 16 → multiple crc_poly (Z.lxor (m * 2 ^ 16) c) →
  multiple crc_poly (Z.lxor ((m * 256 + byte_Z b) * 2 ^ 16) (crc_byte c b))
  ∧ 0 <= crc_byte c b < 2 ^ 16.
Proof.
  intros Hm Hc Ha. pose proof (byte_Z_range b) as Hb. unfold crc_byte.
  assert (wrapu16 (Z.shiftl (byte_Z b) 8) = byte_Z b * 2 ^ 8) as ->
    by (rewrite Z.shiftl_mul_pow2 by lia; apply Z.mod_small; lia).
  assert (Hc0 : 0 <= Z.lxor c (byte_Z b * 2 ^ 8) < 2 ^ 16) by (apply lxor_range; lia).
  destruct (crc_bits_spec 8 _ _ Hc0 Ha) as (a' & Ha' & Heq & Hr).
  set (c8 := Nat.iter 8 crc_bit _) in *. split; [|done].
  assert (a' = Z.lxor ((m * 256 + byte_Z b) * 2 ^ 16) c8) as <-; [|done].
  assert (Hx : (m * 256 + byte_Z b) * 2 ^ 16 = Z.lxor a' c8).
  { rewrite Heq, Z.lxor_assoc, <- (Z.lxor_assoc c), Z.lxor_nilpotent, Z.lxor_0_l.
    rewrite <- Z.add_nocarry_lxor; [change (Z.of_nat 8) with 8; lia|].
    apply Z.bits_inj'. intros i Hi. rewrite Z.land_spec, Z.bits_0.
    destruct (Z.ltb_spec i 16); [by rewrite Z.mul_pow2_bits_low|].
    rewrite andb_comm, <- (Z.mod_small (byte_Z b * 2 ^ 8) (2 ^ 16)) by lia.
    by rewrite Z.mod_pow2_bits_high by lia. }
  by rewrite Hx, Z.lxor_assoc, Z.lxor_nilpotent, Z.lxor_0_r.
Qed.

Lemma crc_loop_spec data m c :
  0 <= m → 0 <= c < 2 ^ 16 → multiple crc_poly (Z.lxor (m * 2 ^ 16) c) →
  multiple crc_poly (Z.lxor (be_value data m * 2 ^ 16) (crc_loop c data))
  ∧ 0 <= crc_loop c data < 2 ^ 16.
Proof.
  revert m c. induction data as [|b data IH]; intros m c Hm Hc Ha; [done|].
  destruct (crc_byte_spec m c b Hm Hc Ha) as [Ha' Hc']. pose proof (byte_Z_range b).
  apply IH; [lia|done|done].
Qed.

(** C30: crc16 is the CRC with polynomial x^16 + x^12 + x^5 + 1: the remainder
    (below 2^16) of the division by it of the message, read as a polynomial
    whose highest coefficient comes first, times x^16. *)
Theorem crc16_remainder data :
  0 <= crc16 data < 2 ^ 16
  ∧ multiple crc_poly (Z.lxor (be_value data 0 * 2 ^ 16) (crc16 data)).
Proof.
  destruct (crc_loop_spec data 0 0) as [H1 H2]; [done|done|constructor|]. done.
Qed.

(** C31: A key is routed by its slot, which is below 16384: assigning the slot
    of a key sends it (and the keys of that slot) to the new owner, local
    exactly when the owner is this router's shard, leaves the keys of every
    other slot where they were, and counts one more version. *)
Theorem LocateKey_owner s local key key' shard ip :
  let s' := SlotMap.SetOwner s (KeyToSlot key) shard ip in
  0 <= KeyToSlot key < 16384
  ∧ LocateKey (NewRouter s' local) key'
    = (if decide (KeyToSlot key = KeyToSlot key') then (shard, ip, String.eqb shard local)
       else LocateKey (NewRouter s local) key')
  ∧ SlotMap.Version s' = wrapu64 (SlotMap.Version s + 1).
Proof.
  cbv zeta. split; [by apply Z.mod_pos_bound|]. split; [|done].
  unfold LocateKey, SlotMap.GetOwner. simpl. rewrite lookup_insert. by case_decide.
Qed.
