(* ===== verification/Server.v ===== *)
(** * The RESP server (server/server.go, server/lua_handlers.go)

    A handler serves one command of a connection: it reads the store or
    submits a command to Raft, and writes its reply.  It is a program of calls
    (Prog.v) that [alone] runs on the [world]: the database of the node, the
    context of each connection, the clients of other nodes, and the reply
    written so far.  Concurrent.v runs the handlers of many connections among
    each other.  A handler fails only by a Go panic.  The request is
    [cmd.Args], its first argument apart: redcon delivers no empty command.
    Logging is left out. *)

From S2P Require Import Prelude Prog GoStd Badger Codec Keys Fsm FsmColl FsmApply FsmRead Router.
From Stdlib Require Import Lia ZArith.

(** The calls that write a reply ([redcon.Conn]). *)
Inductive wr :=
  | WError (msg : string)
  | WString (s : string)
  | WBulk (s : string)
  | WInt (n : Z)
  | WArray (n : Z)
  | WNull
  | WRaw (s : string).

#[export] Instance wr_eq_dec : EqDecision wr.
Proof. solve_decision. Defined.

Record connectionContext := mkContext { clientName : string; libName : string; libVer : string }.

(** What [client.Do(...).Result()] returns: an error ([redis.Nil] or a text)
    or a value. *)
Inductive do_result :=
  | DoNil
  | DoErr (msg : string)
  | DoVal (v : goval).

Definition command (op key : string) (args : list string) : Command :=
  mkCommand op key args 0 "" false.

(** ** The clients of other nodes

    [s.clients], guarded by [s.mu]; a client is what [redis.NewClient] made it
    with: its address and its rank. *)
Record client := mkClient { c_addr : string; c_id : nat }.
Record pool := mkPool { clients : gmap string client; made : nat }.

(** The part of getClient under the read lock. *)
Definition lookup_client (p : pool) (addr : string) : option client := clients p !! addr.
(** The part under the write lock: look again, then make one. *)
Definition ensure_client (p : pool) (addr : string) : client * pool :=
  match clients p !! addr with
  | Some c => (c, p)
  | None =>
      let c := mkClient addr (made p) in
      (c, mkPool (<[addr := c]> (clients p)) (S (made p)))
  end.
Definition getClient (p : pool) (addr : string) : client * pool :=
  match lookup_client p addr with
  | Some c => (c, p)
  | None => ensure_client p addr
  end.

(** What a server is built from: the Lua commands of its FSM, [s.raft] (nil
    until SetupRaft; replicating an entry gives the text of the future's error
    or the answer of the FSM), the addresses of its connections, the redis
    clients by which it runs commands on other nodes, its address and its
    router. *)
Class Node `{B : BadgerOps} := {
  handleLua : Env → Command → M txn gerr goval;
  raft : option (Env → string → M db string (gerr + goval));
  remoteAddr : nat → string;
  client_Do : Env → client → list string → do_result;
  node_addr : string;
  node_router : Router;
}.

(** What a handler does that other goroutines may see or wait for: [time.Now]
    (with the order of the next range over a map), a read-only transaction, a
    command handed to [s.raft] and the wait for its future (or [fsm.Apply]), a
    reply, the context of a connection, the two critical sections of getClient
    and a command run on another node. *)
Section server.
Context `{B : BadgerOps} `{C : Codec} {N : Node}.

Inductive call : Type :=
  | CClock
  | CView (X : Type) (R : Env → db → X)
  | CSubmit (c : Command)
  | CWrite (ws : list wr)
  | CContext (conn : nat)
  | CSetContext (conn : nat) (ctx : connectionContext)
  | CLookup (addr : string)
  | CEnsure (addr : string)
  | CDo (c : client) (args : list string).

Definition returns (c : call) : Type :=
  match c with
  | CClock => Env
  | CView X _ => X
  | CSubmit _ => string + (gerr + goval)
  | CWrite _ | CSetContext _ _ => unit
  | CContext _ => connectionContext
  | CLookup _ => option client
  | CEnsure _ => client
  | CDo _ _ => do_result
  end.

Abbreviation HM := (prog returns).
(** The connection, [Args[0]] and the arguments. *)
Abbreviation handler := (nat → string → list string → HM unit).

Definition clock : HM Env := perform CClock.
Definition s_View {X} (R : Env → db → X) : HM X := perform (CView X R).
Definition write (ws : list wr) : HM unit := perform (CWrite ws).

Definition wrong_args : HM unit := write [WError "ERR wrong number of arguments"].
Definition wrong_args_for (name : string) : HM unit :=
  write [WError ("ERR wrong number of arguments for '" +:+ name +:+ "' command")].

(** ** One handler at a time

    What a call does to the server, which no other goroutine changes. *)
Record world := mkWorld {
  w_db : db;
  w_ctx : gmap nat connectionContext;
  w_pool : pool;
  w_out : list wr;
}.

(** The answer of Raft, or of the FSM when Raft is not set up. *)
Definition raft_submit (en : Env) (c : Command) (d : db) : (string + (gerr + goval)) * db :=
  match raft with
  | Some raft_Apply => raft_Apply en (enc_cmd c) d
  | None => let '(res, d') := Apply handleLua en d (enc_cmd c) in (inr res, d')
  end.

(** The context of a connection, created on first use. *)
Definition get_context (conn : nat) (ctxs : gmap nat connectionContext)
    : connectionContext * gmap nat connectionContext :=
  match ctxs !! conn with
  | Some ctx => (ctx, ctxs)
  | None => let ctx := mkContext "" "" "" in (ctx, <[conn := ctx]> ctxs)
  end.

Definition exec (en : Env) (c : call) (w : world) : returns c * world :=
  match c with
  | CClock => (en, w)
  | CView X R => (R en (w_db w), w)
  | CSubmit c =>
      let '(r, d) := raft_submit en c (w_db w) in (r, mkWorld d (w_ctx w) (w_pool w) (w_out w))
  | CWrite ws => (tt, mkWorld (w_db w) (w_ctx w) (w_pool w) (w_out w ++ ws))
  | CContext conn =>
      let '(ctx, ctxs) := get_context conn (w_ctx w) in
      (ctx, mkWorld (w_db w) ctxs (w_pool w) (w_out w))
  | CSetContext conn ctx =>
      (tt, mkWorld (w_db w) (<[conn := ctx]> (w_ctx w)) (w_pool w) (w_out w))
  | CLookup addr => (lookup_client (w_pool w) addr, w)
  | CEnsure addr =>
      let '(c, p) := ensure_client (w_pool w) addr in
      (c, mkWorld (w_db w) (w_ctx w) p (w_out w))
  | CDo c args => (client_Do en c args, w)
  end.

Definition alone {A} (en : Env) (p : HM A) : world → (string + A) * world := run (exec en) p.

(** ** Submitting commands *)

(** The replication part of applyCommand and handleSet: the error to write
    or the answer. *)
Definition submit (c : Command) : HM (string + goval) :=
  r ← perform (CSubmit c);
  match r with
  | inl e => mret (inl ("ERR " +:+ e))
  | inr (inl (EPanic msg)) => Panic msg
  | inr (inl e) => mret (inl ("ERR " +:+ err_text e))
  | inr (inr v) => mret (inr v)
  end.

(** The switch on the dynamic type of the answer. *)
Definition reply_of (v : goval) : list wr :=
  match v with
  | GNil => [WNull]
  | GString s => [WString s]
  | GBytes s => [WBulk s]
  | GInt n => [WInt n]
  | GInt64 n => [WInt n]
  | GStrings l => WArray (Z.of_nat (length l)) :: map WBulk l
  | _ => [WString "OK"]
  end.

Definition applyCommand (c : Command) : HM unit :=
  r ← submit c;
  match r with
  | inl msg => write [WError msg]
  | inr v => write (reply_of v)
  end.

(** ** Reading *)

(** The common end of the readers: an error is written as it is. *)
Definition read_reply {A} (r : gerr + A) (k : A → HM unit) : HM unit :=
  match r with
  | inl (EPanic msg) => Panic msg
  | inl e => write [WError (err_text e)]
  | inr a => k a
  end.

Definition write_int (n : Z) : HM unit := write [WInt n].
Definition write_opt (o : option string) : HM unit :=
  write [match o with Some s => WBulk s | None => WNull end].
Definition write_list (l : list string) : HM unit :=
  write (WArray (Z.of_nat (length l)) :: map WBulk l).
Definition write_opts (l : list (option string)) : HM unit :=
  write (WArray (Z.of_nat (length l))
         :: map (λ o, match o with Some s => WBulk s | None => WNull end) l).

(** ** CLIENT *)

Definition contextForConn (conn : nat) : HM connectionContext := perform (CContext conn).
Definition set_context (conn : nat) (ctx : connectionContext) : HM unit :=
  perform (CSetContext conn ctx).

Definition client_info (conn : nat) (ctx : connectionContext) : string :=
  "id=1 addr=" +:+ remoteAddr conn +:+ " laddr=" +:+ node_addr +:+ " fd=0 name=" +:+ clientName ctx
  +:+ " age=0 idle=0 flags=N db=0 sub=0 psub=0 ssub=0 multi=-1 qbuf=0 qbuf-free=0 argv-mem=0"
  +:+ " multi-mem=0 rbs=0 rbp=0 obl=0 oll=0 omem=0 tot-mem=0 events=r cmd=client user=default"
  +:+ " redir=-1 resp=2 lib-name=" +:+ libName ctx +:+ " lib-ver=" +:+ libVer ctx.

Definition handleClient : handler := λ conn name args,
  match args with
  | [] => write [WError "ERR wrong number of arguments for 'client' command"]
  | sub :: args =>
      let subcmd := ToUpper sub in
      if String.eqb subcmd "SETNAME" then
        match args with
        | [n] =>
            ctx ← contextForConn conn;
            set_context conn (mkContext n (libName ctx) (libVer ctx));;
            write [WString "OK"]
        | _ => write [WError "ERR wrong number of arguments for 'client|setname' command"]
        end
      else if String.eqb subcmd "GETNAME" then
        match args with
        | [] =>
            ctx ← contextForConn conn;
            if String.eqb (clientName ctx) "" then write [WNull]
            else write [WBulk (clientName ctx)]
        | _ => write [WError "ERR wrong number of arguments for 'client|getname' command"]
        end
      else if String.eqb subcmd "SETINFO" then
        match args with
        | [attr; val] =>
            ctx ← contextForConn conn;
            if String.eqb (ToUpper attr) "LIB-NAME" then
              set_context conn (mkContext (clientName ctx) val (libVer ctx));;
              write [WString "OK"]
            else if String.eqb (ToUpper attr) "LIB-VER" then
              set_context conn (mkContext (clientName ctx) (libName ctx) val);;
              write [WString "OK"]
            else write [WError "ERR syntax error"]
        | _ => write [WError "ERR wrong number of arguments for 'client|setinfo' command"]
        end
      else if String.eqb subcmd "INFO" then
        match args with
        | [] => ctx ← contextForConn conn; write [WBulk (client_info conn ctx)]
        | _ => write [WError "ERR wrong number of arguments for 'client|info' command"]
        end
      else write [WError ("ERR unknown subcommand '" +:+ ToLower subcmd +:+ "'. Try CLIENT HELP.")]
  end.

(** ** SET *)

Definition syntax_error : string := "ERR syntax error".
Definition not_integer : string := "ERR value is not an integer or out of range".

Definition set_ttl (c : Command) (ttl : Z) : Command :=
  mkCommand (Op c) (Key c) (Args c) ttl (Condition c) (ReturnOld c).
Definition set_cond (c : Command) (cond : string) : Command :=
  mkCommand (Op c) (Key c) (Args c) (TTLMs c) cond (ReturnOld c).
Definition set_get (c : Command) : Command :=
  mkCommand (Op c) (Key c) (Args c) (TTLMs c) (Condition c) true.

(** The TTL an option with an argument stands for; EXAT and PXAT give an
    instant. *)
Definition opt_ttl (en : Env) (opt : string) : option (Z → Z) :=
  let until (at_ms : Z) :=
    let ttl := wrap64 (at_ms - UnixMilli (now en)) in if ttl <? 0 then 1 else ttl in
  if String.eqb opt "EX" then Some (λ secs, wrap64 (secs * 1000))
  else if String.eqb opt "PX" then Some (λ ms, ms)
  else if String.eqb opt "EXAT" then Some (λ timestamp, until (wrap64 (timestamp * 1000)))
  else if String.eqb opt "PXAT" then Some until
  else None.

(** The loop over the options of SET. *)
Fixpoint set_options (en : Env) (opts : list string) (c : Command) : string + Command :=
  match opts with
  | [] => inr c
  | o :: opts =>
      let opt := ToUpper o in
      if String.eqb opt "NX" then set_options en opts (set_cond c "NX")
      else if String.eqb opt "XX" then set_options en opts (set_cond c "XX")
      else if String.eqb opt "GET" then set_options en opts (set_get c)
      else
        match opt_ttl en opt with
        | None => inl syntax_error
        | Some ttl =>
            match opts with
            | [] => inl syntax_error
            | a :: opts' =>
                match ParseInt a with
                | (n, None) => set_options en opts' (set_ttl c (ttl n))
                | _ => inl not_integer
                end
            end
        end
  end.

Definition handleSet : handler := λ conn name args,
  match args with
  | key :: val :: opts =>
      en ← clock;
      match set_options en opts (command "SET" key [val]) with
      | inl msg => write [WError msg]
      | inr c =>
          r ← submit c;
          match r with
          | inl msg => write [WError msg]
          | inr GNil => write [WNull]
          | inr v =>
              if ReturnOld c then
                write [match v with GBytes b => WBulk b | _ => WNull end]
              else write [WString "OK"]
          end
      end
  | _ => wrong_args_for name
  end.

(** ** Strings and keys *)

Definition handlePing : handler := λ conn name args, write [WString "PONG"].

Definition handleGet : handler := λ conn name args,
  match args with
  | [key] => r ← s_View (λ en d, GetString en d key); read_reply r write_opt
  | _ => wrong_args_for name
  end.

Definition handleDel : handler := λ conn name args,
  match args with
  | [] => wrong_args_for name
  | _ => applyCommand (command "DEL" "" args)
  end.

Definition handleType : handler := λ conn name args,
  match args with
  | [key] => r ← s_View (λ en d, Type_ en d key); read_reply r (λ typ, write [WString typ])
  | _ => wrong_args
  end.

Definition handleKeys : handler := λ conn name args,
  match args with
  | [pattern] =>
      r ← s_View (λ en d, Keys en d pattern);
      match r with
      | inl _ => write [WError syntax_error]
      | inr keys => write_list keys
      end
  | _ => wrong_args
  end.

Definition handleTouch : handler := λ conn name args,
  match args with
  | [] => wrong_args
  | _ => r ← s_View (λ en d, Exists en d args); read_reply r write_int
  end.

Definition handlePersist : handler := λ conn name args,
  match args with
  | [key] => applyCommand (command "PERSIST" key [])
  | _ => wrong_args
  end.

Definition handlePTTL : handler := λ conn name args,
  match args with
  | [key] => r ← s_View (λ en d, PTTL en d key); read_reply r write_int
  | _ => wrong_args
  end.

Definition handleMSet : handler := λ conn name args,
  if (length args <? 2)%nat || Nat.odd (length args) then wrong_args_for name
  else applyCommand (command "MSET" "" args).

Definition handleMGet : handler := λ conn name args,
  match args with
  | [] => wrong_args_for name
  | _ => r ← s_View (λ en d, GetStrings en d args); read_reply r write_opts
  end.

Definition handleAppend : handler := λ conn name args,
  match args with
  | [key; val] => applyCommand (command "APPEND" key [val])
  | _ => wrong_args
  end.

Definition handleStrLen : handler := λ conn name args,
  match args with
  | [key] => r ← s_View (λ en d, StrLen en d key); read_reply r write_int
  | _ => wrong_args
  end.

Definition handleGetSet : handler := λ conn name args,
  match args with
  | [key; val] => applyCommand (command "GETSET" key [val])
  | _ => wrong_args
  end.

Definition handleIncrBy : handler := λ conn name args,
  match args with
  | [key; n] => applyCommand (command "INCRBY" key [n])
  | _ => wrong_args
  end.

Definition handleDecrBy : handler := λ conn name args,
  match args with
  | [key; n] => applyCommand (command "DECRBY" key [n])
  | _ => wrong_args
  end.

Definition handleSetEx : handler := λ conn name args,
  match args with
  | [key; secs; val] =>
      match ParseInt secs with
      | (n, None) =>
          if n <=? 0 then write [WError "ERR invalid expire time in 'setex' command"]
          else applyCommand (set_ttl (command "SET" key [val]) (wrap64 (n * 1000)))
      | _ => write [WError "ERR invalid expire time in 'setex' command"]
      end
  | _ => wrong_args
  end.

Definition handleFlushDB : handler := λ conn name args,
  match args with
  | [] => applyCommand (command "FLUSHDB" "" [])
  | [mode] =>
      if negb (String.eqb (ToUpper mode) "SYNC") && negb (String.eqb (ToUpper mode) "ASYNC")
      then write [WError syntax_error]
      else applyCommand (command "FLUSHDB" "" [])
  | _ => write [WError "ERR wrong number of arguments for 'flushdb' command"]
  end.

Definition handleIncr : handler := λ conn name args,
  match args with
  | [key] => applyCommand (command "INCR" key [])
  | _ => wrong_args
  end.

Definition handleDecr : handler := λ conn name args,
  match args with
  | [key] => applyCommand (command "DECR" key [])
  | _ => wrong_args
  end.

Definition handleExists : handler := λ conn name args,
  match args with
  | [] => wrong_args
  | _ => r ← s_View (λ en d, Exists en d args); read_reply r write_int
  end.

Definition handleExpire : handler := λ conn name args,
  match args with
  | [key; secs] =>
      match ParseInt secs with
      | (n, None) => applyCommand (set_ttl (command "EXPIRE" key []) (wrap64 (n * 1000)))
      | _ => write [WError "ERR value is not an integer"]
      end
  | _ => wrong_args
  end.

Definition handleTTL : handler := λ conn name args,
  match args with
  | [key] => r ← s_View (λ en d, TTL en d key); read_reply r write_int
  | _ => wrong_args
  end.

(** ** Hashes *)

Definition handleHSet : handler := λ conn name args,
  match args with
  | key :: fvs =>
      if (length args <? 3)%nat || Nat.even (length args) then wrong_args
      else applyCommand (command "HSET" key fvs)
  | [] => wrong_args
  end.

Definition handleHSetNX : handler := λ conn name args,
  match args with
  | [key; f; v] => applyCommand (command "HSETNX" key [f; v])
  | _ => wrong_args
  end.

Definition handleHGet : handler := λ conn name args,
  match args with
  | [key; f] => r ← s_View (λ en d, HGet en d key f); read_reply r write_opt
  | _ => wrong_args
  end.

(** The fields and their values, in the order of Go's map iteration. *)
Definition handleHGetAll : handler := λ conn name args,
  match args with
  | [key] =>
      r ← s_View (λ en d, HGetAll en d key);
      read_reply r (λ h,
        en ← clock;
        write (WArray (Z.of_nat (size h) * 2)
               :: mjoin (map (λ fv, [WBulk fv.1; WBulk fv.2]) (range_hash en h))))
  | _ => wrong_args
  end.

Definition handleHDel : handler := λ conn name args,
  match args with
  | key :: f :: fs => applyCommand (command "HDEL" key (f :: fs))
  | _ => wrong_args
  end.

Definition handleHExists : handler := λ conn name args,
  match args with
  | [key; f] => r ← s_View (λ en d, HExists en d key f); read_reply r write_int
  | _ => wrong_args
  end.

Definition handleHLen : handler := λ conn name args,
  match args with
  | [key] => r ← s_View (λ en d, HLen en d key); read_reply r write_int
  | _ => wrong_args
  end.

Definition handleHKeys : handler := λ conn name args,
  match args with
  | [key] => r ← s_View (λ en d, HKeys en d key); read_reply r write_list
  | _ => wrong_args
  end.

Definition handleHVals : handler := λ conn name args,
  match args with
  | [key] => r ← s_View (λ en d, HVals en d key); read_reply r write_list
  | _ => wrong_args
  end.

Definition handleHMGet : handler := λ conn name args,
  match args with
  | key :: f :: fs => r ← s_View (λ en d, HMGet en d key (f :: fs)); read_reply r write_opts
  | _ => wrong_args
  end.

(** ** Lists *)

(** The body that handleLPush, handleRPush, handleLPushX, handleRPushX,
    handleSAdd and handleSRem share. *)
Definition apply_many (op : string) : handler := λ conn name args,
  match args with
  | key :: a :: rest => applyCommand (command op key (a :: rest))
  | _ => wrong_args
  end.
Definition handleLPush : handler := apply_many "LPUSH".
Definition handleLPushX : handler := apply_many "LPUSHX".
Definition handleRPush : handler := apply_many "RPUSH".
Definition handleRPushX : handler := apply_many "RPUSHX".

(** handleLPop and handleRPop: an optional count. *)
Definition apply_pop (op : string) : handler := λ conn name args,
  match args with
  | [key] => applyCommand (command op key [])
  | [key; count] => applyCommand (command op key [count])
  | _ => wrong_args
  end.
Definition handleLPop : handler := apply_pop "LPOP".
Definition handleRPop : handler := apply_pop "RPOP".

Definition handleLRange : handler := λ conn name args,
  match args with
  | [key; a; b] =>
      match Atoi a, Atoi b with
      | (start, None), (stop, None) =>
          r ← s_View (λ en d, LRange en d key start stop); read_reply r write_list
      | _, _ => write [WError "ERR value is not an integer"]
      end
  | _ => wrong_args
  end.

Definition handleLLen : handler := λ conn name args,
  match args with
  | [key] => r ← s_View (λ en d, LLen en d key); read_reply r write_int
  | _ => wrong_args
  end.

Definition handleLIndex : handler := λ conn name args,
  match args with
  | [key; a] =>
      match Atoi a with
      | (index, None) => r ← s_View (λ en d, LIndex en d key index); read_reply r write_opt
      | _ => write [WError "ERR value is not an integer"]
      end
  | _ => wrong_args
  end.

Definition handleLTrim : handler := λ conn name args,
  match args with
  | [key; a; b] =>
      match Atoi a, Atoi b with
      | (_, None), (_, None) => applyCommand (command "LTRIM" key [a; b])
      | _, _ => write [WError "ERR value is not an integer"]
      end
  | _ => wrong_args
  end.

Definition handleLRem : handler := λ conn name args,
  match args with
  | [key; a; b] =>
      match Atoi a with
      | (_, None) => applyCommand (command "LREM" key [a; b])
      | _ => write [WError "ERR value is not an integer"]
      end
  | _ => wrong_args
  end.

(** ** Sets *)

Definition handleSAdd : handler := apply_many "SADD".
Definition handleSRem : handler := apply_many "SREM".

Definition handleSMembers : handler := λ conn name args,
  match args with
  | [key] => r ← s_View (λ en d, SMembers en d key); read_reply r write_list
  | _ => wrong_args
  end.

Definition handleSIsMember : handler := λ conn name args,
  match args with
  | [key; m] => r ← s_View (λ en d, SIsMember en d key m); read_reply r write_int
  | _ => wrong_args
  end.

Definition handleSCard : handler := λ conn name args,
  match args with
  | [key] => r ← s_View (λ en d, SCard en d key); read_reply r write_int
  | _ => wrong_args
  end.

Definition handleSPop : handler := λ conn name args,
  match args with
  | [key] => applyCommand (command "SPOP" key [])
  | [key; a] =>
      match Atoi a with
      | (count, None) =>
          if count <? 0 then write [WError not_integer]
          else applyCommand (command "SPOP" key [a])
      | _ => write [WError not_integer]
      end
  | _ => wrong_args
  end.

Definition handleSRandMember : handler := λ conn name args,
  match args with
  | [key] =>
      r ← s_View (λ en d, SRandMember en d key None);
      read_reply r (λ members, write_opt (head members))
  | [key; a] =>
      match Atoi a with
      | (count, None) => r ← s_View (λ en d, SRandMember en d key (Some count)); read_reply r write_list
      | _ => write [WError "ERR value is not an integer"]
      end
  | _ => wrong_args
  end.

(** The loop of SMISMEMBER: it writes as it goes and stops at an error. *)
Fixpoint smismember_loop (key : string) (members : list string) : HM unit :=
  match members with
  | [] => mret tt
  | m :: members' =>
      r ← s_View (λ en d, SIsMember en d key m);
      read_reply r (λ isMember, write [WInt isMember];; smismember_loop key members')
  end.

Definition handleSMIsMember : handler := λ conn name args,
  match args with
  | key :: m :: members =>
      write [WArray (Z.of_nat (length (m :: members)))];;
      smismember_loop key (m :: members)
  | _ => wrong_args
  end.

(** ** Lua (server/lua_handlers.go) *)

(** The checks handleEval and handleEvalSha share. *)
Definition eval_with (op what : string) : handler := λ conn name args,
  match args with
  | script :: numKeysStr :: rest =>
      match Atoi numKeysStr with
      | (numKeys, None) =>
          if numKeys <? 0 then write [WError not_integer]
          else if Z.of_nat (length rest) + 3 <? wrap64 (3 + numKeys) then
            write [WError "ERR Number of keys can't be greater than number of args"]
          else applyCommand (command op "" args)
      | _ => write [WError not_integer]
      end
  | _ => write [WError ("ERR wrong number of arguments for '" +:+ what +:+ "' command")]
  end.
Definition handleEval : handler := eval_with "EVAL" "eval".
Definition handleEvalSha : handler := eval_with "EVALSHA" "evalsha".

Definition handleScript : handler := λ conn name args,
  match args with
  | [] => write [WError "ERR wrong number of arguments for 'script' command"]
  | sub :: args =>
      let subcmd := ToUpper sub in
      if String.eqb subcmd "LOAD" then
        match args with
        | [script] => applyCommand (command "SCRIPT_LOAD" "" [script])
        | _ => write [WError "ERR wrong number of arguments for 'script|load' command"]
        end
      else if String.eqb subcmd "EXISTS" then
        match args with
        | [] => write [WError "ERR wrong number of arguments for 'script|exists' command"]
        | _ => applyCommand (command "SCRIPT_EXISTS" "" args)
        end
      else if String.eqb subcmd "FLUSH" then applyCommand (command "SCRIPT_FLUSH" "" [])
      else write [WError "ERR Unknown SCRIPT subcommand or wrong number of arguments"]
  end.

(** ** Dispatch *)

(** The handlers NewServerWithOptions registers. *)
Definition mux : list (string * handler) :=
  [("ping", handlePing); ("client", handleClient); ("set", handleSet); ("get", handleGet);
   ("del", handleDel); ("unlink", handleDel); ("type", handleType); ("keys", handleKeys);
   ("touch", handleTouch); ("persist", handlePersist); ("pttl", handlePTTL);
   ("mset", handleMSet); ("mget", handleMGet); ("flushdb", handleFlushDB);
   ("append", handleAppend); ("strlen", handleStrLen); ("getset", handleGetSet);
   ("incrby", handleIncrBy); ("decrby", handleDecrBy); ("setex", handleSetEx);
   ("incr", handleIncr); ("decr", handleDecr); ("exists", handleExists);
   ("expire", handleExpire); ("ttl", handleTTL); ("hset", handleHSet);
   ("hsetnx", handleHSetNX); ("hget", handleHGet); ("hgetall", handleHGetAll);
   ("hdel", handleHDel); ("hexists", handleHExists); ("hlen", handleHLen);
   ("hkeys", handleHKeys); ("hvals", handleHVals); ("hmget", handleHMGet);
   ("lpush", handleLPush); ("rpush", handleRPush); ("lpushx", handleLPushX);
   ("rpushx", handleRPushX); ("lpop", handleLPop); ("rpop", handleRPop);
   ("lrange", handleLRange); ("llen", handleLLen); ("lindex", handleLIndex);
   ("ltrim", handleLTrim); ("lrem", handleLRem); ("sadd", handleSAdd);
   ("smembers", handleSMembers); ("sismember", handleSIsMember); ("scard", handleSCard);
   ("srem", handleSRem); ("spop", handleSPop); ("srandmember", handleSRandMember);
   ("smismember", handleSMIsMember); ("eval", handleEval); ("evalsha", handleEvalSha);
   ("script", handleScript)].

Definition mux_handlers : gmap string handler := list_to_map mux.

(** [s.mux.ServeRESP], of redcon: dispatch on the name of the command. *)
Context (ServeRESP : gmap string handler → handler).

Definition hello_reply : string :=
  let crlf := String (Ascii.ascii_of_nat 13) (String (Ascii.ascii_of_nat 10) "") in
  String.concat crlf ["%2"; "$6"; "server"; "$5"; "redis"; "$7"; "version"; "$5"; "7.0.0"; ""].

(** Elements of a proxied array. *)
Definition item_of (item : goval) : wr :=
  match item with
  | GString s | GBytes s => WBulk s
  | GInt64 n => WInt n
  | GNil => WNull
  | v => WBulk (sprint v)
  end.

(** The reply of another node, written again. *)
Definition proxy_reply (r : do_result) : list wr :=
  match r with
  | DoNil => [WNull]
  | DoErr msg => if has_prefix "ERR" msg then [WError msg] else [WError ("ERR proxy error: " +:+ msg)]
  | DoVal (GString s) => [WBulk s]
  | DoVal (GBytes s) => [WBulk s]
  | DoVal (GInt64 n) => [WInt n]
  | DoVal (GArray l) => WArray (Z.of_nat (length l)) :: map item_of l
  | DoVal _ => [WString "OK"]
  end.

(** getClient as a handler runs it. *)
Definition s_lookup (addr : string) : HM (option client) := perform (CLookup addr).
Definition s_ensure (addr : string) : HM client := perform (CEnsure addr).
Definition s_getClient (addr : string) : HM client :=
  o ← s_lookup addr;
  match o with
  | Some c => mret c
  | None => s_ensure addr
  end.
Definition s_Do (c : client) (args : list string) : HM do_result := perform (CDo c args).

Definition handleCmd : handler := λ conn name args,
  let cmdName := ToUpper name in
  if String.eqb cmdName "HELLO" then write [WRaw hello_reply]
  else if str_in cmdName ["CLIENT"; "EVAL"; "EVALSHA"; "SCRIPT"] then
    ServeRESP mux_handlers conn name args
  else
    match args with
    | [] =>
        if str_in cmdName ["PING"; "FLUSHDB"] then ServeRESP mux_handlers conn name args
        else wrong_args_for (ToLower cmdName)
    | key :: _ =>
        let '(_, ip, isLocal) := LocateKey node_router key in
        if isLocal || String.eqb ip "" then ServeRESP mux_handlers conn name args
        else
          client ← s_getClient ip;
          res ← s_Do client (name :: args);
          write (proxy_reply res)
    end.
End server.

(** ** Joining the Raft cluster (handleRaftJoin)

    What the handler reads of Raft: whether this node leads, the servers of
    the configuration (or an error), and the result of adding a voter. *)
Section join.
Record raft_view := mkRaftView {
  is_leader : bool;
  configuration : string + list (string * string);
  AddVoter : string → string → option string;
}.

(** [http.Error] ends the body with a newline. *)
Definition http_Error (msg : string) (code : Z) : Z * string :=
  (code, msg +:+ String (Ascii.ascii_of_nat 10) "").

(** The status and body of the response, and the voter asked for, if any.
    The admin server listens before SetupRaft sets [s.raft]; a request in
    between ([None]) dereferences nil. *)
Definition handleRaftJoin (r : option raft_view) (nodeID addr : string)
    : string + (Z * string) * option (string * string) :=
  match r with
  | None => inl "nil pointer dereference"
  | Some r =>
      if negb (is_leader r) then inr (http_Error "Not the leader" 400, None)
      else
        match configuration r with
        | inl e => inr (http_Error e 500, None)
        | inr servers =>
            if existsb (λ srv, String.eqb srv.1 nodeID || String.eqb srv.2 addr) servers
            then inr ((200, ""), None)
            else
              match AddVoter r nodeID addr with
              | Some e => inr (http_Error e 500, Some (nodeID, addr))
              | None => inr ((200, ""), Some (nodeID, addr))
              end
        end
  end.
End join.
