(* ===== verification/ServerProps.v ===== *)
(** * Correctness of the server *)

From S2P Require Import Prelude Prog GoStd Badger Codec Keys Fsm FsmColl FsmApply FsmRead FsmSpec FsmSim.
From S2P Require Import Concrete FsmProps FsmReadProps Router Server.
From Stdlib Require Import Lia ZArith.

(** ** One reply per command *)

(** A complete RESP reply: a value, or an array header and its elements.  Of the
    raw ones this is the map that HELLO is answered with, two keys and their
    values. *)
Definition simple (w : wr) : bool := match w with WArray _ | WRaw _ => false | _ => true end.
Definition one_reply (ws : list wr) : bool :=
  match ws with
  | WArray n :: ws' => (n =? Z.of_nat (length ws')) && forallb simple ws'
  | [WRaw raw] => String.eqb raw hello_reply
  | [_] => true
  | _ => false
  end.

Create HintDb replies.

Section replies.
Context `{B : BadgerOps} `{C : Codec} {N : Node}.
Abbreviation HM := (prog returns).
Abbreviation handler := (nat → string → list string → HM unit).

(** *** What a handler writes, whatever runs beside it *)

Definition written (c : call) : list wr := match c with CWrite ws => ws | _ => [] end.
(** Calls return anything but an impossible clock. *)
Definition sane (c : call) : returns c → Prop :=
  match c with CClock => λ en, env_ok en | _ => λ _, True end.

(** Whatever its calls return, [p] panics or ends as [Q] says of its result and
    of all that has been written. *)
Fixpoint paths {A} (Q : A → list wr → Prop) (p : HM A) (ws : list wr) : Prop :=
  match p with
  | Ret a => Q a ws
  | Panic _ => True
  | Next c k => ∀ x, sane c x → paths Q (k x) (ws ++ written c)
  end.

Lemma paths_mono {A} (Q Q' : A → list wr → Prop) p ws :
  (∀ a ws, Q a ws → Q' a ws) → paths Q p ws → paths Q' p ws.
Proof. intros HQ. revert ws. induction p; simpl; eauto. Qed.
Lemma paths_bind {A A'} (Q : A' → list wr → Prop) (p : HM A) f ws :
  paths (λ a, paths Q (f a)) p ws → paths Q (p ≫= f) ws.
Proof. revert ws. induction p; simpl; eauto. Qed.

Lemma exec_out en c w : w_out (exec en c w).2 = w_out w ++ written c.
Proof.
  destruct c; simpl; rewrite ?app_nil_r; try done; by repeat case_match; simplify_eq.
Qed.
Lemma exec_sane en c w : env_ok en → sane c (exec en c w).1.
Proof. by destruct c. Qed.

Lemma paths_alone {A} (Q : A → list wr → Prop) p en out ws w a w' :
  env_ok en → paths Q p ws → w_out w = out ++ ws → alone en p w = (inr a, w') →
  ∃ ws', w_out w' = out ++ ws' ∧ Q a ws'.
Proof.
  intros Hen. revert ws w. induction p as [b|msg|c k IH]; intros ws w Hp Hw Hr.
  - injection Hr as -> ->. eauto.
  - done.
  - unfold alone in *. simpl in Hr. pose proof (exec_out en c w) as Ho.
    pose proof (exec_sane en c w Hen) as Hs. destruct (exec en c w) as [x w1]. simpl in *.
    eapply IH; [by apply Hp| |done]. by rewrite Ho, Hw, app_assoc.
Qed.

(** A program that writes one reply (unless it panics), or nothing. *)
Definition emits (p : HM unit) : Prop := ∀ ws,
  paths (λ _ ws', ∃ r, ws' = ws ++ r ∧ one_reply r = true) p ws.
Definition silent {A} (p : HM A) : Prop := ∀ ws, paths (λ _ ws', ws' = ws) p ws.

Lemma emits_write ws : one_reply ws = true → emits (write ws).
Proof. intros H ws' x _. simpl. eauto. Qed.
Lemma emits_panic msg : emits (Panic msg).
Proof. done. Qed.
Lemma emits_bind {A} (p : HM A) (f : A → HM unit) :
  silent p → (∀ a, emits (f a)) → emits (p ≫= f).
Proof.
  intros Hp Hf ws. apply paths_bind. eapply paths_mono; [|apply Hp]. intros a ws' ->. apply Hf.
Qed.
(** The map orders of a clock are those of a range. *)
Lemma emits_clock (f : Env → HM unit) : (∀ en, env_ok en → emits (f en)) → emits (clock ≫= f).
Proof. intros Hf ws en Hen. simpl. rewrite app_nil_r. by apply Hf. Qed.
Lemma silent_call (c : call) : written c = [] → silent (perform c).
Proof. intros Hc ws x _. simpl. by rewrite Hc, app_nil_r. Qed.
Lemma silent_bind {A A'} (p : HM A) (f : A → HM A') :
  silent p → (∀ a, silent (f a)) → silent (p ≫= f).
Proof.
  intros Hp Hf ws. apply paths_bind. eapply paths_mono; [|apply Hp]. intros a ws' ->. apply Hf.
Qed.
Lemma silent_ret {A} (a : A) : silent (mret a).
Proof. done. Qed.
Lemma silent_view {X} (R : Env → db → X) : silent (s_View R).
Proof. by apply silent_call. Qed.
Lemma silent_context conn : silent (contextForConn conn).
Proof. by apply silent_call. Qed.
Lemma silent_set_context conn ctx : silent (set_context conn ctx).
Proof. by apply silent_call. Qed.
Lemma silent_getClient addr : silent (s_getClient addr).
Proof. apply silent_bind; [by apply silent_call|]. intros []; [done|by apply silent_call]. Qed.
Lemma silent_Do c args : silent (s_Do c args).
Proof. by apply silent_call. Qed.
Lemma silent_submit c : silent (submit c).
Proof. apply silent_bind; [by apply silent_call|]. by intros [|[[]|]]. Qed.

Hint Resolve emits_panic emits_bind emits_clock silent_view silent_context silent_set_context
  silent_getClient silent_Do silent_submit : replies.

Lemma one_reply_array l (f : string → wr) :
  (∀ s, simple (f s) = true) → one_reply (WArray (Z.of_nat (length l)) :: map f l) = true.
Proof.
  intros Hf. simpl. rewrite length_map, Z.eqb_refl. simpl. by induction l; simpl; [|rewrite Hf].
Qed.
Lemma one_reply_of v : one_reply (reply_of v) = true.
Proof. destruct v; try done. by apply one_reply_array. Qed.
Lemma emits_apply c : emits (applyCommand c).
Proof.
  unfold applyCommand. apply emits_bind; [apply silent_submit|].
  intros []; apply emits_write; [done|apply one_reply_of].
Qed.
Lemma emits_read {A} (r : gerr + A) k : (∀ a, emits (k a)) → emits (read_reply r k).
Proof. intros Hk. destruct r as [[]|]; first [by apply emits_write|apply emits_panic|apply Hk]. Qed.
Lemma emits_int n : emits (write_int n).
Proof. by apply emits_write. Qed.
Lemma emits_opt o : emits (write_opt o).
Proof. apply emits_write. by destruct o. Qed.
Lemma emits_list l : emits (write_list l).
Proof. apply emits_write. by apply one_reply_array. Qed.
Lemma emits_opts l : emits (write_opts l).
Proof.
  apply emits_write. simpl. rewrite length_map, Z.eqb_refl. simpl. by induction l as [|[] l IH].
Qed.
Lemma emits_wrong : emits wrong_args.
Proof. by apply emits_write. Qed.
Lemma emits_wrong_for name : emits (wrong_args_for name).
Proof. by apply emits_write. Qed.

Hint Resolve emits_apply emits_read emits_int emits_opt emits_list emits_opts emits_wrong
  emits_wrong_for : replies.

Ltac replies_tac :=
  repeat lazymatch goal with
  | |- emits (write [_]) => apply emits_write; try done; by case_match
  | |- emits (read_reply _ _) => apply emits_read; intro
  | |- emits (clock ≫= _) => apply emits_clock; intros ? ?
  | |- emits (_ ≫= _) => apply emits_bind; [solve [auto with replies]|intro]
  | |- emits _ => first [ solve [auto with replies] | case_match ]
  end.

Lemma emits_hgetall conn name args : emits (handleHGetAll conn name args).
Proof.
  unfold handleHGetAll. destruct args as [|key [|]]; auto with replies.
  apply emits_bind; [auto with replies|]. intros r. apply emits_read. intros h.
  apply emits_clock. intros en Hen. apply emits_write.
  unfold one_reply. apply andb_true_iff. split.
  - apply Z.eqb_eq. pose proof (range_hash_spec en h Hen) as Hp. apply Permutation_length in Hp.
    rewrite length_map_to_list in Hp. rewrite <- Hp. clear.
    induction (range_hash en h) as [|x l IH]; [done|]. simpl. lia.
  - induction (range_hash en h) as [|x l IH]; done.
Qed.

Lemma emits_mux conn name args n h :
  (n, h) ∈ mux → n ≠ "smismember" → emits (h conn name args).
Proof.
  intros Hin Hn. unfold mux in Hin.
  repeat (apply elem_of_cons in Hin as [[= -> ->]|Hin]; [try done|]); [..|by apply elem_of_nil in Hin].
  all: try by apply emits_hgetall.
  all: unfold handlePing, handleClient, handleSet, handleGet, handleDel, handleType, handleKeys,
    handleTouch, handlePersist, handlePTTL, handleMSet, handleMGet, handleFlushDB, handleAppend,
    handleStrLen, handleGetSet, handleIncrBy, handleDecrBy, handleSetEx, handleIncr, handleDecr,
    handleExists, handleExpire, handleTTL, handleHSet, handleHSetNX, handleHGet, handleHDel,
    handleHExists, handleHLen, handleHKeys, handleHVals, handleHMGet, handleLPush, handleRPush,
    handleLPushX, handleRPushX, handleLPop, handleRPop, handleLRange, handleLLen, handleLIndex,
    handleLTrim, handleLRem, handleSAdd, handleSMembers, handleSIsMember, handleSCard, handleSRem,
    handleSPop, handleSRandMember, handleEval, handleEvalSha, handleScript, apply_many, apply_pop,
    eval_with.
  all: replies_tac.
Qed.

(** redcon's dispatch: the handler of the name in lower case, an error for a
    name without one. *)
Definition mux_dispatches (ServeRESP : gmap string handler → handler) : Prop :=
  ∀ hs conn name args,
    match hs !! ToLower name with
    | Some h => ServeRESP hs conn name args = h conn name args
    | None => ∃ msg, ServeRESP hs conn name args = write [WError msg]
    end.

Lemma mux_lookup name h : mux_handlers !! name = Some h → (name, h) ∈ mux.
Proof. apply elem_of_list_to_map_2. Qed.

Lemma one_proxy_reply r : one_reply (proxy_reply r) = true.
Proof.
  destruct r as [|msg|[]]; try done; simpl.
  - by destruct (has_prefix "ERR" msg).
  - rewrite length_map, Z.eqb_refl. simpl. induction l as [|[] l IH]; done.
Qed.

Lemma emits_handleCmd ServeRESP conn name args :
  mux_dispatches ServeRESP → ToLower name ≠ "smismember" →
  emits (handleCmd ServeRESP conn name args).
Proof.
  intros Hmux Hn.
  assert (Hserve : emits (ServeRESP mux_handlers conn name args)).
  { specialize (Hmux mux_handlers conn name args).
    destruct (mux_handlers !! ToLower name) as [h|] eqn:Hh.
    - rewrite Hmux. eapply emits_mux; [by apply mux_lookup|done].
    - destruct Hmux as [msg ->]. by apply emits_write. }
  unfold handleCmd. destruct (String.eqb _ "HELLO"); [by apply emits_write|].
  repeat (case_match; auto with replies).
  apply emits_bind; [auto with replies|]. intros c. apply emits_bind; [auto with replies|].
  intros res. apply emits_write, one_proxy_reply.
Qed.

(** Every command but SMISMEMBER gets exactly one complete RESP reply,
    whatever its arguments, errors and proxied commands included: an array
    header is followed by as many values as it announces. *)
Theorem handleCmd_replies_once ServeRESP en conn name args w w' :
  mux_dispatches ServeRESP → env_ok en → ToLower name ≠ "smismember" →
  alone en (handleCmd ServeRESP conn name args) w = (inr tt, w') →
  ∃ ws, w_out w' = w_out w ++ ws ∧ one_reply ws = true.
Proof.
  intros Hmux Hen Hn Hrun. pose proof (emits_handleCmd ServeRESP conn name args Hmux Hn []) as H.
  eapply paths_alone in H as (ws & Hw & r & -> & Hr); [|done|by rewrite app_nil_r|done]. eauto.
Qed.

(** ** Reading commands *)

Definition submitting (c : call) : bool := match c with CSubmit _ => true | _ => false end.
(** No path submits a command. *)
Fixpoint keeps {A} (p : HM A) : Prop :=
  match p with
  | Next c k => submitting c = false ∧ ∀ x, keeps (k x)
  | _ => True
  end.

Lemma keeps_bind {A A'} (p : HM A) (f : A → HM A') :
  keeps p → (∀ a, keeps (f a)) → keeps (p ≫= f).
Proof. intros Hp Hf. induction p; simpl in *; [done..|]. naive_solver. Qed.
Lemma keeps_call (c : call) : submitting c = false → keeps (perform c).
Proof. by split. Qed.
Lemma exec_keeps en c w : submitting c = false → w_db (exec en c w).2 = w_db w.
Proof. by destruct c; simpl; repeat case_match; simplify_eq. Qed.
Lemma keeps_alone {A} en (p : HM A) w : keeps p → w_db (alone en p w).2 = w_db w.
Proof.
  revert w. induction p as [a|msg|c k IH]; intros w; [done..|]. intros [Hc Hk].
  unfold alone in *. simpl. pose proof (exec_keeps en c w Hc) as Hw.
  destruct (exec en c w) as [x w1]. simpl in Hw. by rewrite IH.
Qed.
Lemma keeps_write ws : keeps (write ws).
Proof. by apply keeps_call. Qed.
Lemma keeps_ret {A} (a : A) : keeps (mret a).
Proof. done. Qed.
Lemma keeps_panic {A} msg : keeps (Panic (A := A) msg).
Proof. done. Qed.
Lemma keeps_view {X} (R : Env → db → X) : keeps (s_View R).
Proof. by apply keeps_call. Qed.
Lemma keeps_clock : keeps clock.
Proof. by apply keeps_call. Qed.
Lemma keeps_context conn : keeps (contextForConn conn).
Proof. by apply keeps_call. Qed.
Lemma keeps_set_context conn ctx : keeps (set_context conn ctx).
Proof. by apply keeps_call. Qed.
Lemma keeps_getClient addr : keeps (s_getClient addr).
Proof. apply keeps_bind; [by apply keeps_call|]. intros []; [done|by apply keeps_call]. Qed.
Lemma keeps_Do c args : keeps (s_Do c args).
Proof. by apply keeps_call. Qed.
Lemma keeps_read {A} (r : gerr + A) k : (∀ a, keeps (k a)) → keeps (read_reply r k).
Proof. intros Hk. destruct r as [[]|]; first [apply keeps_write|done|apply Hk]. Qed.
Hint Resolve keeps_write keeps_ret keeps_panic keeps_view keeps_clock keeps_context keeps_set_context
  keeps_getClient keeps_Do keeps_read : replies.
Lemma keeps_smismember key ms : keeps (smismember_loop key ms).
Proof.
  induction ms as [|m ms IH]; cbn [smismember_loop]; [done|].
  apply keeps_bind; [auto with replies|]. intros r. apply keeps_read. intros n.
  apply keeps_bind; auto with replies.
Qed.
Hint Resolve keeps_smismember : replies.

(** The commands that only read. *)
Definition reading : list string :=
  ["ping"; "client"; "get"; "type"; "keys"; "touch"; "pttl"; "mget"; "strlen"; "exists"; "ttl";
   "hget"; "hgetall"; "hexists"; "hlen"; "hkeys"; "hvals"; "hmget"; "lrange"; "llen"; "lindex";
   "smembers"; "sismember"; "scard"; "srandmember"; "smismember"].

Ltac keeps_tac :=
  repeat lazymatch goal with
  | |- keeps (read_reply _ _) => apply keeps_read; intro
  | |- keeps (_ ≫= _) => apply keeps_bind; [|intro]
  | |- keeps _ => first [ solve [auto with replies] | apply keeps_write | case_match ]
  end.

Lemma keeps_mux conn name args n h :
  (n, h) ∈ mux → n ∈ reading → keeps (h conn name args).
Proof.
  intros Hin Hn. unfold mux in Hin.
  repeat (apply elem_of_cons in Hin as [[= -> ->]|Hin]); [..|by apply elem_of_nil in Hin].
  all: try by (apply str_in_spec in Hn; vm_compute in Hn).
  all: unfold handlePing, handleClient, handleGet, handleType, handleKeys,
    handleTouch, handlePTTL, handleMGet, handleStrLen,
    handleExists, handleTTL, handleHGet, handleHGetAll,
    handleHExists, handleHLen, handleHKeys, handleHVals, handleHMGet,
    handleLRange, handleLLen, handleLIndex, handleSMembers, handleSIsMember, handleSCard,
    handleSRandMember, handleSMIsMember.
  all: keeps_tac.
Qed.

Lemma keeps_handleCmd ServeRESP conn name args :
  mux_dispatches ServeRESP → ToLower name ∈ reading → keeps (handleCmd ServeRESP conn name args).
Proof.
  intros Hmux Hn.
  assert (Hserve : keeps (ServeRESP mux_handlers conn name args)).
  { specialize (Hmux mux_handlers conn name args).
    destruct (mux_handlers !! ToLower name) as [h|] eqn:Hh.
    - rewrite Hmux. eapply keeps_mux; [by apply mux_lookup|done].
    - destruct Hmux as [msg ->]. apply keeps_write. }
  unfold handleCmd, wrong_args_for. repeat (case_match; auto with replies).
  apply keeps_bind; [auto with replies|]. intros c. apply keeps_bind; auto with replies.
Qed.

(** C25: A reading command leaves the database of the node as it was,
    whatever its arguments and its outcome. *)
Theorem handleCmd_reads ServeRESP en conn name args w :
  mux_dispatches ServeRESP → ToLower name ∈ reading →
  w_db (alone en (handleCmd ServeRESP conn name args) w).2 = w_db w.
Proof. intros Hmux Hn. by apply keeps_alone, keeps_handleCmd. Qed.
End replies.
