(* ===== verification/ServerRefine.v ===== *)
(** * The server implements the abstract Redis *)

From S2P Require Import Prelude Prog GoStd Badger Codec Keys Fsm FsmColl FsmApply FsmRead FsmSpec FsmSim.
From S2P Require Import Concrete FsmProps FsmReadProps FsmTtl Router Server ServerProps.
From Stdlib Require Import Lia ZArith.

Section refine.
Context `{B : BadgerOps} {L : BadgerLaws B} `{C : Codec} {CL : CodecLaws C} {N : Node}.
Implicit Types (m : rstate) (en : Env) (w : world).

(** Raft answers with what the state machine answers to the entry; it may
    also fail (no leader, a timeout), and then says nothing of the state. *)
Definition raft_faithful : Prop := ∀ f, raft = Some f → ∀ en data d,
  match f en data d with
  | (inr res, d') => Apply handleLua en d data = (res, d')
  | (inl _, _) => True
  end.

(** The node works on a store that represents [m]. *)
Definition node_ok en w m : Prop :=
  raft_faithful ∧ commits ∧ dhealthy (w_db w) ∧ Sim (now en) (dview (w_db w)) m.

(** Raft fails, or hands on what the state machine does. *)
Lemma raft_submit_cases en c d res d' :
  raft_faithful → Apply handleLua en d (enc_cmd c) = (res, d') →
  (∃ f e d1, raft = Some f ∧ f en (enc_cmd c) d = (inl e, d1) ∧ raft_submit en c d = (inl e, d1))
  ∨ raft_submit en c d = (inr res, d').
Proof.
  intros Hraft Ha. unfold raft_submit. destruct raft as [f|] eqn:Hf; [|rewrite Ha; by right].
  specialize (Hraft f Hf en (enc_cmd c) d).
  destruct (f en (enc_cmd c) d) as [[e|r] d1] eqn:He; [by left; exists f, e, d1|].
  right. rewrite Hraft in Ha. by injection Ha as -> ->.
Qed.

(** Raft fails, or the state machine answers as the abstract Redis and moves to
    its next state. *)
Lemma raft_submit_refines en c w m :
  node_ok en w m → env_ok en → supported m c → accepted c →
  (∃ f e d', raft = Some f ∧ f en (enc_cmd c) (w_db w) = (inl e, d')
     ∧ raft_submit en c (w_db w) = (inl e, d'))
  ∨ ∃ d', raft_submit en c (w_db w) = (inr (spec_apply en c m).1, d')
      ∧ dhealthy d' ∧ Sim (now en) (dview d') (spec_apply en c m).2.
Proof.
  intros (Hraft & Hcom & Hd & Hs) Hen Hop Hacc.
  destruct (Apply_supported handleLua en c (w_db w) m) as (d' & Hr & Hd' & Hs'); [done..|].
  destruct (raft_submit_cases _ _ _ _ _ Hraft Hr); eauto 10.
Qed.

Lemma handleSet_plain en conn name k v w :
  alone en (handleSet conn name [k; v]) w =
  let '(r, d) := raft_submit en (command "SET" k [v]) (w_db w) in
  let w' := mkWorld d (w_ctx w) (w_pool w) (w_out w) in
  match r with
  | inl e => alone en (write [WError ("ERR " +:+ e)]) w'
  | inr (inl (EPanic msg)) => (inl msg, w')
  | inr (inl e) => alone en (write [WError ("ERR " +:+ err_text e)]) w'
  | inr (inr GNil) => alone en (write [WNull]) w'
  | inr (inr _) => alone en (write [WString "OK"]) w'
  end.
Proof.
  unfold handleSet, submit, alone, clock. simpl.
  by destruct (raft_submit en _ (w_db w)) as [[|[[]|[]]] d].
Qed.

Lemma spec_set_plain en k v m :
  spec_apply en (command "SET" k [v]) m =
  match m !! k with
  | None | Some (RStr _, _) => (inr (GString "OK"), <[k := (RStr v, 0)]> m)
  | _ => (inl EWrongType, m)
  end.
Proof. unfold spec_apply, spec_set. simpl. by destruct (m !! k) as [[[] ?]|]. Qed.

(** C13: An acknowledged SET is visible: once SET k v has answered OK, GET k
    on that node, at any later instant, answers v. *)
Theorem set_get_roundtrip en1 en2 conn1 conn2 name1 name2 k v w w1 m :
  node_ok en1 w m → env_ok en1 → writable k → now en1 <= now en2 → v ≠ "" →
  alone en1 (handleSet conn1 name1 [k; v]) w = (inr tt, w1) → w_out w1 = w_out w ++ [WString "OK"] →
  ∃ w2, alone en2 (handleGet conn2 name2 [k]) w1 = (inr tt, w2) ∧ w_out w2 = w_out w1 ++ [WBulk v].
Proof.
  intros Hok Hen Hw Hle Hv Hset Hout. rewrite handleSet_plain in Hset.
  destruct (raft_submit_refines en1 (command "SET" k [v]) w m Hok Hen (or_introl eq_refl))
    as [(f & e & d' & _ & _ & Hr)|(d' & Hr & Hd & Hs)].
  { split; [|done]. intros k' ->%list_elem_of_singleton. done. }
  { exfalso. rewrite Hr in Hset. injection Hset as <-. simpl in Hout. by apply app_inv_head in Hout. }
  rewrite spec_set_plain in Hr, Hs.
  assert (Hdb : Sim (now en1) (dview d') (<[k := (RStr v, 0)]> m) ∧ w_db w1 = d').
  { destruct (m !! k) as [[[] ?]|]; simpl in Hr, Hs; rewrite Hr in Hset; injection Hset as <-;
      simpl in Hout; first [done|by apply app_inv_head in Hout]. }
  destruct Hdb as [Hs' Hdb]. apply (Sim_expire _ (now en2)) in Hs'; [|done].
  pose proof (read_string en2 d' _ k Hd Hs') as Hget.
  assert (expire (now en2) (<[k := (RStr v, 0)]> m) !! k = Some (RStr v, 0)) as Hk.
  { apply map_lookup_filter_Some. by rewrite lookup_insert_eq. }
  rewrite Hk in Hget. destruct Hget as (o & Ho & Ho').
  destruct o as [s|]; simpl in Ho'; subst; [|done].
  eexists. unfold alone. simpl. rewrite Ho. by simpl.
Qed.
End refine.

(** ** The options of SET *)

Inductive ttl_kind := KEX | KPX | KEXAT | KPXAT.
Inductive set_opt := ONX | OXX | OGET | OTTL (kind : ttl_kind) (n : Z).

Definition kind_name (k : ttl_kind) : string :=
  match k with KEX => "EX" | KPX => "PX" | KEXAT => "EXAT" | KPXAT => "PXAT" end.

(** How a client may write an option: the name in any case, a number as the
    integer parser of Go reads it. *)
Inductive spells : set_opt → list string → Prop :=
  | spells_NX s : ToUpper s = "NX" → spells ONX [s]
  | spells_XX s : ToUpper s = "XX" → spells OXX [s]
  | spells_GET s : ToUpper s = "GET" → spells OGET [s]
  | spells_TTL k n s a :
      ToUpper s = kind_name k → ParseInt a = (n, None) → spells (OTTL k n) [s; a].

(** The TTL in milliseconds; an instant that has passed stands for the
    shortest TTL. *)
Definition ttl_of (en : Env) (k : ttl_kind) (n : Z) : Z :=
  let remaining at_ms :=
    let ttl := wrap64 (at_ms - UnixMilli (now en)) in if ttl <? 0 then 1 else ttl in
  match k with
  | KEX => wrap64 (n * 1000)
  | KPX => n
  | KEXAT => remaining (wrap64 (n * 1000))
  | KPXAT => remaining n
  end.

Definition with_opt (en : Env) (c : Command) (o : set_opt) : Command :=
  match o with
  | ONX => set_cond c "NX"
  | OXX => set_cond c "XX"
  | OGET => set_get c
  | OTTL k n => set_ttl c (ttl_of en k n)
  end.

Lemma opt_ttl_name en k : opt_ttl en (kind_name k) = Some (ttl_of en k).
Proof. by destruct k. Qed.

Lemma opt_ttl_Some en opt f : opt_ttl en opt = Some f → ∃ k, opt = kind_name k ∧ f = ttl_of en k.
Proof.
  unfold opt_ttl. intros H.
  repeat match type of H with
  | context [String.eqb ?a ?b] => destruct (String.eqb_spec a b) as [->|]
  end; simplify_eq; [by exists KEX|by exists KPX|by exists KEXAT|by exists KPXAT].
Qed.

(** One turn of the loop. *)
Lemma set_options_step en o ws rest c :
  spells o ws → set_options en (ws ++ rest) c = set_options en rest (with_opt en c o).
Proof.
  intros H. destruct H as [s Hs|s Hs|s Hs|k n s a Hs Ha]; cbn [app set_options]; rewrite Hs; [done..|].
  assert (∀ t, t = kind_name k → (String.eqb t "NX" || String.eqb t "XX" || String.eqb t "GET") = false)
    as Hk by (intros t ->; by destruct k).
  specialize (Hk _ eq_refl). rewrite !orb_false_iff in Hk. destruct Hk as [[-> ->] ->].
  by rewrite opt_ttl_name, Ha.
Qed.

(** C26: The option parser of SET accepts exactly the sequences of NX, XX, GET,
    EX n, PX n, EXAT n and PXAT n, in any case, order, number and mixture, and
    the command it builds has the effect of each option in turn, so that of
    several conditions or several lifetimes the last one counts.  The README,
    like Redis, has NX and XX as alternatives, and the four lifetimes too: see
    [set_accepts_alternatives]. *)
Theorem set_options_grammar en opts c c' :
  set_options en opts c = inr c' ↔
  ∃ os wss, Forall2 spells os wss ∧ opts = mjoin wss ∧ c' = foldl (with_opt en) c os.
Proof.
  split.
  - revert c. induction opts as [opts IH] using (Wf_nat.induction_ltof1 _ length).
    unfold Wf_nat.ltof in IH. intros c. destruct opts as [|o opts].
    { intros [= <-]. by exists [], []. }
    assert (Hstep : ∀ so ws rest, o :: opts = ws ++ rest → spells so ws →
      set_options en (o :: opts) c = inr c' →
      ∃ os wss, Forall2 spells os wss ∧ o :: opts = mjoin wss ∧ c' = foldl (with_opt en) c os).
    { intros so ws rest Heq Hso Hr. rewrite Heq, (set_options_step en so) in Hr by done.
      apply IH in Hr as (os & wss & Hos & -> & ->).
      - exists (so :: os), (ws :: wss). split; [by constructor|]. by rewrite Heq.
      - rewrite Heq, length_app. destruct Hso; simpl; lia. }
    intros Hr. pose proof Hr as Hr'. cbn [set_options] in Hr'.
    destruct (String.eqb_spec (ToUpper o) "NX"); [by eapply (Hstep ONX [o]); [..|done]; [|constructor]|].
    destruct (String.eqb_spec (ToUpper o) "XX"); [by eapply (Hstep OXX [o]); [..|done]; [|constructor]|].
    destruct (String.eqb_spec (ToUpper o) "GET"); [by eapply (Hstep OGET [o]); [..|done]; [|constructor]|].
    destruct (opt_ttl en (ToUpper o)) as [f|] eqn:Hf; [|done].
    apply opt_ttl_Some in Hf as (k & Hk & ->). destruct opts as [|a opts]; [done|].
    destruct (ParseInt a) as [v [|]] eqn:Ha; [done|].
    by eapply (Hstep (OTTL k v) [o; a]); [..|done]; [|constructor].
  - intros (os & wss & Hos & -> & ->). revert c. induction Hos as [|o ws os wss Ho Hos IH]; intros c; [done|].
    simpl. rewrite (set_options_step en o) by done. apply IH.
Qed.

(** Options that the README has as alternatives are accepted together. *)
Theorem set_accepts_alternatives en c n n' :
  in_int64 n → in_int64 n' →
  set_options en ["NX"; "XX"] c = inr (set_cond (set_cond c "NX") "XX")
  ∧ set_options en ["EX"; FormatInt n; "PXAT"; FormatInt n'] c
    = inr (set_ttl (set_ttl c (ttl_of en KEX n)) (ttl_of en KPXAT n')).
Proof.
  intros Hn Hn'. split; [done|].
  rewrite (set_options_step en (OTTL KEX n) ["EX"; FormatInt n] ["PXAT"; FormatInt n'])
    by (constructor; [done|by apply ParseInt_FormatInt]).
  rewrite (set_options_step en (OTTL KPXAT n') ["PXAT"; FormatInt n'] [])
    by (constructor; [done|by apply ParseInt_FormatInt]).
  done.
Qed.

(** ** A concrete node *)

Section concrete.
#[local] Existing Instances B0 L0 C0 CL0.

(** A node that is a Raft group by itself: an entry is committed and applied at
    once.  Its peers answer PONG. *)
#[local] Instance N0 : Node := {|
  handleLua := noLua;
  raft := Some (λ en data d, let '(res, d') := Apply noLua en d data in (inr res, d'));
  remoteAddr _ := "10.0.0.9:5000";
  client_Do _ _ _ := DoVal (GString "PONG");
  node_addr := ":6379";
  node_router := NewRouter SlotMap.NewSlotMap "node-1";
|}.

Definition world0 (d : @db B0) : world := mkWorld d ∅ (mkPool ∅ 0) [].

Definition serve0 (hs : gmap string (nat → string → list string → prog returns unit)) :
    nat → string → list string → prog returns unit := λ conn name args,
  match hs !! ToLower name with
  | Some h => h conn name args
  | None => write [WError ("ERR unknown command '" +:+ ToLower name +:+ "'")]
  end.

Lemma serve0_dispatches : mux_dispatches serve0.
Proof. intros hs conn name args. unfold serve0. by destruct (hs !! ToLower name); [|eexists]. Qed.

Lemma node_ok0 en : node_ok en (world0 db0) state0.
Proof.
  split; [|split; [apply commits0|split; [done|apply Sim_store0]]].
  intros f [= <-] en' data d. destruct (Apply noLua en' d data) as [res d'] eqn:E. exact E.
Qed.

(** One command from a client, on a fresh reply. *)
Definition serve (t : Z) (d : @db B0) (req : list string) : (string + list wr) * @db B0 :=
  match req with
  | [] => (inr [], d)
  | name :: args =>
      match alone (en0 t) (handleCmd serve0 1%nat name args) (world0 d) with
      | (inl msg, w) => (inl msg, w_db w)
      | (inr _, w) => (inr (w_out w), w_db w)
      end
  end.

(** SMISMEMBER writes its array header before it knows whether the key holds
    a set: on a string, the reply announces two elements and has one. *)
Theorem smismember_incomplete :
  (serve 0 db0 ["SMISMEMBER"; "str"; "a"; "b"]).1
  = inr [WArray 2; WError "WRONGTYPE Operation against a key holding the wrong kind of value"]
  ∧ one_reply [WArray 2; WError "WRONGTYPE Operation against a key holding the wrong kind of value"]
    = false.
Proof. vm_compute. done. Qed.

(** SRANDMEMBER with the least integer as its count panics: the length of
    the slice it makes is negative. *)
Theorem srandmember_panics :
  (serve 0 db0 ["SRANDMEMBER"; "set"; "-9223372036854775808"]).1
  = inl "makeslice: len out of range".
Proof. vm_compute. done. Qed.

(** SET with PXAT at the current millisecond, or with EX 0, answers OK and
    leaves a key that never expires. *)
Theorem set_without_expiry :
  let r1 := serve (3 * second) db0 ["SET"; "k"; "v"; "PXAT"; "3000"] in
  let r2 := serve (3 * second) db0 ["SET"; "k"; "v"; "EX"; "0"] in
  r1.1 = inr [WString "OK"] ∧ (serve (3 * second) r1.2 ["PTTL"; "k"]).1 = inr [WInt (-1)]
  ∧ r2.1 = inr [WString "OK"] ∧ (serve (3 * second) r2.2 ["PTTL"; "k"]).1 = inr [WInt (-1)].
Proof. vm_compute. done. Qed.

(** The error of a write on a key of another type has the code ERR, that of
    a read WRONGTYPE. *)
Theorem wrongtype_codes :
  let wrong := "WRONGTYPE Operation against a key holding the wrong kind of value" in
  (serve 0 db0 ["LPUSH"; "str"; "a"]).1 = inr [WError ("ERR " +:+ wrong)]
  ∧ (serve 0 db0 ["LRANGE"; "str"; "0"; "1"]).1 = inr [WError wrong].
Proof. vm_compute. done. Qed.

(** MGET does not look at the types of its keys: it answers the encoded list
    where Redis answers nil. *)
Theorem mget_raw :
  (serve 0 db0 ["MGET"; "list"]).1 = inr [WArray 1; WBulk (encodeMsgpack list0)].
Proof. vm_compute. done. Qed.

(** *** The theorems at concrete inputs *)

(** The node after SET str new. *)
Definition world1 : world := (alone (en0 0) (handleSet 1%nat "SET" ["str"; "new"]) (world0 db0)).2.

Lemma set_get_roundtrip_witness :
  ∃ w2, alone (en0 second) (handleGet 2%nat "GET" ["str"]) world1 = (inr tt, w2)
    ∧ w_out w2 = w_out world1 ++ [WBulk "new"].
Proof.
  refine (set_get_roundtrip (en0 0) (en0 second) 1%nat 2%nat "SET" "GET" "str" "new" (world0 db0)
    world1 state0 (node_ok0 _) _ _ _ _ _ _).
  - by apply en0_ok.
  - apply writable0. simpl. lia.
  - done.
  - done.
  - apply pair_fst. vm_compute. reflexivity.
  - vm_compute. reflexivity.
Defined.

Lemma handleCmd_replies_once_witness : ∃ ws,
  w_out (alone (en0 0) (handleCmd serve0 1%nat "HGETALL" ["hash"]) (world0 db0)).2 = [] ++ ws
  ∧ one_reply ws = true.
Proof.
  apply (handleCmd_replies_once serve0 (en0 0) 1%nat "HGETALL" ["hash"] (world0 db0)).
  - apply serve0_dispatches.
  - by apply en0_ok.
  - vm_compute. done.
  - apply pair_fst. vm_compute. reflexivity.
Defined.

Lemma handleCmd_reads_witness :
  w_db (alone (en0 0) (handleCmd serve0 1%nat "LRange" ["list"; "0"; "-1"]) (world0 db0)).2 = db0.
Proof.
  apply (handleCmd_reads serve0 (en0 0) 1%nat "LRange" ["list"; "0"; "-1"] (world0 db0)).
  - apply serve0_dispatches.
  - apply str_in_spec. vm_compute. reflexivity.
Defined.
End concrete.
