(* ===== verification/ServerSpec.v ===== *)
(** * What a client sees: an abstract Redis server

    A table gives for each command its arguments and what it stands for: a
    reply, a command that is submitted, or a question about the state.  The
    answers are those of the abstract state of FsmSpec.v; where Redis leaves
    the order of a reply open, any order will do.  ServerCmds.v shows that the
    handlers of server/server.go implement the table. *)

From S2P Require Import Prelude GoStd Badger Codec Glob Fsm FsmSpec FsmRead FsmProps FsmReadProps Router.
From S2P Require Import Server.
From Stdlib Require Import Lia ZArith.

Inductive query :=
  | QGet (k : string)
  | QMGet (ks : list string)
  | QStrLen (k : string)
  | QType (k : string)
  | QExists (ks : list string)
  | QKeys (pattern : string)
  | QTTL (k : string)
  | QPTTL (k : string)
  | QHGet (k f : string)
  | QHMGet (k : string) (fs : list string)
  | QHGetAll (k : string)
  | QHExists (k f : string)
  | QHLen (k : string)
  | QHKeys (k : string)
  | QHVals (k : string)
  | QLRange (k : string) (start stop : Z)
  | QLLen (k : string)
  | QLIndex (k : string) (i : Z)
  | QSMembers (k : string)
  | QSIsMember (k x : string)
  | QSMIsMember (k : string) (xs : list string)
  | QSCard (k : string)
  | QSRandMember (k : string) (count : option Z).

(** [Submit] gets the answer of the state machine as it is, [SubmitSet] with
    the reply of SET; [Unknown] is a command without a handler. *)
Inductive request :=
  | Reply (a : wr)
  | Submit (c : Command)
  | SubmitSet (c : Command)
  | Ask (q : query)
  | Unknown.

(** ** The answers *)

Section answers.
Context `{B : BadgerOps}.
Implicit Types (m : rstate) (en : Env).

Definition bulk (o : option string) : wr := match o with Some s => WBulk s | None => WNull end.
Definition array (l : list wr) : list wr := WArray (Z.of_nat (length l)) :: l.
Definition fails (e : gerr) (ws : list wr) : Prop := ws = [WError (err_text e)].

(** The bytes of a string; the store may give no slice at all for the empty
    string, which is then answered as nil. *)
Definition string_reply (s : string) (a : wr) : Prop := a = WBulk s ∨ s = "" ∧ a = WNull.

(** Some answer on a value, or the error of a value of another type. *)
Definition on {A} (r : gerr + A) (P : A → list wr → Prop) (ws : list wr) : Prop :=
  match r with inl e => fails e ws | inr a => P a ws end.

Definition ttl_reply (remaining : Z → Z) (now : Z) (o : option (rval * Z)) : Z :=
  match o with
  | None => -2
  | Some (_, exp) =>
      if exp =? 0 then -1
      else let ttl := remaining (exp * second - now) in if ttl <? 0 then -2 else ttl
  end.

Definition replies en m (q : query) (ws : list wr) : Prop :=
  match q with
  | QGet k => on (as_string (m !! k)) (λ o ws,
      match o with
      | None => ws = [WNull]
      | Some s => ∃ a, string_reply s a ∧ ws = [a]
      end) ws
  | QMGet ks => ∃ l, ws = array l
      ∧ Forall2 (λ k a, match m !! k with
                        | Some (RStr s, _) => string_reply s a
                        | _ => a = WNull
                        end) ks l
  | QStrLen k => on (as_string (m !! k)) (λ o ws,
      ws = [WInt (Z.of_nat (String.length (default "" o)))]) ws
  | QType k => ws = [WString (from_option (type_name ∘ fst) "none" (m !! k))]
  | QExists ks => ws = [WInt (Z.of_nat (length (filter (λ k, is_Some (m !! k)) ks)))]
  | QKeys p =>
      (ws = [WError syntax_error] ∧ ¬ glob_wf p)
      ∨ ∃ l, ws = array (WBulk <$> l) ∧ NoDup l ∧ ∀ k, k ∈ l ↔ is_Some (m !! k) ∧ glob p k
  | QTTL k => ws = [WInt (ttl_reply Duration_Seconds_int64 (now en) (m !! k))]
  | QPTTL k => ws = [WInt (ttl_reply Duration_Milliseconds (now en) (m !! k))]
  | QHGet k f => on (as_hash (m !! k)) (λ h ws, ws = [bulk (h !! f)]) ws
  | QHMGet k fs => on (as_hash (m !! k)) (λ h ws, ws = array ((λ f, bulk (h !! f)) <$> fs)) ws
  | QHGetAll k => on (as_hash (m !! k)) (λ h ws, ∃ l, l ≡ₚ map_to_list h
      ∧ ws = array (fv ← l; [WBulk fv.1; WBulk fv.2])) ws
  | QHExists k f => on (as_hash (m !! k)) (λ h ws,
      ws = [WInt (if bool_decide (f ∈ dom h) then 1 else 0)]) ws
  | QHLen k => on (as_hash (m !! k)) (λ h ws, ws = [WInt (Z.of_nat (size (dom h)))]) ws
  | QHKeys k => on (as_hash (m !! k)) (λ h ws, ∃ l, l ≡ₚ map_to_list h
      ∧ ws = array (WBulk <$> l.*1)) ws
  | QHVals k => on (as_hash (m !! k)) (λ h ws, ∃ l, l ≡ₚ map_to_list h
      ∧ ws = array (WBulk <$> l.*2)) ws
  | QLRange k start stop => on (as_list (m !! k)) (λ l ws,
      ws = array (WBulk <$> sliceList l start stop)) ws
  | QLLen k => on (as_list (m !! k)) (λ l ws, ws = [WInt (Z.of_nat (length l))]) ws
  | QLIndex k i => on (as_list (m !! k)) (λ l ws, ws = [bulk (element i l)]) ws
  | QSMembers k => on (as_set (m !! k)) (λ s ws, ∃ l, l ≡ₚ elements s
      ∧ ws = array (WBulk <$> l)) ws
  | QSIsMember k x => on (as_set (m !! k)) (λ s ws,
      ws = [WInt (if bool_decide (x ∈ s) then 1 else 0)]) ws
  | QSMIsMember k xs => on (as_set (m !! k)) (λ s ws,
      ws = array ((λ x, WInt (if bool_decide (x ∈ s) then 1 else 0)) <$> xs)) ws
  | QSCard k => on (as_set (m !! k)) (λ s ws, ws = [WInt (Z.of_nat (size s))]) ws
  | QSRandMember k None => on (as_set (m !! k)) (λ s ws,
      (s = ∅ ∧ ws = [WNull]) ∨ ∃ x, x ∈ s ∧ ws = [WBulk x]) ws
  | QSRandMember k (Some count) => on (as_set (m !! k)) (λ s ws,
      ∃ l, random_members s count l ∧ ws = array (WBulk <$> l)) ws
  end.

(** The requests the program does not answer so are excluded: EXPIRE and MGET
    of a collection, SMISMEMBER of a key of another type, SRANDMEMBER with the
    least integer, and the TTL of a key that expires after the last instant of
    an [int64] of nanoseconds. *)
Definition representable m k : Prop :=
  ∀ r exp, m !! k = Some (r, exp) → exp * second <= max_int64.
Definition regular m (req : request) : Prop :=
  match req with
  | Submit c | SubmitSet c =>
      Op c = "EXPIRE" → ∀ r exp, m !! Key c = Some (r, exp) → type_name r = "string"
  | Ask (QMGet ks) => Forall (λ k, ∃ o, as_string (m !! k) = inr o) ks
  | Ask (QSMIsMember k _) => ∃ s, as_set (m !! k) = inr s
  | Ask (QSRandMember _ (Some count)) => min_int64 < count
  | Ask (QTTL k) | Ask (QPTTL k) => representable m k
  | _ => True
  end.

(** The RESP reply for an answer of the state machine: nil, a status, a bulk
    string, an integer, or an array of replies. *)
Fixpoint resp (v : goval) : list wr :=
  match v with
  | GNil => [WNull]
  | GString status => [WString status]
  | GBytes b => [WBulk b]
  | GInt n | GInt64 n => [WInt n]
  | GStrings l => WArray (Z.of_nat (length l)) :: (WBulk <$> l)
  | GInt64s l => WArray (Z.of_nat (length l)) :: (WInt <$> l)
  | GArray l => WArray (Z.of_nat (length l)) :: flat_map resp l
  end.

(** The answers that applyCommand has a case for.  The others, the list of
    SCRIPT EXISTS and the tables of scripts, it answers with OK. *)
Definition has_reply (v : goval) : bool :=
  match v with GInt64s _ | GArray _ => false | _ => true end.

Definition set_reply (c : Command) (v : goval) : list wr :=
  match v with
  | GNil => [WNull]
  | GBytes b => if ReturnOld c then [WBulk b] else [WString "OK"]
  | _ => if ReturnOld c then [WNull] else [WString "OK"]
  end.

Definition submitted (reply : goval → list wr) (r : gerr + goval) : list wr :=
  match r with
  | inl e => [WError ("ERR " +:+ err_text e)]
  | inr v => reply v
  end.

(** The answer to a request, and the state after it. *)
Definition answer en m (req : request) (ws : list wr) : Prop :=
  match req with
  | Reply a => ws = [a]
  | Submit c => ws = submitted resp (spec_apply en c m).1
  | SubmitSet c => ws = submitted (set_reply c) (spec_apply en c m).1
  | Ask q => replies en m q ws
  | Unknown => ∃ msg, ws = [WError msg]
  end.
Definition next en (req : request) m : rstate :=
  match req with
  | Submit c | SubmitSet c => (spec_apply en c m).2
  | _ => m
  end.

(** ** The commands *)

(** What a command stands for, from the clock, the name the client sent and
    the arguments. *)
Abbreviation meaning := (Env → string → list string → option request).

Definition bad_args (_ : string) : request := Reply (WError "ERR wrong number of arguments").
Definition bad_args_for (name : string) : request :=
  Reply (WError ("ERR wrong number of arguments for '" +:+ name +:+ "' command")).
Definition refuse (msg : string) : request := Reply (WError msg).

(** Commands with one, two or three arguments, with some, and with a key and
    some more. *)
Definition unary_or (bad : string → request) (f : string → request) : meaning :=
  λ _ name args, Some match args with [k] => f k | _ => bad name end.
Definition unary : (string → request) → meaning := unary_or bad_args.
Definition binary (f : string → string → request) : meaning :=
  λ _ name args, Some match args with [k; a] => f k a | _ => bad_args name end.
Definition ternary (f : string → string → string → request) : meaning :=
  λ _ name args, Some match args with [k; a; b] => f k a b | _ => bad_args name end.
Definition some_or (bad : string → request) (f : list string → request) : meaning :=
  λ _ name args, Some match args with [] => bad name | _ => f args end.
Definition key_some (f : string → list string → request) : meaning :=
  λ _ name args, Some match args with k :: a :: l => f k (a :: l) | _ => bad_args name end.
(** A key and an optional argument. *)
Definition key_opt (f : string → option string → request) : meaning :=
  λ _ name args,
    Some match args with [k] => f k None | [k; a] => f k (Some a) | _ => bad_args name end.

(** An integer argument. *)
Definition int_or (msg : string) (parse : string → Z * option num_error) (a : string)
    (f : Z → request) : request :=
  match parse a with (n, None) => f n | _ => refuse msg end.
Definition index : string → (Z → request) → request :=
  int_or "ERR value is not an integer" Atoi.

Definition meaning_set : meaning := λ en name args,
  Some match args with
       | k :: v :: opts =>
           match set_options en opts (command "SET" k [v]) with
           | inl msg => refuse msg
           | inr c => SubmitSet c
           end
       | _ => bad_args_for name
       end.
Definition meaning_mset : meaning := λ _ name args,
  Some (if (2 <=? length args)%nat && Nat.even (length args) then Submit (command "MSET" "" args)
        else bad_args_for name).
Definition meaning_setex : meaning := ternary (λ k secs v,
  let msg := "ERR invalid expire time in 'setex' command" in
  int_or msg ParseInt secs (λ n,
    if 0 <? n then Submit (set_ttl (command "SET" k [v]) (wrap64 (n * 1000))) else refuse msg)).
Definition meaning_flushdb : meaning := λ _ name args,
  Some match args with
       | [] => Submit (command "FLUSHDB" "" [])
       | [mode] =>
           if str_in (ToUpper mode) ["SYNC"; "ASYNC"] then Submit (command "FLUSHDB" "" [])
           else refuse syntax_error
       | _ => bad_args_for "flushdb"
       end.
Definition meaning_hset : meaning := λ _ name args,
  Some match args with
       | k :: fvs =>
           if (2 <=? length fvs)%nat && Nat.even (length fvs) then Submit (command "HSET" k fvs)
           else bad_args name
       | [] => bad_args name
       end.
Definition meaning_spop : meaning := key_opt (λ k o,
  match o with
  | None => Submit (command "SPOP" k [])
  | Some a => int_or not_integer Atoi a (λ n,
      if 0 <=? n then Submit (command "SPOP" k [a]) else refuse not_integer)
  end).
Definition meaning_srandmember : meaning := key_opt (λ k o,
  match o with
  | None => Ask (QSRandMember k None)
  | Some a => index a (λ n, Ask (QSRandMember k (Some n)))
  end).
Definition meaning_smismember : meaning := key_some (λ k xs, Ask (QSMIsMember k xs)).
Definition pops (op : string) : meaning := key_opt (λ k o, Submit (command op k (option_list o))).
Definition pushes (op : string) : meaning := key_some (λ k l, Submit (command op k l)).
(** Commands whose meaning is not one on the abstract state: those of
    connections and of scripts. *)
Definition elsewhere : meaning := λ _ _ _, None.

Definition grammar : list (string * meaning) :=
  [("ping", λ _ _ _, Some (Reply (WString "PONG")));
   ("client", elsewhere);
   ("set", meaning_set);
   ("get", unary_or bad_args_for (λ k, Ask (QGet k)));
   ("del", some_or bad_args_for (λ ks, Submit (command "DEL" "" ks)));
   ("unlink", some_or bad_args_for (λ ks, Submit (command "DEL" "" ks)));
   ("type", unary (λ k, Ask (QType k)));
   ("keys", unary (λ p, Ask (QKeys p)));
   ("touch", some_or bad_args (λ ks, Ask (QExists ks)));
   ("persist", unary (λ k, Submit (command "PERSIST" k [])));
   ("pttl", unary (λ k, Ask (QPTTL k)));
   ("mset", meaning_mset);
   ("mget", some_or bad_args_for (λ ks, Ask (QMGet ks)));
   ("flushdb", meaning_flushdb);
   ("append", binary (λ k v, Submit (command "APPEND" k [v])));
   ("strlen", unary (λ k, Ask (QStrLen k)));
   ("getset", binary (λ k v, Submit (command "GETSET" k [v])));
   ("incrby", binary (λ k n, Submit (command "INCRBY" k [n])));
   ("decrby", binary (λ k n, Submit (command "DECRBY" k [n])));
   ("setex", meaning_setex);
   ("incr", unary (λ k, Submit (command "INCR" k [])));
   ("decr", unary (λ k, Submit (command "DECR" k [])));
   ("exists", some_or bad_args (λ ks, Ask (QExists ks)));
   ("expire", binary (λ k secs, int_or "ERR value is not an integer" ParseInt secs (λ n,
      Submit (set_ttl (command "EXPIRE" k []) (wrap64 (n * 1000))))));
   ("ttl", unary (λ k, Ask (QTTL k)));
   ("hset", meaning_hset);
   ("hsetnx", ternary (λ k f v, Submit (command "HSETNX" k [f; v])));
   ("hget", binary (λ k f, Ask (QHGet k f)));
   ("hgetall", unary (λ k, Ask (QHGetAll k)));
   ("hdel", pushes "HDEL");
   ("hexists", binary (λ k f, Ask (QHExists k f)));
   ("hlen", unary (λ k, Ask (QHLen k)));
   ("hkeys", unary (λ k, Ask (QHKeys k)));
   ("hvals", unary (λ k, Ask (QHVals k)));
   ("hmget", key_some (λ k fs, Ask (QHMGet k fs)));
   ("lpush", pushes "LPUSH");
   ("rpush", pushes "RPUSH");
   ("lpushx", pushes "LPUSHX");
   ("rpushx", pushes "RPUSHX");
   ("lpop", pops "LPOP");
   ("rpop", pops "RPOP");
   ("lrange", ternary (λ k a b, index a (λ i, index b (λ j, Ask (QLRange k i j)))));
   ("llen", unary (λ k, Ask (QLLen k)));
   ("lindex", binary (λ k a, index a (λ i, Ask (QLIndex k i))));
   ("ltrim", ternary (λ k a b, index a (λ _, index b (λ _, Submit (command "LTRIM" k [a; b])))));
   ("lrem", ternary (λ k a x, index a (λ _, Submit (command "LREM" k [a; x]))));
   ("sadd", pushes "SADD");
   ("smembers", unary (λ k, Ask (QSMembers k)));
   ("sismember", binary (λ k x, Ask (QSIsMember k x)));
   ("scard", unary (λ k, Ask (QSCard k)));
   ("srem", pushes "SREM");
   ("spop", meaning_spop);
   ("srandmember", meaning_srandmember);
   ("smismember", meaning_smismember);
   ("eval", elsewhere);
   ("evalsha", elsewhere);
   ("script", elsewhere)].

(** What a request of a client stands for.  Names are compared without regard
    to case; all commands but PING and FLUSHDB need an argument. *)
Definition request_of : meaning := λ en name args,
  if str_in (ToUpper name) ["HELLO"; "CLIENT"; "EVAL"; "EVALSHA"; "SCRIPT"] then None
  else if bool_decide (args = []) && negb (str_in (ToUpper name) ["PING"; "FLUSHDB"]) then
    Some (bad_args_for (ToLower (ToUpper name)))
  else
    match list_to_map (M := gmap string meaning) grammar !! ToLower name with
    | Some f => f en name args
    | None => Some Unknown
    end.
End answers.
