(* ===== verification/ServerCmds.v ===== *)
(** * The handlers implement the abstract server

    Each handler of server/server.go implements its entry in the table of
    ServerSpec.v, and handleCmd a client's request; so does a node that serves
    the requests of its clients one after another while time passes. *)

From S2P Require Import Prelude Prog GoStd Badger Codec Glob Keys Fsm FsmColl FsmApply FsmRead FsmSpec FsmSim.
From S2P Require Import Concrete FsmProps FsmReadProps FsmTtl Router Server ServerProps ServerRefine.
From S2P Require Import ServerSpec.
From Stdlib Require Import Lia ZArith.

Section cmds.
Context `{B : BadgerOps} {L : BadgerLaws B} `{C : Codec} {CL : CodecLaws C} {N : Node}.
Implicit Types (m : rstate) (en : Env) (w : world) (req : request).
Abbreviation HM := (prog returns).
Abbreviation handler := (nat → string → list string → HM unit).
Abbreviation meaning := (Env → string → list string → option request).

(** The store takes the writes of a request. *)
Definition takes req : Prop :=
  match req with Submit c | SubmitSet c => accepted c | _ => True end.
Definition submits req : option Command :=
  match req with Submit c | SubmitSet c => Some c | _ => None end.

(** A request is served: the client gets an answer of the abstract server and
    the node goes on from its next state; a write gets the error of Raft when
    Raft is set up and fails. *)
Definition serves en m req w (o : (string + unit) * world) : Prop :=
  ∃ ws w', o = (inr tt, w') ∧ w_out w' = w_out w ++ ws ∧
    ((∃ f c e d', raft = Some f ∧ submits req = Some c
        ∧ f en (enc_cmd c) (w_db w) = (inl e, d') ∧ ws = [WError ("ERR " +:+ e)])
     ∨ answer en m req ws ∧ node_ok en w' (next en req m)).

(** A command has the arguments its operation reads. *)
Definition supplied (c : Command) : Prop :=
  (str_in (Op c) ["INCRBY"; "DECRBY"] = true → Args c ≠ [])
  ∧ (str_in (Op c) ["LTRIM"] = true ∨ str_in (Op c) ["LREM"] = true →
     ∃ a b l, Args c = a :: b :: l).

Lemma spec_no_panic en c m msg : supplied c → (spec_apply en c m).1 ≠ inl (EPanic msg).
Proof.
  unfold spec_apply, spec_set, spec_mset, spec_del, spec_flushdb, spec_incr, spec_expire,
    spec_persist, spec_hset, spec_hdel, spec_push, spec_pop, spec_ltrim, spec_lrem,
    spec_sadd, spec_srem, on_hash, on_list, on_set, delta_of, count_of.
  intros [H1 H2]. repeat case_match; try discriminate; simplify_eq/=.
  all: naive_solver.
Qed.

(** ** Handlers that act at one instant

    Most handlers read the clock to parse their arguments, then read the store
    in one transaction or submit one command, and then write their reply. *)

Definition finishing (c : call) : bool :=
  match c with CClock | CWrite _ => true | _ => false end.

(** [p] only writes from here on, to the end, and what has then been written is
    in [Q]; it may panic if [P]. *)
Fixpoint finishes (P : Prop) (Q : list wr → Prop) (p : HM unit) (ws : list wr) : Prop :=
  match p with
  | Ret _ => Q ws
  | Panic _ => P
  | Next c k => finishing c = true ∧ ∀ x, sane c x → finishes P Q (k x) (ws ++ written c)
  end.

(** [p] serves the request that [g] makes of the clock: the answer is that of
    the state its one transaction or its command finds. *)
Fixpoint plan (g : Env → option request) (p : HM unit) : Prop :=
  match p with
  | Ret _ | Panic _ => False
  | Next c k =>
      match c return (returns c → HM unit) → Prop with
      | CClock => λ k, ∀ en, env_ok en → plan (λ _, g en) (k en)
      | CView X R => λ k, ∀ en0 req, g en0 = Some req →
          submits req = None ∧
          ∀ en d m, env_ok en → dhealthy d → Sim (now en) (dview d) m →
            finishes (¬ regular m req) (λ ws, regular m req → answer en m req ws) (k (R en d)) []
      | CSubmit c => λ k, ∀ en0 req, g en0 = Some req →
          submits req = Some c ∧ str_in (Op c) lua_ops = false ∧
          (∀ en m, finishes False (answer en m req) (k (inr (spec_apply en c m).1)) [])
          ∧ (∀ e, finishes False (λ ws, ws = [WError ("ERR " +:+ e)]) (k (inl e)) [])
      | CWrite ws => λ k, ∀ en0 req, g en0 = Some req →
          submits req = None ∧ finishes False (λ ws, ∀ en m, answer en m req ws) (k tt) ws
      | _ => λ _, False
      end k
  end.

Lemma finishes_mono (P P' : Prop) (Q Q' : list wr → Prop) p ws :
  (P → P') → (∀ ws, Q ws → Q' ws) → finishes P Q p ws → finishes P' Q' p ws.
Proof. intros HP HQ. revert ws. induction p as [|msg|c k IH]; simpl; naive_solver. Qed.

(** What is left of a handler, run alone. *)
Lemma finishes_alone P Q p en out ws w :
  ¬ P → env_ok en → finishes P Q p ws → w_out w = out ++ ws →
  ∃ w' ws', alone en p w = (inr tt, w') ∧ w_out w' = out ++ ws' ∧ Q ws' ∧ w_db w' = w_db w.
Proof.
  intros HP Hen. revert ws w. induction p as [[]|msg|c k IH]; intros ws w Hp Hw.
  - by exists w, ws.
  - done.
  - destruct Hp as [Hc Hp]. unfold alone in *. simpl.
    pose proof (exec_out en c w) as Ho. pose proof (exec_sane en c w Hen) as Hs.
    assert (w_db (exec en c w).2 = w_db w) as Hd by (apply exec_keeps; by destruct c).
    destruct (exec en c w) as [x w1]. simpl in *.
    destruct (IH x (ws ++ written c) w1 (Hp x Hs)) as (w' & ws' & ? & ? & ? & Hd').
    { by rewrite Ho, Hw, app_assoc. }
    exists w', ws'. by rewrite Hd', Hd.
Qed.

Lemma regular_supported m req c :
  regular m req → submits req = Some c → str_in (Op c) lua_ops = false → supported m c.
Proof.
  intros Hreg Hsub Hlua. unfold supported, data_op. rewrite str_in_cons, Hlua, orb_false_r.
  destruct (String.eqb_spec (Op c) "EXPIRE") as [He|He]; [right|by left]. split; [done|].
  destruct req; simpl in Hsub; simplify_eq; by apply Hreg.
Qed.

Lemma plan_serves g p en w m req :
  node_ok en w m → env_ok en → plan g p → g en = Some req → regular m req → takes req →
  serves en m req w (alone en p w).
Proof.
  intros Hok Hen. revert g w Hok. induction p as [|msg|c k IH]; intros g w Hok Hp Hg Hreg Htk; [done..|].
  destruct c; simpl in Hp; try done.
  - exact (IH en (λ _, g en) w Hok (Hp en Hen) Hg Hreg Htk).
  - destruct (Hp en req Hg) as [Hsub Hf]. pose proof Hok as (? & ? & Hd & Hs).
    destruct (finishes_alone _ _ _ en (w_out w) [] w (λ H, H Hreg) Hen (Hf en (w_db w) m Hen Hd Hs))
      as (w' & ws & Hr & Ho & Ha & Hdb); [by rewrite app_nil_r|].
    exists ws, w'. split; [exact Hr|]. split; [done|]. right. split; [by apply Ha|].
    destruct req; simplify_eq/=; by unfold node_ok; rewrite Hdb.
  - destruct (Hp en req Hg) as (Hsub & Hlua & Hf & He). pose proof Hok as (Hraft & Hcom & Hd & Hs).
    assert (accepted c) as Hacc by (by destruct req; simplify_eq/=).
    assert (next en req m = (spec_apply en c m).2) as Hnext by (by destruct req; simplify_eq/=).
    unfold alone. simpl.
    destruct (raft_submit_refines en c w m Hok Hen (regular_supported m req c Hreg Hsub Hlua) Hacc)
      as [(f & e & d & Hraft' & Hfe & ->)|(d & -> & Hd' & Hs')].
    + destruct (finishes_alone _ _ _ en (w_out w) [] (mkWorld d (w_ctx w) (w_pool w) (w_out w)) id Hen (He e))
        as (w' & ws & Hr & Ho & Ha & _); [by rewrite app_nil_r|].
      exists ws, w'. split; [exact Hr|]. split; [done|]. left. by exists f, c, e, d.
    + destruct (finishes_alone _ _ _ en (w_out w) [] (mkWorld d (w_ctx w) (w_pool w) (w_out w)) id Hen (Hf en m))
        as (w' & ws & Hr & Ho & Ha & Hdb); [by rewrite app_nil_r|].
      exists ws, w'. split; [exact Hr|]. split; [done|]. right. split; [done|].
      unfold node_ok. by rewrite Hnext, Hdb.
  - destruct (Hp en req Hg) as [Hsub Hf]. unfold alone. simpl.
    destruct (finishes_alone _ _ _ en (w_out w) ws (mkWorld (w_db w) (w_ctx w) (w_pool w) (w_out w ++ ws))
      id Hen Hf) as (w' & ws' & Hr & Ho & Ha & Hdb); [done|].
    exists ws', w'. split; [exact Hr|]. split; [done|]. right. split; [done|].
    destruct req; simplify_eq/=; by unfold node_ok; rewrite Hdb.
Qed.

(** A handler implements its entry. *)
Definition plans (g : meaning) (h : handler) : Prop := ∀ conn name args,
  plan (λ en, g en name args) (h conn name args).

(** ** The shapes of handlers *)

Lemma plan_write g ws :
  (∀ en0 req, g en0 = Some req → submits req = None ∧ ∀ en m, answer en m req ws) → plan g (write ws).
Proof. intros H en0 req Hreq. by apply (H en0 req) in Hreq as [? ?]. Qed.
Lemma plan_reply a : plan (λ _, Some (Reply a)) (write [a]).
Proof. apply plan_write. by intros _ req [= <-]. Qed.

Lemma finishes_write P (Q : list wr → Prop) ws : Q ws → finishes P Q (write ws) [].
Proof. by split. Qed.

(** The end of applyCommand and handleSet. *)
Lemma plan_submit req c (reply : goval → list wr) (f : string + goval → HM unit) :
  submits req = Some c → str_in (Op c) lua_ops = false → supplied c →
  (∀ en m, answer en m req (submitted reply (spec_apply en c m).1)) →
  (∀ r, f r = write match r with inl msg => [WError msg] | inr v => reply v end) →
  plan (λ _, Some req) (submit c ≫= f).
Proof.
  intros Hsub Hlua Hargs Ha Hf _ req' [= <-]. split; [done|]. split; [done|]. simpl. split.
  - intros en m. specialize (Ha en m). pose proof (spec_no_panic en c m) as Hp.
    destruct (spec_apply en c m).1 as [[]|v]; simpl; rewrite ?Hf; try (by apply finishes_write).
    by edestruct Hp.
  - intros e. rewrite Hf. by apply finishes_write.
Qed.

(** The commands of the data model have answers that get their reply. *)
Lemma spec_has_reply en c m v : (spec_apply en c m).1 = inr v → has_reply v = true.
Proof.
  unfold spec_apply, spec_set, spec_mset, spec_del, spec_flushdb, spec_incr, spec_expire,
    spec_persist, spec_hset, spec_hdel, spec_push, spec_pop, spec_ltrim, spec_lrem,
    spec_sadd, spec_srem, on_hash, on_list, on_set, delta_of, count_of.
  repeat case_match; simpl; intros; simplify_eq; try done.
  all: unfold from_option; by case_match.
Qed.

Lemma submitted_reply en c m :
  submitted reply_of (spec_apply en c m).1 = submitted resp (spec_apply en c m).1.
Proof.
  pose proof (spec_has_reply en c m) as H. destruct (spec_apply en c m).1 as [|v]; [done|].
  specialize (H v eq_refl). by destruct v.
Qed.

Lemma plan_apply c :
  str_in (Op c) lua_ops = false → supplied c → plan (λ _, Some (Submit c)) (applyCommand c).
Proof.
  intros Hlua Hargs. eapply (plan_submit _ _ reply_of); try done; [|by intros []].
  intros en m. apply submitted_reply.
Qed.

Lemma set_options_keeps en opts c c' :
  set_options en opts c = inr c' → Op c' = Op c ∧ Key c' = Key c ∧ Args c' = Args c.
Proof.
  remember (length opts) as n eqn:Hn. revert opts c Hn.
  induction n as [n IH] using lt_wf_ind. intros [|o opts] c -> H; simpl in H; [by simplify_eq|].
  repeat (case_match; simplify_eq).
  all: eapply IH in H; [exact H| |reflexivity]; simpl; lia.
Qed.

Lemma plans_set : plans meaning_set handleSet.
Proof.
  intros conn name args.
  destruct args as [|k [|v opts]]; [apply plan_reply..|]. unfold handleSet, meaning_set.
  intros en Hen. simpl. change (plan ?g ?p) with (plan g p).
  destruct (set_options en opts (command "SET" k [v])) as [msg|c] eqn:Hc; [apply plan_reply|].
  destruct (set_options_keeps _ _ _ _ Hc) as (Hop & _ & _).
  apply (plan_submit (SubmitSet c) c (set_reply c)); [done|by rewrite Hop| |done|].
  - split; rewrite Hop; [done|]. by intros [].
  - intros [|[]]; try done; simpl; by destruct (ReturnOld c).
Qed.

(** ** Questions *)

(** What a reader gives, written by [out], answers a question. *)
Definition asked {A} en m q (out : A → list wr) (r : gerr + A) : Prop :=
  match r with
  | inl (EPanic _) => False
  | inl e => replies en m q [WError (err_text e)]
  | inr a => replies en m q (out a)
  end.

Lemma plan_ask {A} q (R : Env → db → gerr + A) k out :
  (∀ a, k a = write (out a)) →
  (∀ en d m, env_ok en → dhealthy d → Sim (now en) (dview d) m → regular m (Ask q) →
     asked en m q out (R en d)) →
  plan (λ _, Some (Ask q)) (r ← s_View R; read_reply r k).
Proof.
  intros Hk H _ req [= <-]. split; [done|]. intros en d m Hen Hd Hs.
  specialize (H en d m Hen Hd Hs). simpl. unfold read_reply.
  destruct (R en d) as [[]|a]; rewrite ?Hk; try (by apply finishes_write). exact H.
Qed.

Definition out_int (n : Z) : list wr := [WInt n].
Definition out_opt (o : option string) : list wr := [bulk o].
Definition out_list (l : list string) : list wr := array (WBulk <$> l).
Definition out_opts (l : list (option string)) : list wr := array (bulk <$> l).

Lemma write_list_out l : write_list l = write (out_list l).
Proof. unfold write_list, out_list, array. by rewrite length_fmap. Qed.
Lemma write_opts_out l : write_opts l = write (out_opts l).
Proof. unfold write_opts, out_opts, array. by rewrite length_fmap. Qed.

Section readers.
Context (en : Env) (d : db) (m : rstate).
Context (Hen : env_ok en) (Hd : dhealthy d) (Hs : Sim (now en) (dview d) m).

Lemma reads_at k : readers_agree en d m k.
Proof. by apply readers_run. Qed.

Ltac by_type k := unfold asked, out_int, out_opt, out_list, out_opts; simpl;
  destruct (m !! k) as [[[] ?]|]; simpl; try done; eauto.

Lemma asked_get k : asked en m (QGet k) out_opt (GetString en d k).
Proof.
  pose proof (ra_get _ _ _ _ (reads_at k)) as H. unfold asked, out_opt. simpl.
  destruct (m !! k) as [[[] ?]|]; simpl; rewrite ?H; try done.
  destruct H as (o & -> & <-). exists (bulk o). split; [|done].
  destruct o; [by left|by right].
Qed.
Lemma asked_strlen k : asked en m (QStrLen k) out_int (StrLen en d k).
Proof.
  rewrite (StrLen_reads en d m k Hd Hs). by_type k.
Qed.
Lemma asked_type k : asked en m (QType k) (λ t, [WString t]) (Type_ en d k).
Proof. by rewrite (ra_type _ _ _ _ (reads_at k)). Qed.
Lemma asked_exists ks : asked en m (QExists ks) out_int (Exists en d ks).
Proof. by rewrite (ra_exists _ _ _ _ (reads_at "") ks). Qed.
Lemma asked_ttl k : representable m k → asked en m (QTTL k) out_int (TTL en d k).
Proof.
  intros Hr. unfold TTL.
  rewrite (ttl_with_reads _ en d m k Hd Hs) by (done || apply Hen). done.
Qed.
Lemma asked_pttl k : representable m k → asked en m (QPTTL k) out_int (PTTL en d k).
Proof.
  intros Hr. unfold PTTL.
  rewrite (ttl_with_reads _ en d m k Hd Hs) by (done || apply Hen). done.
Qed.
Lemma asked_mget ks :
  regular m (Ask (QMGet ks)) → asked en m (QMGet ks) out_opts (GetStrings en d ks).
Proof.
  intros Hks.
  destruct (GetStrings_reads en d m ks Hd Hs Hks) as (l & -> & HF). eexists. split; [done|].
  apply Forall2_fmap_r. eapply Forall2_impl; [done|]. intros k o Ho. simpl.
  destruct Ho as [[Ho ->]|Ho]; destruct (m !! k) as [[[] ?]|]; try discriminate; [done|].
  injection Ho as ->. destruct o; [by left|by right].
Qed.
Lemma asked_hget k f : asked en m (QHGet k f) out_opt (HGet en d k f).
Proof. rewrite (ra_hget _ _ _ _ (reads_at k)). by_type k. Qed.
Lemma asked_hmget k fs : asked en m (QHMGet k fs) out_opts (HMGet en d k fs).
Proof.
  rewrite (ra_hmget _ _ _ _ (reads_at k)). by_type k; by rewrite <- list_fmap_compose.
Qed.
Lemma asked_hexists k f : asked en m (QHExists k f) out_int (HExists en d k f).
Proof. rewrite (ra_hexists _ _ _ _ (reads_at k)). by_type k. Qed.
Lemma asked_hlen k : asked en m (QHLen k) out_int (HLen en d k).
Proof. rewrite (ra_hlen _ _ _ _ (reads_at k)). by_type k. Qed.
Lemma asked_hkeys k : asked en m (QHKeys k) out_list (HKeys en d k).
Proof.
  pose proof (ra_hkeys _ _ _ _ (reads_at k)) as H. unfold asked. simpl.
  destruct (as_hash (m !! k)) as [e|h] eqn:Hh.
  - destruct H as [-> _]. by destruct (m !! k) as [[[] ?]|]; simplify_eq/=.
  - destruct H as (l & Hl & -> & _). simpl. eauto.
Qed.
Lemma asked_hvals k : asked en m (QHVals k) out_list (HVals en d k).
Proof.
  pose proof (ra_hkeys _ _ _ _ (reads_at k)) as H. unfold asked. simpl.
  destruct (as_hash (m !! k)) as [e|h] eqn:Hh.
  - destruct H as [_ ->]. by destruct (m !! k) as [[[] ?]|]; simplify_eq/=.
  - destruct H as (l & Hl & _ & ->). simpl. eauto.
Qed.
Lemma asked_lrange k i j : asked en m (QLRange k i j) out_list (LRange en d k i j).
Proof. rewrite (ra_lrange _ _ _ _ (reads_at k)). by_type k. Qed.
Lemma asked_llen k : asked en m (QLLen k) out_int (LLen en d k).
Proof. rewrite (ra_llen _ _ _ _ (reads_at k)). by_type k. Qed.
Lemma asked_lindex k i : asked en m (QLIndex k i) out_opt (LIndex en d k i).
Proof. rewrite (ra_lindex _ _ _ _ (reads_at k)). by_type k. Qed.
Lemma asked_smembers k : asked en m (QSMembers k) out_list (SMembers en d k).
Proof.
  pose proof (ra_smembers _ _ _ _ (reads_at k)) as H. unfold asked. simpl.
  destruct (as_set (m !! k)) as [e|h] eqn:Hh.
  - rewrite H. by destruct (m !! k) as [[[] ?]|]; simplify_eq/=.
  - destruct H as (l & -> & Hl). simpl. eauto.
Qed.
Lemma asked_sismember k x : asked en m (QSIsMember k x) out_int (SIsMember en d k x).
Proof. rewrite (ra_sismember _ _ _ _ (reads_at k)). by_type k. Qed.
Lemma asked_scard k : asked en m (QSCard k) out_int (SCard en d k).
Proof. rewrite (ra_scard _ _ _ _ (reads_at k)). by_type k. Qed.
Lemma asked_srandmember k count :
  min_int64 < count <= max_int64 →
  asked en m (QSRandMember k (Some count)) out_list (SRandMember en d k (Some count)).
Proof.
  intros Hc.
  pose proof (SRandMember_reads en d m k count Hd Hs Hc) as H. unfold asked. simpl.
  destruct (as_set (m !! k)) as [e|h] eqn:Hh.
  - rewrite H. by destruct (m !! k) as [[[] ?]|]; simplify_eq/=.
  - destruct H as (l & -> & Hl). simpl. eauto.
Qed.
Lemma asked_srandmember_one k :
  asked en m (QSRandMember k None) (λ l, out_opt (head l)) (SRandMember en d k None).
Proof.
  pose proof (ra_smembers _ _ _ _ (reads_at k)) as H. unfold asked, SRandMember. simpl.
  destruct (as_set (m !! k)) as [e|h] eqn:Hh.
  - rewrite H. by destruct (m !! k) as [[[] ?]|]; simplify_eq/=.
  - destruct H as (l & -> & Hl). simpl. destruct l as [|x l].
    + left. split; [|done]. apply leibniz_equiv, elements_empty_inv. by apply Permutation_nil.
    + right. exists x. split; [|done]. apply elem_of_elements. rewrite <- Hl. by left.
Qed.
End readers.

(** The fields of HGETALL come in the order of a later range. *)
Lemma array_hgetall en h :
  env_ok en →
  WArray (Z.of_nat (size h) * 2) :: mjoin (map (λ fv, [WBulk fv.1; WBulk fv.2]) (range_hash en h))
  = array (fv ← range_hash en h; [WBulk fv.1; WBulk fv.2]).
Proof.
  intros Hen. pose proof (range_hash_spec en h Hen) as Hl.
  assert (length (range_hash en h) = size h) as <- by (rewrite Hl; apply length_map_to_list).
  clear Hl. unfold array. f_equal; [f_equal|]; induction (range_hash en h) as [|x l IH].
  1, 3: done.
  - rewrite bind_cons, length_app. cbn [length]. lia.
  - by rewrite bind_cons, <- IH.
Qed.

Lemma plans_hgetall : plans (unary (λ k, Ask (QHGetAll k))) handleHGetAll.
Proof.
  intros conn name args.
  destruct args as [|k []]; [apply plan_reply| |apply plan_reply]. unfold handleHGetAll.
  intros _ req [= <-]. split; [done|]. intros en d m Hen Hd Hs. simpl.
  rewrite (ra_hgetall _ _ _ _ (reads_at en d m Hen Hd Hs k)).
  destruct (as_hash (m !! k)) as [e|h] eqn:Hh; cbn [read_reply].
  - assert (e = EWrongType) as -> by (by destruct (m !! k) as [[[] ?]|]; simplify_eq/=).
    apply finishes_write. intros _. simpl. by rewrite ?Hh.
  - split; [done|]. intros en' Hen'. apply finishes_write. intros _. simpl. rewrite ?Hh.
    exists (range_hash en' h). split; [by apply range_hash_spec|by apply array_hgetall].
Qed.

Lemma plans_keys : plans (unary (λ p, Ask (QKeys p))) handleKeys.
Proof.
  intros conn name args.
  destruct args as [|p []]; [apply plan_reply| |apply plan_reply].
  intros _ req [= <-]. split; [done|]. intros en d m Hen Hd Hs. simpl.
  destruct (Keys_run en d m p Hd Hs) as [(e & -> & Hp)|(l & -> & Hl)].
  - apply finishes_write. intros _. by left.
  - rewrite write_list_out. apply finishes_write. intros _. right. by exists l.
Qed.

(** ** The table *)

Create HintDb asked.
#[local] Hint Resolve asked_get asked_strlen asked_type asked_exists asked_ttl asked_pttl asked_mget
  asked_hget asked_hmget asked_hexists asked_hlen asked_hkeys asked_hvals asked_lrange asked_llen
  asked_lindex asked_smembers asked_sismember asked_scard asked_srandmember_one : asked.

(** Serve a request whose arguments have been parsed. *)
Ltac serve :=
  try (by apply plan_reply);
  lazymatch goal with
  | |- plan (λ _, Some (Submit _)) _ =>
      apply plan_apply; [done|]; split; [by intros|]; first [by intros [] | by intros _; eexists _, _, _]
  | |- plan (λ _, Some (Ask _)) _ =>
      eapply plan_ask; [|intros; cbv beta; by eauto with asked];
      intros; first [reflexivity | apply write_list_out | apply write_opts_out]
  end.

(** A handler that checks its arguments as its entry says. *)
Ltac serve_cases :=
  intros conn name args;
  unfold pushes, pops, unary, unary_or, binary, ternary, some_or, key_some, key_opt, index, int_or,
    bad_args, bad_args_for, refuse, apply_many, apply_pop, wrong_args, wrong_args_for;
  cbv beta; repeat case_match; simplify_eq; serve.

Lemma plans_mset : plans meaning_mset handleMSet.
Proof.
  intros conn name args. unfold meaning_mset, handleMSet. cbv beta.
  rewrite Nat.ltb_antisym, <- Nat.negb_even.
  destruct (2 <=? length args)%nat, (Nat.even (length args)); cbn [negb andb orb]; serve.
Qed.

Lemma plans_flushdb : plans meaning_flushdb handleFlushDB.
Proof.
  intros conn name [|mode []]; unfold meaning_flushdb, handleFlushDB; cbv beta; [serve| |serve].
  rewrite !str_in_cons, str_in_nil.
  destruct (String.eqb (ToUpper mode) "SYNC"), (String.eqb (ToUpper mode) "ASYNC"); cbn [negb andb orb]; serve.
Qed.

Lemma plans_setex : plans meaning_setex handleSetEx.
Proof.
  intros conn name args. unfold meaning_setex, ternary, handleSetEx. cbv beta.
  destruct args as [|k [|secs [|v []]]]; try apply plan_reply.
  unfold int_or. destruct (ParseInt secs) as [n [e|]]; [apply plan_reply|].
  rewrite Z.leb_antisym. destruct (0 <? n); cbn [negb andb orb]; serve.
Qed.

Lemma plans_hset : plans meaning_hset handleHSet.
Proof.
  intros conn name args. destruct args as [|k fvs]; [apply plan_reply|].
  unfold meaning_hset, handleHSet. cbv beta iota. cbn [length]. rewrite Nat.even_succ, <- Nat.negb_even.
  change (S (length fvs) <? 3)%nat with (length fvs <? 2)%nat. rewrite Nat.ltb_antisym.
  destruct (2 <=? length fvs)%nat, (Nat.even (length fvs)); cbn [negb andb orb]; serve.
Qed.

Lemma plans_spop : plans meaning_spop handleSPop.
Proof.
  intros conn name args. unfold meaning_spop, key_opt, handleSPop. cbv beta.
  destruct args as [|k [|a []]]; try apply plan_reply; [serve|].
  unfold int_or. destruct (Atoi a) as [n [e|]]; [apply plan_reply|].
  rewrite Z.ltb_antisym. destruct (0 <=? n); cbn [negb andb orb]; serve.
Qed.

Lemma plans_srandmember : plans meaning_srandmember handleSRandMember.
Proof.
  intros conn name args. unfold meaning_srandmember, key_opt, handleSRandMember. cbv beta.
  destruct args as [|k [|a []]]; try apply plan_reply; [serve|].
  unfold index, int_or. destruct (Atoi a) as [n [e|]] eqn:Ha; [apply plan_reply|].
  apply (plan_ask _ _ write_list out_list); [apply write_list_out|]. intros en d m Hen Hd Hs Hreg.
  apply ParseInt_range in Ha. unfold in_int64 in Ha. apply asked_srandmember; [done..|].
  simpl in Hreg. lia.
Qed.

(** All handlers of the data commands but SMISMEMBER act at one instant. *)
Definition realizes (name : string) (g : meaning) (h : handler) : Prop :=
  g = elsewhere ∨ plans g h ∨ name = "smismember" ∧ g = meaning_smismember ∧ h = handleSMIsMember.

Lemma mux_plans : Forall2 (λ g h, g.1 = h.1 ∧ realizes g.1 g.2 h.2) grammar mux.
Proof.
  unfold grammar, mux. repeat (apply Forall2_cons; split; [split; [done|]; cbn [fst snd]|]);
    [..|by apply Forall2_nil].
  all: first [ left; reflexivity | by right; right | right; left ].
  all: first [ apply plans_set | apply plans_keys | apply plans_hgetall | apply plans_mset
    | apply plans_flushdb | apply plans_setex | apply plans_hset | apply plans_spop
    | apply plans_srandmember | idtac ].
  all: (unfold handlePing, handleGet, handleDel, handleType, handleTouch, handlePersist, handlePTTL,
    handleMGet, handleAppend, handleStrLen, handleGetSet, handleIncrBy, handleDecrBy, handleIncr,
    handleDecr, handleExists, handleExpire, handleTTL, handleHSetNX, handleHGet,
    handleHDel, handleHExists, handleHLen, handleHKeys, handleHVals, handleHMGet, handleLPush,
    handleLPushX, handleRPush, handleRPushX, handleLPop, handleRPop, handleLRange, handleLLen,
    handleLIndex, handleLTrim, handleLRem, handleSAdd, handleSRem, handleSMembers, handleSIsMember,
    handleSCard; by serve_cases).
Qed.

(** SMISMEMBER reads once for each member; alone, it sees one state. *)
Lemma smismember_alone en k (s : gset string) xs w :
  (∀ x, SIsMember en (w_db w) k x = inr (if bool_decide (x ∈ s) then 1 else 0)) →
  alone en (smismember_loop k xs) w
  = alone en (write ((λ x, WInt (if bool_decide (x ∈ s) then 1 else 0)) <$> xs)) w.
Proof.
  revert w. induction xs as [|x xs IH]; intros w Hx; unfold alone in *; simpl.
  - rewrite app_nil_r. by destruct w.
  - rewrite Hx. simpl. rewrite IH by done. simpl. by rewrite <- app_assoc.
Qed.

Lemma serves_smismember en conn name args w m req :
  node_ok en w m → env_ok en → meaning_smismember en name args = Some req → regular m req →
  serves en m req w (alone en (handleSMIsMember conn name args) w).
Proof.
  intros Hok Hen Hreq Hreg. pose proof Hok as (_ & _ & Hd & Hs).
  destruct args as [|k [|x xs]]; injection Hreq as <-;
    [by apply (plan_serves (λ _, Some (bad_args name))); [..|apply plan_reply| | |]..|].
  destruct Hreg as [s Hset]. pose proof (ra_sismember _ _ _ _ (reads_at en (w_db w) m Hen Hd Hs k)) as Hm.
  rewrite Hset in Hm.
  change (alone en (handleSMIsMember conn name (k :: x :: xs)) w)
    with (alone en (smismember_loop k (x :: xs)) (mkWorld (w_db w) (w_ctx w) (w_pool w)
      (w_out w ++ [WArray (Z.of_nat (length (x :: xs)))]))).
  rewrite (smismember_alone en k s (x :: xs)) by exact Hm.
  set (l := _ <$> x :: xs). exists (array l).
  assert (length l = length (x :: xs)) as Hlen by apply length_fmap.
  eexists. split; [done|]. split; [unfold array; rewrite Hlen; simpl; by rewrite <- app_assoc|].
  right. split; [|done]. simpl. by rewrite Hset.
Qed.

(** ** Requests *)

(** The key of the request is one of this node's shard, or of no shard. *)
Definition here (args : list string) : Prop :=
  match args with
  | [] => True
  | key :: _ => let '(_, ip, isLocal) := LocateKey node_router key in (isLocal || String.eqb ip "") = true
  end.

(** What redcon dispatches to: an entry of the table and its handler, or the
    error of an unknown command. *)
Lemma ServeRESP_plan (ServeRESP : gmap string handler → handler) conn name args :
  mux_dispatches ServeRESP →
  let g en := match list_to_map (M := gmap string meaning) grammar !! ToLower name with
              | Some f => f en name args
              | None => Some Unknown
              end in
  let p := ServeRESP mux_handlers conn name args in
  (∀ en, g en = None) ∨ plan g p
  ∨ ToLower name = "smismember" ∧ (g = λ en, meaning_smismember en name args)
    ∧ p = handleSMIsMember conn name args.
Proof.
  intros Hmux g p. specialize (Hmux mux_handlers conn name args).
  pose proof (list_to_map_Forall2 realizes _ _ (ToLower name) mux_plans) as H.
  unfold g, p, mux_handlers in *.
  destruct (list_to_map grammar !! ToLower name) as [f|], (list_to_map mux !! ToLower name) as [h|];
    try done.
  - rewrite Hmux. destruct H as [->|[H|(Hn & -> & ->)]]; [by left|right; left; apply H|by right; right].
  - destruct Hmux as [msg ->]. right. left. apply plan_write. intros _ req [= <-].
    split; [done|]. by exists msg.
Qed.

(** A request of the table runs one handler for it. *)
Lemma handleCmd_plan ServeRESP conn name args :
  mux_dispatches ServeRESP → here args →
  let g en := request_of en name args in
  let p := handleCmd ServeRESP conn name args in
  (∀ en, g en = None) ∨ plan g p
  ∨ ToLower name = "smismember" ∧ (g = λ en, meaning_smismember en name args)
    ∧ p = handleSMIsMember conn name args.
Proof.
  intros Hmux Hhere g p. unfold g, p, handleCmd, request_of. rewrite str_in_cons.
  destruct (String.eqb (ToUpper name) "HELLO"); [by left|]. cbn [orb].
  destruct (str_in (ToUpper name) ["CLIENT"; "EVAL"; "EVALSHA"; "SCRIPT"]); [by left|].
  destruct args as [|k args].
  - destruct (str_in (ToUpper name) ["PING"; "FLUSHDB"]); cbn [negb].
    + rewrite andb_false_r. by apply ServeRESP_plan.
    + right. left. apply plan_reply.
  - rewrite bool_decide_false by done. cbn [andb]. unfold here in Hhere.
    destruct (LocateKey node_router k) as [[? ip] isLocal]. rewrite Hhere. by apply ServeRESP_plan.
Qed.

Lemma handleCmd_serves ServeRESP en conn name args w m req :
  mux_dispatches ServeRESP → node_ok en w m → env_ok en → here args →
  request_of en name args = Some req → regular m req → takes req →
  serves en m req w (alone en (handleCmd ServeRESP conn name args) w).
Proof.
  intros Hmux Hok Hen Hhere Hreq Hreg Htk.
  destruct (handleCmd_plan ServeRESP conn name args Hmux Hhere) as [H|[H|(_ & Hg & ->)]].
  - by rewrite H in Hreq.
  - by eapply plan_serves.
  - apply serves_smismember; [done..| |done]. by rewrite <- Hreq, <- (f_equal (λ g, g en) Hg).
Qed.

(** C6: The server implements the abstract Redis server.  Whatever a client sends
    (CLIENT, HELLO and the commands of scripts apart) for a key of the node's
    shard, in any case and with any number of arguments, it gets the reply that
    the table of commands and the abstract state give: the arity and syntax
    errors, the answer of the submitted command or the values asked for; and
    the node represents the next abstract state.  A write gets Raft's error
    when Raft fails. *)
Theorem handleCmd_refines ServeRESP en conn name args w m req :
  mux_dispatches ServeRESP → node_ok en w m → env_ok en → here args →
  request_of en name args = Some req → regular m req → takes req →
  serves en m req w (alone en (handleCmd ServeRESP conn name args) w).
Proof. apply handleCmd_serves. Qed.

(** ** Sessions *)

(** A request of some connection at some instant. *)
Record incoming := mkIncoming {
  i_env : Env;
  i_conn : nat;
  i_name : string;
  i_args : list string;
}.

Fixpoint serve_all (ServeRESP : gmap string handler → handler) (rs : list incoming)
    : M world string unit :=
  match rs with
  | [] => ret tt
  | r :: rs' =>
      alone (i_env r) (handleCmd ServeRESP (i_conn r) (i_name r) (i_args r));;;
      serve_all ServeRESP rs'
  end.

(** Time goes on, and each request is one for this node that the state it finds
    allows. *)
Fixpoint session_ok (t0 : Z) m (rs : list incoming) : Prop :=
  match rs with
  | [] => True
  | r :: rs' => ∃ req,
      let en := i_env r in let m' := expire (now en) m in
      t0 <= now en ∧ env_ok en ∧ here (i_args r) ∧ request_of en (i_name r) (i_args r) = Some req
      ∧ regular m' req ∧ takes req ∧ session_ok (now en) (next en req m') rs'
  end.

(** The replies of the abstract server to the requests, one after another, and
    the state it ends in. *)
Fixpoint transcript m (rs : list incoming) (outs : list (list wr)) (m_end : rstate) : Prop :=
  match rs, outs with
  | [], [] => m_end = m
  | r :: rs', ws :: outs' => ∃ req,
      let en := i_env r in let m' := expire (now en) m in
      request_of en (i_name r) (i_args r) = Some req ∧ answer en m' req ws
      ∧ transcript (next en req m') rs' outs' m_end
  | _, _ => False
  end.

(** Raft, where it is set up, commits every entry. *)
Definition raft_available : Prop := ∀ f en data d, raft = Some f → ∃ res d', f en data d = (inr res, d').

Lemma node_ok_later en en' w m :
  node_ok en w m → now en <= now en' → node_ok en' w (expire (now en') m).
Proof. intros (? & ? & ? & Hs) Hle. split_and!; [done..|]. by eapply Sim_expire. Qed.

(** C7: A session is a run of the abstract server.  While Raft commits every
    entry, a node that serves [regular] requests of its clients one after
    another (EXPIRE and MGET not of collections, SMISMEMBER of sets, no
    SRANDMEMBER with the least count, no lifetimes beyond 64-bit nanoseconds),
    while time passes and keys expire, does not panic and sends exactly the
    replies of the abstract server to that sequence of requests, each reply
    complete before the next, and it ends in a state the abstract one
    represents.  The requests are those of the table for keys of this node, and
    the store takes their writes. *)
Theorem session_refines ServeRESP en0 rs w m :
  mux_dispatches ServeRESP → raft_available → node_ok en0 w m → session_ok (now en0) m rs →
  ∃ outs w' m', serve_all ServeRESP rs w = (inr tt, w') ∧ transcript m rs outs m'
    ∧ w_out w' = w_out w ++ mjoin outs ∧ node_ok (default en0 (i_env <$> last rs)) w' m'.
Proof.
  intros Hmux Hraft. revert en0 w m. induction rs as [|r rs IH]; intros en0 w m Hok Hrs.
  { exists [], w, m. by rewrite app_nil_r. }
  destruct Hrs as (req & Hle & Hen & Hhere & Hreq & Hreg & Htk & Hrs).
  pose proof (node_ok_later _ _ _ _ Hok Hle) as Hok'.
  destruct (handleCmd_serves ServeRESP (i_env r) (i_conn r) (i_name r) (i_args r) w _ req
    Hmux Hok' Hen Hhere Hreq Hreg Htk) as (ws & w1 & Hr & Hout & [Hfail|[Ha Hok1]]).
  { destruct Hfail as (f & c & e & d' & Hf & _ & He & _).
    destruct (Hraft f (i_env r) (enc_cmd c) (w_db w) Hf) as (res & d1 & Hd). by rewrite Hd in He. }
  destruct (IH (i_env r) w1 _ Hok1 Hrs) as (outs & w2 & m2 & Hr2 & Ht & Hout2 & Hok2).
  exists (ws :: outs), w2, m2. split.
  { cbn [serve_all]. erewrite bind_inr by exact Hr. exact Hr2. }
  split; [exists req; split; [exact Hreq|split; [exact Ha|exact Ht]]|].
  split; [rewrite Hout2, Hout, <- app_assoc; reflexivity|].
  rewrite last_cons. by destruct (last rs).
Qed.
End cmds.

(** ** The theorems at concrete inputs *)

Section concrete.
#[local] Existing Instances B0 L0 C0 CL0 ServerRefine.N0.

(** A command in mixed case, for a key of no shard. *)
Lemma handleCmd_refines_witness :
  serves (en0 0) state0 (Submit (command "RPUSH" "list" ["d"])) (world0 db0)
    (alone (en0 0) (handleCmd serve0 1%nat "rPush" ["list"; "d"]) (world0 db0)).
Proof.
  apply (handleCmd_refines serve0 (en0 0) 1%nat "rPush" ["list"; "d"] (world0 db0) state0).
  - apply serve0_dispatches.
  - apply node_ok0.
  - by apply en0_ok.
  - vm_compute. reflexivity.
  - vm_compute. reflexivity.
  - done.
  - split; [|done]. intros k ->%list_elem_of_singleton. apply writable0. simpl. lia.
Defined.

(** A key that expires between two requests of different connections. *)
Definition session0 : list incoming :=
  [mkIncoming (en0 0) 1 "SET" ["k"; "v"; "EX"; "2"];
   mkIncoming (en0 second) 2 "get" ["k"];
   mkIncoming (en0 (5 * second)) 2 "get" ["k"]].

Lemma session_refines_witness : ∃ outs w' m',
  serve_all serve0 session0 (world0 db0) = (inr tt, w') ∧ transcript state0 session0 outs m'
  ∧ w_out w' = [] ++ mjoin outs ∧ node_ok (en0 (5 * second)) w' m'.
Proof.
  apply (session_refines serve0 (en0 0) session0 (world0 db0) state0).
  - apply serve0_dispatches.
  - intros f en data d [= <-]. destruct (Apply noLua en d data) as [res d']. by exists res, d'.
  - apply node_ok0.
  - exists (SubmitSet (set_ttl (command "SET" "k" ["v"]) 2000)). split_and!; [done|by apply en0_ok| | |intros [=]| |].
    1, 2: vm_compute; reflexivity.
    { split; [|done]. intros k ->%list_elem_of_singleton. apply writable0. simpl. lia. }
    exists (Ask (QGet "k")). split_and!; [done|by apply en0_ok| | |done|done|].
    1, 2: vm_compute; reflexivity.
    exists (Ask (QGet "k")). split_and!; [done|by apply en0_ok| | |done..].
    all: vm_compute; reflexivity.
Defined.

(** What the client reads. *)
Theorem session_ex : w_out (serve_all serve0 session0 (world0 db0)).2 = [WString "OK"; WBulk "v"; WNull].
Proof. vm_compute. reflexivity. Qed.
End concrete.
