(* ===== verification/Concurrent.v ===== *)
(** * A node that serves many connections at once

    redcon runs a goroutine for each connection, which serves its commands one
    after another.  A step is one call of one connection's handler, or one of
    Raft: a command that a handler has submitted is applied by the state
    machine, or fails; an entry that another node submitted is applied; Raft
    writes its own log.  Steps of different connections interleave in any
    order, on a clock that does not go back.

    The trace records the calls of clients, the transactions, and the replies.
    The theorems say that a reply is that of the abstract server on the state
    at one instant between the call and the reply. *)

From stdpp Require Import relations.
From S2P Require Import Prelude Prog GoStd Badger Codec Keys Fsm FsmColl FsmApply FsmRead FsmSpec FsmSim.
From S2P Require Import Concrete FsmProps FsmReadProps FsmTtl RaftStore Snapshot Cluster Router.
From S2P Require Import Server ServerProps ServerRefine ServerSpec ServerCmds.
From Stdlib Require Import Lia ZArith.
#[local] Open Scope Z_scope.

Module Conc.
Section conc.
Context `{B : BadgerOps} `{C : Codec} {N : Node}.
Abbreviation HM := (prog returns).
Abbreviation handler := (nat → string → list string → HM unit).
Context (ServeRESP : gmap string handler → handler).

(** What a connection is doing: running its handler, having written [out]; or
    waiting for Raft. *)
Inductive status :=
  | Running (p : HM unit) (out : list wr)
  | Proposed (c : Command) (k : string + (gerr + goval) → HM unit) (out : list wr).

Inductive event :=
  | EvInvoke (i : nat) (name : string) (args : list string)
  | EvRead (i : nat) (en : Env)
  | EvApply (i : nat) (en : Env) (c : Command)
  | EvForeign (en : Env) (c : Command)
  | EvRespond (i : nat) (ws : list wr).

Record node := mkNode {
  n_db : db;
  n_ctx : gmap nat connectionContext;
  n_pool : pool;
  n_clock : Z;
  n_conns : gmap nat status;
  n_trace : list event;
}.

Definition reads (i : nat) (en : Env) (c : call) : list event :=
  match c with CView _ _ => [EvRead i en] | _ => [] end.

Section step.
(** The requests of clients, and the entries of other nodes. *)
Context (allowed : nat → string → list string → Prop) (foreign : Command → Prop).

Inductive step : node → node → Prop :=
  | step_invoke d ctx pl t cs tr i name args :
      cs !! i = None → allowed i name args →
      step (mkNode d ctx pl t cs tr)
        (mkNode d ctx pl t (<[i := Running (handleCmd ServeRESP i name args) []]> cs)
           (tr ++ [EvInvoke i name args]))
  | step_call d ctx pl t cs tr i c k out en x w :
      cs !! i = Some (Running (Next c k) out) → submitting c = false → env_ok en → t <= now en →
      exec en c (mkWorld d ctx pl out) = (x, w) →
      step (mkNode d ctx pl t cs tr)
        (mkNode (w_db w) (w_ctx w) (w_pool w) (now en) (<[i := Running (k x) (w_out w)]> cs)
           (tr ++ reads i en c))
  | step_propose d ctx pl t cs tr i c k out :
      cs !! i = Some (Running (Next (CSubmit c) k) out) →
      step (mkNode d ctx pl t cs tr) (mkNode d ctx pl t (<[i := Proposed c k out]> cs) tr)
  | step_apply d ctx pl t cs tr i c k out en a d' :
      cs !! i = Some (Proposed c k out) → env_ok en → t <= now en →
      Apply handleLua en d (enc_cmd c) = (a, d') →
      step (mkNode d ctx pl t cs tr)
        (mkNode d' ctx pl (now en) (<[i := Running (k (inr a)) out]> cs) (tr ++ [EvApply i en c]))
  (** The entry may still be committed: then it is like one of another node. *)
  | step_fail d ctx pl t cs tr i c k out e :
      cs !! i = Some (Proposed c k out) →
      step (mkNode d ctx pl t cs tr) (mkNode d ctx pl t (<[i := Running (k (inl e)) out]> cs) tr)
  | step_foreign d ctx pl t cs tr c en a d' :
      foreign c → env_ok en → t <= now en → Apply handleLua en d (enc_cmd c) = (a, d') →
      step (mkNode d ctx pl t cs tr) (mkNode d' ctx pl (now en) cs (tr ++ [EvForeign en c]))
  | step_raft d ctx pl t cs tr d' :
      raft_write d d' → step (mkNode d ctx pl t cs tr) (mkNode d' ctx pl t cs tr)
  | step_respond d ctx pl t cs tr i out :
      cs !! i = Some (Running (Ret tt) out) →
      step (mkNode d ctx pl t cs tr)
        (mkNode d ctx pl t (delete i cs) (tr ++ [EvRespond i out])).
End step.

(** A node that starts on a database. *)
Definition starts (d : db) (t : Z) : node := mkNode d ∅ (mkPool ∅ 0) t ∅ [].

(** ** What a trace says *)

(** The connection of an event, and that of a call or a reply. *)
Definition conn_of (e : event) : option nat :=
  match e with
  | EvInvoke i _ _ | EvRead i _ | EvApply i _ _ | EvRespond i _ => Some i
  | EvForeign _ _ => None
  end.
Definition ends_of (e : event) : option nat :=
  match e with EvInvoke i _ _ | EvRespond i _ => Some i | _ => None end.
(** Nothing of connection [i] happens; it is neither called nor answered. *)
Definition quiet (i : nat) : list event → Prop := Forall (λ e, conn_of e ≠ Some i).
Definition inside (i : nat) : list event → Prop := Forall (λ e, ends_of e ≠ Some i).

Lemma quiet_inside i tr : quiet i tr → inside i tr.
Proof.
  intros H. eapply Forall_impl; [exact H|]. intros [] He; simpl in *; congruence.
Qed.

(** The abstract state after the commands that have been applied. *)
Definition abs_event (m : rstate) (e : event) : rstate :=
  match e with
  | EvApply _ en c | EvForeign en c => (spec_apply en c (expire (now en) m)).2
  | _ => m
  end.
Definition abs (m : rstate) (tr : list event) : rstate := foldl abs_event m tr.

Lemma abs_snoc m tr e : abs m (tr ++ [e]) = abs_event (abs m tr) e.
Proof. apply foldl_snoc. Qed.

(** The replies in a trace that grows. *)
Lemma snoc_replies (P : list event → nat → list wr → Prop) tr e :
  (∀ tr1 i ws tr2, tr = tr1 ++ EvRespond i ws :: tr2 → P tr1 i ws) →
  (∀ i ws, e = EvRespond i ws → P tr i ws) →
  ∀ tr1 i ws tr2, tr ++ [e] = tr1 ++ EvRespond i ws :: tr2 → P tr1 i ws.
Proof.
  intros H He tr1 i ws tr2 Heq. destruct tr2 as [|e' tr2 _] using rev_ind.
  - apply app_inj_tail in Heq as [-> ->]. by apply He.
  - rewrite app_comm_cons, app_assoc in Heq. apply app_inj_tail in Heq as [-> _]. by eapply H.
Qed.

Lemma expire_later t t' (m : rstate) : t <= t' → expire t' (expire t m) = expire t' m.
Proof.
  intros Ht. apply map_eq. intros k. apply option_eq. intros [r exp].
  unfold expire. rewrite !map_lookup_filter_Some. simpl. split; [tauto|].
  intros [Hm Hl]. split_and!; [done| |done]. by eapply live_antitone.
Qed.

(** ** Linearizability *)

Section linear.
Context {L : BadgerLaws B} {CL : CodecLaws C} (m0 : rstate).

(** The requests the theorem is about: those of the table for keys of this
    node, SMISMEMBER and EXPIRE apart, whose writes the store takes. *)
Definition fits (req : request) : Prop :=
  takes req ∧ ∀ c, submits req = Some c → Op c ≠ "EXPIRE".
Definition admitted (name : string) (args : list string) : Prop :=
  here args ∧ ToLower name ≠ "smismember"
  ∧ ∀ en, env_ok en → ∃ req, request_of en name args = Some req ∧ fits req.
(** Clients may send these, and whatever submits nothing. *)
Definition benign (i : nat) (name : string) (args : list string) : Prop :=
  admitted name args ∨ (¬ admitted name args ∧ keeps (handleCmd ServeRESP i name args)).
Definition data_command (c : Command) : Prop := data_op (Op c) = true ∧ accepted c.

(** The instant at which a request took effect: its command was applied, or its
    transaction ran; a request that needs neither has none. *)
Definition point (i : nat) (en : Env) (req : request) (lin : list event) : Prop :=
  env_ok en ∧
  match submits req with
  | Some c => lin = [EvApply i en c]
  | None => lin = [EvRead i en] ∨ lin = []
  end.

(** The state a request finds after [tr]. *)
Definition found (tr : list event) (en : Env) : rstate := expire (now en) (abs m0 tr).

Definition parsed (name : string) (args : list string) (req : request) : Prop :=
  ∃ en, env_ok en ∧ request_of en name args = Some req.

(** How far the request of connection [i] has come. *)
Inductive progress (tr : list event) (i : nat) : status → Prop :=
  | pr_aside name args tr1 tr2 p out :
      tr = tr1 ++ EvInvoke i name args :: tr2 → inside i tr2 → ¬ admitted name args → keeps p →
      progress tr i (Running p out)
  | pr_before name args tr1 tr2 g p :
      tr = tr1 ++ EvInvoke i name args :: tr2 → quiet i tr2 →
      (∀ en, env_ok en → ∃ req, g en = Some req ∧ parsed name args req ∧ fits req) → plan g p →
      progress tr i (Running p [])
  | pr_proposed name args tr1 tr2 req c k :
      tr = tr1 ++ EvInvoke i name args :: tr2 → quiet i tr2 →
      parsed name args req → fits req → submits req = Some c → str_in (Op c) lua_ops = false →
      (∀ en m, finishes False (answer en m req) (k (inr (spec_apply en c m).1)) []) →
      (∀ e, finishes False (λ ws, ws = [WError ("ERR " +:+ e)]) (k (inl e)) []) →
      progress tr i (Proposed c k [])
  | pr_failed name args tr1 tr2 req c e p out :
      tr = tr1 ++ EvInvoke i name args :: tr2 → quiet i tr2 →
      parsed name args req → submits req = Some c →
      finishes False (λ ws, ws = [WError ("ERR " +:+ e)]) p out →
      progress tr i (Running p out)
  | pr_after name args tr1 tr2 lin tr3 req en p out :
      tr = tr1 ++ EvInvoke i name args :: tr2 ++ lin ++ tr3 → quiet i tr2 → quiet i tr3 →
      parsed name args req → point i en req lin →
      let m := found (tr1 ++ EvInvoke i name args :: tr2) en in
      finishes (¬ regular m req) (λ ws, regular m req → answer en m req ws) p out →
      progress tr i (Running p out).

(** Why a reply was given after [tr]. *)
Inductive explained (tr : list event) (i : nat) (ws : list wr) : Prop :=
  | ex_aside name args tr1 tr2 :
      tr = tr1 ++ EvInvoke i name args :: tr2 → inside i tr2 → ¬ admitted name args →
      explained tr i ws
  | ex_failed name args tr1 tr2 req c e :
      tr = tr1 ++ EvInvoke i name args :: tr2 → quiet i tr2 →
      parsed name args req → submits req = Some c → ws = [WError ("ERR " +:+ e)] →
      explained tr i ws
  | ex_linear name args tr1 tr2 lin tr3 req en :
      tr = tr1 ++ EvInvoke i name args :: tr2 ++ lin ++ tr3 → quiet i tr2 → quiet i tr3 →
      parsed name args req → point i en req lin →
      let m := found (tr1 ++ EvInvoke i name args :: tr2) en in
      (regular m req → answer en m req ws) →
      explained tr i ws.

Record inv (s : node) : Prop := {
  inv_db : dhealthy (n_db s);
  inv_sim : Sim (n_clock s) (dview (n_db s)) (expire (n_clock s) (abs m0 (n_trace s)));
  inv_conns i st : n_conns s !! i = Some st → progress (n_trace s) i st;
  inv_replies tr1 i ws tr2 : n_trace s = tr1 ++ EvRespond i ws :: tr2 → explained tr1 i ws;
}.

(** What happens to others does not change how far a request has come. *)
Lemma progress_other tr i st e : conn_of e ≠ Some i → progress tr i st → progress (tr ++ [e]) i st.
Proof.
  intros He Hp.
  assert (∀ tr2, quiet i tr2 → quiet i (tr2 ++ [e])) as Hq.
  { intros tr2 H. apply Forall_app. split; [done|]. by apply Forall_singleton. }
  assert (∀ tr2, inside i tr2 → inside i (tr2 ++ [e])) as Hin.
  { intros tr2 H. apply Forall_app. split; [done|]. apply Forall_singleton.
    destruct e; simpl in *; congruence. }
  destruct Hp as [name args tr1 tr2 p out -> H2 Ha Hp|name args tr1 tr2 g p -> H2 Hg Hp
    |name args tr1 tr2 req c k -> H2 Hr Hf Hc Hl Hk He'|name args tr1 tr2 req c e' p out -> H2 Hr Hc Hp
    |name args tr1 tr2 lin tr3 req en p out -> H2 H3 Hr Hpt m Hp].
  - eapply (pr_aside _ _ name args tr1 (tr2 ++ [e])); auto. by rewrite <- app_assoc.
  - eapply (pr_before _ _ name args tr1 (tr2 ++ [e])); eauto. by rewrite <- app_assoc.
  - eapply (pr_proposed _ _ name args tr1 (tr2 ++ [e])); eauto. by rewrite <- app_assoc.
  - eapply (pr_failed _ _ name args tr1 (tr2 ++ [e])); eauto. by rewrite <- app_assoc.
  - eapply (pr_after _ _ name args tr1 tr2 lin (tr3 ++ [e])); eauto.
    rewrite <- app_assoc. simpl. by rewrite <- !app_assoc.
Qed.

Lemma progress_others tr i st evs : quiet i evs → progress tr i st → progress (tr ++ evs) i st.
Proof.
  intros H. revert tr. induction H as [|e evs He _ IH]; intros tr Hp; [by rewrite app_nil_r|].
  rewrite cons_middle, app_assoc. by apply IH, progress_other.
Qed.

(** Only connection [i] moves. *)
Lemma conns_update (cs : gmap nat status) tr i st' evs :
  (∀ j st, cs !! j = Some st → progress tr j st) → Forall (λ e, conn_of e = Some i) evs →
  progress (tr ++ evs) i st' → ∀ j st, <[i := st']> cs !! j = Some st → progress (tr ++ evs) j st.
Proof.
  intros H Hevs Hst j st. rewrite lookup_insert. case_decide as Hj; simplify_eq; [by intros [= <-]|].
  intros Hj'. apply progress_others; [|by apply H]. eapply Forall_impl; [exact Hevs|].
  intros e He. simpl in *. congruence.
Qed.

Lemma finishes_step P Q c k out en d ctx pl x w :
  finishes P Q (Next c k) out → env_ok en → exec en c (mkWorld d ctx pl out) = (x, w) →
  finishes P Q (k x) (w_out w) ∧ ∀ i en, reads i en c = [].
Proof.
  intros [Hc Hk] Hen Hx. pose proof (exec_out en c (mkWorld d ctx pl out)) as Ho.
  pose proof (exec_sane en c (mkWorld d ctx pl out) Hen) as Hs. rewrite Hx in Ho, Hs. simpl in Ho, Hs.
  rewrite Ho. split; [by apply Hk|by destruct c].
Qed.

(** A call of a request that has not taken effect. *)
Lemma before_call name args tr1 tr2 g i c k d ctx pl en x w :
  let tr := tr1 ++ EvInvoke i name args :: tr2 in
  quiet i tr2 →
  (∀ en, env_ok en → ∃ req, g en = Some req ∧ parsed name args req ∧ fits req) →
  plan g (Next c k) → submitting c = false → env_ok en →
  dhealthy d → Sim (now en) (dview d) (found tr en) → exec en c (mkWorld d ctx pl []) = (x, w) →
  progress (tr ++ reads i en c) i (Running (k x) (w_out w)).
Proof.
  intros tr Hq Hg Hp Hc Hen Hd Hs Hx. destruct (Hg en Hen) as (req & Hreq & Hpar & Hfit).
  destruct c; simpl in Hp, Hx; try done; injection Hx as <- <-; simpl.
  - rewrite app_nil_r. eapply (pr_before _ _ name args tr1 tr2 (λ _, g en)); [done..| |by apply Hp].
    intros _ _. eauto.
  - destruct (Hp en req Hreq) as [Hsub Hf]. unfold tr. rewrite <- app_assoc. simpl.
    eapply (pr_after _ _ name args tr1 tr2 [EvRead i en] [] req en); [done..|constructor|done| |].
    + split; [done|]. rewrite Hsub. by left.
    + by apply Hf.
  - destruct (Hp en req Hreq) as [Hsub Hf]. unfold tr. rewrite app_nil_r.
    eapply (pr_after _ _ name args tr1 tr2 [] [] req en); [by rewrite !app_nil_r|done|constructor|done| |].
    + split; [done|]. rewrite Hsub. by right.
    + by refine (finishes_mono _ _ _ _ _ _ _ _ Hf); [|intros ws' H _; apply H].
Qed.

Lemma running_call tr i c k out d ctx pl en x w :
  progress tr i (Running (Next c k) out) → submitting c = false → env_ok en →
  dhealthy d → Sim (now en) (dview d) (found tr en) → exec en c (mkWorld d ctx pl out) = (x, w) →
  progress (tr ++ reads i en c) i (Running (k x) (w_out w)).
Proof.
  intros Hp Hc Hen Hd Hs Hx. inversion Hp as [name args tr1 tr2 p out' Htr H2 Ha Hk
    |name args tr1 tr2 g p Htr H2 Hg Hpl| |name args tr1 tr2 req c' e p out' Htr H2 Hr Hsub Hf
    |name args tr1 tr2 lin tr3 req en' p out' Htr H2 H3 Hr Hpt m Hf]; subst.
  - destruct Hk as [_ Hk]. eapply (pr_aside _ _ name args tr1 (tr2 ++ reads i en c));
      [by rewrite <- app_assoc| |done|apply Hk].
    apply Forall_app. split; [done|]. destruct c; simpl; by repeat constructor.
  - by eapply before_call.
  - destruct (finishes_step _ _ _ _ _ _ _ _ _ _ _ Hf Hen Hx) as [Hf' ->]. rewrite app_nil_r.
    by eapply (pr_failed _ _ name args tr1 tr2).
  - destruct (finishes_step _ _ _ _ _ _ _ _ _ _ _ Hf Hen Hx) as [Hf' ->]. rewrite app_nil_r.
    by eapply (pr_after _ _ name args tr1 tr2 lin tr3).
Qed.

Lemma running_propose tr i c k out :
  progress tr i (Running (Next (CSubmit c) k) out) → progress tr i (Proposed c k out).
Proof.
  intros Hp. inversion Hp as [name args tr1 tr2 p out' Htr H2 Ha Hk
    |name args tr1 tr2 g p Htr H2 Hg Hpl| |name args tr1 tr2 req c' e p out' Htr H2 Hr Hsub Hf
    |name args tr1 tr2 lin tr3 req en' p out' Htr H2 H3 Hr Hpt m Hf]; subst.
  - by destruct Hk.
  - destruct (Hg (mkEnv 0 (λ _ s, elements s))) as (req & Hreq & Hpar & Hfit); [done|].
    destruct (Hpl _ req Hreq) as (Hsub & Hlua & Hok & Hfail).
    by eapply (pr_proposed _ _ name args tr1 tr2 req).
  - by destruct Hf.
  - by destruct Hf.
Qed.

(** Raft's answers. *)
Lemma proposed_fail tr i c k out e :
  progress tr i (Proposed c k out) → progress tr i (Running (k (inl e)) out).
Proof.
  inversion 1 as [| |name args tr1 tr2 req c' k' Htr H2 Hr Hfit Hsub Hlua Hok Hfail| |]; subst.
  by eapply (pr_failed _ _ name args tr1 tr2).
Qed.

Lemma proposed_apply tr i c k out en d a d' :
  commits → progress tr i (Proposed c k out) → env_ok en → dhealthy d →
  Sim (now en) (dview d) (found tr en) → Apply handleLua en d (enc_cmd c) = (a, d') →
  progress (tr ++ [EvApply i en c]) i (Running (k (inr a)) out) ∧ dhealthy d'
  ∧ Sim (now en) (dview d') (abs m0 (tr ++ [EvApply i en c])).
Proof.
  intros Hcom Hp Hen Hd Hs Ha.
  inversion Hp as [| |name args tr1 tr2 req c' k' Htr H2 Hr [Htk Hex] Hsub Hlua Hok Hfail| |]; subst.
  set (tr := tr1 ++ _) in *.
  assert (supported (found tr en) c) as Hsup.
  { left. unfold data_op. rewrite str_in_cons, Hlua, orb_false_r.
    destruct (String.eqb_spec (Op c) "EXPIRE") as [He|]; [|done]. by apply Hex in He. }
  assert (accepted c) as Hacc by (by destruct req; simplify_eq/=).
  destruct (Apply_supported handleLua en c d (found tr en)) as (d1 & Hr1 & Hd1 & Hs1); [done..|].
  rewrite Hr1 in Ha. injection Ha as <- <-. split; [|by rewrite abs_snoc].
  unfold tr. rewrite <- app_assoc. simpl.
  eapply (pr_after _ _ name args tr1 tr2 [EvApply i en c] [] req en); [done..|constructor|done| |].
  - split; [done|]. by rewrite Hsub.
  - by refine (finishes_mono _ _ _ _ _ _ _ _ (Hok en (found tr en))).
Qed.

Lemma running_respond tr i out : progress tr i (Running (Ret tt) out) → explained tr i out.
Proof.
  inversion 1 as [name args tr1 tr2 p out' Htr H2 Ha Hk
    |name args tr1 tr2 g p Htr H2 Hg Hpl| |name args tr1 tr2 req c' e p out' Htr H2 Hr Hsub Hf
    |name args tr1 tr2 lin tr3 req en' p out' Htr H2 H3 Hr Hpt m Hf]; subst.
  - by eapply ex_aside.
  - done.
  - by eapply ex_failed.
  - by eapply ex_linear.
Qed.

Lemma inside_point i en req pre lin post :
  quiet i pre → point i en req lin → quiet i post → inside i (pre ++ lin ++ post).
Proof.
  intros Hpre Hpt Hpost. apply Forall_app. split; [by apply quiet_inside|]. apply Forall_app.
  split; [|by apply quiet_inside]. destruct Hpt as [_ Hpt].
  destruct (submits req); [|destruct Hpt]; subst; by repeat constructor.
Qed.

(** *** The invariant *)

Hypotheses (Hmux : mux_dispatches ServeRESP) (Hcom : commits).

Lemma sim_later s en :
  inv s → n_clock s <= now en → Sim (now en) (dview (n_db s)) (found (n_trace s) en).
Proof.
  intros [_ Hs _ _] Ht. unfold found. rewrite <- (expire_later (n_clock s)) by done.
  by eapply Sim_expire.
Qed.

Lemma invoke_progress tr i name args :
  benign i name args →
  progress (tr ++ [EvInvoke i name args]) i (Running (handleCmd ServeRESP i name args) []).
Proof.
  intros [Ha|[Ha Hk]]; [|by eapply (pr_aside _ _ name args tr []); [|constructor|..]].
  destruct Ha as (Hhere & Hn & Hreq).
  destruct (handleCmd_plan ServeRESP i name args Hmux Hhere) as [H|[H|(H & _)]]; [| |done].
  - destruct (Hreq (mkEnv 0 (λ _ s, elements s))) as (req & Hr & _); [done|]. by rewrite H in Hr.
  - eapply (pr_before _ _ name args tr []); [done|constructor| |exact H].
    intros en Hen. destruct (Hreq en Hen) as (req & Hr & Hfit). exists req.
    split; [done|]. split; [|done]. by exists en.
Qed.

(** A state after an event of connection [i], which has moved to [st]. *)
Lemma conc_move d ctx pl t cs tr d' ctx' pl' t' i st evs :
  inv (mkNode d ctx pl t cs tr) → dhealthy d' →
  Sim t' (dview d') (expire t' (abs m0 (tr ++ evs))) →
  Forall (λ e, conn_of e = Some i) evs → (∀ j ws, EvRespond j ws ∉ evs) → (length evs <= 1)%nat →
  progress (tr ++ evs) i st →
  inv (mkNode d' ctx' pl' t' (<[i := st]> cs) (tr ++ evs)).
Proof.
  intros [_ _ Hc Hr] Hd Hs Hevs Hno Hlen Hst. split; [done|done| |]; simpl in *.
  - by eapply conns_update.
  - destruct evs as [|e [|]]; [by rewrite app_nil_r| |simpl in Hlen; lia].
    apply snoc_replies; [done|]. intros j ws ->. by destruct (Hno j ws (list_elem_of_here _ _)).
Qed.

Lemma inv_call d ctx pl t cs tr i c k out en x w :
  inv (mkNode d ctx pl t cs tr) →
  cs !! i = Some (Running (Next c k) out) → submitting c = false → env_ok en → t <= now en →
  exec en c (mkWorld d ctx pl out) = (x, w) →
  inv (mkNode (w_db w) (w_ctx w) (w_pool w) (now en) (<[i := Running (k x) (w_out w)]> cs)
    (tr ++ reads i en c)).
Proof.
  intros Hi Hst Hc Hen Ht Hx. pose proof (sim_later _ en Hi Ht) as Hs. simpl in Hs.
  pose proof (inv_db _ Hi) as Hd. pose proof (inv_conns _ Hi _ _ Hst) as Hp. simpl in Hd, Hp.
  pose proof (exec_keeps en c (mkWorld d ctx pl out) Hc) as Hdb. rewrite Hx in Hdb. simpl in Hdb.
  assert (abs m0 (tr ++ reads i en c) = abs m0 tr) as Habs.
  { unfold abs. rewrite foldl_app. by destruct c. }
  eapply conc_move; [done|by rewrite Hdb|by rewrite Hdb, Habs|..].
  - destruct c; by repeat constructor.
  - intros j ws Hin. destruct c; simpl in Hin; try (by apply elem_of_nil in Hin).
    by apply list_elem_of_singleton in Hin.
  - destruct c; simpl; lia.
  - by eapply running_call.
Qed.

Lemma conc_step s s' : inv s → step benign data_command s s' → inv s'.
Proof.
  intros Hi Hstep. destruct Hstep as [d ctx pl t cs tr i name args Hi0 Hal
    |d ctx pl t cs tr i c k out en x w Hst Hc Hen Ht Hx|d ctx pl t cs tr i c k out Hst
    |d ctx pl t cs tr i c k out en a d' Hst Hen Ht Ha|d ctx pl t cs tr i c k out e Hst
    |d ctx pl t cs tr c en a d' [Hop Hacc] Hen Ht Ha|d ctx pl t cs tr d' Hw|d ctx pl t cs tr i out Hst].
  all: pose proof Hi as [Hd Hs Hconns Hrep]; simpl in Hd, Hs, Hconns, Hrep.
  - eapply conc_move; [done|done|by rewrite abs_snoc|by repeat constructor| |simpl; lia|].
    + by intros j ws [=]%list_elem_of_singleton.
    + by apply invoke_progress.
  - by eapply inv_call.
  - rewrite <- (app_nil_r tr).
    eapply conc_move; [done|done|by rewrite app_nil_r|constructor|intros ? ? []%elem_of_nil|simpl; lia|].
    rewrite app_nil_r. by eapply running_propose, Hconns.
  - pose proof (sim_later _ en Hi Ht) as Hs'. simpl in Hs'.
    destruct (proposed_apply tr i c k out en d a d') as (Hp & Hd' & Hs''); [by try apply Hconns..|].
    eapply conc_move; [done|done| |by repeat constructor| |simpl; lia|done].
    + apply (Sim_expire (now en)); [lia|done].
    + by intros j ws [=]%list_elem_of_singleton.
  - rewrite <- (app_nil_r tr).
    eapply conc_move; [done|done|by rewrite app_nil_r|constructor|intros ? ? []%elem_of_nil|simpl; lia|].
    rewrite app_nil_r. by eapply proposed_fail, Hconns.
  - pose proof (sim_later _ en Hi Ht) as Hs'. simpl in Hs'.
    destruct (Apply_runs handleLua en c d (found tr en)) as (d1 & Hr1 & Hd1 & Hs1); [done..|].
    rewrite Hr1 in Ha. injection Ha as <- <-. split; simpl; [done| | |].
    + rewrite abs_snoc. apply (Sim_expire (now en)); [lia|done].
    + intros j st Hj. by apply progress_other, Hconns.
    + by apply snoc_replies.
  - destruct (raft_write_spares _ _ Hd Hw) as [Hd' Hv]. split; simpl; [done| |done|done].
    rewrite (obs_eq_data _ _ (dview d)); done.
  - split; simpl; [done|by rewrite abs_snoc| |].
    + intros j st Hj. apply lookup_delete_Some in Hj as [Hne Hj]. apply progress_other; [|by apply Hconns].
      simpl. congruence.
    + apply snoc_replies; [done|]. intros j ws [= <- <-]. by apply running_respond, Hconns.
Qed.

Lemma conc_reachable d t s :
  dhealthy d → Sim t (dview d) m0 → rtc (step benign data_command) (starts d t) s → inv s.
Proof.
  intros Hd Hs H. assert (∀ s0, rtc (step benign data_command) s0 s → inv s0 → inv s) as Hrtc.
  { intros s0. induction 1; eauto using conc_step. }
  apply (Hrtc _ H). split; simpl; [done|by apply (Sim_expire t); [lia|]|done|]. by intros [].
Qed.

(** C3: A node is linearizable for the commands of the table, EXPIRE and
    SMISMEMBER apart ([admitted]).  Clients send these, for keys of the node and
    with writes the store takes, or else what submits nothing to Raft; so no
    client sends EXPIRE or scripts, nor do the entries of other nodes contain
    them.  However the handlers of the connections, Raft and the entries of
    other nodes interleave, the database represents the abstract state after
    the commands applied so far, and every reply to an admitted request is the
    answer of the abstract server on the state at one instant between the
    client's call and the reply: that at which the command was applied or the
    transaction ran, the only one of that request.  This is for requests that
    are [regular] on that state: not MGET of a collection, nor SRANDMEMBER with
    the least count, nor the TTL of a key that expires beyond 64-bit
    nanoseconds.  A write may get Raft's error instead, and has then not been
    applied for its connection. *)
Theorem node_linearizable d t s :
  dhealthy d → Sim t (dview d) m0 → rtc (step benign data_command) (starts d t) s →
  Sim (n_clock s) (dview (n_db s)) (expire (n_clock s) (abs m0 (n_trace s)))
  ∧ ∀ tr i ws rest, n_trace s = tr ++ EvRespond i ws :: rest →
      ∃ name args before during,
        tr = before ++ EvInvoke i name args :: during ∧ inside i during
        ∧ (admitted name args → ∃ req, parsed name args req ∧
            ((∃ c e, submits req = Some c ∧ quiet i during ∧ ws = [WError ("ERR " +:+ e)])
             ∨ ∃ pre lin post en, during = pre ++ lin ++ post ∧ quiet i pre ∧ quiet i post
                 ∧ point i en req lin
                 ∧ let m := found (before ++ EvInvoke i name args :: pre) en in
                   regular m req → answer en m req ws)).
Proof.
  intros Hd Hs H. destruct (conc_reachable d t s Hd Hs H) as [_ Hsim _ Hrep]. split; [done|].
  intros tr i ws rest Htr.
  destruct (Hrep _ _ _ _ Htr) as [name args tr1 tr2 -> Hin Hn|name args tr1 tr2 req c e -> Hq Hp Hsub ->
    |name args tr1 tr2 lin tr3 req en -> H2 H3 Hp Hpt m Ha].
  - by exists name, args, tr1, tr2.
  - exists name, args, tr1, tr2. split; [done|]. split; [by apply quiet_inside|]. eauto 10.
  - exists name, args, tr1, (tr2 ++ lin ++ tr3). split; [done|]. split; [by eapply inside_point|eauto 15].
Qed.
End linear.

(** ** Replies are complete *)

(** Connection [i] has been called and not been answered. *)
Definition called (tr : list event) (i : nat) (name : string) (args : list string) : Prop :=
  ∃ before during, tr = before ++ EvInvoke i name args :: during ∧ inside i during.

Lemma called_snoc tr i name args e :
  ends_of e ≠ Some i → called tr i name args → called (tr ++ [e]) i name args.
Proof.
  intros He (tr1 & tr2 & -> & H). exists tr1, (tr2 ++ [e]). rewrite <- app_assoc. split; [done|].
  apply Forall_app. split; [done|]. by apply Forall_singleton.
Qed.

Definition whole (_ : unit) (ws : list wr) : Prop := one_reply ws = true.
Definition on_course (st : status) : Prop :=
  match st with
  | Running p out => paths whole p out
  | Proposed c k out => ∀ r, paths whole (k r) out
  end.

(** Every connection is on course to one complete reply, SMISMEMBER apart. *)
Record tidy (s : node) : Prop := {
  tidy_conns i st : n_conns s !! i = Some st →
    ∃ name args, called (n_trace s) i name args ∧ (ToLower name ≠ "smismember" → on_course st);
  tidy_replies tr i ws rest : n_trace s = tr ++ EvRespond i ws :: rest →
    ∃ name args, called tr i name args ∧ (ToLower name ≠ "smismember" → one_reply ws = true);
}.

Definition anything (_ : nat) (_ : string) (_ : list string) : Prop := True.
Definition any_command (_ : Command) : Prop := True.

(** Connection [i] moves, with at most one event that is no reply. *)
Lemma tidy_move d ctx pl t cs tr d' ctx' pl' t' i st evs :
  tidy (mkNode d ctx pl t cs tr) →
  Forall (λ e, conn_of e = Some i) evs → (∀ j ws, EvRespond j ws ∉ evs) → (length evs <= 1)%nat →
  (∃ name args, called (tr ++ evs) i name args ∧ (ToLower name ≠ "smismember" → on_course st)) →
  tidy (mkNode d' ctx' pl' t' (<[i := st]> cs) (tr ++ evs)).
Proof.
  intros [Hc Hr] Hevs Hno Hlen Hst. simpl in *.
  destruct evs as [|e [|]]; [rewrite app_nil_r in *| |simpl in Hlen; lia]; split; simpl.
  - intros j st'. rewrite lookup_insert. case_decide; [intros [= <-]; subst; exact Hst|apply Hc].
  - exact Hr.
  - intros j st'. rewrite lookup_insert. case_decide as Hj; [intros [= <-]; subst; exact Hst|].
    intros Hj'. destruct (Hc j st' Hj') as (name & args & Hcall & Hon). exists name, args.
    split; [|done]. apply called_snoc; [|done]. apply Forall_cons in Hevs as [Hevs _].
    destruct e; simpl in *; congruence.
  - apply snoc_replies; [done|]. intros j ws ->. by destruct (Hno j ws (list_elem_of_here _ _)).
Qed.

Lemma tidy_step s s' :
  mux_dispatches ServeRESP → tidy s → step anything any_command s s' → tidy s'.
Proof.
  intros Hmux Hi Hstep. destruct Hstep as [d ctx pl t cs tr i name args Hi0 Hal
    |d ctx pl t cs tr i c k out en x w Hst Hc Hen Ht Hx|d ctx pl t cs tr i c k out Hst
    |d ctx pl t cs tr i c k out en a d' Hst Hen Ht Ha|d ctx pl t cs tr i c k out e Hst
    |d ctx pl t cs tr c en a d' _ Hen Ht Ha|d ctx pl t cs tr d' Hw|d ctx pl t cs tr i out Hst].
  all: pose proof Hi as [Hconns Hrep]; simpl in Hconns, Hrep.
  - eapply tidy_move; [done|by repeat constructor|by intros j ws [=]%list_elem_of_singleton|simpl; lia|].
    exists name, args. split; [exists tr, []; split; [done|constructor]|]. intros Hn. simpl.
    eapply paths_mono; [|by apply emits_handleCmd]. by intros ? ws (r & -> & Hr).
  - destruct (Hconns _ _ Hst) as (name & args & Hcall & Hon).
    eapply tidy_move; [done|destruct c; by repeat constructor| |destruct c; simpl; lia|].
    { intros j ws Hin. destruct c; simpl in Hin; try (by apply elem_of_nil in Hin).
      by apply list_elem_of_singleton in Hin. }
    exists name, args. split.
    { destruct c; simpl; rewrite ?app_nil_r; [done| |done..]. by apply called_snoc. }
    intros Hn. pose proof (exec_out en c (mkWorld d ctx pl out)) as Ho.
    pose proof (exec_sane en c (mkWorld d ctx pl out) Hen) as Hs. rewrite Hx in Ho, Hs.
    simpl in *. rewrite Ho. by apply (Hon Hn).
  - destruct (Hconns _ _ Hst) as (name & args & Hcall & Hon). rewrite <- (app_nil_r tr).
    eapply tidy_move; [done|constructor|intros ? ? []%elem_of_nil|simpl; lia|]. exists name, args.
    rewrite app_nil_r. split; [done|]. intros Hn r. specialize (Hon Hn r). simpl in Hon.
    rewrite app_nil_r in Hon. by apply Hon.
  - destruct (Hconns _ _ Hst) as (name & args & Hcall & Hon).
    eapply tidy_move; [done|by repeat constructor|by intros j ws [=]%list_elem_of_singleton|simpl; lia|].
    exists name, args. split; [by apply called_snoc|]. intros Hn. by apply Hon.
  - destruct (Hconns _ _ Hst) as (name & args & Hcall & Hon). rewrite <- (app_nil_r tr).
    eapply tidy_move; [done|constructor|intros ? ? []%elem_of_nil|simpl; lia|]. exists name, args.
    rewrite app_nil_r. split; [done|]. intros Hn. by apply Hon.
  - split; simpl.
    + intros j st Hj. destruct (Hconns _ _ Hj) as (name & args & Hcall & Hon). exists name, args.
      split; [by apply called_snoc|done].
    + by apply snoc_replies.
  - by split.
  - destruct (Hconns _ _ Hst) as (name & args & Hcall & Hon). split; simpl.
    + intros j st Hj. apply lookup_delete_Some in Hj as [Hne Hj].
      destruct (Hconns _ _ Hj) as (name' & args' & Hcall' & Hon'). exists name', args'.
      split; [|done]. apply called_snoc; [|done]. simpl. congruence.
    + apply snoc_replies; [done|]. intros j ws [= <- <-]. exists name, args. split; [done|].
      exact Hon.
Qed.

(** C12: Every request gets exactly one complete reply, whatever else the node
    does meanwhile and whatever Raft and other nodes answer: a connection is
    answered only when it has been called and not been answered since, and the
    reply to any command but SMISMEMBER (errors, scripts and proxied commands
    included) is a value, or an array header followed by as many values as it
    announces. *)
Theorem replies_complete d t s tr i ws rest :
  mux_dispatches ServeRESP → rtc (step anything any_command) (starts d t) s →
  n_trace s = tr ++ EvRespond i ws :: rest →
  ∃ name args, called tr i name args ∧ (ToLower name ≠ "smismember" → one_reply ws = true).
Proof.
  intros Hmux H. assert (tidy s) as [_ Hr]; [|by apply Hr].
  assert (∀ s0, rtc (step anything any_command) s0 s → tidy s0 → tidy s) as Hrtc.
  { intros s0. induction 1; eauto using tidy_step. }
  apply (Hrtc _ H). split; [done|]. by intros [].
Qed.

(** ** Requests end *)

(** A connection goes on with its request, from [st] to [st']. *)
Definition advances (st st' : status) : Prop :=
  match st with
  | Running (Next c k) out =>
      match c return (returns c → HM unit) → Prop with
      | CSubmit c => λ k, st' = Proposed c k out
      | _ => λ k, ∃ x out', st' = Running (k x) out'
      end k
  | Running _ _ => False
  | Proposed c k out => ∃ r, st' = Running (k r) out
  end.

Lemma advances_ends st : Acc (flip advances) st.
Proof.
  assert (∀ p out, Acc (flip advances) (Running p out)) as H.
  { induction p as [a|msg|c k IH]; intros out; constructor; intros st' Hst; [done..|].
    unfold flip, advances in Hst. destruct c.
    3: { subst. constructor. intros st'' [r ->]. apply IH. }
    all: destruct Hst as (x & out' & ->); apply IH. }
  destruct st as [p out|c k out]; [apply H|]. constructor. intros st' [r ->]. apply H.
Qed.

(** Requests end.  Whatever other connections and Raft do, a connection
    that is serving a request can go on with it, or be answered (when Raft
    answers what was submitted, in error at worst), unless its handler has
    panicked; and no request goes on forever. *)
Theorem requests_end allowed foreign s i st :
  0 <= n_clock s <= max_int64 → n_conns s !! i = Some st →
  Acc (flip advances) st
  ∧ ((∃ msg out, st = Running (Panic msg) out)
     ∨ (∃ s' out, step allowed foreign s s' ∧ n_conns s' !! i = None
          ∧ n_trace s' = n_trace s ++ [EvRespond i out])
     ∨ ∃ s' st', step allowed foreign s s' ∧ n_conns s' !! i = Some st' ∧ advances st st').
Proof.
  intros Ht Hst. split; [apply advances_ends|]. destruct s as [d ctx pl t cs tr]. simpl in *.
  set (en := mkEnv t (λ _ s, elements s)). assert (env_ok en) as Hen by done.
  destruct st as [[[]|msg|c k] out|c k out].
  - right. left. eexists _, out. split; [by apply step_respond|]. split; [apply lookup_delete_eq|done].
  - left. eauto.
  - right. right. destruct (submitting c) eqn:Hc.
    + destruct c; try done. eexists _, _. split; [by apply step_propose|].
      split; [apply lookup_insert_eq|done].
    + destruct (exec en c (mkWorld d ctx pl out)) as [x w] eqn:Hx. eexists _, _.
      split; [eapply (step_call _ _ d ctx pl t cs tr i c k out en x w); [done..|simpl; lia|done]|].
      split; [apply lookup_insert_eq|]. destruct c; try done; by eexists _, _.
  - right. right. eexists _, _. split; [by apply (step_fail _ _ d ctx pl t cs tr i c k out "timeout")|].
    split; [apply lookup_insert_eq|]. by exists (inl "timeout").
Qed.

(** ** Schedules

    The choices of a scheduler, and the run they make. *)
Inductive choice :=
  | SInvoke (i : nat) (name : string) (args : list string)
  | SCall (i : nat) (en : Env)
  | SPropose (i : nat)
  | SApply (i : nat) (en : Env)
  | SFail (i : nat) (e : string)
  | SForeign (en : Env) (c : Command)
  | SRespond (i : nat).

Definition act (s : node) (ch : choice) : option node :=
  let '(mkNode d ctx pl t cs tr) := s in
  match ch with
  | SInvoke i name args =>
      match cs !! i with
      | None => Some (mkNode d ctx pl t (<[i := Running (handleCmd ServeRESP i name args) []]> cs)
                        (tr ++ [EvInvoke i name args]))
      | Some _ => None
      end
  | SCall i en =>
      match cs !! i with
      | Some (Running (Next c k) out) =>
          if submitting c || (now en <? t) then None
          else
            let '(x, w) := exec en c (mkWorld d ctx pl out) in
            Some (mkNode (w_db w) (w_ctx w) (w_pool w) (now en) (<[i := Running (k x) (w_out w)]> cs)
                    (tr ++ reads i en c))
      | _ => None
      end
  | SPropose i =>
      match cs !! i with
      | Some (Running (Next c k) out) =>
          match c return (returns c → HM unit) → option node with
          | CSubmit c => λ k, Some (mkNode d ctx pl t (<[i := Proposed c k out]> cs) tr)
          | _ => λ _, None
          end k
      | _ => None
      end
  | SApply i en =>
      match cs !! i with
      | Some (Proposed c k out) =>
          if now en <? t then None
          else
            let '(a, d') := Apply handleLua en d (enc_cmd c) in
            Some (mkNode d' ctx pl (now en) (<[i := Running (k (inr a)) out]> cs)
                    (tr ++ [EvApply i en c]))
      | _ => None
      end
  | SFail i e =>
      match cs !! i with
      | Some (Proposed c k out) => Some (mkNode d ctx pl t (<[i := Running (k (inl e)) out]> cs) tr)
      | _ => None
      end
  | SForeign en c =>
      if now en <? t then None
      else
        let '(a, d') := Apply handleLua en d (enc_cmd c) in
        Some (mkNode d' ctx pl (now en) cs (tr ++ [EvForeign en c]))
  | SRespond i =>
      match cs !! i with
      | Some (Running (Ret _) out) => Some (mkNode d ctx pl t (delete i cs) (tr ++ [EvRespond i out]))
      | _ => None
      end
  end.
Definition schedule (s : node) (chs : list choice) : option node :=
  foldl (λ o ch, s ← o; act s ch) (Some s) chs.

Definition choice_ok (allowed : nat → string → list string → Prop) (foreign : Command → Prop)
    (ch : choice) : Prop :=
  match ch with
  | SInvoke i name args => allowed i name args
  | SCall _ en | SApply _ en => env_ok en
  | SForeign en c => env_ok en ∧ foreign c
  | _ => True
  end.

Lemma act_step allowed foreign s ch s' :
  choice_ok allowed foreign ch → act s ch = Some s' → step allowed foreign s s'.
Proof.
  intros Hok. destruct s as [d ctx pl t cs tr], ch as [i name args|i en|i|i en|i e|en c|i]; simpl in *.
  - destruct (cs !! i) eqn:Hi; [done|]. intros [= <-]. by apply step_invoke.
  - destruct (cs !! i) as [[[|msg|c k] out|]|] eqn:Hi; try done.
    destruct (submitting c) eqn:Hc; [done|]. simpl. destruct (Z.ltb_spec (now en) t); [done|].
    destruct (exec en c (mkWorld d ctx pl out)) as [x w] eqn:Hx. intros [= <-].
    by eapply step_call.
  - destruct (cs !! i) as [[[|msg|c k] out|]|] eqn:Hi; try done. destruct c; try done.
    intros [= <-]. by apply step_propose.
  - destruct (cs !! i) as [[|c k out]|] eqn:Hi; try done. destruct (Z.ltb_spec (now en) t); [done|].
    destruct (Apply handleLua en d (enc_cmd c)) as [a d'] eqn:Ha. intros [= <-]. by eapply step_apply.
  - destruct (cs !! i) as [[|c k out]|] eqn:Hi; try done. intros [= <-]. by eapply step_fail.
  - destruct Hok as [Hen Hf]. destruct (Z.ltb_spec (now en) t); [done|].
    destruct (Apply handleLua en d (enc_cmd c)) as [a d'] eqn:Ha. intros [= <-]. by eapply step_foreign.
  - destruct (cs !! i) as [[[[]|msg|c k] out|]|] eqn:Hi; try done. intros [= <-].
    by apply step_respond.
Qed.

Lemma schedule_steps allowed foreign s chs s' :
  Forall (choice_ok allowed foreign) chs → schedule s chs = Some s' → rtc (step allowed foreign) s s'.
Proof.
  revert s'. induction chs as [|ch chs IH] using rev_ind; intros s' Hok.
  { intros [= <-]. apply rtc_refl. }
  apply Forall_app in Hok as [Hchs Hch]. apply Forall_cons in Hch as [Hch _].
  unfold schedule in *. rewrite foldl_snoc. intros (s1 & Hs1 & Hact)%bind_Some.
  eapply rtc_r; [by apply IH|]. by eapply act_step.
Qed.
End conc.
End Conc.

(** ** The theorems at concrete runs *)

Section concrete.
#[local] Existing Instances B0 L0 C0 CL0 ServerRefine.N0.
Import Conc.

Definition after0 (chs : list choice) : node := default (starts db0 0) (schedule serve0 (starts db0 0) chs).

Lemma run0_steps allowed foreign chs :
  Forall (choice_ok allowed foreign) chs →
  match schedule serve0 (starts db0 0) chs with Some _ => true | None => false end = true →
  rtc (step serve0 allowed foreign) (starts db0 0) (after0 chs).
Proof.
  intros Hok H. eapply schedule_steps; [exact Hok|]. unfold after0.
  by destruct (schedule serve0 (starts db0 0) chs).
Qed.

(** Connection 2 reads a key while connection 1 waits for Raft to set it. *)
Definition schedule0 : list choice :=
  [SInvoke 1 "SET" ["k"; "v"]; SInvoke 2 "get" ["k"]; SCall 1 (en0 0); SPropose 1;
   SCall 2 (en0 1); SApply 1 (en0 2); SCall 2 (en0 3); SRespond 2; SCall 1 (en0 4); SRespond 1].

Lemma admitted_set : admitted "SET" ["k"; "v"].
Proof.
  split; [vm_compute; reflexivity|]. split; [vm_compute; discriminate|]. intros en Hen. eexists.
  split; [vm_compute; reflexivity|]. split; [|by intros c [= <-]]. split; [|done].
  intros k ->%list_elem_of_singleton. apply writable0. simpl. lia.
Qed.
Lemma admitted_get : admitted "get" ["k"].
Proof.
  split; [vm_compute; reflexivity|]. split; [vm_compute; discriminate|]. intros en Hen. eexists.
  split; [vm_compute; reflexivity|]. done.
Qed.

Lemma schedule0_ok : Forall (choice_ok (benign serve0) data_command) schedule0.
Proof.
  unfold schedule0. repeat (apply Forall_cons_2; [|]); [..|apply Forall_nil_2]; try done.
  - left. apply admitted_set.
  - left. apply admitted_get.
Qed.

Definition trace0 : list event :=
  [EvInvoke 1 "SET" ["k"; "v"]; EvInvoke 2 "get" ["k"]; EvRead 2 (en0 1);
   EvApply 1 (en0 2) (command "SET" "k" ["v"])].

Theorem schedule0_trace :
  n_trace (after0 schedule0) = trace0 ++ [EvRespond 2 [WNull]; EvRespond 1 [WString "OK"]].
Proof. vm_compute. reflexivity. Qed.

Lemma node_linearizable_witness : ∃ name args before during,
  trace0 = before ++ EvInvoke 2 name args :: during ∧ inside 2 during.
Proof.
  destruct (node_linearizable serve0 state0 serve0_dispatches commits0 db0 0 (after0 schedule0)
    (dhealthy0 _) (Sim_store0 0)) as [_ H].
  { apply run0_steps; [apply schedule0_ok|vm_compute; reflexivity]. }
  destruct (H trace0 2%nat [WNull] [EvRespond 1 [WString "OK"]] schedule0_trace)
    as (name & args & before & during & H1 & H2 & _).
  exists name, args, before, during. exact (conj H1 H2).
Defined.

Lemma replies_complete_witness : ∃ name args,
  called trace0 2 name args ∧ (ToLower name ≠ "smismember" → one_reply [WNull] = true).
Proof.
  apply (replies_complete serve0 db0 0 (after0 schedule0) trace0 2%nat [WNull] [EvRespond 1 [WString "OK"]]).
  - apply serve0_dispatches.
  - apply run0_steps; [|vm_compute; reflexivity].
    unfold schedule0. repeat (apply Forall_cons_2; [done|]). apply Forall_nil_2.
  - exact schedule0_trace.
Defined.

(** Connection 1 after its call, about to read the clock. *)
Definition serving0 : node := after0 [SInvoke 1 "SET" ["k"; "v"]].

Lemma requests_end_witness : Acc (flip advances) (Running (handleCmd serve0 1 "SET" ["k"; "v"]) []).
Proof.
  apply (requests_end serve0 anything any_command serving0 1%nat).
  - vm_compute. done.
  - reflexivity.
Defined.

(** While SMISMEMBER runs, another node's SADD adds two members in one command. *)
Definition schedule1 : list choice :=
  [SInvoke 1 "SMISMEMBER" ["s"; "x"; "y"]; SCall 1 (en0 0); SCall 1 (en0 1); SCall 1 (en0 2);
   SForeign (en0 3) (command "SADD" "s" ["x"; "y"]); SCall 1 (en0 4); SCall 1 (en0 5); SRespond 1].

Definition trace1 : list event :=
  [EvInvoke 1 "SMISMEMBER" ["s"; "x"; "y"]; EvRead 1 (en0 1);
   EvForeign (en0 3) (command "SADD" "s" ["x"; "y"]); EvRead 1 (en0 4)].

Lemma schedule1_ok : Forall (choice_ok (benign serve0) data_command) schedule1.
Proof.
  unfold schedule1. repeat (apply Forall_cons_2; [|]); [..|apply Forall_nil_2]; try done.
  - right. split; [intros (_ & H & _); apply H; vm_compute; reflexivity|].
    apply keeps_handleCmd; [apply serve0_dispatches|]. apply str_in_spec. vm_compute. reflexivity.
  - split; [done|]. split; [done|]. split; [|done].
    intros k ->%list_elem_of_singleton. apply writable0. simpl. lia.
Qed.

(** On a state, the reply has both members or none. *)
Lemma both_or_none en m ws :
  (m !! "s" = None ∨ ∃ s, m !! "s" = Some (RSet s, 0) ∧ "x" ∈ s ∧ "y" ∈ s) →
  answer en m (Ask (QSMIsMember "s" ["x"; "y"])) ws → ws ≠ [WArray 2; WInt 0; WInt 1].
Proof.
  simpl. intros [->|(s & -> & Hx & Hy)]; simpl; intros ->; [done|].
  by rewrite !bool_decide_true by done.
Qed.

(** C40: SMISMEMBER is not atomic: it reads its key once for each member.  When
    SADD adds two members in between, the reply has the second and not the
    first, which is the answer on no state there has ever been. *)
Theorem smismember_not_atomic :
  rtc (step serve0 (benign serve0) data_command) (starts db0 0) (after0 schedule1)
  ∧ n_trace (after0 schedule1) = trace1 ++ [EvRespond 1 [WArray 2; WInt 0; WInt 1]]
  ∧ ∀ tr rest en, trace1 = tr ++ rest →
      ¬ answer en (found state0 tr en) (Ask (QSMIsMember "s" ["x"; "y"])) [WArray 2; WInt 0; WInt 1].
Proof.
  split; [apply run0_steps; [apply schedule1_ok|vm_compute; reflexivity]|].
  split; [vm_compute; reflexivity|]. intros tr rest en Htr Ha. eapply both_or_none; [|exact Ha|done].
  assert (abs state0 tr !! "s" = None
          ∨ ∃ s, abs state0 tr !! "s" = Some (RSet s, 0) ∧ "x" ∈ s ∧ "y" ∈ s) as H.
  { clear Ha. do 3 (destruct tr as [|e tr]; [left; vm_compute; reflexivity|injection Htr as <- Htr]).
    right. exists ({["x"; "y"]}). split; [|set_solver].
    destruct tr as [|e tr]; [vm_compute; reflexivity|]. injection Htr as <- Htr.
    destruct tr as [|e tr]; [vm_compute; reflexivity|done]. }
  unfold found, expire. destruct H as [H|(s & H & Hxy)]; [left|right; exists s; split; [|done]].
  - apply map_lookup_filter_None. by left.
  - by apply map_lookup_filter_Some.
Qed.
End concrete.
