(* ===== verification/Nodes.v ===== *)
(** * A cluster of nodes that serve clients

    The nodes of a shard share Raft's log.  Each serves its own connections
    (Concurrent.v) and applies the entries of the log one after another, each
    at its own instant; a node that joins starts empty or from a snapshot of
    another.  The theorem says that the clients of all nodes see one abstract
    Redis: every write is answered from its place in the log, and every read
    from a prefix of the log. *)

From stdpp Require Import relations.
From S2P Require Import Prelude Prog GoStd Badger Codec Keys Fsm FsmColl FsmApply FsmRead FsmSpec FsmSim.
From S2P Require Import Concrete FsmProps FsmReadProps FsmReplica RaftStore Snapshot Cluster Router.
From S2P Require Import Server ServerProps ServerRefine ServerSpec ServerCmds Concurrent.
From Stdlib Require Import Lia ZArith.
#[local] Open Scope Z_scope.

Module Nodes.
Import Conc.

(** The commands that a node has applied. *)
Definition entry_of (e : event) : option Command :=
  match e with EvApply _ _ c | EvForeign _ c => Some c | _ => None end.
Definition applied (tr : list event) : list Command := omap entry_of tr.

Lemma applied_app tr tr' : applied (tr ++ tr') = applied tr ++ applied tr'.
Proof. apply omap_app. Qed.

Section nodes.
Context `{B : BadgerOps} {L : BadgerLaws B} `{C : Codec} {CL : CodecLaws C}
  {K : BackupOps} {KL : BackupLaws K}.
Abbreviation handler := (nat → string → list string → prog returns unit).
(** Every node has its own address, its own router and its own way to reach
    the others. *)
Context (N : nat → Node) (ServeRESP : gmap string handler → handler).

(** The committed commands, and each node with the number of entries that the
    database it started from had applied. *)
Record cluster := mkCluster {
  c_log : list Command;
  c_nodes : gmap nat (nat * node);
}.

Definition node_step (j : nat) : node → node → Prop :=
  step (N := N j) ServeRESP (benign (N := N j) ServeRESP) data_command.

Inductive cstep : cluster → cluster → Prop :=
  | cs_commit log ns c :
      Shard.admissible c → cstep (mkCluster log ns) (mkCluster (log ++ [c]) ns)
  | cs_join log ns j d t :
      ns !! j = None → dhealthy d → data_unwritten d →
      cstep (mkCluster log ns) (mkCluster log (<[j := (0%nat, starts d t)]> ns))
  (** A node serves its connections, and applies no other entries than the next
      ones of the log. *)
  | cs_node log ns j b s s' :
      ns !! j = Some (b, s) → node_step j s s' → applied (n_trace s') `prefix_of` drop b log →
      cstep (mkCluster log ns) (mkCluster log (<[j := (b, s')]> ns))
  (** Node [i] takes a snapshot, which node [j] restores before it has served
      anyone. *)
  | cs_snapshot log ns i j b s b' d ctx pl t tm1 tm2 sk sk' rc rc' h' :
      ns !! i = Some (b, s) → ns !! j = Some (b', mkNode d ctx pl t ∅ []) →
      Persist tm1 (λ _, n_db s) (Snapshot (mkFSM 0)) sk = (None, sk') → holds rc = Snapshot.written sk' →
      data_unwritten d → Restore tm2 (λ _, d) (mkFSM 0) rc = (None, h', rc') →
      n_clock s <= tm1 <= tm2 →
      cstep (mkCluster log ns)
        (mkCluster log (<[j := ((b + length (applied (n_trace s)))%nat,
                                mkNode (h' 0%nat) ctx pl tm2 ∅ [])]> ns)).

Definition initial : cluster := mkCluster [] ∅.

(** ** What the log says of a trace *)

Lemma abs_applied cs tr :
  Forall Shard.admissible (cs ++ applied tr) →
  abs (Shard.abs_log cs).2 tr = (Shard.abs_log (cs ++ applied tr)).2.
Proof.
  induction tr as [|e tr IH] using rev_ind; intros H; [by rewrite app_nil_r|].
  rewrite abs_snoc. rewrite applied_app in H |- *. rewrite app_assoc in H |- *.
  assert (Forall Shard.admissible (cs ++ applied tr)) as Hpre by (by apply Forall_app in H as [H _]).
  rewrite (IH Hpre). pose proof (Shard.abs_log_eternal _ Hpre) as He.
  assert (∀ en c, Shard.admissible c →
    (spec_apply en c (expire (now en) (Shard.abs_log (cs ++ applied tr)).2)).2
    = (Shard.abs_log ((cs ++ applied tr) ++ [c])).2) as Hone.
  { intros en c (_ & _ & Httl & Hop). rewrite Shard.abs_log_snoc.
    destruct (Shard.abs_log (cs ++ applied tr)) as [rs m]. simpl in *. rewrite !eternal_expire by done.
    destruct (spec_apply_eternal Shard.en_abs en c m He Httl Hop) as [<- _].
    by destruct (spec_apply Shard.en_abs c m). }
  apply Forall_app in H as [_ H].
  destruct e; simpl; rewrite ?app_nil_r; try done.
  all: apply Hone; by apply Forall_cons in H as [H _].
Qed.

(** A node whose log is part of that of the cluster. *)
Record follows (log : list Command) (j b : nat) (s : node) : Prop := {
  fl_base : (b <= length log)%nat;
  fl_applied : applied (n_trace s) `prefix_of` drop b log;
  fl_inv : inv (N := N j) (Shard.abs_log (take b log)).2 s;
}.

(** The state after part of a trace is that after a prefix of the log. *)
Lemma follows_prefix log j b s tr rest :
  Forall Shard.admissible log → follows log j b s → n_trace s = tr ++ rest →
  let n := (b + length (applied tr))%nat in
  (n <= length log)%nat
  ∧ abs (Shard.abs_log (take b log)).2 tr = (Shard.abs_log (take n log)).2
  ∧ ∀ e c, head rest = Some e → entry_of e = Some c → log !! n = Some c.
Proof.
  intros Hlog [Hb [suf Hsuf] _] Htr n. rewrite Htr, applied_app in Hsuf.
  assert (take n log = take b log ++ applied tr) as Htake.
  { unfold n. rewrite <- (take_drop b log) at 1. rewrite take_app_ge by (rewrite length_take; lia).
    rewrite length_take_le by done. replace (b + length (applied tr) - b)%nat with (length (applied tr)) by lia.
    by rewrite Hsuf, <- app_assoc, take_app_length. }
  assert (length (drop b log) = length (applied tr ++ applied rest) + length suf)%nat as Hlen
    by (by rewrite Hsuf, length_app).
  rewrite length_drop, length_app in Hlen. split; [lia|]. split.
  - rewrite Htake. apply abs_applied. rewrite <- Htake. by apply Forall_take.
  - intros e c He Hc. destruct rest as [|e' rest]; [done|]. injection He as ->.
    unfold n. rewrite <- lookup_drop, Hsuf, <- app_assoc. simpl. rewrite Hc. by apply list_lookup_middle.
Qed.

(** Entries have no lifetimes, so that the instant does not matter. *)
Lemma follows_sim log j b s :
  Forall Shard.admissible log → follows log j b s →
  dhealthy (n_db s) ∧ Sim (n_clock s) (dview (n_db s))
    (Shard.abs_log (take (b + length (applied (n_trace s))) log)).2.
Proof.
  intros Hlog Hf. pose proof Hf as [_ _ [Hd Hs _ _]].
  destruct (follows_prefix log j b s (n_trace s) [] Hlog Hf) as (_ & Habs & _); [by rewrite app_nil_r|].
  rewrite Habs, eternal_expire in Hs by (by apply Shard.abs_log_eternal, Forall_take). done.
Qed.

Lemma follows_more log c j b s : follows log j b s → follows (log ++ [c]) j b s.
Proof.
  intros [Hb Ha Hi]. split.
  - rewrite length_app. lia.
  - rewrite drop_app_le by done. by apply prefix_app_r.
  - by rewrite take_app_le.
Qed.

Lemma follows_fresh log j b d ctx pl t :
  (b <= length log)%nat → dhealthy d → Sim t (dview d) (Shard.abs_log (take b log)).2 →
  follows log j b (mkNode d ctx pl t ∅ []).
Proof.
  intros Hb Hd Hs. split; [done|apply prefix_nil|]. split; simpl; [done| |done|by intros []].
  by apply (Sim_expire t); [lia|].
Qed.

(** ** The cluster *)

Definition consistent (s : cluster) : Prop :=
  Forall Shard.admissible (c_log s)
  ∧ ∀ j b nd, c_nodes s !! j = Some (b, nd) → follows (c_log s) j b nd.

Lemma consistent_update log ns j b nd :
  consistent (mkCluster log ns) → follows log j b nd →
  consistent (mkCluster log (<[j := (b, nd)]> ns)).
Proof.
  intros [Hlog Hns] Hf. split; [done|]. simpl in *. intros j' b' nd'.
  rewrite lookup_insert. case_decide; [by intros [= <- <-]; subst|apply Hns].
Qed.

Hypotheses (Hmux : mux_dispatches ServeRESP) (Hcom : commits).

Lemma consistent_step s s' : consistent s → cstep s s' → consistent s'.
Proof.
  intros Hc Hstep. pose proof Hc as [Hlog Hns].
  destruct Hstep as [log ns c Hadm|log ns j d t Hj Hd Hu|log ns j b s s' Hj Hs Ha
    |log ns i j b s b' d ctx pl t tm1 tm2 sk sk' rc rc' h' Hi Hj Hp Hh Hu Hres Htm]; simpl in *.
  - split; simpl; [by apply Forall_app; rewrite Forall_singleton|].
    intros j b nd Hj. by apply follows_more, Hns.
  - apply consistent_update; [done|]. apply follows_fresh; [lia|done|]. simpl.
    apply Sim_empty. intros k. unfold vget. by rewrite unwritten_law by (try apply Hu; done).
  - destruct (Hns _ _ _ Hj) as [Hb _ Hinv]. apply consistent_update; [done|]. split; [done..|].
    by eapply (conc_step (N := N j)).
  - pose proof (Hns _ _ _ Hi) as Hf. destruct (follows_sim _ _ _ _ Hlog Hf) as [Hd Hsim].
    destruct (follows_prefix log i b s (n_trace s) [] Hlog Hf) as (Hn & _ & _); [by rewrite app_nil_r|].
    assert (dhealthy d) as Hdj by (by destruct (Hns _ _ _ Hj) as [_ _ [? _ _ _]]).
    destruct (Restore_obs tm1 tm2 (λ _, n_db s) (mkFSM 0) sk sk' (λ _, d) (mkFSM 0) rc rc' h')
      as [Hd' Ho]; [done..|lia|done|done|done|]. simpl in *.
    apply consistent_update; [done|]. apply follows_fresh; [done..|]. rewrite <- Ho.
    rewrite <- (eternal_expire tm2) by (by apply Shard.abs_log_eternal, Forall_take).
    eapply Sim_expire; [|done]. lia.
Qed.

Lemma cluster_reachable s : rtc cstep initial s → consistent s.
Proof.
  intros H. assert (∀ s0, rtc cstep s0 s → consistent s0 → consistent s) as Hrtc.
  { intros s0. induction 1; eauto using consistent_step. }
  apply (Hrtc _ H). split; [constructor|done].
Qed.

(** The instant at which a request took effect, in the log. *)
Lemma point_in_log log j b s before name args pre lin post rest i en req ws :
  Forall Shard.admissible log → follows log j b s →
  n_trace s = (before ++ EvInvoke i name args :: pre ++ lin ++ post) ++ rest →
  point i en req lin →
  let m := found (Shard.abs_log (take b log)).2 (before ++ EvInvoke i name args :: pre) en in
  (regular m req → answer en m req ws) →
  ∃ n, (b + length (applied before) <= n
        <= b + length (applied (before ++ EvInvoke i name args :: pre ++ lin ++ post)))%nat
    ∧ (∀ c, submits req = Some c → log !! n = Some c)
    ∧ let m := (Shard.abs_log (take n log)).2 in regular m req → answer en m req ws.
Proof.
  intros Hlog Hf Htr Hpt m Ha. set (tr := before ++ EvInvoke i name args :: pre) in *.
  destruct (follows_prefix log j b s tr (lin ++ post ++ rest) Hlog Hf) as (Hn & Habs & Hnext).
  { rewrite Htr. unfold tr. by rewrite <- !app_assoc; simpl; rewrite <- !app_assoc. }
  exists (b + length (applied tr))%nat. split; [|split].
  - unfold tr. rewrite !applied_app. change (EvInvoke i name args :: pre ++ lin ++ post)
      with ([EvInvoke i name args] ++ pre ++ lin ++ post).
    change (EvInvoke i name args :: pre) with ([EvInvoke i name args] ++ pre).
    rewrite !applied_app, !length_app. lia.
  - intros c Hc. destruct Hpt as [_ Hpt]. rewrite Hc in Hpt. subst lin. by eapply Hnext.
  - unfold m, found in Ha. rewrite Habs in Ha.
    by rewrite eternal_expire in Ha by (by apply Shard.abs_log_eternal, Forall_take).
Qed.

(** C4: The clients of a cluster see one abstract Redis, for logs of commands
    without TTLs, SPOP and scripts that the store accepts.  Clients send what is
    [admitted] (the commands of the table for keys of the node, but SMISMEMBER
    and EXPIRE), or else what submits nothing to Raft.  Whatever the order in
    which nodes join, serve their connections and apply the entries of the log,
    and when nodes that have never held data nor served anyone restore
    snapshots during whose writing no entry was applied: a reply to an admitted
    write is the answer of the abstract server at the place of its command in
    the common log, and a reply to an admitted read is its answer after a prefix
    of that log, one that the node reached between the call and the reply, so
    that a client of one node never goes back in time.  This is for requests
    that are [regular] on that state (not MGET of a collection, nor SRANDMEMBER
    with the least count).  A write may get Raft's error instead, and has then
    not been applied for its connection. *)
Theorem cluster_sequential s j b nd tr i ws rest :
  rtc cstep initial s → c_nodes s !! j = Some (b, nd) → n_trace nd = tr ++ EvRespond i ws :: rest →
  ∃ name args before during,
    tr = before ++ EvInvoke i name args :: during ∧ inside i during
    ∧ (admitted (N := N j) name args → ∃ req, parsed name args req ∧
        ((∃ c e, submits req = Some c ∧ quiet i during ∧ ws = [WError ("ERR " +:+ e)])
         ∨ ∃ n en, env_ok en ∧ (b + length (applied before) <= n <= b + length (applied tr))%nat
             ∧ (∀ c, submits req = Some c → c_log s !! n = Some c)
             ∧ let m := (Shard.abs_log (take n (c_log s))).2 in
               regular m req → answer en m req ws)).
Proof.
  intros H Hj Htr. destruct (cluster_reachable s H) as [Hlog Hns].
  pose proof (Hns _ _ _ Hj) as Hf. pose proof Hf as [_ _ [_ _ _ Hrep]].
  destruct (Hrep _ _ _ _ Htr) as [name args tr1 tr2 -> Hin Hn|name args tr1 tr2 req c e -> Hq Hp Hsub ->
    |name args tr1 tr2 lin tr3 req en -> H2 H3 Hp Hpt m Ha].
  - by exists name, args, tr1, tr2.
  - exists name, args, tr1, tr2. split; [done|]. split; [by apply quiet_inside|]. eauto 10.
  - exists name, args, tr1, (tr2 ++ lin ++ tr3). split; [done|]. split; [by eapply inside_point|].
    intros _. exists req. split; [done|]. right.
    destruct (point_in_log _ _ _ _ _ _ _ _ _ _ _ _ _ _ _ Hlog Hf Htr Hpt Ha) as (n & Hn & Hw & Hans).
    destruct Hpt as [Hen _]. by exists n, en.
Qed.

(** ** Runs of one node *)

Lemma step_trace j nd nd' : node_step j nd nd' → n_trace nd `prefix_of` n_trace nd'.
Proof. intros []; simpl; by try apply prefix_app_r. Qed.

Lemma applied_prefix tr tr' : tr `prefix_of` tr' → applied tr `prefix_of` applied tr'.
Proof. intros [rest ->]. rewrite applied_app. by apply prefix_app_r. Qed.

(** A run of a node is one of the cluster, if the log has what it applies. *)
Lemma node_run log ns j b nd nd' :
  ns !! j = Some (b, nd) → rtc (node_step j) nd nd' → applied (n_trace nd') `prefix_of` drop b log →
  rtc cstep (mkCluster log ns) (mkCluster log (<[j := (b, nd')]> ns)).
Proof.
  intros Hj H. revert ns Hj. induction H as [nd|nd nd1 nd' H1 H IH]; intros ns Hj Ha.
  { by rewrite insert_id. }
  assert (n_trace nd1 `prefix_of` n_trace nd') as Hp.
  { clear -H. induction H as [|nd1 nd2 nd' H1 H IH]; [done|]. etrans; [by eapply step_trace|done]. }
  eapply rtc_l.
  { eapply cs_node; [done..|]. etrans; [by eapply applied_prefix|done]. }
  specialize (IH (<[j := (b, nd1)]> ns)). rewrite insert_insert_eq in IH.
  apply IH; [|done]. apply lookup_insert_eq.
Qed.
End nodes.
End Nodes.

(** ** The theorem at a concrete run *)

Section concrete.
#[local] Existing Instances B0 L0 C0 CL0 K0 KL0.
Import Conc Nodes.

Definition nodes0 (_ : nat) : @Node B0 := ServerRefine.N0.
Definition run_of (s : node) (chs : list choice) : node :=
  default s (schedule (N := ServerRefine.N0) serve0 s chs).

Lemma run_of_steps j s chs :
  Forall (choice_ok (benign (N := ServerRefine.N0) serve0) data_command) chs →
  match schedule (N := ServerRefine.N0) serve0 s chs with Some _ => true | None => false end = true →
  rtc (node_step nodes0 serve0 j) s (run_of s chs).
Proof.
  intros Hok H. eapply (schedule_steps (N := ServerRefine.N0)); [exact Hok|]. unfold run_of.
  by destruct (schedule serve0 s chs).
Qed.

(** A client of node 0 sets a key; node 1 restores a snapshot of node 0, and a
    client of it reads the key. *)
Definition set0 : Command := command "SET" "k" ["v"].
Definition writes0 : list choice :=
  [SInvoke 1 "SET" ["k"; "v"]; SCall 1 (en0 0); SPropose 1; SApply 1 (en0 2); SCall 1 (en0 4); SRespond 1].
Definition reads0 : list choice :=
  [SInvoke 1 "get" ["k"]; SCall 1 (en0 8); SCall 1 (en0 9); SRespond 1].

Definition node0 : node := run_of (starts (∅ : @db B0) 0) writes0.
Definition restored0 : @db B0 :=
  (Restore 7 (λ _, (∅ : @db B0)) (mkFSM 0)
     (Persist 5 (λ _, n_db node0) (Snapshot (mkFSM 0)) sink0).2.1).1.2 0%nat.
Definition node1 : node := run_of (starts restored0 7) reads0.

Definition cluster0 : cluster :=
  mkCluster [set0]
    (<[1%nat := (1%nat, node1)]>
      (<[1%nat := (1%nat, starts restored0 7)]>
        (<[0%nat := (0%nat, node0)]>
          (<[1%nat := (0%nat, starts (∅ : @db B0) 0)]>
            (<[0%nat := (0%nat, starts (∅ : @db B0) 0)]> ∅))))).

Lemma writes0_ok : Forall (choice_ok (benign (N := ServerRefine.N0) serve0) data_command) writes0.
Proof.
  unfold writes0. repeat (apply Forall_cons_2; [|]); [..|apply Forall_nil_2]; try done.
  left. apply admitted_set.
Qed.
Lemma reads0_ok : Forall (choice_ok (benign (N := ServerRefine.N0) serve0) data_command) reads0.
Proof.
  unfold reads0. repeat (apply Forall_cons_2; [|]); [..|apply Forall_nil_2]; try done.
  left. apply admitted_get.
Qed.

Lemma cluster0_reached : rtc (cstep nodes0 serve0) initial cluster0.
Proof.
  eapply rtc_l.
  { apply (cs_commit _ _ _ _ set0). split; [done|]. split; [|done]. split; [|done].
    intros k ->%list_elem_of_singleton. apply writable0. simpl. lia. }
  eapply rtc_l; [by apply (cs_join _ _ _ _ 0 (∅ : @db B0) 0)|].
  eapply rtc_l; [by apply (cs_join _ _ _ _ 1 (∅ : @db B0) 0)|].
  etrans; [eapply (node_run _ _ _ _ 0%nat 0%nat _ node0); [done|..]|].
  { apply run_of_steps; [apply writes0_ok|vm_compute; reflexivity]. }
  { exists []. vm_compute. reflexivity. }
  eapply rtc_l.
  { eapply (cs_snapshot _ _ _ _ 0 1 0%nat node0 0%nat (∅ : @db B0) _ _ _ 5 7 sink0 _
      (Persist 5 (λ _, n_db node0) (Snapshot (mkFSM 0)) sink0).2.1); done. }
  eapply (node_run _ _ _ _ 1%nat 1%nat (starts restored0 7) node1); [done|..].
  { apply run_of_steps; [apply reads0_ok|vm_compute; reflexivity]. }
  { exists []. vm_compute. reflexivity. }
Qed.

Lemma cluster_sequential_witness : ∃ name args before during,
  [EvInvoke 1 "get" ["k"]; EvRead 1 (en0 8)] = before ++ EvInvoke 1 name args :: during
  ∧ inside 1 during.
Proof.
  destruct (cluster_sequential nodes0 serve0 serve0_dispatches commits0 cluster0 1%nat 1%nat node1
    [EvInvoke 1 "get" ["k"]; EvRead 1 (en0 8)] 1%nat [WBulk "v"] [])
    as (name & args & before & during & H1 & H2 & _).
  - apply cluster0_reached.
  - reflexivity.
  - vm_compute. reflexivity.
  - exists name, args, before, during. exact (conj H1 H2).
Defined.
End concrete.
