(* ===== verification/ServerState.v ===== *)
(** * The state of the server besides the database

    The pool of clients under concurrent calls of getClient, the context of a
    connection, and the join handler. *)

From S2P Require Import Prelude Prog GoStd Badger Codec Fsm Router Server.
From stdpp Require Import relations.
From Stdlib Require Import Lia ZArith.

(** ** getClient under concurrency

    Every connection has a goroutine; each call of getClient runs a part under
    the read lock and, when it finds no client, a part under the write lock.
    The parts of different calls interleave. *)
Module Pool.
(** A call: not begun, out of the read lock empty-handed, returned. *)
Inductive pc := PStart | PMissed | PDone (c : client).
Definition state : Type := pool * list (string * pc).

Inductive step : state → state → Prop :=
  | step_call p ts addr : step (p, ts) (p, ts ++ [(addr, PStart)])
  | step_hit p ts i addr c :
      ts !! i = Some (addr, PStart) → lookup_client p addr = Some c →
      step (p, ts) (p, <[i := (addr, PDone c)]> ts)
  | step_miss p ts i addr :
      ts !! i = Some (addr, PStart) → lookup_client p addr = None →
      step (p, ts) (p, <[i := (addr, PMissed)]> ts)
  | step_ensure p ts i addr :
      ts !! i = Some (addr, PMissed) →
      step (p, ts) ((ensure_client p addr).2, <[i := (addr, PDone (ensure_client p addr).1)]> ts).

Definition initial : state := (mkPool ∅ 0, []).

(** Clients are filed under their address, none was made in vain, and every
    call that has returned returned the client on file. *)
Record inv (s : state) : Prop := {
  inv_addr addr c : clients s.1 !! addr = Some c → c_addr c = addr;
  inv_made : made s.1 = size (clients s.1);
  inv_done i addr c : s.2 !! i = Some (addr, PDone c) → clients s.1 !! addr = Some c;
}.

Lemma inv_initial : inv initial.
Proof. by split. Qed.

(** A thread that moves to a state that agrees with the pool. *)
Lemma inv_thread p ts i addr x :
  inv (p, ts) → (∀ c, x = PDone c → clients p !! addr = Some c) → inv (p, <[i := (addr, x)]> ts).
Proof.
  intros [H1 H2 H3] Hx. split; [done|done|]. simpl in *. intros j addr' c.
  rewrite list_lookup_insert. case_decide; [|apply H3]. intros [= <- ->]. auto.
Qed.

(** Filing a client keeps what the other calls returned. *)
Lemma inv_ensure p ts addr :
  inv (p, ts) →
  inv ((ensure_client p addr).2, ts)
  ∧ clients (ensure_client p addr).2 !! addr = Some (ensure_client p addr).1.
Proof.
  intros [H1 H2 H3]. unfold ensure_client. simpl in *.
  destruct (clients p !! addr) as [c|] eqn:Hc; [by split|]. simpl.
  split; [|by rewrite lookup_insert_eq]. split; simpl.
  - intros addr' c. rewrite lookup_insert. case_decide; [by intros [= <-]|apply H1].
  - by rewrite map_size_insert_None, H2.
  - intros i addr' c Hi. apply H3 in Hi. rewrite lookup_insert_ne; [done|]. congruence.
Qed.

Lemma inv_step s s' : step s s' → inv s → inv s'.
Proof.
  intros Hs Hi. destruct Hs as [p ts addr|p ts i addr c Ht Hc|p ts i addr Ht Hc|p ts i addr Ht].
  - destruct Hi as [H1 H2 H3]. split; [done|done|]. simpl in *. intros j addr' c Hj.
    apply lookup_app_Some in Hj as [Hj|[_ Hj]]; [by eapply H3|].
    by apply list_lookup_singleton_Some in Hj as [_ [=]].
  - apply inv_thread; [done|]. by intros ? [= <-].
  - by apply inv_thread.
  - destruct (inv_ensure p ts addr Hi) as [Hi' Hc]. apply inv_thread; [done|]. by intros ? [= <-].
Qed.

Lemma inv_reachable s : rtc step initial s → inv s.
Proof.
  intros H. assert (∀ s0, rtc step s0 s → inv s0 → inv s) as Hrtc.
  { intros s0. induction 1; eauto using inv_step. }
  eauto using inv_initial.
Qed.

(** C32: However the calls of getClient interleave, all calls for an address
    that have returned got the same client, made for that address, and the
    server has made exactly one client per address. *)
Theorem getClient_unique p ts i j addr c c' :
  rtc step initial (p, ts) →
  ts !! i = Some (addr, PDone c) → ts !! j = Some (addr, PDone c') →
  c = c' ∧ c_addr c = addr ∧ made p = size (clients p).
Proof.
  intros H Hi Hj. pose proof (inv_reachable _ H) as [H1 H2 H3].
  apply H3 in Hi, Hj. simpl in *. rewrite Hi in Hj. injection Hj as <-. eauto.
Qed.

(** Two calls that both miss under the read lock. *)
Lemma two_misses addr :
  let c := mkClient addr 0 in
  rtc step initial (mkPool (<[addr := c]> ∅) 1, [(addr, PDone c); (addr, PDone c)]).
Proof.
  intros c.
  assert (H1 : ensure_client (mkPool ∅ 0) addr = (c, mkPool (<[addr := c]> ∅) 1)) by done.
  assert (H2 : ensure_client (mkPool (<[addr := c]> ∅) 1) addr = (c, mkPool (<[addr := c]> ∅) 1)).
  { unfold ensure_client. simpl. by rewrite lookup_insert_eq. }
  eapply rtc_l; [apply (step_call _ [] addr)|].
  eapply rtc_l; [apply (step_call _ [(addr, PStart)] addr)|].
  eapply rtc_l; [apply (step_miss _ [(addr, PStart); (addr, PStart)] 0 addr); done|].
  eapply rtc_l; [apply (step_miss _ [(addr, PMissed); (addr, PStart)] 1 addr); done|].
  eapply rtc_l; [apply (step_ensure _ [(addr, PMissed); (addr, PMissed)] 0 addr); done|].
  rewrite H1. cbn [fst snd]. eapply rtc_l; [apply (step_ensure _ [(addr, PDone c); (addr, PMissed)] 1 addr); done|].
  rewrite H2. apply rtc_refl.
Qed.

Lemma getClient_unique_witness :
  let c := mkClient "10.0.0.2:6379" 0 in
  c = c ∧ c_addr c = "10.0.0.2:6379"
  ∧ made (mkPool (<["10.0.0.2:6379" := c]> ∅) 1) = size (clients (mkPool (<["10.0.0.2:6379" := c]> ∅) 1)).
Proof.
  exact (getClient_unique _ _ 0 1 _ _ _ (two_misses "10.0.0.2:6379") eq_refl eq_refl).
Defined.
End Pool.

(** ** CLIENT *)

Section client_command.
Context `{B : BadgerOps} `{C : Codec} {N : Node}.

(** CLIENT SETNAME names its connection: a later CLIENT GETNAME on that
    connection answers the name, and the contexts of the other connections
    do not change. *)
Theorem client_name_roundtrip en1 en2 conn name1 name2 s1 s2 n (w : world) :
  ToUpper s1 = "SETNAME" → ToUpper s2 = "GETNAME" → n ≠ "" →
  ∃ w1 w2, alone en1 (handleClient conn name1 [s1; n]) w = (inr tt, w1)
    ∧ alone en2 (handleClient conn name2 [s2]) w1 = (inr tt, w2)
    ∧ w_out w2 = w_out w ++ [WString "OK"; WBulk n]
    ∧ (∀ conn', conn' ≠ conn → w_ctx w2 !! conn' = w_ctx w !! conn')
    ∧ w_db w2 = w_db w.
Proof.
  intros Hs1 Hs2 Hn. unfold handleClient. rewrite Hs1, Hs2.
  change (String.eqb "SETNAME" "SETNAME") with true.
  change (String.eqb "GETNAME" "SETNAME") with false.
  change (String.eqb "GETNAME" "GETNAME") with true. cbv zeta iota.
  apply String.eqb_neq in Hn. unfold alone. simpl. unfold get_context.
  destruct (w_ctx w !! conn) as [ctx|]; do 2 eexists; (split; [done|]); simpl;
    rewrite lookup_insert_eq; simpl; rewrite Hn; (split; [done|]); simpl;
    rewrite <- app_assoc; (split; [done|]); (split; [|done]); intros conn' Hc;
    by rewrite !lookup_insert_ne.
Qed.
End client_command.

(** ** Joining *)

(** A node of the configuration with this name or address. *)
Definition member (servers : list (string * string)) (nodeID addr : string) : Prop :=
  ∃ srv, srv ∈ servers ∧ (srv.1 = nodeID ∨ srv.2 = addr).

Lemma member_spec servers nodeID addr :
  existsb (λ srv, String.eqb srv.1 nodeID || String.eqb srv.2 addr) servers = true
  ↔ member servers nodeID addr.
Proof.
  rewrite existsb_exists. unfold member. split; intros (srv & Hin & Hs); exists srv;
    rewrite orb_true_iff, !String.eqb_eq, list_elem_of_In in *; done.
Qed.

(** C38: The join handler asks for a voter only on the leader and only for a
    node that neither the name nor the address of a member identifies, and
    answers 200 exactly when the node is a member or has just been added. *)
Theorem handleRaftJoin_safe r nodeID addr status body voter :
  handleRaftJoin (Some r) nodeID addr = inr ((status, body), voter) →
  (voter ≠ None → voter = Some (nodeID, addr) ∧ is_leader r = true
     ∧ ∃ servers, configuration r = inr servers ∧ ¬ member servers nodeID addr)
  ∧ (status = 200%Z ↔ is_leader r = true ∧ ∃ servers, configuration r = inr servers
       ∧ (member servers nodeID addr ∨ AddVoter r nodeID addr = None)).
Proof.
  unfold handleRaftJoin, http_Error. destruct (is_leader r); simpl.
  2: { intros [= <- _ <-]. split; [done|]. split; [done|]. by intros []. }
  destruct (configuration r) as [e|servers].
  { intros [= <- _ <-]. split; [done|]. split; [done|]. by intros (_ & ? & [=] & _). }
  pose proof (member_spec servers nodeID addr) as Hm. destruct (existsb _ servers).
  { intros [= <- _ <-]. split; [done|]. split; [|done]. intros _. split; [done|].
    exists servers. split; [done|]. left. by apply Hm. }
  assert (¬ member servers nodeID addr) by (intros H; by apply Hm in H).
  destruct (AddVoter r nodeID addr) as [e|] eqn:Ha; intros [= <- _ <-]; (split; [eauto 6|]).
  - split; [done|]. by intros (_ & ? & [= <-] & [?|?]).
  - split; [|done]. eauto 6.
Qed.

Section witnesses.
#[local] Instance store_ops : BadgerOps := MapBadger 1000.
#[local] Instance codec_ops : Codec := BitCodec.
#[local] Instance node_ops : Node := {|
  handleLua _ _ := raise EWrongType;
  raft := None;
  remoteAddr _ := "10.0.0.9:5000";
  client_Do _ _ _ := DoNil;
  node_addr := ":6379";
  node_router := NewRouter SlotMap.NewSlotMap "node-1";
|}.

Lemma client_name_roundtrip_witness : ∃ w1 w2,
  alone (mkEnv 0 (λ _ s, elements s)) (handleClient 1 "client" ["setName"; "worker"])
    (mkWorld (∅ : @db store_ops) ∅ (mkPool ∅ 0) []) = (inr tt, w1)
  ∧ alone (mkEnv 0 (λ _ s, elements s)) (handleClient 1 "client" ["getname"]) w1 = (inr tt, w2)
  ∧ w_out w2 = [WString "OK"; WBulk "worker"].
Proof.
  destruct (client_name_roundtrip (mkEnv 0 (λ _ s, elements s)) (mkEnv 0 (λ _ s, elements s)) 1
    "client" "client" "setName" "getname" "worker" (mkWorld (∅ : @db store_ops) ∅ (mkPool ∅ 0) [])
    eq_refl eq_refl ltac:(done)) as (w1 & w2 & H1 & H2 & H3 & _).
  exists w1, w2. exact (conj H1 (conj H2 H3)).
Defined.

Definition leader0 : raft_view :=
  mkRaftView true (inr [("node-1", "127.0.0.1:8300")]) (λ _ _, None).

Lemma handleRaftJoin_safe_witness :
  ∃ servers, configuration leader0 = inr servers ∧ ¬ member servers "node-2" "127.0.0.1:8301".
Proof.
  destruct (handleRaftJoin_safe leader0 "node-2" "127.0.0.1:8301" 200 ""
    (Some ("node-2", "127.0.0.1:8301")) eq_refl) as [H _].
  destruct H as (_ & _ & H); [done|]. exact H.
Defined.
End witnesses.
