(* ===== verification/Lua.v ===== *)
(** * Lua scripts (store/lua.go)

    gopher-lua is third-party code: what it makes of a script is a parameter,
    a tree whose nodes are the calls of [redis.call] and [redis.pcall] the
    script makes, each with the continuation for its result, and whose leaves
    are the value or the error [L.DoString] ends with.  The trees are finite:
    they stand for scripts that end.  A script may run scripts; [depth] bounds
    the nesting, where Go has the size of its stack. *)

From S2P Require Import Prelude GoStd Badger Codec Keys Sha1 Fsm FsmColl FsmApply.
From Stdlib Require Import Lia ZArith SpecFloat.

(** [lua.LValue].  A table is what [ForEach] visits, in its order; the other
    types show as text only. *)
Inductive lval :=
  | LNil
  | LBool (b : bool)
  | LNumber (f : spec_float)
  | LString (s : string)
  | LTable (entries : list (lval * lval))
  | LOther (text : string).

(** How a call of [redis.call] or [redis.pcall] ends: with a value, with an
    error raised in the script, or with a panic of Go, of which the engine may
    make an error too. *)
Inductive call_result :=
  | RVal (v : lval)
  | RRaised (msg : string)
  | RPanic (msg : string).

(** A run of a script: the value on top of the stack at its end, the text of
    its error, a panic, or a call. *)
Inductive lua_run :=
  | LRet (v : lval)
  | LErr (msg : string)
  | LPanic (msg : string)
  | LCall (pcall : bool) (args : list lval) (k : call_result → lua_run).

(** A goroutine out of stack ends the program: no script sees it. *)
Definition stack_overflow : string := "stack overflow".

Class LuaEngine := {
  (** [L.DoString(script)] with the tables KEYS and ARGV *)
  DoString : string → list string → list string → lua_run;
  (** [L.ToString] of an argument *)
  lua_ToString : lval → string;
}.

(** A Lua table of the values 1, 2, ... *)
Definition lua_array (vs : list lval) : lval :=
  LTable (imap (λ i v, (LNumber (float64_of_Z (Z.of_nat i + 1)), v)) vs).

(** The cases of floats, booleans, slices of byte slices and maps concern
    values no command returns. *)
Definition goToLuaValue (v : goval) : lval :=
  match v with
  | GNil => LBool false
  | GString s => LString s
  | GBytes s => LString s
  | GInt n => LNumber (float64_of_Z n)
  | GInt64 n => LNumber (float64_of_Z n)
  | GStrings l => lua_array (map LString l)
  | v => LString (sprint v)
  end.

Fixpoint luaToGoValue (v : lval) : goval :=
  match v with
  | LNil => GNil
  | LBool b => if b then GInt64 1 else GNil
  | LNumber f => GInt64 (int64_of_float64 f)
  | LString s => GString s
  | LTable es => GArray (map (λ kv, luaToGoValue kv.2) es)
  | LOther text => GString text
  end.

Section lua.
Context `{B : BadgerOps} `{C : Codec} `{E : LuaEngine}.

Abbreviation FM := (M txn gerr).

(** ** redis.call *)

(** The loop over the options of SET; those it does not know are skipped. *)
Fixpoint lua_set_options (opts : list string) (c : Command) : string + Command :=
  match opts with
  | [] => inr c
  | o :: opts =>
      let arg := ToUpper o in
      if str_in arg ["NX"; "XX"] then
        lua_set_options opts (mkCommand (Op c) (Key c) (Args c) (TTLMs c) arg (ReturnOld c))
      else if String.eqb arg "GET" then
        lua_set_options opts (mkCommand (Op c) (Key c) (Args c) (TTLMs c) (Condition c) true)
      else if str_in arg ["EX"; "PX"] then
        match opts with
        | [] => inl "ERR syntax error"
        | a :: opts' =>
            match ParseInt a with
            | (ttl, None) =>
                let ms := if String.eqb arg "EX" then wrap64 (ttl * 1000) else ttl in
                lua_set_options opts' (mkCommand (Op c) (Key c) (Args c) ms (Condition c) (ReturnOld c))
            | _ => inl "ERR value is not an integer or out of range"
            end
        end
      else lua_set_options opts c
  end.

(** [args] are the arguments after the name, as strings. *)
Definition parseCommandForLua (op : string) (args : list string) : string + Command :=
  if String.eqb op "SET" then
    match args with
    | key :: val :: opts => lua_set_options opts (mkCommand op key [val] 0 "" false)
    | _ => inl "ERR wrong number of arguments for 'set' command"
    end
  else inr (mkCommand op (default "" (head args)) (drop 1 args) 0 "" false).

Definition lua_exists (en : Env) (count : Z) (key : string) : FM Z :=
  r <- t_Get en (userKey key);;
  match r with
  | inr _ => ret (count + 1)
  | inl ErrKeyNotFound => ret count
  | inl e => raise (EDb e)
  end.

Definition luaRedisCall (apply : Command → FM goval) (en : Env) (stack : list lval) : FM lval :=
  match map lua_ToString stack with
  | [] => raise (EMsg "Please specify at least one argument for redis.call()")
  | name :: args =>
      let op := ToUpper name in
      if String.eqb op "GET" then
        match args with
        | [key] =>
            r <- t_Get en (userKey key);;
            match r with
            | inl ErrKeyNotFound => ret LNil
            | inl e => raise (EDb e)
            | inr item => v <- valueCopy item;; ret (LString (default "" v))
            end
        | _ => raise (EMsg "ERR wrong number of arguments for 'get' command")
        end
      else if String.eqb op "EXISTS" then
        match args with
        | [] => raise (EMsg "ERR wrong number of arguments for 'exists' command")
        | keys =>
            count <- foldM (lua_exists en) 0 keys;;
            ret (LNumber (float64_of_Z count))
        end
      else if String.eqb op "TYPE" then
        match args with
        | [key] =>
            r <- t_Get en (typeKey key);;
            match r with
            | inl ErrKeyNotFound => ret (LString "none")
            | inl e => raise (EDb e)
            | inr item => v <- valueCopy item;; ret (LString (default "" v))
            end
        | _ => raise (EMsg "ERR wrong number of arguments for 'type' command")
        end
      else
        match parseCommandForLua op args with
        | inl msg => raise (EMsg msg)
        | inr cmd => res <- apply cmd;; ret (goToLuaValue res)
        end
  end.

(** What the Go functions behind [redis.call] and [redis.pcall] give the
    script: the latter returns an error as a table. *)
Definition call_outcome (pcall : bool) (r : gerr + lval) : call_result :=
  match r with
  | inr v => RVal v
  | inl (EPanic msg) => RPanic msg
  | inl e => if pcall then RVal (LTable [(LString "err", LString (err_text e))])
             else RRaised (err_text e)
  end.

Definition overflowed (r : gerr + lval) : bool :=
  match r with inl (EPanic msg) => String.eqb msg stack_overflow | _ => false end.

Fixpoint lua_exec (call : list lval → FM lval) (r : lua_run) : FM goval :=
  match r with
  | LRet v => ret (luaToGoValue v)
  | LErr msg => raise (EMsg ("ERR Error running script: " +:+ msg))
  | LPanic msg => raise (EPanic msg)
  | LCall pcall args k => λ t,
      let '(res, t') := call args t in
      if overflowed res then (inl (EPanic stack_overflow), t')
      else lua_exec call (k (call_outcome pcall res)) t'
  end.

(** [evalArgs]: the number of keys, the keys and the arguments. *)
Definition runLua (apply : Command → FM goval) (en : Env) (script : string) (evalArgs : list string)
    : FM goval :=
  match evalArgs with
  | [] => raise (EPanic "index out of range")
  | numKeysStr :: rest =>
      match Atoi numKeysStr with
      | (numKeys, None) =>
          if numKeys <? 0 then raise (EMsg "ERR value is not an integer or out of range")
          else if Z.of_nat (length rest) <? numKeys then
            raise (EMsg "ERR Number of keys can't be greater than number of args")
          else
            lua_exec (luaRedisCall apply en)
              (DoString script (take (Z.to_nat numKeys) rest) (drop (Z.to_nat numKeys) rest))
      | _ => raise (EMsg "ERR value is not an integer or out of range")
      end
  end.

(** ** The commands *)

Definition script_exists_one (en : Env) (sha : string) : FM Z :=
  r <- t_Get en (getScriptKey sha);;
  match r with
  | inl ErrKeyNotFound => ret 0
  | inl e => raise (EDb e)
  | inr _ => ret 1
  end.

Fixpoint mapM {A A'} (f : A → FM A') (l : list A) : FM (list A') :=
  match l with
  | [] => ret []
  | x :: l' => y <- f x;; ys <- mapM f l';; ret (y :: ys)
  end.

Definition lua_command (apply : Command → FM goval) (en : Env) (cmd : Command) : FM goval :=
  let op := Op cmd in
  if String.eqb op "SCRIPT_LOAD" then
    match Args cmd with
    | [script] =>
        let sha := sha1_hex script in
        t_SetEntry (getScriptKey sha) (Entry script 0);;;
        ret (GString sha)
    | _ => raise (EMsg "ERR wrong number of arguments for SCRIPT LOAD")
    end
  else if String.eqb op "SCRIPT_EXISTS" then
    res <- mapM (script_exists_one en) (Args cmd);;
    ret (GInt64s res)
  else if String.eqb op "SCRIPT_FLUSH" then
    delete_prefix en scriptPrefix;;;
    ret (GString "OK")
  else if String.eqb op "EVALSHA" then
    match Args cmd with
    | sha :: (_ :: _) =>
        r <- t_Get en (getScriptKey sha);;
        match r with
        | inl ErrKeyNotFound => raise (EMsg "NOSCRIPT No matching script. Please use EVAL.")
        | inl e => raise (EDb e)
        | inr item =>
            scriptBytes <- valueCopy item;;
            runLua apply en (default "" scriptBytes) (drop 1 (Args cmd))
        end
    | _ => raise (EMsg "ERR wrong number of arguments for EVALSHA")
    end
  else if String.eqb op "EVAL" then
    match Args cmd with
    | script :: (_ :: _) => runLua apply en script (drop 1 (Args cmd))
    | _ => raise (EMsg "ERR wrong number of arguments for EVAL")
    end
  else raise (EMsg "unknown lua command").

(** handleLuaCommand, for scripts nested [depth] deep. *)
Fixpoint handleLuaCommand (depth : nat) (en : Env) (cmd : Command) : FM goval :=
  match depth with
  | O => raise (EPanic stack_overflow)
  | S depth => lua_command (applyCmdInTxn (handleLuaCommand depth) en) en cmd
  end.
End lua.
