(* ===== verification/LuaProps.v ===== *)
(** * Correctness of the Lua commands *)

From S2P Require Import Prelude GoStd Badger Codec Keys Sha1 Fsm FsmColl FsmApply FsmRead FsmSpec FsmSim.
From S2P Require Import Prog Concrete FsmProps FsmReadProps RaftStore RaftStoreProps Router.
From S2P Require Import Server ServerProps ServerRefine ServerSpec Lua.
From Stdlib Require Import Lia ZArith.

Create HintDb lframes.

Section lua_props.
Context `{B : BadgerOps} {L : BadgerLaws B} `{C : Codec} {CL : CodecLaws C} `{E : LuaEngine}.
Implicit Types (v : gmap string entry) (m : rstate) (t : txn) (en : Env) (k : string).

Abbreviation FM := (M txn gerr).

(** ** Isolation *)

(** A computation that touches user data and scripts only. *)
Definition lframes {A} (f : FM A) : Prop := ∀ t, healthy t →
  healthy (f t).2 ∧
  ∀ k, data_key k = false → script_key k = false → view (f t).2 !! k = view t !! k.

Lemma lframes_frames {A} (f : FM A) : frames f → lframes f.
Proof. intros Hf t Ht. destruct (Hf t Ht) as [? H]. auto. Qed.
Lemma lframes_bind {A A'} (f : FM A) (g : A → FM A') :
  lframes f → (∀ a, lframes (g a)) → lframes (bind f g).
Proof.
  intros Hf Hg t Ht. destruct (Hf t Ht) as [Ht1 Hv1]. unfold bind.
  destruct (f t) as [[e|a] t1]; simpl in *; [done|].
  destruct (Hg a t1 Ht1) as [Ht2 Hv2]. split; [done|]. intros k Hk Hs. by rewrite Hv2, Hv1.
Qed.
Lemma lframes_ret {A} (a : A) : lframes (ret a).
Proof. apply lframes_frames, frames_ret. Qed.
Lemma lframes_raise {A} e : lframes (raise (A := A) e).
Proof. apply lframes_frames, frames_raise. Qed.
Lemma lframes_get en k : lframes (t_Get en k).
Proof. apply lframes_frames, frames_get. Qed.
Lemma lframes_copy e : lframes (valueCopy e).
Proof. apply lframes_frames, frames_valueCopy. Qed.
Lemma lframes_set k e : script_key k = true → lframes (t_SetEntry k e).
Proof.
  intros Hk t Ht. unfold t_SetEntry. destruct (txn_SetEntry k e t) as [er|t'] eqn:H; [done|].
  destruct (SetEntry_law _ _ _ _ Ht H) as [? Hv]. split; [done|]. intros k' _ Hk'. simpl.
  rewrite Hv. apply lookup_insert_ne. congruence.
Qed.
Hint Resolve lframes_ret lframes_raise lframes_get lframes_copy lframes_set : lframes.

Lemma lframes_foldM {A A'} (f : A' → A → FM A') b l :
  (∀ b x, lframes (f b x)) → lframes (foldM f b l).
Proof.
  intros Hf. revert b. induction l as [|x l IH]; intros b; simpl; [apply lframes_ret|].
  apply lframes_bind; auto.
Qed.
Lemma lframes_mapM {A A'} (f : A → FM A') l : (∀ x, lframes (f x)) → lframes (mapM f l).
Proof.
  intros Hf. induction l as [|x l IH]; simpl; [apply lframes_ret|].
  apply lframes_bind; [done|]. intros y. apply lframes_bind; auto with lframes.
Qed.
Lemma lframes_flush en : lframes (delete_prefix en scriptPrefix).
Proof.
  intros t Ht. unfold delete_prefix.
  assert (Hks : Forall (λ k, script_key k = true) (iter_keys en scriptPrefix t)).
  { apply Forall_forall. intros x Hx. by apply iter_keys_spec in Hx as [Hx _]. }
  enough (lframes (foldM (λ _ k, t_Delete k) tt (iter_keys en scriptPrefix t))) as H by by apply H.
  clear Ht. induction Hks as [|k ks Hk Hks IH]; simpl; [apply lframes_ret|].
  apply lframes_bind; [|by intros []]. intros t' Ht'. unfold t_Delete.
  destruct (txn_Delete k t') as [er|t1] eqn:H; [done|].
  destruct (Delete_law _ _ _ Ht' H) as [? Hv]. split; [done|]. intros k' _ Hk'. simpl.
  rewrite Hv. apply lookup_delete_ne. congruence.
Qed.

Ltac lframes_tac :=
  repeat lazymatch goal with
  | |- lframes _ => first [ solve [auto with lframes] | apply lframes_bind | case_match ]
  | |- ∀ _, _ => intro
  end.

Lemma lframes_call apply en stack :
  (∀ c, lframes (apply c)) → lframes (luaRedisCall apply en stack).
Proof.
  intros Ha. unfold luaRedisCall. lframes_tac; auto.
  apply lframes_foldM. intros b x. unfold lua_exists. lframes_tac.
Qed.

Lemma lframes_exec call r : (∀ args, lframes (call args)) → lframes (lua_exec call r).
Proof.
  intros Hc. induction r as [w|msg|msg|pcall args kk IH]; simpl; auto with lframes.
  intros t Ht. destruct (Hc args t Ht) as [Ht1 Hv1].
  destruct (call args t) as [res t1]. simpl in *. case_match; [done|].
  destruct (IH (call_outcome pcall res) t1 Ht1) as [Ht2 Hv2]. split; [done|].
  intros k Hk Hs. by rewrite Hv2, Hv1.
Qed.

Lemma lframes_run apply en script args :
  (∀ c, lframes (apply c)) → lframes (runLua apply en script args).
Proof.
  intros Ha. unfold runLua. lframes_tac. apply lframes_exec. intros. by apply lframes_call.
Qed.

Lemma lframes_apply depth en c : lframes (applyCmdInTxn (handleLuaCommand depth) en c).
Proof.
  revert c. induction depth as [|depth IH]; intros c;
    (destruct (str_in (Op c) lua_ops) eqn:Hop; [|by apply lframes_frames, applyCmdInTxn_frames]);
    unfold applyCmdInTxn; rewrite Hop; cbn [handleLuaCommand]; [auto with lframes|].
  unfold lua_command. lframes_tac; first [apply lframes_set, script_getScriptKey|apply lframes_flush|by apply lframes_run|idtac].
  apply lframes_mapM. intros sha. unfold script_exists_one. lframes_tac.
Qed.


(** ** Scripts by name *)

(** C28: SCRIPT LOAD answers the SHA-1 of the script, and from then on EVALSHA
    with that name runs exactly what EVAL runs with the script, answer and
    effects, as long as the entry of the script is there. *)
Theorem script_load_evalsha d1 d2 en1 en2 script n args t t1 r :
  healthy t →
  handleLuaCommand (S d1) en1 (mkCommand "SCRIPT_LOAD" "" [script] 0 "" false) t = (inr r, t1) →
  r = GString (sha1_hex script)
  ∧ ∀ t2, healthy t2 →
      view t2 !! getScriptKey (sha1_hex script) = view t1 !! getScriptKey (sha1_hex script) →
      handleLuaCommand d2 en2 (mkCommand "EVALSHA" "" (sha1_hex script :: n :: args) 0 "" false) t2
      = handleLuaCommand d2 en2 (mkCommand "EVAL" "" (script :: n :: args) 0 "" false) t2.
Proof.
  intros Ht Hload. unfold handleLuaCommand, lua_command in Hload. cbn [Op Args] in Hload.
  change (String.eqb "SCRIPT_LOAD" "SCRIPT_LOAD") with true in Hload. cbv zeta iota in Hload.
  generalize dependent (sha1_hex script). intros sha Hload.
  unfold bind, t_SetEntry in Hload. destruct (txn_SetEntry _ _ t) as [er|t'] eqn:Hs; [done|].
  destruct (SetEntry_law _ _ _ _ Ht Hs) as [Ht' Hv']. injection Hload as <- <-. split; [done|].
  intros t2 Ht2 Hk. rewrite Hv', lookup_insert_eq in Hk. destruct d2 as [|d2]; [done|].
  assert (Hg : vget (now en2) (view t2) (getScriptKey sha) = Some (Entry script 0))
    by (unfold vget; by rewrite Hk).
  destruct (vget_copy_run _ _ _ _ Ht2 Hg ltac:(done)) as (o & Ho & Hval).
  set (apply := applyCmdInTxn (handleLuaCommand d2) en2).
  trans (runLua apply en2 (default "" o) (n :: args) t2); [|by rewrite Hval].
  change (handleLuaCommand (S d2) en2 ?c t2) with (lua_command apply en2 c t2).
  unfold lua_command. cbn [Op Args drop].
  change (String.eqb "EVALSHA" "SCRIPT_LOAD") with false.
  change (String.eqb "EVALSHA" "SCRIPT_EXISTS") with false.
  change (String.eqb "EVALSHA" "SCRIPT_FLUSH") with false.
  change (String.eqb "EVALSHA" "EVALSHA") with true. cbv zeta iota.
  erewrite bind_inr by (by apply t_Get_run). rewrite Hg. cbv beta iota.
  by erewrite bind_inr.
Qed.

(** ** SET from a script *)

(** C27: The options of SET mean the same from a script as from a client:
    when the parser of the server accepts them and none is EXAT or PXAT, the
    parser behind redis.call builds the same command. *)
Theorem lua_set_agrees en opts c c' :
  set_options en opts c = inr c' →
  Forall (λ o, ToUpper o ≠ "EXAT" ∧ ToUpper o ≠ "PXAT") opts →
  lua_set_options opts c = inr c'.
Proof.
  revert c. induction opts as [opts IH] using (Wf_nat.induction_ltof1 _ length).
  unfold Wf_nat.ltof in IH. intros c. destruct opts as [|o opts]; [done|].
  intros Hs [[Hexat Hpxat] Hf]%Forall_cons. cbn [set_options lua_set_options] in *.
  rewrite !str_in_cons, !str_in_nil, !orb_false_r.
  destruct (String.eqb_spec (ToUpper o) "NX") as [Heq|Hnx]; simpl orb.
  { rewrite Heq. apply IH; [simpl; lia|done|done]. }
  destruct (String.eqb_spec (ToUpper o) "XX") as [Heq|Hxx]; simpl orb.
  { rewrite Heq. apply IH; [simpl; lia|done|done]. }
  destruct (String.eqb_spec (ToUpper o) "GET") as [Heq|Hget].
  { apply IH; [simpl; lia|done|done]. }
  destruct (opt_ttl en (ToUpper o)) as [f|] eqn:Hk; [|done].
  apply opt_ttl_Some in Hk as (kd & Hk & ->). rewrite Hk.
  destruct opts as [|a opts]; [done|]. apply Forall_cons in Hf as [_ Hf].
  destruct (ParseInt a) as [n [|]]; [done|].
  destruct kd; try (by rewrite Hk in *); simpl; apply IH; try done; simpl; lia.
Qed.

(** ** A script is a transaction over the abstract Redis *)

(** What a call does to the abstract state: GET of a key that holds no
    collection, EXISTS, and the commands of the data model. *)
Inductive call_spec en : list lval → rstate → (gerr + lval) → rstate → Prop :=
  | cs_get stack name key m x :
      map lua_ToString stack = [name; key] → ToUpper name = "GET" →
      (m !! key = None ∧ x = LNil ∨ ∃ s exp, m !! key = Some (RStr s, exp) ∧ x = LString s) →
      call_spec en stack m (inr x) m
  | cs_exists stack name key keys m :
      map lua_ToString stack = name :: key :: keys → ToUpper name = "EXISTS" →
      call_spec en stack m
        (inr (LNumber (float64_of_Z (Z.of_nat (length (filter (λ k, is_Some (m !! k)) (key :: keys)))))))
        m
  | cs_data stack name args c m :
      map lua_ToString stack = name :: args →
      str_in (ToUpper name) ["GET"; "EXISTS"; "TYPE"] = false →
      parseCommandForLua (ToUpper name) args = inr c →
      data_op (Op c) = true → accepted c →
      call_spec en stack m
        match (spec_apply en c m).1 with inl e => inl e | inr x => inr (goToLuaValue x) end
        (spec_apply en c m).2.

Lemma lua_exists_run en keys t m count :
  healthy t → Sim (now en) (view t) m →
  foldM (lua_exists en) count keys t
  = (inr (count + Z.of_nat (length (filter (λ k, is_Some (m !! k)) keys))), t).
Proof.
  intros Ht Hs. revert count. induction keys as [|k keys IH]; intros count.
  { simpl. by rewrite Z.add_0_r. }
  cbn [foldM]. rewrite filter_cons. pose proof (Sim_lookup _ _ _ k Hs) as Hk.
  assert (lua_exists en count k t = (inr (if decide (is_Some (m !! k)) then count + 1 else count), t)) as Hone.
  { unfold lua_exists. erewrite bind_inr by (by apply t_Get_run). case_decide as Hx.
    - destruct Hx as [[r exp] Hm]. rewrite Hm in Hk. destruct Hk as (e & -> & _). done.
    - apply eq_None_not_Some in Hx. rewrite Hx in Hk. by rewrite Hk. }
  erewrite bind_inr by exact Hone. rewrite IH. do 2 f_equal. case_decide; simpl; lia.
Qed.

Lemma call_runs handleLua en stack t m r m' :
  env_ok en → healthy t → Sim (now en) (view t) m → call_spec en stack m r m' →
  ∃ t', luaRedisCall (applyCmdInTxn handleLua en) en stack t = (r, t') ∧ healthy t' ∧
    Sim (now en) (view t') m'.
Proof.
  intros Hen Ht Hs Hc. unfold luaRedisCall.
  destruct Hc as [stack name key m x -> Hn Hv|stack name key keys m -> Hn|stack name args c m -> Hn Hp Hop Hacc].
  - rewrite Hn. change (String.eqb "GET" "GET") with true. cbv zeta iota.
    exists t. split; [|done]. erewrite bind_inr by (by apply t_Get_run).
    pose proof (Sim_lookup _ _ _ key Hs) as Hk.
    destruct Hv as [[Hm ->]|(s & exp & Hm & ->)]; rewrite Hm in Hk; [by rewrite Hk|].
    destruct Hk as (e & Hg & _ & Hdec & _). rewrite Hg.
    destruct (vget_copy_run _ _ _ _ Ht Hg ltac:(done)) as (o & Ho & Hval).
    erewrite bind_inr by done. rewrite Hval. rewrite decode_str in Hdec. by injection Hdec as ->.
  - rewrite Hn. change (String.eqb "EXISTS" "GET") with false.
    change (String.eqb "EXISTS" "EXISTS") with true. cbv zeta iota.
    exists t. split; [|done]. erewrite bind_inr by (by eapply lua_exists_run). done.
  - rewrite !str_in_cons, str_in_nil, !orb_false_iff in Hn. destruct Hn as (-> & -> & -> & _).
    cbv zeta iota. rewrite Hp.
    destruct (apply_runs handleLua en c t m Hen Hop Hacc Ht Hs) as (t' & Hr & Ht' & Hs').
    exists t'. split; [|done]. unfold bind. rewrite Hr.
    by destruct (spec_apply en c m).1.
Qed.

(** The run of a script over the abstract state. *)
Inductive script_spec en : lua_run → rstate → (gerr + goval) → rstate → Prop :=
  | ss_ret x m : script_spec en (LRet x) m (inr (luaToGoValue x)) m
  | ss_err msg m :
      script_spec en (LErr msg) m (inl (EMsg ("ERR Error running script: " +:+ msg))) m
  | ss_call pcall args kk m r m1 res m2 :
      call_spec en args m r m1 → overflowed r = false →
      script_spec en (kk (call_outcome pcall r)) m1 res m2 →
      script_spec en (LCall pcall args kk) m res m2.

(** A script runs over the abstract state call by call. *)
Lemma eval_runs depth en script n numKeys rest t m res m' :
  env_ok en → healthy t → Sim (now en) (view t) m →
  Atoi n = (numKeys, None) → 0 <= numKeys <= Z.of_nat (length rest) →
  script_spec en
    (DoString script (take (Z.to_nat numKeys) rest) (drop (Z.to_nat numKeys) rest)) m res m' →
  ∃ t', applyCmdInTxn (handleLuaCommand (S depth)) en
          (mkCommand "EVAL" "" (script :: n :: rest) 0 "" false) t = (res, t')
    ∧ healthy t' ∧ Sim (now en) (view t') m'.
Proof.
  intros Hen Ht Hs Hn Hr Hspec.
  change (applyCmdInTxn (handleLuaCommand (S depth)) en
    (mkCommand "EVAL" "" (script :: n :: rest) 0 "" false) t)
    with (runLua (applyCmdInTxn (handleLuaCommand depth) en) en script (n :: rest) t).
  unfold runLua. rewrite Hn.
  destruct (Z.ltb_spec numKeys 0); [lia|].
  destruct (Z.ltb_spec (Z.of_nat (length rest)) numKeys); [lia|]. clear -Hen Ht Hs Hspec CL.
  revert t Ht Hs. induction Hspec as [x m|msg m|pcall args kk m r m1 res m2 Hcall Hov Hspec IH];
    intros t Ht Hs; cbn [lua_exec]; [by exists t..|].
  destruct (call_runs (handleLuaCommand depth) en args t m r m1 Hen Ht Hs Hcall)
    as (t1 & Hr1 & Ht1 & Hs1).
  rewrite Hr1, Hov. by apply IH.
Qed.

(** *** A script of a client *)

(** A script that fails leaves the state as it was. *)
Definition script_state (res : gerr + goval) (m m' : rstate) : rstate :=
  match res with inl _ => m | inr _ => m' end.

Lemma script_no_panic en r m res m' : script_spec en r m res m' → ∀ msg, res ≠ inl (EPanic msg).
Proof. by induction 1. Qed.

Lemma Apply_eval depth en script n numKeys rest d m res m' :
  commits → env_ok en → dhealthy d → Sim (now en) (dview d) m →
  Atoi n = (numKeys, None) → 0 <= numKeys <= Z.of_nat (length rest) →
  script_spec en
    (DoString script (take (Z.to_nat numKeys) rest) (drop (Z.to_nat numKeys) rest)) m res m' →
  ∃ d', Apply (handleLuaCommand (S depth)) en d (enc_cmd (command "EVAL" "" (script :: n :: rest)))
          = (res, d')
    ∧ dhealthy d' ∧ Sim (now en) (dview d') (script_state res m m').
Proof.
  intros Hcom Hen Hd Hs Hn Hr Hspec. destruct (NewTransaction_law d Hd) as [Ht Hv].
  destruct (eval_runs depth en script n numKeys rest (NewTransaction d) m res m')
    as (t' & He & Ht' & Hs'); try done; [by rewrite Hv|].
  unfold Apply. rewrite dec_enc_cmd. unfold db_Update, command. rewrite He.
  destruct res as [e|v]; [by exists d|].
  destruct (Hcom t' Ht') as [d' Hd']. exists d'. rewrite Hd'.
  destruct (Commit_law _ _ Ht' Hd') as [? ->]. done.
Qed.

Lemma handleEval_submits {N : Node} conn name script n numKeys rest :
  Atoi n = (numKeys, None) → 0 <= numKeys <= Z.of_nat (length rest) →
  handleEval conn name (script :: n :: rest)
  = applyCommand (command "EVAL" "" (script :: n :: rest)).
Proof.
  intros Hn Hr. unfold handleEval, eval_with. rewrite Hn.
  destruct (Z.ltb_spec numKeys 0); [lia|].
  destruct (Z.ltb_spec (Z.of_nat (length rest) + 3) (wrap64 (3 + numKeys))); [|done].
  pose proof (wrap64_le (3 + numKeys)). lia.
Qed.

(** C8: EVAL from a client to its reply.  The script runs over the abstract
    state call by call: each redis.call or redis.pcall gets the answer of the
    abstract Redis and the next call sees its effect.  The client gets the
    value the script returns if it is nil, a string or a number, OK instead of
    a table, which has no case in applyCommand, and the error if one stopped
    the script; and the node represents the state the calls led to, or, after
    an error, the state before the script: none of its writes stays.  When Raft
    fails the client gets Raft's error. *)
Theorem eval_served {N : Node} ServeRESP depth en conn name script n numKeys rest w m res m' :
  mux_dispatches ServeRESP → handleLua = handleLuaCommand (S depth) →
  node_ok en w m → env_ok en →
  ToUpper name = "EVAL" → ToLower name = "eval" →
  Atoi n = (numKeys, None) → 0 <= numKeys <= Z.of_nat (length rest) →
  script_spec en
    (DoString script (take (Z.to_nat numKeys) rest) (drop (Z.to_nat numKeys) rest)) m res m' →
  ∃ ws w', alone en (handleCmd ServeRESP conn name (script :: n :: rest)) w = (inr tt, w')
    ∧ w_out w' = w_out w ++ ws
    ∧ ((∃ f e d', raft = Some f
          ∧ f en (enc_cmd (command "EVAL" "" (script :: n :: rest))) (w_db w) = (inl e, d')
          ∧ ws = [WError ("ERR " +:+ e)])
       ∨ ws = match res with
              | inl e => [WError ("ERR " +:+ err_text e)]
              | inr v => if has_reply v then resp v else [WString "OK"]
              end
         ∧ node_ok en w' (script_state res m m')).
Proof.
  intros Hmux Hlua (Hraft & Hcom & Hd & Hs) Hen Hup Hlow Hn Hr Hspec.
  destruct (Apply_eval depth en script n numKeys rest (w_db w) m res m')
    as (d' & Ha & Hd' & Hs'); [done..|].
  assert (handleCmd ServeRESP conn name (script :: n :: rest)
    = applyCommand (command "EVAL" "" (script :: n :: rest))) as ->.
  { unfold handleCmd. rewrite Hup. cbn [String.eqb Ascii.eqb Bool.eqb].
    specialize (Hmux mux_handlers conn name (script :: n :: rest)). rewrite Hlow in Hmux.
    change (mux_handlers !! "eval") with (Some handleEval) in Hmux.
    etransitivity; [exact Hmux|]. by eapply handleEval_submits. }
  pose proof (script_no_panic _ _ _ _ _ Hspec) as Hp.
  rewrite <- Hlua in Ha. unfold applyCommand, submit, alone. rewrite !run_bind. unfold bind. simpl.
  destruct (raft_submit_cases _ _ _ _ _ Hraft Ha) as [(f & e & d1 & Hf & He & ->)| ->]; simpl.
  - eexists _, _. do 2 (split; [done|]). left. by exists f, e, d1.
  - destruct res as [[]|v]; simpl; try (by edestruct Hp);
      eexists _, _; do 2 (split; [done|]); right; split; try done. by destruct v.
Qed.
End lua_props.

(** ** A concrete engine

    It knows the scripts "return redis.call(name, unpack(KEYS), unpack(ARGV))",
    each written as that name, and the script that returns KEYS. *)

Section concrete.
#[local] Existing Instances B0 L0 C0 CL0.

Definition return_call (args : list lval) : lua_run :=
  LCall false args (λ r, match r with
                         | RVal v => LRet v
                         | RRaised msg => LErr msg
                         | RPanic msg => LErr msg
                         end).

#[local] Instance E0 : LuaEngine := {|
  DoString script keys argv :=
    if String.eqb script "KEYS" then LRet (lua_array (map LString keys))
    else return_call (map LString (script :: keys ++ argv));
  lua_ToString v := match v with LString s => s | _ => "" end;
|}.

Definition eval0 (t : Z) (d : @db B0) (args : list string) : (gerr + goval) * @db B0 :=
  Apply (handleLuaCommand 10) (en0 t) d (enc_cmd (cmd "EVAL" "" args)).

(** redis.call("DEL", k1, k2) takes k1 for the unused key field of the command
    and deletes k2 only. *)
Theorem lua_del_skips_first :
  let r := eval0 0 db0 ["DEL"; "2"; "str"; "list"] in
  r.1 = inr (GInt64 1)
  ∧ Exists (en0 0) r.2 ["str"] = inr 1 ∧ Exists (en0 0) r.2 ["list"] = inr 0.
Proof. vm_compute. done. Qed.

(** redis.call("MSET", k, v) is refused: the arguments without the first are
    odd in number. *)
Theorem lua_mset_refused :
  (eval0 0 db0 ["MSET"; "1"; "str"; "v"]).1
  = inl (EMsg "ERR Error running script: MSET invalid args").
Proof. vm_compute. done. Qed.

(** redis.call("EXPIRE", k, 100) does not read the 100: the TTL is zero and
    the key is gone at once. *)
Theorem lua_expire_deletes :
  let r := eval0 second db0 ["EXPIRE"; "1"; "str"; "100"] in
  r.1 = inr (GInt64 1) ∧ GetString (en0 second) r.2 "str" = inr None.
Proof. vm_compute. done. Qed.

(** redis.call("SET", k, v, "EXAT", t) ignores EXAT. *)
Theorem lua_set_ignores_exat :
  let r := eval0 second db0 ["SET"; "1"; "k"; "v"; "EXAT"; "100"] in
  r.1 = inr (GString "OK") ∧ PTTL (en0 second) r.2 "k" = inr (-1).
Proof. vm_compute. done. Qed.

(** A node with this engine. *)
#[local] Instance N1 : Node := {|
  handleLua := handleLuaCommand 10;
  raft := None;
  remoteAddr _ := "10.0.0.9:5000";
  client_Do _ _ _ := DoNil;
  node_addr := ":6379";
  node_router := NewRouter SlotMap.NewSlotMap "node-1";
|}.

(** SCRIPT EXISTS computes its list of zeros and ones, and the server, which
    knows no such type of answer, replies OK; so does EVAL of a script that
    returns a table. *)
Theorem script_replies_lost :
  let w := mkWorld db0 ∅ (mkPool ∅ 0) [] in
  (applyCmdInTxn (handleLuaCommand 10) (en0 0) (cmd "SCRIPT_EXISTS" "" ["x"; "y"]) db0).1
    = inr (GInt64s [0; 0])
  ∧ w_out (alone (en0 0) (handleScript 1%nat "script" ["EXISTS"; "x"; "y"]) w).2 = [WString "OK"]
  ∧ (eval0 0 db0 ["KEYS"; "2"; "a"; "b"]).1 = inr (GArray [GString "a"; GString "b"])
  ∧ w_out (alone (en0 0) (handleEval 1%nat "eval" ["KEYS"; "2"; "a"; "b"]) w).2 = [WString "OK"].
Proof. vm_compute. done. Qed.

(** *** The theorems at concrete inputs *)


Lemma load_runs : ∃ t1 : @txn B0,
  handleLuaCommand 1 (en0 0) (mkCommand "SCRIPT_LOAD" "" ["GET"] 0 "" false) txn0
  = (inr (GString (sha1_hex "GET")), t1).
Proof. eexists. apply pair_fst. vm_compute. reflexivity. Qed.

Lemma script_load_evalsha_witness : ∃ t1 : @txn B0,
  handleLuaCommand 10 (en0 0)
    (mkCommand "EVALSHA" "" (sha1_hex "GET" :: "1" :: ["str"]) 0 "" false) t1
  = handleLuaCommand 10 (en0 0) (mkCommand "EVAL" "" ("GET" :: "1" :: ["str"]) 0 "" false) t1.
Proof.
  destruct load_runs as [t1 Hload]. exists t1.
  exact (proj2 (script_load_evalsha 0 10 (en0 0) (en0 0) "GET" "1" ["str"] txn0 t1
    (GString (sha1_hex "GET")) (healthy0 txn0) Hload) t1 (healthy0 t1) eq_refl).
Defined.

Lemma lua_set_agrees_witness :
  lua_set_options ["ex"; "10"; "NX"] (cmd "SET" "k" ["v"])
  = inr (mkCommand "SET" "k" ["v"] 10000 "NX" false).
Proof.
  apply (lua_set_agrees (en0 0) ["ex"; "10"; "NX"] (cmd "SET" "k" ["v"])).
  - vm_compute. reflexivity.
  - repeat constructor; vm_compute; discriminate.
Defined.

Definition rpush : Command := cmd "RPUSH" "list" ["d"].

Lemma eval_served_witness : ∃ ws w',
  alone (en0 0) (handleCmd serve0 1%nat "Eval" ["RPUSH"; "1"; "list"; "d"]) (world0 db0)
    = (inr tt, w')
  ∧ w_out w' = [] ++ ws
  ∧ ((∃ f e d', @raft B0 N1 = Some f
        ∧ f (en0 0) (enc_cmd (command "EVAL" "" ["RPUSH"; "1"; "list"; "d"])) db0 = (inl e, d')
        ∧ ws = [WError ("ERR " +:+ e)])
     ∨ ws = [WInt 4] ∧ node_ok (en0 0) w' (spec_apply (en0 0) rpush state0).2).
Proof.
  assert (Hspec : (spec_apply (en0 0) rpush state0).1 = inr (GInt 4)) by (vm_compute; reflexivity).
  assert (Hacc : accepted rpush).
  { split; [|done]. intros k ->%list_elem_of_singleton. apply writable0. simpl. lia. }
  pose proof (cs_data (en0 0) (map LString ["RPUSH"; "list"; "d"]) "RPUSH" ["list"; "d"] rpush state0
    eq_refl eq_refl eq_refl eq_refl Hacc) as Hcall. rewrite Hspec in Hcall.
  apply (eval_served serve0 9 (en0 0) 1%nat "Eval" "RPUSH" "1" 1 ["list"; "d"] (world0 db0) state0
    (inr (GInt64 4)) (spec_apply (en0 0) rpush state0).2).
  - apply serve0_dispatches.
  - reflexivity.
  - split; [intros f [=]|split; [apply commits0|split; [done|apply Sim_store0]]].
  - by apply en0_ok.
  - reflexivity.
  - reflexivity.
  - reflexivity.
  - simpl. lia.
  - eapply ss_call; [exact Hcall|reflexivity|]. apply (ss_ret _ (LNumber (float64_of_Z 4))).
Defined.
End concrete.
