(* ===== verification/Gossip.v ===== *)
(** * Gossip membership (cluster/gossip.go, cluster/options.go)

    A thin layer over hashicorp's memberlist, which is a parameter: what its
    calls answer.  The state of the functions is the trace of the calls they
    make of it. *)

From S2P Require Import Prelude GoStd GoNet.
From Stdlib Require Import Lia ZArith.

(** ** Options *)

(** [io.Writer]s: [io.Discard], [os.Stderr] and others; [None] is nil. *)
Inductive Writer := Discard | Stderr | OtherWriter (n : nat).

#[export] Instance Writer_eq_dec : EqDecision Writer.
Proof. solve_decision. Defined.

Record options := mkOptions { logOutput : option Writer }.

(** A function that changes the options, or nil. *)
Abbreviation Option := (option (options → options)).

Definition WithLogOutput (w : option Writer) : Option := Some (λ opts, mkOptions w).

(** The loop of resolveOptions. *)
Fixpoint apply_options (resolved : options) (opts : list Option) : options :=
  match opts with
  | [] => resolved
  | opt :: opts' => apply_options (match opt with Some f => f resolved | None => resolved end) opts'
  end.

Definition resolveOptions (opts : list Option) : options :=
  let resolved := apply_options (mkOptions (Some Discard)) opts in
  match logOutput resolved with
  | None => mkOptions (Some Discard)
  | Some _ => resolved
  end.

(** The options of the library write somewhere, and the last one given decides
    where; nil options and nil writers count for nothing and [io.Discard]. *)
Lemma resolveOptions_last ws w :
  resolveOptions (map WithLogOutput ws ++ [None; WithLogOutput w; None])
  = mkOptions (Some (default Discard w)).
Proof.
  assert (∀ o, apply_options o (map WithLogOutput ws ++ [None; WithLogOutput w; None]) = mkOptions w)
    as Ha by (induction ws as [|w' ws IH]; intros o; simpl; [done|apply IH]).
  unfold resolveOptions. rewrite Ha. by destruct w.
Qed.
Lemma resolveOptions_writes opts : logOutput (resolveOptions opts) ≠ None.
Proof. unfold resolveOptions. by destruct (logOutput (apply_options _ opts)) eqn:H; simpl; rewrite ?H. Qed.

(** ** Gossip *)

(** The fields of [memberlist.Config] that are set here. *)
Record config := mkConfig {
  Name : string;
  LogOutput : option Writer;
  BindAddr : string;
  BindPort : Z;
}.

Class Memberlist := {
  mlist : Type;
  member_node : Type;
  ml_Create : config → string + mlist;
  (** The error of [Join], if any. *)
  ml_Join : mlist → list string → option string;
  ml_Shutdown : mlist → option string;
  ml_LocalNode : mlist → string * Z;
  ml_Members : mlist → list member_node;
}.

Inductive gossip_err :=
  | EAddr (msg : string)
  | EPort (portStr : string) (e : num_error)
  | EList (msg : string).

Section gossip.
Context {ML : Memberlist}.

Inductive call :=
  | CCreate (c : config)
  | CJoin (l : mlist) (addrs : list string)
  | CShutdown (l : mlist).

Abbreviation GM := (M (list call) gossip_err).

Definition log_call (c : call) : GM unit := λ tr, (inr tt, tr ++ [c]).

Record Gossip := mkGossip { list_ : mlist }.

Definition Create (c : config) : GM mlist :=
  log_call (CCreate c);;;
  match ml_Create c with
  | inl e => raise (EList e)
  | inr l => ret l
  end.

(** Joining, or shutting the list down again. *)
Definition join_all (l : mlist) (joinAddrs : list string) : GM unit :=
  match joinAddrs with
  | [] => ret tt
  | _ =>
      log_call (CJoin l joinAddrs);;;
      match ml_Join l joinAddrs with
      | None => ret tt
      | Some e => log_call (CShutdown l);;; raise (EList e)
      end
  end.

(** [dflt] is [memberlist.DefaultLocalConfig()]. *)
Definition NewGossip (dflt : config) (bindAddr nodeName : string) (joinAddrs : list string)
    : GM Gossip :=
  let config := mkConfig nodeName (LogOutput dflt) (BindAddr dflt) (BindPort dflt) in
  match SplitHostPort bindAddr with
  | inl err => raise (EAddr err)
  | inr (host, portStr) =>
      match Atoi portStr with
      | (_, Some err) => raise (EPort portStr err)
      | (port, None) =>
          l <- Create (mkConfig (Name config) (LogOutput config) host port);;
          join_all l joinAddrs;;;
          ret (mkGossip l)
      end
  end.

Definition NewGossipWithOptions (dflt : config) (bindAddr nodeName : string)
    (joinAddrs : list string) (opts : list Option) : GM Gossip :=
  let config := mkConfig nodeName (LogOutput dflt) (BindAddr dflt) (BindPort dflt) in
  let resolved := resolveOptions opts in
  let config := mkConfig (Name config) (logOutput resolved) (BindAddr config) (BindPort config) in
  match SplitHostPort bindAddr with
  | inl err => raise (EAddr err)
  | inr (host, portStr) =>
      match Atoi portStr with
      | (_, Some err) => raise (EPort portStr err)
      | (port, None) =>
          l <- Create (mkConfig (Name config) (LogOutput config) host port);;
          join_all l joinAddrs;;;
          ret (mkGossip l)
      end
  end.

(** [fmt.Sprintf("%s:%d", Addr, Port)] *)
Definition Gossip_BindAddr (g : Gossip) : string :=
  let '(addr, port) := ml_LocalNode (list_ g) in addr +:+ ":" +:+ FormatInt port.
Definition Members (g : Gossip) : list member_node := ml_Members (list_ g).
Definition Shutdown (g : Gossip) : M (list call) unit (option string) :=
  λ tr, (inr (ml_Shutdown (list_ g)), tr ++ [CShutdown (list_ g)]).

(** ** Properties *)

(** The two constructors differ in where memberlist logs to only. *)
Lemma NewGossipWithOptions_eq dflt bindAddr nodeName joinAddrs opts :
  NewGossipWithOptions dflt bindAddr nodeName joinAddrs opts
  = NewGossip (mkConfig (Name dflt) (logOutput (resolveOptions opts)) (BindAddr dflt) (BindPort dflt))
      bindAddr nodeName joinAddrs.
Proof. done. Qed.

Lemma NewGossip_runs dflt bindAddr nodeName joinAddrs tr :
  let '(r, tr') := NewGossip dflt bindAddr nodeName joinAddrs tr in
  (∃ e, r = inl e ∧ tr' = tr)
  ∨ (∃ host portStr port, SplitHostPort bindAddr = inr (host, portStr) ∧ Atoi portStr = (port, None)
     ∧ let c := mkConfig nodeName (LogOutput dflt) host port in
       (∃ e, ml_Create c = inl e ∧ r = inl (EList e) ∧ tr' = tr ++ [CCreate c])
       ∨ (∃ l, ml_Create c = inr l
          ∧ ((joinAddrs = [] ∧ r = inr (mkGossip l) ∧ tr' = tr ++ [CCreate c])
             ∨ (joinAddrs ≠ [] ∧ ml_Join l joinAddrs = None ∧ r = inr (mkGossip l)
                ∧ tr' = tr ++ [CCreate c; CJoin l joinAddrs])
             ∨ (∃ e, joinAddrs ≠ [] ∧ ml_Join l joinAddrs = Some e ∧ r = inl (EList e)
                ∧ tr' = tr ++ [CCreate c; CJoin l joinAddrs; CShutdown l])))).
Proof.
  unfold NewGossip. destruct (SplitHostPort bindAddr) as [err|[host portStr]]; [by left; eauto|].
  destruct (Atoi portStr) as [port [err|]] eqn:Hp; [by left; eauto|]. cbn [Name LogOutput].
  set (c := mkConfig nodeName (LogOutput dflt) host port).
  unfold Create, bind, log_call. destruct (ml_Create c) as [e|l] eqn:Hc; cbn [raise ret].
  { right. exists host, portStr, port. eauto 10. }
  unfold join_all. destruct joinAddrs as [|a addrs]; cbn [ret].
  { right. exists host, portStr, port. eauto 10. }
  unfold bind, log_call. destruct (ml_Join l (a :: addrs)) as [e|] eqn:Hj; cbn [ret raise];
    rewrite <- ?app_assoc; simpl; right; exists host, portStr, port;
    (split; [done|]; split; [done|]; right; exists l; split; [done|]; right);
    [right; by exists e|by left].
Qed.
End gossip.
