(* ===== verification/Lifecycle.v ===== *)
(** * The life of a server (server/options.go, NewServer, SetupRaft, Start,
    StartAdmin, Stop of server/server.go; NewFSM and Close of store/fsm.go)

    What these functions do is done outside the program: opening a database,
    starting Raft, listening.  Their state is the trace of what they asked for;
    a [Host] says what was answered.  Sockets, Raft, memberlist, BadgerDB and
    the operating system are parameters. *)

From S2P Require Import Prelude GoStd GoNet Badger Codec Fsm Router Server Gossip.
From Stdlib Require Import Lia ZArith.

(** What the program asks of the outside, in order. *)
Inductive event `{ML : Memberlist} :=
  | EvGossip (c : call)
  | EvOpen (path : string)
  | EvCloseDB
  | EvAdmin (addr : string)
  | EvTransport (addr : string)
  | EvNewRaft (localID addr : string)
  | EvBootstrap (servers : list (string * string))
  | EvGet (url : string)
  | EvCloseBody
  | EvSleep (seconds : Z)
  | EvListen (addr : string)
  | EvCloseClient (c : client)
  | EvCloseServer.

(** The answers, [None] for no error.  [http_Get] is asked for an attempt
    number and a URL, and answers an error or a status. *)
Class Host := {
  #[global] host_memberlist :: Memberlist;
  LookupEnv : string → option string;
  DefaultLocalConfig : config;
  badger_Open : string → option string;
  ResolveTCPAddr : string → option string;
  NewTCPTransport : string → option string;
  NewRaft : string → string → option string;
  http_Get : nat → string → string + Z;
}.

(** ** Options (server/options.go) *)

Module ServerOptions.
Record options := mkOptions { logOutput : option Writer }.
Abbreviation Option := (option (options → options)).

Definition WithLogOutput_ (w : option Writer) : Option := Some (λ opts, mkOptions w).

Fixpoint apply_options_ (resolved : options) (opts : list Option) : options :=
  match opts with
  | [] => resolved
  | opt :: opts' => apply_options_ (match opt with Some f => f resolved | None => resolved end) opts'
  end.

Definition resolveOptions_ (opts : list Option) : options :=
  let resolved := apply_options_ (mkOptions (Some Discard)) opts in
  match logOutput resolved with
  | None => mkOptions (Some Discard)
  | Some _ => resolved
  end.
End ServerOptions.

Section lifecycle.
Context {H : Host}.

(** Tracing, and failing with an error's text. *)
Abbreviation TM := (M (list event) string).

Definition emit {E} (e : event) : M (list event) E unit := λ tr, (inr tt, tr ++ [e]).

(** Fail with an error if there is one. *)
Definition check (err : option string) : TM unit :=
  match err with Some msg => raise msg | None => ret tt end.

(** ** The store *)

(** NewFSM opens the database at a path; Close closes it. *)
Definition NewFSM (path : string) : TM unit := emit (EvOpen path);;; check (badger_Open path).
Definition Close {E} : M (list event) E unit := emit EvCloseDB.

(** ** The server *)

(** [s.raft], [s.redconServer]: whether they have been set. *)
Record Server := mkServer {
  srv_addr : string;
  srv_router : Router;
  srv_shardID : string;
  srv_pool : pool;
  srv_logOutput : option Writer;
  srv_raft : bool;
  srv_redcon : bool;
}.

Definition NewServerWithOptions (addr : string) (r : Router) (shardID : string)
    (opts : list ServerOptions.Option) : Server :=
  let resolved := ServerOptions.resolveOptions_ opts in
  mkServer addr r shardID (mkPool ∅ 0) (ServerOptions.logOutput resolved) false false.

Definition NewServer (addr : string) (r : Router) (shardID : string) : Server :=
  NewServerWithOptions addr r shardID [ServerOptions.WithLogOutput_ (Some Stderr)].

Definition set_raft (s : Server) : Server :=
  mkServer (srv_addr s) (srv_router s) (srv_shardID s) (srv_pool s) (srv_logOutput s) true
    (srv_redcon s).

Definition SetupRaft (s : Server) (localID raftBindAddr : string) : TM Server :=
  check (ResolveTCPAddr raftBindAddr);;;
  emit (EvTransport raftBindAddr);;;
  check (NewTCPTransport raftBindAddr);;;
  emit (EvNewRaft localID raftBindAddr);;;
  check (NewRaft localID raftBindAddr);;;
  ret (set_raft s).

Definition GetRaft (s : Server) : bool := srv_raft s.

(** [s.redconServer] is set, then the server listens. *)
Definition Start {E} (s : Server) : M (list event) E Server :=
  emit (EvListen (srv_addr s));;;
  ret (mkServer (srv_addr s) (srv_router s) (srv_shardID s) (srv_pool s) (srv_logOutput s)
         (srv_raft s) true).

Definition StartAdmin {E} (adminPort : string) : M (list event) E unit := emit (EvAdmin adminPort).

(** [for _, c := range s.clients]: in the order the runtime picks. *)
Fixpoint close_clients {E} (cs : list client) : M (list event) E unit :=
  match cs with
  | [] => ret tt
  | c :: cs' => emit (EvCloseClient c);;; close_clients cs'
  end.

Definition Stop {E} (order : gmap string client → list client) (s : Server)
    : M (list event) E unit :=
  close_clients (order (clients (srv_pool s)));;;
  if srv_redcon s then emit EvCloseServer else ret tt.
End lifecycle.

(** ** The admin server

    The query of the request is taken apart by net/url. *)
Definition serveJoin (r : option raft_view) (rawQuery : string)
    : string + (Z * string) * option (string * string) :=
  let q := ParseQuery rawQuery in
  handleRaftJoin r (Query_Get q "id") (Query_Get q "addr").
