(* ===== verification/Main.v ===== *)
(** * The program (main.go)

    main reads its settings from the environment, brings the parts of a node up
    in order, bootstraps or joins a shard, serves until a signal or a failure,
    and takes the node down.  Deferred calls run when main returns; os.Exit
    ends the program without them.  Logging is left out. *)

From S2P Require Import Prelude GoStd GoNet Badger Codec Fsm Router Server Gossip Lifecycle.
From Stdlib Require Import Lia ZArith Ascii.

Section main.
Context {H : Host}.

(** ** Settings *)

Definition getEnvOrDefault (key fallback : string) : string :=
  match LookupEnv key with
  | Some value => value
  | None => fallback
  end.

Definition log_output : Writer :=
  if String.eqb (getEnvOrDefault "BADIS_VERBOSE" "") "1" then Stderr else Discard.

Definition listen_port : string :=
  let port := getEnvOrDefault "BADIS_PORT" ":6379" in
  if has_prefix ":" port then port else ":" +:+ port.

Definition nodeID : string := getEnvOrDefault "BADIS_NODE_ID" "local-node".
Definition gossipPort : string := getEnvOrDefault "BADIS_GOSSIP_PORT" "7946".
Definition raftPort : string := getEnvOrDefault "BADIS_RAFT_PORT" "8300".
Definition shardID : string := getEnvOrDefault "BADIS_SHARD_ID" "shard-1".
Definition dbPath : string := getEnvOrDefault "BADIS_DATA_DIR" "badis-data".

Definition joinList : list string :=
  let joinAddrs := getEnvOrDefault "BADIS_JOIN" "" in
  if String.eqb joinAddrs "" then [] else Split ","%char joinAddrs.

Definition raftAddr : string := "127.0.0.1:" +:+ raftPort.

(** [":" + strconv.Itoa(rPort+100)] *)
Definition adminPort (rPort : Z) : string := ":" +:+ FormatInt (wrap64 (rPort + 100)).

(** The router main builds, over an empty slot map. *)
Definition main_router : Router := NewRouter SlotMap.NewSlotMap nodeID.

(** ** Joining *)

Definition join_query : string := ("id" +:+ "=" +:+ nodeID) +:+ "&" +:+ ("addr" +:+ "=" +:+ raftAddr).

Definition joinURL (peer : string) : string :=
  let host := default "" (head (Split ":"%char peer)) in
  let leaderAdminPort := getEnvOrDefault "BADIS_LEADER_ADMIN_PORT" "8400" in
  "http://" +:+ host +:+ ":" +:+ leaderAdminPort +:+ "/join?" +:+ join_query.

(** How the program ends other than by returning: [os.Exit]. *)
Inductive halt := Exited (code : Z).

(** The trace and the deferred calls, the last one first. *)
Record proc := mkProc { p_trace : list event; p_defers : list event }.
Abbreviation PM := (M proc halt).

Definition p_emit (e : event) : PM unit := λ p,
  (inr tt, mkProc (p_trace p ++ [e]) (p_defers p)).
Definition defer (e : event) : PM unit := λ p, (inr tt, mkProc (p_trace p) (e :: p_defers p)).

(** Run a part of the program; exit with 1 if it fails. *)
Definition or_exit {E A} (f : M (list event) E A) : PM A := λ p,
  match f (p_trace p) with
  | (inl _, tr) => (inl (Exited 1), mkProc tr (p_defers p))
  | (inr a, tr) => (inr a, mkProc tr (p_defers p))
  end.

(** The calls of memberlist, in the trace of the program. *)
Definition gossip_events {E A} (f : M (list call) E A) : M (list event) E A := λ tr,
  let '(r, cs) := f [] in (r, tr ++ map EvGossip cs).

(** The retries of the join request, from attempt [i] on. *)
Fixpoint join_loop (n i : nat) (url : string) : PM unit :=
  match n with
  | O => ret tt
  | S n' =>
      p_emit (EvGet url);;;
      match http_Get i url with
      | inl err => p_emit (EvSleep 1);;; join_loop n' (S i) url
      | inr status =>
          p_emit EvCloseBody;;;
          if status =? 200 then ret tt
          else p_emit (EvSleep 1);;; join_loop n' (S i) url
      end
  end.

Definition form_shard : PM unit :=
  match joinList with
  | [] => p_emit (EvBootstrap [(nodeID, raftAddr)])
  | peer :: _ => join_loop 10 0 (joinURL peer)
  end.

(** ** The program *)

(** What ends the wait: an error of the server, or a signal, which may come
    before the goroutine that starts the server has set it. *)
Inductive wake := StartFailed | Signalled (started : bool).

(** The server that Stop sees: other goroutines have filled its pool. *)
Definition at_stop (srv : Server) (w : wake) (p : pool) : PM Server :=
  match w with
  | Signalled false =>
      ret (mkServer (srv_addr srv) (srv_router srv) (srv_shardID srv) p (srv_logOutput srv)
             (srv_raft srv) (srv_redcon srv))
  | _ =>
      srv <- or_exit (Start (E := string) srv);;
      ret (mkServer (srv_addr srv) (srv_router srv) (srv_shardID srv) p (srv_logOutput srv)
             (srv_raft srv) (srv_redcon srv))
  end.

(** From the store being open to the end of Stop. *)
Definition serve (w : wake) (p : pool) (order : gmap string client → list client) : PM unit :=
  let srv := NewServerWithOptions listen_port main_router shardID
               [ServerOptions.WithLogOutput_ (Some log_output)] in
  rPort <- (match Atoi raftPort with
            | (rPort, None) => ret rPort
            | (_, Some _) => raise (Exited 1)
            end);;
  or_exit (StartAdmin (E := string) (adminPort rPort));;;
  srv <- or_exit (SetupRaft srv nodeID raftAddr);;
  p_emit (EvSleep 2);;;
  form_shard;;;
  srv <- at_stop srv w p;;
  or_exit (Stop (E := string) order srv).

Definition main_body (w : wake) (p : pool) (order : gmap string client → list client) : PM unit :=
  gossipNode <- or_exit (gossip_events
    (NewGossipWithOptions DefaultLocalConfig ("0.0.0.0:" +:+ gossipPort) nodeID joinList
       [WithLogOutput (Some log_output)]));;
  defer (EvGossip (CShutdown (list_ gossipNode)));;;
  or_exit (NewFSM dbPath);;;
  defer EvCloseDB;;;
  serve w p order.

(** A run of the program: how it ended ([None]: main returned) and its trace. *)
Definition main (w : wake) (p : pool) (order : gmap string client → list client)
    : option halt * list event :=
  match main_body w p order (mkProc [] []) with
  | (inl h, s) => (Some h, p_trace s)
  | (inr _, s) => (None, p_trace s ++ p_defers s)
  end.
End main.
