(* ===== verification/MainProps.v ===== *)
(** * Properties of the start-up, the join, and the shutdown of a node *)

From S2P Require Import Prelude Prog GoStd GoNet Badger Codec Fsm FsmApply Router Server Gossip Lifecycle.
From S2P Require Import Main ServerState Concrete.
From Stdlib Require Import Lia ZArith.

(** ** Gossip *)

Section gossip_props.
Context {ML : Memberlist}.

(** C36: Starting gossip never leaks a member list: on every path, a list that
    memberlist created with the address, the port and the name asked for is
    either the one returned, joined to the given peers, or has been shut down
    when the call fails; and when nothing could be created nothing was
    joined. *)
Theorem NewGossip_releases dflt bindAddr nodeName joinAddrs opts r tr :
  NewGossipWithOptions dflt bindAddr nodeName joinAddrs opts [] = (r, tr) →
  match r with
  | inr g => ∃ host portStr port,
      SplitHostPort bindAddr = inr (host, portStr) ∧ Atoi portStr = (port, None)
      ∧ let c := mkConfig nodeName (logOutput (resolveOptions opts)) host port in
        ml_Create c = inr (list_ g)
        ∧ (joinAddrs ≠ [] → ml_Join (list_ g) joinAddrs = None)
        ∧ tr = CCreate c :: match joinAddrs with [] => [] | _ => [CJoin (list_ g) joinAddrs] end
  | inl _ => ∀ c l, CCreate c ∈ tr → ml_Create c = inr l → last tr = Some (CShutdown l)
  end.
Proof.
  intros Hr. rewrite NewGossipWithOptions_eq in Hr.
  pose proof (NewGossip_runs
    (mkConfig (Name dflt) (logOutput (resolveOptions opts)) (BindAddr dflt) (BindPort dflt))
    bindAddr nodeName joinAddrs []) as Hruns.
  rewrite Hr in Hruns. simpl in Hruns.
  destruct Hruns as [(e & -> & ->)|(host & portStr & port & Hs & Hp & Hruns)].
  { intros c l Hin. by apply elem_of_nil in Hin. }
  destruct Hruns as [(e & Hc & -> & ->)|(l & Hc & Hruns)].
  { intros c l Hin Hl. apply list_elem_of_singleton in Hin as [= ->]. congruence. }
  destruct Hruns as [(-> & -> & ->)|[(Hj & Hjoin & -> & ->)|(e & Hj & Hjoin & -> & ->)]].
  - exists host, portStr, port. done.
  - exists host, portStr, port. split_and!; [done..|]. by destruct joinAddrs.
  - intros c l' Hin Hl. rewrite !elem_of_cons in Hin.
    destruct Hin as [[= ->]|[[=]|[[=]|Hin%elem_of_nil]]]; [|done]. simpl. congruence.
Qed.
End gossip_props.

Section main_props.
Context {H : Host}.

(** ** Runs of the parts *)

Lemma NewFSM_runs path tr :
  NewFSM path tr = (match badger_Open path with Some e => inl e | None => inr tt end,
                    tr ++ [EvOpen path]).
Proof. unfold NewFSM, bind, emit, check. by destruct (badger_Open path). Qed.

(** What a failed SetupRaft has done. *)
Definition setup_events (addr : string) : list event :=
  [EvTransport addr; EvNewRaft nodeID addr].

Lemma SetupRaft_runs s addr tr :
  ∃ evs, (SetupRaft s nodeID addr tr = (inr (set_raft s), tr ++ setup_events addr))
    ∨ (∃ e, SetupRaft s nodeID addr tr = (inl e, tr ++ evs) ∧ evs `prefix_of` setup_events addr).
Proof.
  unfold SetupRaft, bind, emit, check.
  destruct (ResolveTCPAddr addr) as [e|].
  { exists []. right. exists e. rewrite app_nil_r. split; [done|apply prefix_nil]. }
  cbn [ret raise]. destruct (NewTCPTransport addr) as [e|].
  { exists [EvTransport addr]. right. exists e. split; [done|]. by eexists [_]. }
  cbn [ret raise]. rewrite <- app_assoc. destruct (NewRaft nodeID addr) as [e|].
  { exists (setup_events addr). right. exists e. done. }
  exists []. by left.
Qed.

Lemma close_clients_runs {E} cs tr :
  close_clients (E := E) cs tr = (inr tt, tr ++ map EvCloseClient cs).
Proof.
  revert tr. induction cs as [|c cs IH]; intros tr; simpl; [by rewrite app_nil_r|].
  unfold bind, emit. by rewrite IH, <- app_assoc.
Qed.

(** The end of a server: every client of its pool closed, and the server if it
    has been set. *)
Definition stop_events (cs : list client) (started : bool) : list event :=
  map EvCloseClient cs ++ (if started then [EvCloseServer] else []).

Lemma Stop_runs {E} order s tr :
  Stop (E := E) order s tr
  = (inr tt, tr ++ stop_events (order (clients (srv_pool s))) (srv_redcon s)).
Proof.
  unfold Stop, bind, stop_events. rewrite close_clients_runs.
  destruct (srv_redcon s); unfold emit; simpl; by rewrite <- ?app_assoc, ?app_nil_r.
Qed.

(** ** The join loop *)

Definition answered (url : string) (i : nat) : Prop := http_Get i url = inr 200.

#[local] Instance answered_dec url i : Decision (answered url i).
Proof.
  unfold answered. destruct (http_Get i url) as [e|st]; [by right|].
  destruct (decide (st = 200)) as [->|Hne]; [by left|right; by intros [= ?]].
Defined.

(** The events of an attempt that fails. *)
Definition failed (url : string) (i : nat) : list event :=
  EvGet url :: match http_Get i url with inl _ => [] | inr _ => [EvCloseBody] end ++ [EvSleep 1].

Fixpoint attempts (url : string) (i k : nat) : list event :=
  match k with
  | O => []
  | S k' => failed url i ++ attempts url (S i) k'
  end.

Lemma join_attempt n i url p :
  ¬ answered url i →
  join_loop (S n) i url p = join_loop n (S i) url (mkProc (p_trace p ++ failed url i) (p_defers p)).
Proof.
  unfold answered, failed. intros Hn. cbn [join_loop]. unfold bind, p_emit. cbn [p_trace p_defers].
  destruct (http_Get i url) as [e|st].
  - cbn [p_trace p_defers]. by rewrite <- app_assoc.
  - destruct (Z.eqb_spec st 200) as [->|]; [done|]. cbn [p_trace p_defers].
    by rewrite <- !app_assoc.
Qed.

Lemma join_loop_fails k n i url p :
  (∀ j, (j < k)%nat → ¬ answered url (i + j)) →
  join_loop (k + n) i url p
  = join_loop n (i + k) url (mkProc (p_trace p ++ attempts url i k) (p_defers p)).
Proof.
  revert i p. induction k as [|k IH]; intros i p Hk; cbn [attempts Nat.add].
  { rewrite app_nil_r, Nat.add_0_r. by destruct p. }
  rewrite join_attempt by (rewrite <- (Nat.add_0_r i); apply Hk; lia). rewrite IH.
  - cbn [p_trace p_defers]. by rewrite <- app_assoc, Nat.add_succ_comm.
  - intros j Hj. rewrite Nat.add_succ_comm. apply Hk. lia.
Qed.

Lemma join_loop_stops n i url p :
  answered url i →
  join_loop (S n) i url p
  = (inr tt, mkProc (p_trace p ++ [EvGet url; EvCloseBody]) (p_defers p)).
Proof.
  unfold answered. intros Ha. cbn [join_loop]. unfold bind, p_emit. cbn [p_trace p_defers].
  rewrite Ha. simpl. by rewrite <- app_assoc.
Qed.

(** The requests of a trace. *)
Definition is_get (e : event) : bool := match e with EvGet _ => true | _ => false end.
Definition gets (tr : list event) : nat := length (List.filter is_get tr).

Lemma gets_app tr tr' : gets (tr ++ tr') = (gets tr + gets tr')%nat.
Proof. unfold gets. by rewrite List.filter_app, length_app. Qed.
Lemma gets_attempts url i k : gets (attempts url i k) = k.
Proof.
  revert i. induction k as [|k IH]; intros i; [done|]. cbn [attempts]. rewrite gets_app, IH.
  unfold failed. by destruct (http_Get i url).
Qed.

Lemma join_requests_once url k p :
  (k < 10)%nat → (∀ i, (i < k)%nat → ¬ answered url i) → answered url k →
  ∃ tr, join_loop 10 0 url p = (inr tt, mkProc (p_trace p ++ tr) (p_defers p)) ∧ gets tr = S k.
Proof.
  intros Hk Hf Ha. exists (attempts url 0 k ++ [EvGet url; EvCloseBody]).
  replace 10%nat with (k + S (9 - k))%nat by lia. rewrite join_loop_fails by done.
  rewrite join_loop_stops by done. cbn [p_trace p_defers]. rewrite <- app_assoc.
  split; [done|]. rewrite gets_app, gets_attempts.
  change (gets [_; _]) with 1%nat. lia.
Qed.

(** A loop that is never answered ends as well, after ten requests. *)
Lemma join_gives_up url p :
  (∀ i, (i < 10)%nat → ¬ answered url i) →
  join_loop 10 0 url p = (inr tt, mkProc (p_trace p ++ attempts url 0 10) (p_defers p)).
Proof. intros Hf. change 10%nat with (10 + 0)%nat at 1. by rewrite join_loop_fails. Qed.

(** ** Joining a shard *)

(** What a client sees of the peer's answer; a handler that panics closes the
    connection. *)
Definition seen (r : string + (Z * string) * option (string * string)) : string + Z :=
  match r with
  | inr ((status, _), _) => inr status
  | inl _ => inl "EOF"
  end.

Lemma join_query_parses r :
  query_safe nodeID = true → query_safe raftPort = true →
  serveJoin r join_query = handleRaftJoin r nodeID raftAddr.
Proof.
  intros Hn Hp. unfold serveJoin, join_query.
  rewrite ParseQuery_two; [done..| |done|done].
  unfold raftAddr. by rewrite query_safe_app, Hp.
Qed.

(** C34: A node joins its shard.  When its identity and its Raft port have no
    byte with a meaning in queries ([query_safe]; see [join_unescaped]), and the
    peer's admin server leads the shard and accepts the node at one of the first
    ten attempts, the node asks exactly until that attempt, with one request
    each, and the leader adds the node's own identity and Raft address as a
    voter, read back from the query of the URL that the node made. *)
Theorem join_adds_voter peer rest (peer_raft : nat → option raft_view) r servers k p :
  joinList = peer :: rest → query_safe nodeID = true → query_safe raftPort = true →
  (∀ i, http_Get i (joinURL peer) = seen (serveJoin (peer_raft i) join_query)) →
  (k < 10)%nat → (∀ i, (i < k)%nat → ¬ answered (joinURL peer) i) →
  peer_raft k = Some r → is_leader r = true → configuration r = inr servers →
  ¬ member servers nodeID raftAddr → AddVoter r nodeID raftAddr = None →
  serveJoin (peer_raft k) join_query = inr ((200, ""), Some (nodeID, raftAddr))
  ∧ ∃ tr, form_shard p = (inr tt, mkProc (p_trace p ++ tr) (p_defers p)) ∧ gets tr = S k.
Proof.
  intros Hj Hn Hp Hnet Hk Hf Hr Hl Hc Hm Hv.
  assert (serveJoin (peer_raft k) join_query = inr ((200, ""), Some (nodeID, raftAddr))) as Hserve.
  { rewrite join_query_parses, Hr by done. unfold handleRaftJoin. rewrite Hl, Hc, Hv. simpl.
    destruct (existsb _ servers) eqn:He; [|done]. by apply member_spec in He. }
  split; [done|]. unfold form_shard. rewrite Hj.
  apply join_requests_once; [done..|]. unfold answered. by rewrite Hnet, Hserve.
Qed.

(** ** Runs of the program *)

(** The requests of a node that joins: attempts that fail, up to the first that
    is answered, or ten of them. *)
Definition joins (url : string) (tr : list event) : Prop :=
  (∃ k, (k < 10)%nat ∧ answered url k ∧ (∀ i, (i < k)%nat → ¬ answered url i)
     ∧ tr = attempts url 0 k ++ [EvGet url; EvCloseBody])
  ∨ ((∀ i, (i < 10)%nat → ¬ answered url i) ∧ tr = attempts url 0 10).

(** How a node gets its shard: it bootstraps one and asks nobody, or it asks its
    first peer and bootstraps nothing. *)
Definition forms (tr : list event) : Prop :=
  match joinList with
  | [] => tr = [EvBootstrap [(nodeID, raftAddr)]]
  | peer :: _ => joins (joinURL peer) tr
  end.

(** The first attempt that is answered. *)
Lemma first_answered url n :
  (∃ k, (k < n)%nat ∧ answered url k ∧ ∀ i, (i < k)%nat → ¬ answered url i)
  ∨ ∀ i, (i < n)%nat → ¬ answered url i.
Proof.
  induction n as [|n [(k & Hk & Ha & Hf)|IH]]; [right; lia|left; exists k; split; [lia|done]|].
  destruct (decide (answered url n)) as [Ha|Hn]; [left; by exists n; split; [lia|]|].
  right. intros i Hi. destruct (decide (i = n)) as [->|]; [done|]. apply IH. lia.
Qed.

Lemma join_loop_runs url p :
  ∃ tr, join_loop 10 0 url p = (inr tt, mkProc (p_trace p ++ tr) (p_defers p)) ∧ joins url tr.
Proof.
  destruct (first_answered url 10) as [(k & Hk & Ha & Hf)|Hn].
  - exists (attempts url 0 k ++ [EvGet url; EvCloseBody]). split; [|by left; exists k].
    replace 10%nat with (k + S (9 - k))%nat by lia.
    rewrite join_loop_fails, join_loop_stops by done. cbn [p_trace p_defers].
    by rewrite <- app_assoc.
  - rewrite join_gives_up by done. exists (attempts url 0 10). split; [done|by right].
Qed.

Lemma form_shard_runs p :
  ∃ tr, form_shard p = (inr tt, mkProc (p_trace p ++ tr) (p_defers p)) ∧ forms tr.
Proof.
  unfold form_shard, forms. destruct joinList as [|peer rest]; [by eexists|].
  destruct (join_loop_runs (joinURL peer) p) as (tr & -> & Hf). by exists tr.
Qed.

Definition started (w : wake) : bool := match w with Signalled b => b | StartFailed => true end.
Definition listen_events (w : wake) : list event :=
  if started w then [EvListen listen_port] else [].

Lemma at_stop_runs srv w q p :
  srv_addr srv = listen_port → srv_redcon srv = false →
  ∃ srv', at_stop srv w q p
      = (inr srv', mkProc (p_trace p ++ listen_events w) (p_defers p))
    ∧ srv_pool srv' = q ∧ srv_redcon srv' = started w.
Proof.
  intros Ha Hr. destruct w as [|[]]; cbn [at_stop]; unfold bind, or_exit, Start, bind, emit, listen_events;
    cbn [p_trace p_defers srv_addr started ret]; rewrite ?Ha.
  1, 2: by eexists.
  rewrite app_nil_r. destruct p. by eexists.
Qed.

(** Events before the node serves. *)
Definition startup (e : event) : bool :=
  match e with
  | EvGossip _ | EvOpen _ | EvAdmin _ | EvTransport _ | EvNewRaft _ _ => true
  | _ => false
  end.

(** A start-up that fails has not gone past [SetupRaft]. *)
Definition ends_early (r : (halt + unit) * proc) : Prop :=
  r.1 = inl (Exited 1) ∧ Forall (λ e, startup e = true) (p_trace r.2).

Lemma or_exit_inr {E A} (f : M (list event) E A) p a tr :
  f (p_trace p) = (inr a, tr) → or_exit f p = (inr a, mkProc tr (p_defers p)).
Proof. unfold or_exit. by intros ->. Qed.
Lemma or_exit_inl {E A} (f : M (list event) E A) p e tr :
  f (p_trace p) = (inl e, tr) → or_exit f p = (inl (Exited 1), mkProc tr (p_defers p)).
Proof. unfold or_exit. by intros ->. Qed.

Lemma serve_runs w q order p :
  Forall (λ e, startup e = true) (p_trace p) →
  ends_early (serve w q order p)
  ∨ ∃ rPort tr, Atoi raftPort = (rPort, None)
    ∧ forms tr
    ∧ serve w q order p = (inr tt, mkProc
        (p_trace p ++ [EvAdmin (adminPort rPort); EvTransport raftAddr; EvNewRaft nodeID raftAddr; EvSleep 2]
         ++ tr ++ listen_events w ++ stop_events (order (clients q)) (started w)) (p_defers p)).
Proof.
  intros Hst. destruct (serve w q order p) as [r s] eqn:Hrun. unfold serve in Hrun.
  destruct (Atoi raftPort) as [rPort [e|]].
  { left. by injection Hrun as <- <-. }
  set (srv := NewServerWithOptions _ _ _ _) in Hrun.
  erewrite bind_inr in Hrun by done. erewrite bind_inr in Hrun by (by apply or_exit_inr).
  destruct (SetupRaft_runs srv raftAddr (p_trace p ++ [EvAdmin (adminPort rPort)]))
    as (evs & [Hs|(e & Hs & Hpre)]).
  2: { erewrite bind_inl in Hrun by (by eapply or_exit_inl). injection Hrun as <- <-.
    left. split; [done|]. cbn [snd p_trace]. rewrite !Forall_app.
    split; [split; [done|by repeat constructor]|].
    assert (Forall (λ e, startup e = true) (setup_events raftAddr)) as Hf by (by repeat constructor).
    destruct Hpre as [rest Hpre]. rewrite Hpre in Hf. by apply Forall_app in Hf as [? _]. }
  erewrite bind_inr in Hrun by (by apply or_exit_inr). erewrite bind_inr in Hrun by done.
  cbn [p_trace p_defers] in Hrun.
  match type of Hrun with context [bind form_shard _ ?p0] =>
    destruct (form_shard_runs p0) as (tr & Hform & Hf) end.
  erewrite bind_inr in Hrun by done. cbn [p_trace p_defers] in Hrun.
  match type of Hrun with context [bind (at_stop ?s0 w q) _ ?p0] =>
    destruct (at_stop_runs s0 w q p0) as (srv' & Hstop & Hq & Hr); [done|done|] end.
  erewrite bind_inr in Hrun by done. unfold or_exit in Hrun. rewrite Stop_runs, Hq, Hr in Hrun.
  injection Hrun as <- <-. right. exists rPort, tr. split; [done|]. split; [done|].
  cbn [p_trace p_defers]. unfold setup_events. by rewrite <- !app_assoc.
Qed.

End main_props.

(** ** Routing *)

Section routing.
Context `{B : BadgerOps} `{C : Codec} {N : Node} {H : Host}.

(** C37: In the program as main wires it, no command is proxied: the slot map is
    empty and nothing fills it, so that every command with a key (HELLO apart,
    which is answered at once) is handed to this node's own handlers, whatever
    the slot of the key. *)
Theorem main_never_proxies ServeRESP conn name key args :
  node_router = main_router → ToUpper name ≠ "HELLO" →
  handleCmd ServeRESP conn name (key :: args) = ServeRESP mux_handlers conn name (key :: args).
Proof.
  intros Hr Hh. unfold handleCmd. apply String.eqb_neq in Hh. rewrite Hh.
  case_match; [done|]. rewrite Hr. unfold LocateKey, main_router, SlotMap.GetOwner. simpl.
  rewrite lookup_empty. simpl. by rewrite orb_true_r.
Qed.
End routing.

(** ** The theorems at concrete inputs *)

Section witnesses.
#[local] Existing Instances B0 L0 C0 CL0.

#[local] Instance lists0 : Memberlist := {|
  mlist := string;
  member_node := string;
  ml_Create c := if BindPort c =? 1 then inl "permission denied" else inr (Name c);
  ml_Join l addrs := match addrs with ["10.0.0.9:7946"] => Some "timeout" | _ => None end;
  ml_Shutdown l := None;
  ml_LocalNode l := ("127.0.0.1", 7946);
  ml_Members l := [l];
|}.

Definition config0 : config := mkConfig "host" None "127.0.0.1" 7946.

Lemma NewGossip_releases_witness :
  last (NewGossipWithOptions config0 "0.0.0.0:7946" "node-2" ["10.0.0.9:7946"] [] []).2
  = Some (CShutdown "node-2").
Proof.
  pose (r := NewGossipWithOptions config0 "0.0.0.0:7946" "node-2" ["10.0.0.9:7946"] [] []).
  assert (r = (inl (EList "timeout"), r.2)) as Hr by (apply pair_fst; vm_compute; reflexivity).
  apply (NewGossip_releases config0 "0.0.0.0:7946" "node-2" ["10.0.0.9:7946"] [] _ _ Hr
    (mkConfig "node-2" (Some Discard) "0.0.0.0" 7946)).
  - vm_compute. by left.
  - reflexivity.
Defined.

(** A peer that has no Raft yet, then follows, then leads. *)
Definition peer0 (i : nat) : option raft_view :=
  match i with
  | O => None
  | 1%nat => Some (mkRaftView false (inr []) (λ _ _, None))
  | _ => Some (mkRaftView true (inr [("node-1", "127.0.0.1:8300")]) (λ _ _, None))
  end.

Definition env1 (key : string) : option string :=
  if String.eqb key "BADIS_NODE_ID" then Some "node-2"
  else if String.eqb key "BADIS_RAFT_PORT" then Some "8301"
  else if String.eqb key "BADIS_JOIN" then Some "10.0.0.1:7946,10.0.0.3:7946"
  else None.

Definition host1 : Host := {|
  host_memberlist := lists0;
  LookupEnv := env1;
  DefaultLocalConfig := config0;
  badger_Open _ := None;
  ResolveTCPAddr _ := None;
  NewTCPTransport _ := None;
  NewRaft _ _ := None;
  http_Get i _ := seen (serveJoin (peer0 i) "id=node-2&addr=127.0.0.1:8301");
|}.
#[local] Existing Instance host1.

(** The program joins, serves, and ends on a signal. *)
Example main_ex :
  let url := "http://10.0.0.1:8400/join?id=node-2&addr=127.0.0.1:8301" in
  main (H := host1) (Signalled true) (mkPool {["10.0.0.1:6379" := mkClient "10.0.0.1:6379" 0]} 1)
    (λ cs, (map_to_list cs).*2)
  = (None,
     [EvGossip (CCreate (mkConfig "node-2" (Some Discard) "0.0.0.0" 7946));
      EvGossip (CJoin "node-2" ["10.0.0.1:7946"; "10.0.0.3:7946"]);
      EvOpen "badis-data"; EvAdmin ":8401"; EvTransport "127.0.0.1:8301";
      EvNewRaft "node-2" "127.0.0.1:8301"; EvSleep 2;
      EvGet url; EvSleep 1; EvGet url; EvCloseBody; EvSleep 1; EvGet url; EvCloseBody;
      EvListen ":6379"; EvCloseClient (mkClient "10.0.0.1:6379" 0); EvCloseServer;
      EvCloseDB; EvGossip (CShutdown "node-2")]).
Proof. vm_compute. reflexivity. Qed.

Definition host_with (env : string → option string) (raft_err : option string) : Host := {|
  host_memberlist := lists0;
  LookupEnv := env;
  DefaultLocalConfig := config0;
  badger_Open _ := None;
  ResolveTCPAddr _ := None;
  NewTCPTransport _ := None;
  NewRaft _ _ := raft_err;
  http_Get _ _ := inl "connection refused";
|}.

(** The identity of a node goes into the URL as it is: a leader reads another
    one when it has a byte with a meaning in queries. *)
Theorem join_unescaped :
  let H := host_with (λ key, if String.eqb key "BADIS_NODE_ID" then Some "rack&1"
                             else if String.eqb key "BADIS_RAFT_PORT" then Some "8301" else None) None in
  serveJoin (peer0 2) (join_query (H := H)) = inr ((200, ""), Some ("rack", "127.0.0.1:8301")).
Proof. vm_compute. reflexivity. Qed.

(** A node that no attempt could join serves all the same. *)
Theorem unjoined_serves :
  let H := host_with (λ key, if String.eqb key "BADIS_JOIN" then Some "10.0.0.1:7946" else None) None in
  let r := main (H := H) (Signalled true) (mkPool ∅ 0) (λ cs, []) in
  r.1 = None ∧ gets (H := H) r.2 = 10%nat ∧ In (EvListen ":6379") r.2.
Proof. vm_compute. split; [done|]. split; [done|]. repeat first [left; reflexivity | right]. Qed.

(** When Raft cannot be set up, the program exits and the store it has opened is
    not closed: [os.Exit] does not run deferred calls. *)
Theorem exit_leaves_store_open :
  let H := host_with (λ key, None) (Some "cannot restore") in
  let r := main (H := H) (Signalled true) (mkPool ∅ 0) (λ cs, []) in
  r.1 = Some (Exited 1) ∧ In (EvOpen "badis-data") r.2 ∧ ~ In EvCloseDB r.2.
Proof. vm_compute. intuition discriminate. Qed.

Lemma join_adds_voter_witness :
  serveJoin (peer0 2) (join_query (H := host1))
  = inr ((200, ""), Some ("node-2", "127.0.0.1:8301"))
  ∧ ∃ tr, form_shard (H := host1) (mkProc [] []) = (inr tt, mkProc tr []) ∧ gets tr = 3%nat.
Proof.
  apply (join_adds_voter (H := host1) "10.0.0.1:7946" ["10.0.0.3:7946"] peer0
    (mkRaftView true (inr [("node-1", "127.0.0.1:8300")]) (λ _ _, None))
    [("node-1", "127.0.0.1:8300")] 2 (mkProc [] [])); try done.
  - lia.
  - intros [|[|i]] Hi; [done|done|lia].
  - intros (srv & Hin & Hs). apply list_elem_of_singleton in Hin as ->. simpl in Hs.
    destruct Hs as [Hs|Hs]; discriminate Hs.
Defined.

#[local] Instance node1 : Node := {|
  handleLua := noLua;
  raft := None;
  remoteAddr _ := "10.0.0.9:5000";
  client_Do _ _ _ := DoNil;
  node_addr := ":6379";
  node_router := main_router (H := host1);
|}.

Definition serve1 (hs : gmap string (nat → string → list string → prog returns unit))
    (conn : nat) (name : string) (args : list string) : prog returns unit :=
  match hs !! ToLower name with Some h => h conn name args | None => wrong_args end.

Lemma main_never_proxies_witness :
  handleCmd serve1 1 "GET" ["k"] = serve1 mux_handlers 1 "GET" ["k"].
Proof. by apply (main_never_proxies (H := host1)). Defined.
End witnesses.
