(* ===== verification/Chaos.v ===== *)
(** * The cluster of the chaos tests (test/chaos/cluster.go)

    The tests run nodes as processes of the operating system: NewCluster chooses
    their names, ports and directories, Start starts each with its settings in
    the environment, and Stop kills them.  The theorems say that main, run in
    such an environment, has the settings of its node, that nodes do not get in
    each other's way, and that every process started is killed. *)

From S2P Require Import Prelude GoStd GoNet Gossip Lifecycle Main MainProps.
From Stdlib Require Import Lia ZArith Ascii.
#[local] Open Scope Z_scope.

Module Chaos.

(** ** [filepath.Join] *)

(** One element of a path, applied to the elements so far, the last one first. *)
Definition clean_step (rooted : bool) (st : list string) (a : string) : list string :=
  if str_in a [""; "."] then st
  else if String.eqb a ".." then
    match st with
    | [] => if rooted then [] else [".."]
    | b :: st' => if String.eqb b ".." then ".." :: st else st'
    end
  else a :: st.

Definition Clean (path : string) : string :=
  let rooted := has_prefix "/" path in
  let st := foldl (clean_step rooted) [] (Split "/" path) in
  let rest := String.concat "/" (rev st) in
  if rooted then "/" +:+ rest else if String.eqb rest "" then "." else rest.

Fixpoint Join (elem : list string) : string :=
  match elem with
  | [] => ""
  | a :: elem' => if String.eqb a "" then Join elem' else Clean (String.concat "/" elem)
  end.

Example Join_ex :
  map (λ base, Join [base; "data-1"]) [""; "/"; "."; "/tmp/x"; "tmp//x/"; "a/../../b"; "/../c/./"]
  = ["data-1"; "/data-1"; "data-1"; "/tmp/x/data-1"; "tmp/x/data-1"; "../b/data-1"; "/c/data-1"].
Proof. vm_compute. reflexivity. Qed.

(** ** Processes *)

(** [exec.Cmd] *)
Record Cmd := mkCmd { Cmd_Args : list string; Cmd_Env : list string; Process : option Z }.

Record Node := mkNode {
  ID : string;
  Port : Z;
  GossipPort : Z;
  RaftPort : Z;
  Dir : string;
  JoinAddr : string;
  cmd : option Cmd;
}.
Definition set_cmd (n : Node) (c : Cmd) : Node :=
  mkNode (ID n) (Port n) (GossipPort n) (RaftPort n) (Dir n) (JoinAddr n) (Some c).

(** What the tests ask of the operating system, and what Start prints. *)
Inductive os_event :=
  | OsStart (args env : list string) (pid : Z)
  | OsPrint (id : string) (port pid : Z) (args : list string)
  | OsKill (pid : Z)
  | OsWait (pid : Z)
  | OsSleep (seconds : Z).

(** The environment of the tests, and whether a process can be started at a
    point of the run: its number, or an error. *)
Class OS := {
  Environ : list string;
  fork : list os_event → list string → list string → string + Z;
}.

Section chaos.
Context {O : OS}.
Abbreviation OM := (M (list os_event) string).

Definition os (e : os_event) : OM unit := λ tr, (inr tt, tr ++ [e]).

(** [exec.Cmd.Start], with its error and the command after it: a command starts
    at most once. *)
Definition Cmd_Start (c : Cmd) : OM (option string * Cmd) := λ tr,
  match Process c with
  | Some _ => (inr (Some "exec: already started", c), tr)
  | None =>
      match fork tr (Cmd_Args c) (Cmd_Env c) with
      | inl e => (inr (Some e, c), tr)
      | inr pid => (inr (None, mkCmd (Cmd_Args c) (Cmd_Env c) (Some pid)),
                    tr ++ [OsStart (Cmd_Args c) (Cmd_Env c) pid])
      end
  end.

Definition command_go : Cmd := mkCmd ["go"; "run"; "../../main.go"] [] None.

Definition node_env (n : Node) : list string :=
  Environ ++
  ["BADIS_NODE_ID=" +:+ ID n;
   "BADIS_PORT=:" +:+ FormatInt (Port n);
   "BADIS_GOSSIP_PORT=" +:+ FormatInt (GossipPort n);
   "BADIS_RAFT_PORT=" +:+ FormatInt (RaftPort n);
   "BADIS_SHARD_ID=shard-1";
   "BADIS_DATA_DIR=" +:+ Dir n;
   "BADIS_LEADER_ADMIN_PORT=31400"]
  ++ if String.eqb (JoinAddr n) "" then [] else ["BADIS_JOIN=" +:+ JoinAddr n].

(** The error, and the node after it. *)
Definition Node_Start (n : Node) : OM (option string * Node) :=
  let c := default command_go (cmd n) in
  r <- Cmd_Start (mkCmd (Cmd_Args c) (node_env n) (Process c));;
  let '(err, c) := r in
  let n := set_cmd n c in
  match err, Process c with
  | None, Some pid => os (OsPrint (ID n) (Port n) pid (Cmd_Args c));;; ret (None, n)
  | _, _ => ret (err, n)
  end.

(** The errors of [Kill] and [Wait] are dropped. *)
Definition Node_Stop (n : Node) : OM unit :=
  match cmd n with
  | Some c =>
      match Process c with
      | Some pid => os (OsKill pid);;; os (OsWait pid)
      | None => ret tt
      end
  | None => ret tt
  end.

(** ** Clusters *)

Definition new_node (baseDir : string) (i : nat) : Node :=
  let i := Z.of_nat i in
  let joinAddr := if 0 <? i then "127.0.0.1:30946" else "" in
  mkNode ("node-" +:+ FormatInt i) (wrap64 (29379 + i)) (wrap64 (30946 + i)) (wrap64 (31300 + i))
    (Join [baseDir; "data-" +:+ FormatInt i]) joinAddr None.
Definition NewCluster (size : Z) (baseDir : string) : list Node :=
  map (new_node baseDir) (seq 0 (Z.to_nat size)).

Fixpoint Cluster_Start (ns : list Node) : OM (option string * list Node) :=
  match ns with
  | [] => ret (None, [])
  | n :: ns' =>
      r <- Node_Start n;;
      let '(err, n) := r in
      match err with
      | Some e => ret (Some e, n :: ns')
      | None =>
          os (OsSleep 1);;;
          r <- Cluster_Start ns';;
          let '(err, ns') := r in
          ret (err, n :: ns')
      end
  end.

Fixpoint Cluster_Stop (ns : list Node) : OM unit :=
  match ns with
  | [] => ret tt
  | n :: ns' => Node_Stop n;;; Cluster_Stop ns'
  end.

(** ** The settings of a node *)

(** [os.LookupEnv] of a process started with an environment: the last entry for
    a key counts. *)
Definition env_setting (key : string) (r : option string) (kv : string) : option string :=
  match cut "=" kv with
  | (k, Some v) => if String.eqb k key then Some v else r
  | (_, None) => r
  end.
Definition env_lookup (env : list string) (key : string) : option string :=
  foldl (env_setting key) None env.

(** The main that runs in such a process. *)
Definition runs_as (H : Host) (n : Node) : Prop := ∀ key, LookupEnv key = env_lookup (node_env n) key.

Lemma has_prefix_cons c s : has_prefix (String c "") (String c s) = true.
Proof. unfold has_prefix. cbn [String.prefix]. destruct (ascii_dec c c); [|done]. by destruct s. Qed.

Lemma node_env_settings n :
  let get := env_lookup (node_env n) in
  get "BADIS_NODE_ID" = Some (ID n)
  ∧ get "BADIS_PORT" = Some (String ":" (FormatInt (Port n)))
  ∧ get "BADIS_GOSSIP_PORT" = Some (FormatInt (GossipPort n))
  ∧ get "BADIS_RAFT_PORT" = Some (FormatInt (RaftPort n))
  ∧ get "BADIS_SHARD_ID" = Some "shard-1"
  ∧ get "BADIS_DATA_DIR" = Some (Dir n)
  ∧ get "BADIS_LEADER_ADMIN_PORT" = Some "31400"
  ∧ get "BADIS_JOIN" =
      if String.eqb (JoinAddr n) "" then env_lookup Environ "BADIS_JOIN" else Some (JoinAddr n).
Proof.
  cbv zeta. unfold env_lookup, node_env. rewrite !foldl_app.
  destruct (String.eqb (JoinAddr n) ""); split_and!; reflexivity.
Qed.

Lemma NewCluster_lookup size baseDir i n :
  NewCluster size baseDir !! i = Some n → n = new_node baseDir i ∧ Z.of_nat i < size.
Proof.
  unfold NewCluster. rewrite list_lookup_fmap. intros (j & Hj & ->)%fmap_Some.
  apply lookup_seq in Hj as [-> Hj]. split; [done|lia].
Qed.

(** The peers that a node of which Start sets none inherits. *)
Definition inherited : list string :=
  let join := default "" (env_lookup Environ "BADIS_JOIN") in
  if String.eqb join "" then [] else Split "," join.

(** C35: The nodes of a cluster run main with their own settings, whatever the
    environment of the tests has for these.  The first one has the peers that
    BADIS_JOIN names in that environment, so that it forms a shard exactly when
    BADIS_JOIN is empty or not there; the others gossip with the first one and
    send their requests to join to its admin server. *)
Theorem chaos_settings size baseDir i n {H : Host} :
  NewCluster size baseDir !! i = Some n → runs_as H n →
  let first := new_node baseDir 0 in
  nodeID = ID n ∧ listen_port = ":" +:+ FormatInt (Port n) ∧ gossipPort = FormatInt (GossipPort n)
  ∧ raftAddr = "127.0.0.1:" +:+ FormatInt (RaftPort n) ∧ Atoi raftPort = (RaftPort n, None)
  ∧ shardID = "shard-1" ∧ dbPath = Dir n
  ∧ (i = 0%nat → joinList = inherited)
  ∧ (i ≠ 0%nat → joinList = ["127.0.0.1:" +:+ FormatInt (GossipPort first)]
       ∧ ∀ peer, head joinList = Some peer →
           joinURL peer = "http://127.0.0.1" +:+ adminPort (RaftPort first) +:+ "/join?" +:+ join_query).
Proof.
  intros Hn Hrun first. destruct (NewCluster_lookup _ _ _ _ Hn) as [-> Hi].
  destruct (node_env_settings (new_node baseDir i)) as (H1 & H2 & H3 & H4 & H5 & H6 & H7 & H8).
  assert (joinList = if Nat.eqb i 0 then inherited else ["127.0.0.1:30946"]) as Hjoin.
  { unfold joinList, inherited, getEnvOrDefault. rewrite !Hrun, !H8.
    destruct i as [|i]; [|reflexivity]. cbn. by destruct (env_lookup Environ "BADIS_JOIN"). }
  unfold nodeID, listen_port, gossipPort, raftAddr, raftPort, shardID, dbPath, getEnvOrDefault.
  rewrite !Hrun, H1, H2, H3, H4, H5, H6. rewrite Hjoin.
  split_and!; [done| |done|done| |done|done|by intros ->|].
  - by rewrite has_prefix_cons.
  - apply ParseInt_FormatInt, wrap64_range.
  - destruct i as [|i]; [done|]. intros _. split; [done|]. intros peer [= <-].
    unfold joinURL, getEnvOrDefault. rewrite Hrun, H7. reflexivity.
Qed.

(** ** Nodes apart from each other *)

(** The ports on which main listens. *)
Definition ports (n : Node) : list Z := [Port n; GossipPort n; RaftPort n; RaftPort n + 100].

Lemma append_inj (p x y : string) : p +:+ x = p +:+ y → x = y.
Proof. induction p as [|c p IH]; [done|]. rewrite !app_cons. intros [= H]. auto. Qed.

Lemma FormatInt_inj x y : in_int64 x → in_int64 y → FormatInt x = FormatInt y → x = y.
Proof.
  intros Hx Hy H. apply ParseInt_FormatInt in Hx, Hy. rewrite H, Hy in Hx. by injection Hx.
Qed.

Lemma format_digits_byte c fuel n acc :
  (∀ d, 0 <= d <= 9 → (digit_char d =? c)%char = false) → has_byte c acc = false →
  has_byte c (format_digits fuel n acc) = false.
Proof.
  intros Hc. revert n acc. induction fuel as [|fuel IH]; intros n acc Hacc; [done|]. cbn [format_digits].
  assert (has_byte c (String (digit_char (n mod 10)) acc) = false) as H.
  { cbn [has_byte]. rewrite Hacc, Hc; [done|]. pose proof (Z.mod_pos_bound n 10). lia. }
  destruct (n / 10 =? 0); [done|]. by apply IH.
Qed.

Lemma digit_not_slash d : 0 <= d <= 9 → (digit_char d =? "/")%char = false.
Proof.
  intros H. assert (d = 0 ∨ d = 1 ∨ d = 2 ∨ d = 3 ∨ d = 4 ∨ d = 5 ∨ d = 6 ∨ d = 7 ∨ d = 8 ∨ d = 9)
    as Hd by lia.
  destruct_or! Hd; subst; done.
Qed.

Lemma FormatInt_no_slash v : has_byte "/" (FormatInt v) = false.
Proof.
  unfold FormatInt. destruct (v <? 0); cbn [has_byte];
    by rewrite format_digits_byte by (done || apply digit_not_slash).
Qed.

Lemma Split_last c a x :
  has_byte c x = false → Split c (a +:+ String c x) = Split c a ++ [x].
Proof.
  intros Hx. assert (Split c x = [x]) as Hone.
  { induction x as [|d x IH]; [done|]. cbn [has_byte] in Hx. apply orb_false_iff in Hx as [Hd Hx].
    cbn [Split]. by rewrite Hd, IH. }
  induction a as [|d a IH].
  { change ("" +:+ String c x) with (String c x). cbn [Split]. by rewrite Ascii.eqb_refl, Hone. }
  rewrite app_cons. cbn [Split]. rewrite IH. destruct (d =? c)%char; [done|].
  pose proof (Split_nonempty c a). by destruct (Split c a).
Qed.

Lemma str_app_assoc (a b c : string) : (a +:+ b) +:+ c = a +:+ (b +:+ c).
Proof. induction a as [|d a IH]; [done|]. by rewrite !app_cons, IH. Qed.

Lemma concat_last sep l x :
  String.concat sep (l ++ [x]) = String.concat sep (l ++ [""]) +:+ x.
Proof.
  induction l as [|a l IH]; [done|]. destruct l as [|b l].
  - simpl. rewrite app_empty. by rewrite str_app_assoc.
  - change (String.concat sep ((a :: b :: l) ++ [x]))
      with (a +:+ (sep +:+ String.concat sep ((b :: l) ++ [x]))).
    change (String.concat sep ((a :: b :: l) ++ [""]))
      with (a +:+ (sep +:+ String.concat sep ((b :: l) ++ [""]))).
    by rewrite IH, !str_app_assoc.
Qed.

(** A path that ends in an ordinary element. *)
Definition ordinary (x : string) : Prop :=
  has_byte "/" x = false ∧ str_in x [""; "."; ".."] = false.

Lemma clean_element rooted st x : ordinary x → clean_step rooted st x = x :: st.
Proof.
  intros [_ Hs]. rewrite !str_in_cons, !orb_false_iff in Hs. destruct Hs as (He & Hd & Hdd & _).
  unfold clean_step. by rewrite !str_in_cons, He, Hd, Hdd.
Qed.

Lemma Clean_element path elems rooted x :
  ordinary x → has_prefix "/" path = rooted → Split "/" path = elems ++ [x] →
  Clean path = (if rooted then "/" else "")
    +:+ String.concat "/" (rev (foldl (clean_step rooted) [] elems) ++ [""]) +:+ x.
Proof.
  intros Hx Hr Hs. unfold Clean. rewrite Hr, Hs, foldl_snoc, clean_element by done.
  cbn [rev]. rewrite concat_last. destruct rooted; [done|].
  destruct (String.eqb_spec (String.concat "/" (rev (foldl (clean_step false) [] elems) ++ [""]) +:+ x) "")
    as [H|]; [|done].
  destruct Hx as [_ Hx]. by destruct (String.concat _ _), x.
Qed.

(** The path of an element in a directory is what the directory gives, then the
    element. *)
Lemma Join_element base : ∃ pre, ∀ x, ordinary x → Join [base; x] = pre +:+ x.
Proof.
  assert (∀ x, ordinary x → String.eqb x "" = false) as Hne.
  { intros x [_ Hs]. rewrite str_in_cons, orb_false_iff in Hs. by destruct Hs. }
  destruct base as [|c base].
  - exists "". intros x Hx. cbn [Join String.eqb]. rewrite Hne by done.
    rewrite (Clean_element _ [] false x); [done|done| |].
    + destruct (has_prefix "/" x) eqn:Hp; [|done]. apply has_prefix_char in Hp as [s ->]. by destruct Hx.
    + apply (Split_join "/" [x]); [done|]. by constructor; [apply Hx|].
  - exists ((if has_prefix "/" (String c base) then "/" else "")
      +:+ String.concat "/" (rev (foldl (clean_step (has_prefix "/" (String c base))) []
            (Split "/" (String c base))) ++ [""])).
    intros x Hx. cbn [Join String.eqb].
    rewrite (Clean_element _ (Split "/" (String c base)) (has_prefix "/" (String c base)) x);
      [by rewrite str_app_assoc|done| |].
    + unfold has_prefix. cbn [String.concat]. rewrite app_cons. cbn [String.prefix].
      destruct (ascii_dec "/" c); [|done]. by destruct base.
    + by apply Split_last; destruct Hx.
Qed.

(** Nodes do not get in each other's way: they have names, directories and ports
    of their own, the port of the admin server included, up to 100 nodes. *)
Theorem chaos_apart size baseDir i j n m :
  size <= 100 → NewCluster size baseDir !! i = Some n → NewCluster size baseDir !! j = Some m →
  NoDup (ports n) ∧ Forall (λ p, 0 < p <= 65535) (ports n)
  ∧ (ID n = ID m ∨ Dir n = Dir m ∨ (∃ p, p ∈ ports n ∧ p ∈ ports m) → i = j).
Proof.
  intros Hsz [-> Hi]%NewCluster_lookup [-> Hj]%NewCluster_lookup.
  assert (∀ i, Z.of_nat i < size → in_int64 (Z.of_nat i)) as Hint.
  { intros k Hk. unfold in_int64, min_int64, max_int64. lia. }
  assert (FormatInt (Z.of_nat i) = FormatInt (Z.of_nat j) → i = j) as Hinj.
  { intros H%FormatInt_inj; [lia|auto..]. }
  assert (∀ i, Z.of_nat i < size → ports (new_node baseDir i) =
    [29379 + Z.of_nat i; 30946 + Z.of_nat i; 31300 + Z.of_nat i; 31300 + Z.of_nat i + 100]) as Hports.
  { intros k Hk. unfold ports. cbn [Port GossipPort RaftPort new_node].
    by rewrite !wrap64_id by (unfold in_int64, min_int64, max_int64; lia). }
  rewrite !Hports by done. split; [|split].
  - repeat (apply NoDup_cons; split; [rewrite ?elem_of_cons, elem_of_nil; lia|]). apply NoDup_nil_2.
  - repeat constructor; lia.
  - intros [H|[H|(p & Hn & Hm)]].
    + by apply Hinj, (append_inj "node-").
    + destruct (Join_element baseDir) as [pre Hpre]. cbn [Dir new_node] in H.
      assert (∀ v, ordinary ("data-" +:+ FormatInt v)) as Hord.
      { intros v. split; [|done]. rewrite has_byte_app. apply FormatInt_no_slash. }
      rewrite !Hpre in H by done. by apply Hinj, (append_inj "data-"), (append_inj pre).
    + rewrite !elem_of_cons, elem_of_nil in Hn, Hm. lia.
Qed.

(** ** Starting and killing *)

Definition process (n : Node) : option Z := c ← cmd n; Process c.
Definition started (e : os_event) : option Z := match e with OsStart _ _ pid => Some pid | _ => None end.
Definition ended (pid : Z) : list os_event := [OsKill pid; OsWait pid].

Lemma Node_Start_runs n tr :
  process n = None →
  (∃ e n', Node_Start n tr = (inr (Some e, n'), tr) ∧ process n' = None)
  ∨ ∃ pid n' evs, Node_Start n tr = (inr (None, n'), tr ++ evs)
      ∧ process n' = Some pid ∧ omap started evs = [pid].
Proof.
  intros Hp. unfold Node_Start, Cmd_Start, bind. cbn [Process Cmd_Args Cmd_Env].
  assert (Process (default command_go (cmd n)) = None) as ->.
  { unfold process in Hp. by destruct (cmd n). }
  destruct (fork _ _ _) as [e|pid]; [left; by eexists _, _|right]. unfold os. cbn [ret Process].
  rewrite <- app_assoc. by eexists pid, _, _.
Qed.

Lemma Node_Stop_runs n tr :
  Node_Stop n tr = (inr tt, tr ++ match process n with Some pid => ended pid | None => [] end).
Proof.
  unfold Node_Stop, process. destruct (cmd n) as [c|]; simpl; [|by rewrite app_nil_r].
  destruct (Process c); [|by rewrite app_nil_r]. unfold bind, os. by rewrite <- app_assoc.
Qed.

Lemma Cluster_Stop_runs ns tr :
  Cluster_Stop ns tr = (inr tt, tr ++ (omap process ns ≫= ended)).
Proof.
  revert tr. induction ns as [|n ns IH]; intros tr; simpl; [by rewrite app_nil_r|].
  unfold bind. rewrite Node_Stop_runs, IH, <- app_assoc. by destruct (process n).
Qed.

(** Whether the cluster starts or fails half-way, Stop kills and waits for the
    processes that were started, each once and in the order of their start. *)
Theorem chaos_start_stop ns tr :
  Forall (λ n, process n = None) ns →
  ∃ err ns' evs, Cluster_Start ns tr = (inr (err, ns'), tr ++ evs)
    ∧ (err = None → length (omap started evs) = length ns)
    ∧ ∀ tr', Cluster_Stop ns' tr' = (inr tt, tr' ++ (omap started evs ≫= ended)).
Proof.
  intros H. assert (∃ err ns' evs, Cluster_Start ns tr = (inr (err, ns'), tr ++ evs)
    ∧ (err = None → length (omap started evs) = length ns) ∧ omap process ns' = omap started evs)
    as (err & ns' & evs & Hr & Hl & He).
  2: { exists err, ns', evs. split; [done|]. split; [done|]. intros tr'. by rewrite Cluster_Stop_runs, He. }
  revert tr. induction H as [|n ns Hn Hns IH]; intros tr; cbn [Cluster_Start]; unfold bind.
  { exists None, [], []. by rewrite app_nil_r. }
  destruct (Node_Start_runs n tr Hn) as [(e & n' & -> & Hn')|(pid & n' & evs & -> & Hn' & Hevs)].
  - exists (Some e), (n' :: ns), []. rewrite app_nil_r. split; [done|]. split; [done|]. simpl.
    rewrite Hn'. clear IH. induction Hns as [|n1 ns H1 Hns IHn]; [done|]. simpl. by rewrite H1.
  - unfold os. destruct (IH ((tr ++ evs) ++ [OsSleep 1])) as (err & ns' & evs' & -> & Hl & He).
    exists err, (n' :: ns'), (evs ++ OsSleep 1 :: evs').
    rewrite omap_app, Hevs. csimpl. rewrite Hn', He. split; [by rewrite <- !app_assoc|].
    split; [|done]. intros Herr. by rewrite Hl.
Qed.

(** A node that has been started once cannot be started again, not even after
    it has been stopped: its command is used up. *)
Theorem chaos_no_restart n tr :
  is_Some (process n) → ∃ n', Node_Start n tr = (inr (Some "exec: already started", n'), tr).
Proof.
  intros [pid Hp]. unfold process in Hp. destruct (cmd n) as [c|] eqn:Hc; [|done]. simpl in Hp.
  unfold Node_Start, Cmd_Start, bind. rewrite Hc. cbn [default from_option id Process]. rewrite Hp. by eexists.
Qed.
End chaos.
End Chaos.

(** ** The theorems at concrete inputs *)

Section concrete.
Import Chaos.

(** Processes are numbered by the events before them. *)
#[local] Instance OS0 : OS := {|
  Environ := ["PATH=/bin"; "BADIS_PORT=:1"];
  fork tr _ _ := inr (Z.of_nat (length tr));
|}.

Definition node_1 : Chaos.Node := new_node "/tmp/x" 1.

Lemma chaos_settings_witness :
  let H := host_with (env_lookup (node_env node_1)) None in
  listen_port (H := H) = ":29380" ∧ dbPath (H := H) = "/tmp/x/data-1"
  ∧ joinURL (H := H) "127.0.0.1:30946"
    = "http://127.0.0.1:31400/join?id=node-1&addr=127.0.0.1:31301".
Proof.
  destruct (chaos_settings 3 "/tmp/x" 1 node_1 (H := host_with (env_lookup (node_env node_1)) None))
    as (_ & Hp & _ & _ & _ & _ & Hd & _ & Hj).
  - reflexivity.
  - intros key. reflexivity.
  - split; [exact Hp|]. split; [exact Hd|]. destruct Hj as [Hj Hu]; [discriminate|].
    rewrite (Hu "127.0.0.1:30946"); [reflexivity|]. rewrite Hj. reflexivity.
Defined.

(** Three nodes are started and killed; the first cannot be started again. *)
Theorem chaos_run :
  match Cluster_Start (NewCluster 3 "/tmp/x") [] with
  | (inr (None, ns), tr) =>
      omap started tr = [0; 3; 6]
      ∧ (Cluster_Stop ns []).2 = [OsKill 0; OsWait 0; OsKill 3; OsWait 3; OsKill 6; OsWait 6]
      ∧ match ns with
        | n :: _ => match (Node_Start n []).1 with
                    | inr (err, _) => err = Some "exec: already started"
                    | inl _ => False
                    end
        | [] => False
        end
  | _ => False
  end.
Proof. vm_compute. done. Qed.

(** When the tests run with BADIS_JOIN set, the first node joins instead of
    forming a shard, and so none is formed. *)
Theorem chaos_inherits_join :
  let O := {| Environ := ["BADIS_JOIN=10.0.0.1:7946"]; fork _ _ _ := inl "" |} in
  joinList (H := host_with (env_lookup (node_env (O := O) (new_node "/tmp/x" 0))) None)
  = ["10.0.0.1:7946"].
Proof. vm_compute. reflexivity. Qed.

(** With 101 nodes, the last one's Raft port is the first one's admin port. *)
Theorem chaos_101 :
  let ns := NewCluster 101 "/tmp/x" in
  (n ← ns !! 100%nat; Some (RaftPort n)) = (n ← ns !! 0%nat; Some (RaftPort n + 100)).
Proof. vm_compute. reflexivity. Qed.
End concrete.
